(** * cms-string: a shallow embedding of the buffer-oriented string engine

    The definitions below follow [cmsStringUtil.cpp] (namespace [cms::string]
    and the file-local helpers in its anonymous namespace) function by
    function.

    Modelling conventions.
    - A byte ([char], [unsigned char]) is a [Z]; text literals are turned
      into byte lists by [bytes].
    - A [size_t] (length, index, capacity) is a [nat].  Buffers are far
      smaller than the address space ([cms::String<N>] asserts [N <= 1024]),
      so sums of sizes do not wrap; the one subtraction that can wrap on an
      input the functions accept, [maxLen - 1] at [maxLen = 0], is written
      out as [size_sub].
    - [long], [unsigned long] and [int] values are [Z] with the two's
      complement wrap-around written out ([to_signed], [to_unsigned]); the
      width of [long] is a parameter ([bits]): 32 on the ESP32/Arduino
      target, 64 on an LP64 host.
    - A writable buffer ([char* buffer]) is the list of the bytes of the
      whole array, terminator and stale bytes behind it included; its length
      is the physical size of the array.  Functions that touch it live in
      the [option] monad: [None] is an access outside the array (undefined
      behaviour in C) or, for the loops run with fuel, a loop that did not
      finish within its fuel.
    - A read-only C string ([const char* src]) is the list of its bytes
      before the terminator; reading one past its end yields the terminator
      ([cget]).
    - A pointer that the source tests against [nullptr] is a [ptr].       *)

From Stdlib Require Import ZArith Lia List String Ascii Bool QArith.
From stdpp Require Import base tactics option list numbers.

#[local] Open Scope nat_scope.
#[local] Open Scope list_scope.

(** ** Bytes, pointers, sizes *)

Definition byte_of_ascii (c : ascii) : Z := Z.of_N (N_of_ascii c).

Fixpoint bytes (s : string) : list Z :=
  match s with
  | EmptyString => []
  | String c s' => byte_of_ascii c :: bytes s'
  end.

Inductive ptr (A : Type) : Type :=
| Null : ptr A
| Ptr : A -> ptr A.
Arguments Null {A}.
Arguments Ptr {A} _.

(** [SIZE_BITS]: the width of [size_t]; only [size_sub] looks at it. *)
Definition SIZE_BITS : nat := 32.

(** [a - b] on [size_t]. *)
Definition size_sub (a b : nat) : nat :=
  if b <=? a then a - b else 2 ^ SIZE_BITS - (b - a).

Definition to_unsigned (bits x : Z) : Z := (x mod 2 ^ bits)%Z.

Definition to_signed (bits x : Z) : Z :=
  ((x + 2 ^ (bits - 1)) mod 2 ^ bits - 2 ^ (bits - 1))%Z.

(** ** Memory accesses *)

Definition load (buf : list Z) (i : nat) : option Z := buf !! i.

Definition store {A : Type} (buf : list A) (i : nat) (v : A) : option (list A) :=
  if decide (i < length buf) then Some (<[i := v]> buf) else None.

(** [--idx] on a [size_t] used as an index: below zero it wraps to an index
    outside every array. *)
Definition dec (i : nat) : option nat :=
  match i with
  | 0 => None
  | S j => Some j
  end.

(** [memcpy(dst + off, src, n)]: [src] and [dst] are distinct objects. *)
Definition memcpy (dst : list Z) (off : nat) (src : list Z) (n : nat) : option (list Z) :=
  if decide (off + n <= length dst /\ n <= length src)
  then Some (take off dst ++ take n src ++ drop (off + n) dst)
  else None.

(** [memmove(buf + to, buf + from, n)] inside one array. *)
Definition memmove (buf : list Z) (to from n : nat) : option (list Z) :=
  if decide (to + n <= length buf /\ from + n <= length buf)
  then Some (take to buf ++ take n (drop from buf) ++ drop (to + n) buf)
  else None.

(** [str[i]] for a read-only C string. *)
Definition cget (s : list Z) (i : nat) : Z := default 0%Z (s !! i).

(** [strlen] of the C string that starts at [off] inside a buffer; [None]
    when no terminator follows. *)
Fixpoint strlen_from (buf : list Z) (off : nat) : option nat :=
  match off, buf with
  | 0, [] => None
  | 0, b :: buf' => if (b =? 0)%Z then Some 0 else S <$> strlen_from buf' 0
  | S off', [] => None
  | S off', _ :: buf' => strlen_from buf' off'
  end.

(** The C string that starts at [off] inside a buffer. *)
Definition cstr_at (buf : list Z) (off : nat) : option (list Z) :=
  n ← strlen_from buf off; Some (take n (drop off buf)).

(** ** Format engine: append and the integer conversions *)

(** [append], cmsStringUtil.cpp. *)
Definition append (buffer : ptr (list Z)) (maxLen curLen : nat)
    (src : ptr (list Z)) (srcLen : nat) : option (ptr (list Z) * nat) :=
  match buffer, src with
  | Ptr buf, Ptr s =>
      if (srcLen =? 0) || (size_sub maxLen 1 <=? curLen) then Some (buffer, curLen)
      else
        let available := size_sub (size_sub maxLen 1) curLen in
        let toCopy := if srcLen <? available then srcLen else available in
        if 0 <? toCopy then
          buf1 ← memcpy buf curLen s toCopy;
          let curLen1 := curLen + toCopy in
          buf2 ← store buf1 curLen1 0%Z;
          Some (Ptr buf2, curLen1)
        else Some (buffer, curLen)
  | _, _ => Some (buffer, curLen)
  end.

Definition digitsTable : list Z :=
  bytes ("0001020304050607080910111213141516171819"
      ++ "2021222324252627282930313233343536373839"
      ++ "4041424344454647484950515253545556575859"
      ++ "6061626364656667686970717273747576777879"
      ++ "8081828384858687888990919293949596979899").

(** The branch table of [appendUIntInternal]. *)
Definition digitsCount10 (uval : Z) : Z :=
  (if uval <? 10 then 1
   else if uval <? 100 then 2
   else if uval <? 1000 then 3
   else if uval <? 10000 then 4
   else if uval <? 100000 then 5
   else if uval <? 1000000 then 6
   else if uval <? 10000000 then 7
   else if uval <? 100000000 then 8
   else if uval <? 1000000000 then 9
   else 10)%Z.

(** [while (v >= 100) { ... }] of [appendUIntInternal]: two digits per
    round, written right to left. *)
Fixpoint uint_pairs (fuel : nat) (buffer : list Z) (writeIdx : nat) (v : Z)
    : option (list Z * nat * Z) :=
  if (v <? 100)%Z then Some (buffer, writeIdx, v)
  else
    match fuel with
    | 0 => None
    | S fuel' =>
        let i := Z.to_nat (Z.shiftl (v mod 100) 1) in
        let v' := (v / 100)%Z in
        d1 ← digitsTable !! (i + 1);
        w1 ← dec writeIdx;
        b1 ← store buffer w1 d1;
        d0 ← digitsTable !! i;
        w2 ← dec w1;
        b2 ← store b1 w2 d0;
        uint_pairs fuel' b2 w2 v'
    end.

(** [while (writeIdx > startIdx) buffer[--writeIdx] = padChar;] *)
Fixpoint pad_loop (fuel : nat) (buffer : list Z) (writeIdx startIdx : nat) (padChar : Z)
    : option (list Z) :=
  if startIdx <? writeIdx then
    match fuel with
    | 0 => None
    | S fuel' =>
        w1 ← dec writeIdx;
        b1 ← store buffer w1 padChar;
        pad_loop fuel' b1 w1 startIdx padChar
    end
  else Some buffer.

(** [appendUIntInternal], cmsStringUtil.cpp (anonymous namespace). *)
Definition appendUIntInternal (buffer : list Z) (maxLen curLen : nat) (uval width padChar : Z)
    : option (list Z * nat) :=
  let digitsCount := digitsCount10 uval in
  let totalLen := if (width <? digitsCount)%Z then digitsCount else width in
  if maxLen <=? curLen + Z.to_nat totalLen then Some (buffer, curLen)
  else
    let startIdx := curLen in
    let writeIdx := curLen + Z.to_nat totalLen in
    b0 ← store buffer writeIdx 0%Z;
    '(b1, w1, v) ← uint_pairs (S (Z.to_nat (Z.log2 uval))) b0 writeIdx uval;
    '(b2, w2) ←
      (if (10 <=? v)%Z then
         let i := Z.to_nat (Z.shiftl v 1) in
         d1 ← digitsTable !! (i + 1);
         w ← dec w1;
         b ← store b1 w d1;
         d0 ← digitsTable !! i;
         w' ← dec w;
         b' ← store b w' d0;
         Some (b', w')
       else
         w ← dec w1;
         b ← store b1 w (v + 48)%Z;
         Some (b, w));
    b3 ← pad_loop (w2 - startIdx) b2 w2 startIdx padChar;
    Some (b3, writeIdx).




(** [appendInt], cmsStringUtil.cpp; [bits] is the width of [long]. *)
Definition appendInt (bits : Z) (buffer : list Z) (maxLen curLen : nat)
    (val width padChar : Z) : option (list Z * nat) :=
  if size_sub maxLen 1 <=? curLen then Some (buffer, curLen)
  else if (val <? 0)%Z then
    b1 ← store buffer curLen 45%Z;
    let curLen1 := curLen + 1 in
    let uval :=
      to_unsigned bits (to_unsigned bits (to_signed bits (- to_signed bits (val + 1))) + 1) in
    appendUIntInternal b1 maxLen curLen1 uval (if (0 <? width)%Z then width - 1 else 0)%Z padChar
  else
    let uval := to_unsigned bits val in
    appendUIntInternal buffer maxLen curLen uval width padChar.

(** ** UTF-8 codec *)

(** [(b & 0xC0) == 0x80]: a continuation byte. *)
Definition is_cont (b : Z) : bool := (Z.land b 192 =? 128)%Z.

(** One round of the [while ( *bytes )] loop of [validateUtf8]: [None] for
    [return false], [Some k] for [bytes += k]. *)
Definition validate_step (b0 b1 b2 b3 : Z) : option nat :=
  if (b0 <=? 127)%Z then Some 1
  else if (194 <=? b0)%Z && (b0 <=? 223)%Z then
    if negb (is_cont b1) then None else Some 2
  else if (b0 =? 224)%Z then
    if (b1 <? 160)%Z || (191 <? b1)%Z || negb (is_cont b2) then None else Some 3
  else if (225 <=? b0)%Z && (b0 <=? 236)%Z then
    if negb (is_cont b1) || negb (is_cont b2) then None else Some 3
  else if (b0 =? 237)%Z then
    if (b1 <? 128)%Z || (159 <? b1)%Z || negb (is_cont b2) then None else Some 3
  else if (238 <=? b0)%Z && (b0 <=? 239)%Z then
    if negb (is_cont b1) || negb (is_cont b2) then None else Some 3
  else if (b0 =? 240)%Z then
    if (b1 <? 144)%Z || (191 <? b1)%Z || negb (is_cont b2) || negb (is_cont b3) then None
    else Some 4
  else if (241 <=? b0)%Z && (b0 <=? 243)%Z then
    if negb (is_cont b1) || negb (is_cont b2) || negb (is_cont b3) then None else Some 4
  else if (b0 =? 244)%Z then
    if (b1 <? 128)%Z || (143 <? b1)%Z || negb (is_cont b2) || negb (is_cont b3) then None
    else Some 4
  else None.

(** The loop of [validateUtf8] from byte offset [i]; the outer [None] is
    fuel running out. *)
Fixpoint validate_loop (fuel : nat) (s : list Z) (i : nat) : option bool :=
  if (cget s i =? 0)%Z then Some true
  else
    match fuel with
    | 0 => None
    | S fuel' =>
        match validate_step (cget s i) (cget s (i + 1)) (cget s (i + 2)) (cget s (i + 3)) with
        | None => Some false
        | Some k => validate_loop fuel' s (i + k)
        end
    end.

(** [validateUtf8], cmsStringUtil.cpp. *)
Definition validateUtf8 (str : ptr (list Z)) : option bool :=
  match str with
  | Null => Some false
  | Ptr s => validate_loop (length s) s 0
  end.

(** U+FFFD, the replacement marker of [sanitizeUtf8]. *)
Definition replacement : list Z := [239; 191; 189]%Z.
Definition replLen : nat := 3.

(** What one round of the loop of [sanitizeUtf8] does: go on with the
    buffer and the two cursors, or [break]. *)
Inductive round : Type :=
| Continue (buf : list Z) (src dst : nat)
| Break.

(** [src[1] && ... && src[n]], left to right: the bytes from [i] on are
    read until one is the terminator. *)
Fixpoint nonzero_run (buf : list Z) (i n : nat) : option bool :=
  match n with
  | 0 => Some true
  | S n' =>
      b ← load buf i;
      if (b =? 0)%Z then Some false else nonzero_run buf (S i) n'
  end.

(** [*dst++ = *src++;] repeated [n] times inside one buffer. *)
Fixpoint copy_up (n : nat) (buf : list Z) (src dst : nat) : option (list Z * nat * nat) :=
  match n with
  | 0 => Some (buf, src, dst)
  | S n' =>
      b ← load buf src;
      buf1 ← store buf dst b;
      copy_up n' buf1 (S src) (S dst)
  end.

(** The branch taken for a well-formed sequence of [n] bytes ([n >= 2]):
    [if (dst + n >= maxLen) break;] and the copy. *)
Definition keep_seq (n : nat) (buf : list Z) (src dst maxLen : nat) : option round :=
  if maxLen <=? dst + n then Some Break
  else '(buf1, src1, dst1) ← copy_up n buf src dst; Some (Continue buf1 src1 dst1).

(** The branch taken for a byte that starts no well-formed sequence: the
    marker, or ['?'] when the marker does not fit, or [break]. *)
Definition put_replacement (buf : list Z) (src dst maxLen : nat) : option round :=
  if dst + replLen <? maxLen then
    buf1 ← memcpy buf dst replacement replLen;
    Some (Continue buf1 (src + 1) (dst + replLen))
  else if dst <? maxLen - 1 then
    buf1 ← store buf dst 63%Z;
    Some (Continue buf1 (src + 1) (dst + 1))
  else Some Break.

(** One round of [while ( *src )] in [sanitizeUtf8]; [maxLen] is not zero here. *)
Definition sanitize_round (buf : list Z) (src dst maxLen : nat) : option round :=
  b0 ← load buf src;
  let b1 := cget buf (src + 1) in
  let b2 := cget buf (src + 2) in
  let b3 := cget buf (src + 3) in
  if (b0 <=? 127)%Z then
    if maxLen - 1 <=? dst then Some Break
    else '(buf1, src1, dst1) ← copy_up 1 buf src dst; Some (Continue buf1 src1 dst1)
  else if (194 <=? b0)%Z && (b0 <=? 223)%Z then
    nz ← nonzero_run buf (src + 1) 1;
    if nz && is_cont b1 then keep_seq 2 buf src dst maxLen
    else put_replacement buf src dst maxLen
  else if (b0 =? 224)%Z then
    nz ← nonzero_run buf (src + 1) 2;
    if nz && (160 <=? b1)%Z && (b1 <=? 191)%Z && is_cont b2 then keep_seq 3 buf src dst maxLen
    else put_replacement buf src dst maxLen
  else if (225 <=? b0)%Z && (b0 <=? 236)%Z then
    nz ← nonzero_run buf (src + 1) 2;
    if nz && is_cont b1 && is_cont b2 then keep_seq 3 buf src dst maxLen
    else put_replacement buf src dst maxLen
  else if (b0 =? 237)%Z then
    nz ← nonzero_run buf (src + 1) 2;
    if nz && (128 <=? b1)%Z && (b1 <=? 159)%Z && is_cont b2 then keep_seq 3 buf src dst maxLen
    else put_replacement buf src dst maxLen
  else if (238 <=? b0)%Z && (b0 <=? 239)%Z then
    nz ← nonzero_run buf (src + 1) 2;
    if nz && is_cont b1 && is_cont b2 then keep_seq 3 buf src dst maxLen
    else put_replacement buf src dst maxLen
  else if (b0 =? 240)%Z then
    nz ← nonzero_run buf (src + 1) 3;
    if nz && (144 <=? b1)%Z && (b1 <=? 191)%Z && is_cont b2 && is_cont b3
    then keep_seq 4 buf src dst maxLen
    else put_replacement buf src dst maxLen
  else if (241 <=? b0)%Z && (b0 <=? 243)%Z then
    nz ← nonzero_run buf (src + 1) 3;
    if nz && is_cont b1 && is_cont b2 && is_cont b3 then keep_seq 4 buf src dst maxLen
    else put_replacement buf src dst maxLen
  else if (b0 =? 244)%Z then
    nz ← nonzero_run buf (src + 1) 3;
    if nz && (128 <=? b1)%Z && (b1 <=? 143)%Z && is_cont b2 && is_cont b3
    then keep_seq 4 buf src dst maxLen
    else put_replacement buf src dst maxLen
  else put_replacement buf src dst maxLen.

(** [while ( *src ) { ... }]: the buffer and [dst] when the loop is left. *)
Fixpoint sanitize_loop (fuel : nat) (buf : list Z) (src dst maxLen : nat)
    : option (list Z * nat) :=
  b0 ← load buf src;
  if (b0 =? 0)%Z then Some (buf, dst)
  else
    match fuel with
    | 0 => None
    | S fuel' =>
        r ← sanitize_round buf src dst maxLen;
        match r with
        | Break => Some (buf, dst)
        | Continue buf1 src1 dst1 => sanitize_loop fuel' buf1 src1 dst1 maxLen
        end
    end.

(** [sanitizeUtf8], cmsStringUtil.cpp: the buffer is rewritten in place,
    [src] and [dst] walk the same array. *)
Definition sanitizeUtf8 (str : ptr (list Z)) (maxLen : nat) : option (ptr (list Z) * nat) :=
  match str with
  | Null => Some (Null, 0)
  | Ptr buf =>
      if maxLen =? 0 then Some (str, 0)
      else
        '(buf1, dst) ← sanitize_loop maxLen buf 0 0 maxLen;
        let finalLen := dst in
        if finalLen <? maxLen then
          buf2 ← store buf1 dst 0%Z; Some (Ptr buf2, finalLen)
        else
          let finalLen := maxLen - 1 in
          buf2 ← store buf1 finalLen 0%Z; Some (Ptr buf2, finalLen)
  end.

(** ** Split/Token layer *)

(** [cms::string::Token]: a view (pointer, length); the pointer is the
    byte offset into the string the token was cut from. *)
Record Token : Type := mkToken { tok_ptr : nat; tok_len : nat }.

(** The loop of the destructive [split]: [p] scans the buffer, [count]
    entries of [tokens] are filled. *)
Fixpoint split_loop (fuel : nat) (str : list Z) (delimiter : Z) (tokens : list nat)
    (maxTokens count p : nat) : option (list Z * list nat * nat) :=
  c ← load str p;
  if (c =? 0)%Z then Some (str, tokens, count)
  else
    match fuel with
    | 0 => None
    | S fuel' =>
        if (c =? delimiter)%Z then
          if count <? maxTokens then
            str1 ← store str p 0%Z;
            tokens1 ← store tokens count (p + 1);
            split_loop fuel' str1 delimiter tokens1 maxTokens (count + 1) (p + 1)
          else Some (str, tokens, count)
        else split_loop fuel' str delimiter tokens maxTokens count (p + 1)
    end.

(** [split(char* str, char delimiter, char** tokens, size_t maxTokens)],
    the destructive form; a token pointer is an offset into [str]. *)
Definition split (str : ptr (list Z)) (delimiter : Z) (tokens : ptr (list nat))
    (maxTokens : nat) : option (ptr (list Z) * ptr (list nat) * nat) :=
  match str, tokens with
  | Ptr buf, Ptr toks =>
      if maxTokens =? 0 then Some (str, tokens, 0)
      else
        let count := 0 in
        toks1 ← store toks count 0;
        let count := count + 1 in
        '(buf1, toks2, count1) ← split_loop (length buf) buf delimiter toks1 maxTokens count 0;
        Some (Ptr buf1, Ptr toks2, count1)
  | _, _ => Some (str, tokens, 0)
  end.

(** The loop of the non-destructive [split]. *)
Fixpoint split_view_loop (fuel : nat) (str : list Z) (delimiter : Z) (tokens : list Token)
    (maxTokens count start p : nat) : option (list Token * nat * nat * nat) :=
  let c := cget str p in
  if (c =? 0)%Z then Some (tokens, count, start, p)
  else
    match fuel with
    | 0 => None
    | S fuel' =>
        if (c =? delimiter)%Z then
          if count <? size_sub maxTokens 1 then
            tokens1 ← store tokens count (mkToken start (p - start));
            split_view_loop fuel' str delimiter tokens1 maxTokens (count + 1) (p + 1) (p + 1)
          else Some (tokens, count, start, p)
        else split_view_loop fuel' str delimiter tokens maxTokens count start (p + 1)
    end.

(** [split(const char* str, char delimiter, Token* tokens, size_t maxTokens)],
    the non-destructive form. *)
Definition split_view (str : ptr (list Z)) (delimiter : Z) (tokens : ptr (list Token))
    (maxTokens : nat) : option (ptr (list Token) * nat) :=
  match str, tokens with
  | Ptr s, Ptr toks =>
      if maxTokens =? 0 then Some (tokens, 0)
      else
        '(toks1, count, start, p) ← split_view_loop (length s) s delimiter toks maxTokens 0 0 0;
        toks2 ← store toks1 count (mkToken start (p - start));
        Some (Ptr toks2, count + 1)
  | _, _ => Some (tokens, 0)
  end.

(** The text a token views. *)
Definition token_text (str : list Z) (t : Token) : list Z :=
  take (tok_len t) (drop (tok_ptr t) str).

(** ** The C library functions the engine calls *)

(** [strlen] of a read-only C string. *)
Fixpoint strlen (s : list Z) : nat :=
  match s with
  | [] => 0
  | b :: s' => if (b =? 0)%Z then 0 else S (strlen s')
  end.

(** Does [n] (up to its terminator) begin [h]? *)
Fixpoint starts_with (h n : list Z) : bool :=
  match n with
  | [] => true
  | c :: n' =>
      if (c =? 0)%Z then true
      else
        match h with
        | [] => false
        | b :: h' => if (b =? 0)%Z then false else (b =? c)%Z && starts_with h' n'
        end
  end.

(** [strstr] of the C library: the offset of the first occurrence of
    [needle] in [haystack], [Null] when there is none. *)
Fixpoint strstr (haystack needle : list Z) : ptr nat :=
  if starts_with haystack needle then Ptr 0
  else
    match haystack with
    | [] => Null
    | b :: h' =>
        if (b =? 0)%Z then Null
        else match strstr h' needle with
             | Ptr i => Ptr (S i)
             | Null => Null
             end
    end.

(** [strchr] of the C library; the terminator counts as part of the string. *)
Fixpoint strchr (s : list Z) (c : Z) : ptr nat :=
  match s with
  | [] => if (c =? 0)%Z then Ptr 0 else Null
  | b :: s' =>
      if (b =? c)%Z then Ptr 0
      else if (b =? 0)%Z then Null
      else match strchr s' c with
           | Ptr i => Ptr (S i)
           | Null => Null
           end
  end.

(** ** Pattern engine *)

(** [size_t] from an [int16_t] (the entries of the failure table). *)
Definition size_of_int16 (v : Z) : nat := Z.to_nat (to_unsigned (Z.of_nat SIZE_BITS) v).

Section PatternEngine.

(** The per-byte classifiers of [cmsStringUtil.h], which is not among the
    sources: they are parameters of everything that calls them. *)
Variable toLower : Z -> Z.
Variable isSpace : Z -> bool.
Variable isDigit : Z -> bool.

(** [toLower(a) == toLower(b)] *)
Definition eq_fold (a b : Z) : bool := (toLower a =? toLower b)%Z.

(** The loop of [computeLPS]. *)
Fixpoint computeLPS_loop (fuel : nat) (pat : list Z) (m : nat) (lps : list Z) (len i : nat)
    : option (list Z) :=
  if i <? m then
    match fuel with
    | 0 => None
    | S fuel' =>
        if eq_fold (cget pat i) (cget pat len) then
          let len1 := len + 1 in
          lps1 ← store lps i (to_signed 16 (Z.of_nat len1));
          computeLPS_loop fuel' pat m lps1 len1 (i + 1)
        else if negb (len =? 0) then
          v ← load lps (len - 1);
          computeLPS_loop fuel' pat m lps (size_of_int16 v) i
        else
          lps1 ← store lps i 0%Z;
          computeLPS_loop fuel' pat m lps1 len (i + 1)
    end
  else Some lps.

(** [computeLPS], cmsStringUtil.cpp (anonymous namespace). *)
Definition computeLPS (pat : list Z) (m : nat) (lps : list Z) : option (list Z) :=
  lps0 ← store lps 0 0%Z;
  computeLPS_loop (2 * m) pat m lps0 0 1.

(** The scan [while (haystack[i]) { ... }] of the KMP branch. *)
Fixpoint kmp_scan (fuel : nat) (haystack needle : list Z) (m : nat) (lps : list Z) (i j : nat)
    : option (ptr nat) :=
  if (cget haystack i =? 0)%Z then Some Null
  else
    match fuel with
    | 0 => None
    | S fuel' =>
        let '(i1, j1) :=
          if eq_fold (cget haystack i) (cget needle j) then (i + 1, j + 1) else (i, j) in
        if j1 =? m then Some (Ptr (i1 - m))
        else if negb (cget haystack i1 =? 0)%Z
                && negb (eq_fold (cget haystack i1) (cget needle j1)) then
          if negb (j1 =? 0) then
            v ← load lps (j1 - 1);
            kmp_scan fuel' haystack needle m lps i1 (size_of_int16 v)
          else kmp_scan fuel' haystack needle m lps (i1 + 1) j1
        else kmp_scan fuel' haystack needle m lps i1 j1
    end.

(** The branch [if (m <= 64)] of [strcasestr]: the failure table on the
    stack, then the scan. *)
Definition strcasestr_kmp (haystack needle : list Z) (m : nat) : option (ptr nat) :=
  lps ← computeLPS needle m (replicate 64 0%Z);
  kmp_scan (2 * length haystack + 1) haystack needle m lps 0 0.

(** [while ( *h && *n && toLower( *h ) == toLower( *n )) { h++; n++; }]
    followed by [!*n]. *)
Fixpoint naive_tail (fuel : nat) (haystack needle : list Z) (h n : nat) : option bool :=
  if negb (cget haystack h =? 0)%Z && negb (cget needle n =? 0)%Z
     && eq_fold (cget haystack h) (cget needle n) then
    match fuel with
    | 0 => None
    | S fuel' => naive_tail fuel' haystack needle (h + 1) (n + 1)
    end
  else Some (cget needle n =? 0)%Z.

(** [for (; *haystack; haystack++) { ... }] of the naive branch. *)
Fixpoint naive_scan (fuel : nat) (haystack needle : list Z) (first : Z) (pos : nat)
    : option (ptr nat) :=
  if (cget haystack pos =? 0)%Z then Some Null
  else
    match fuel with
    | 0 => None
    | S fuel' =>
        if (toLower (cget haystack pos) =? first)%Z then
          match naive_tail (length needle) haystack needle (pos + 1) 1 with
          | None => None
          | Some true => Some (Ptr pos)
          | Some false => naive_scan fuel' haystack needle first (pos + 1)
          end
        else naive_scan fuel' haystack needle first (pos + 1)
    end.

(** The [else] branch of [strcasestr]: the first-byte-filtered scan.
    [char first] keeps the folded first byte of the needle; the comparison
    [toLower(...) == first] is taken on the folded values. *)
Definition strcasestr_naive (haystack needle : list Z) : option (ptr nat) :=
  let first := toLower (cget needle 0) in
  naive_scan (length haystack) haystack needle first 0.

(** [strcasestr], cmsStringUtil.cpp; the result is an offset into
    [haystack]. *)
Definition strcasestr (haystack needle : list Z) : option (ptr nat) :=
  if (cget needle 0 =? 0)%Z then Some (Ptr 0)
  else
    let m := strlen needle in
    if m <=? 64 then strcasestr_kmp haystack needle m
    else strcasestr_naive haystack needle.

(** The two loops of [findUtf8CharStart]. *)
Fixpoint skip_chars (fuel : nat) (str : list Z) (charIdx p count : nat) : option nat :=
  if negb (cget str p =? 0)%Z && (count <? charIdx) then
    match fuel with
    | 0 => None
    | S fuel' =>
        let count1 := if negb (is_cont (cget str p)) then count + 1 else count in
        skip_chars fuel' str charIdx (p + 1) count1
    end
  else Some p.

Fixpoint skip_conts (fuel : nat) (str : list Z) (p : nat) : option nat :=
  if negb (cget str p =? 0)%Z && is_cont (cget str p) then
    match fuel with
    | 0 => None
    | S fuel' => skip_conts fuel' str (p + 1)
    end
  else Some p.

(** [findUtf8CharStart], cmsStringUtil.cpp (anonymous namespace). *)
Definition findUtf8CharStart (str : ptr (list Z)) (charIdx : nat) : option (ptr nat) :=
  match str with
  | Null => Some Null
  | Ptr s =>
      p ← skip_chars (length s) s charIdx 0 0;
      p1 ← skip_conts (length s) s p;
      Some (Ptr p1)
  end.

(** [for (p = startPtr; p < foundPtr; ++p) if (( *p & 0xC0) != 0x80) charOffset++;] *)
Definition count_chars (str : list Z) (from to : nat) : nat :=
  length (filter (fun b => negb (is_cont b) = true) (take (to - from) (drop from str))).

(** [find] with explicit lengths, cmsStringUtil.cpp. *)
Definition find_len (str : ptr (list Z)) (strLen : nat) (target : ptr (list Z))
    (targetLen startChar : nat) (ignoreCase : bool) : option Z :=
  match str, target with
  | Ptr s, Ptr t =>
      if (targetLen =? 0) || (strLen <? targetLen) then Some (-1)%Z
      else
        sp ← findUtf8CharStart str startChar;
        match sp with
        | Null => Some (-1)%Z
        | Ptr startPtr =>
            if (cget s startPtr =? 0)%Z then Some (-1)%Z
            else
              fp ← (if ignoreCase then strcasestr (drop startPtr s) t
                    else Some (strstr (drop startPtr s) t));
              match fp with
              | Null => Some (-1)%Z
              | Ptr off =>
                  let foundPtr := startPtr + off in
                  let charOffset := count_chars s startPtr foundPtr in
                  Some (to_signed 32 (Z.of_nat (startChar + charOffset)))
              end
        end
  | _, _ => Some (-1)%Z
  end.

(** [find], cmsStringUtil.cpp. *)
Definition find (str target : ptr (list Z)) (startChar : nat) (ignoreCase : bool) : option Z :=
  match str, target with
  | Ptr s, Ptr t => find_len str (strlen s) target (strlen t) startChar ignoreCase
  | _, _ => Some (-1)%Z
  end.

(** [contains] with explicit lengths, cmsStringUtil.cpp. *)
Definition contains_len (str : ptr (list Z)) (strLen : nat) (target : ptr (list Z))
    (targetLen : nat) (ignoreCase : bool) : option bool :=
  match str, target with
  | Ptr s, Ptr t =>
      if strLen <? targetLen then Some false
      else if targetLen =? 0 then Some true
      else
        fp ← (if ignoreCase then strcasestr s t else Some (strstr s t));
        Some (match fp with Null => false | Ptr _ => true end)
  | _, _ => Some false
  end.

(** [contains], cmsStringUtil.cpp. *)
Definition contains (str target : ptr (list Z)) (ignoreCase : bool) : option bool :=
  match str, target with
  | Ptr s, Ptr t => contains_len str (strlen s) target (strlen t) ignoreCase
  | _, _ => Some false
  end.

(** [while (i < len && isSpace(str[i])) i++;] *)
Fixpoint skip_space (fuel : nat) (str : list Z) (len i : nat) : nat :=
  match fuel with
  | 0 => i
  | S fuel' => if (i <? len) && isSpace (cget str i) then skip_space fuel' str len (i + 1) else i
  end.

(** The digit loop of [toInt]; [val] is a [long long]. *)
Fixpoint toInt_digits (fuel : nat) (str : list Z) (len i : nat) (val : Z) : Z :=
  match fuel with
  | 0 => val
  | S fuel' =>
      if (i <? len) && isDigit (cget str i) then
        let c := cget str i in
        toInt_digits fuel' str len (i + 1) (to_signed 64 (val * 10 + (c - 48)))
      else val
  end.

(** [toInt] with an explicit length, cmsStringUtil.cpp. *)
Definition toInt_len (str : ptr (list Z)) (len : nat) : Z :=
  match str with
  | Null => 0%Z
  | Ptr s =>
      if len =? 0 then 0%Z
      else
        let i := skip_space len s len 0 in
        if i =? len then 0%Z
        else
          let '(sign, i1) :=
            if (cget s i =? 45)%Z then ((-1)%Z, i + 1)
            else if (cget s i =? 43)%Z then (1%Z, i + 1)
            else (1%Z, i) in
          let val := toInt_digits len s len i1 0%Z in
          to_signed 32 (to_signed 64 (val * sign))
  end.

(** [toInt], cmsStringUtil.cpp. *)
Definition toInt (str : ptr (list Z)) : Z :=
  match str with
  | Null => 0%Z
  | Ptr s => if (cget s 0 =? 0)%Z then 0%Z else toInt_len str (strlen s)
  end.

End PatternEngine.

(** Modelled from the spec: the per-byte case folding that
    [cmsStringUtil.h] declares (the header is not among the sources); the
    spec has it fold case per byte and leave every byte outside the ASCII
    letters unchanged. *)
Definition ascii_toLower (c : Z) : Z :=
  if (65 <=? c)%Z && (c <=? 90)%Z then (c + 32)%Z else c.

(** Modelled from the spec: the whitespace/control classifier of
    [cmsStringUtil.h] (not among the sources): the space and the control
    bytes 9 to 13. *)
Definition ascii_isSpace (c : Z) : bool :=
  (c =? 32)%Z || ((9 <=? c)%Z && (c <=? 13)%Z).

(** Modelled from the spec: the decimal digit classifier of
    [cmsStringUtil.h] (not among the sources). *)
Definition ascii_isDigit (c : Z) : bool := (48 <=? c)%Z && (c <=? 57)%Z.

(** ** Mutation engine *)

(** [insert], cmsStringUtil.cpp. *)
Definition insert (buffer : ptr (list Z)) (maxLen curLen charIdx : nat) (src : ptr (list Z))
    : option (ptr (list Z) * nat) :=
  match buffer, src with
  | Ptr buf, Ptr s =>
      if (cget s 0 =? 0)%Z then Some (buffer, curLen)
      else
        text ← cstr_at buf 0;
        tp ← findUtf8CharStart (Ptr text) charIdx;
        match tp with
        | Null => None
        | Ptr byteOffset =>
            let srcLen := strlen s in
            let srcLen :=
              if maxLen <=? curLen + srcLen
              then (if curLen + 1 <? maxLen then maxLen - curLen - 1 else 0)
              else srcLen in
            if srcLen =? 0 then Some (buffer, curLen)
            else
              buf1 ← (if byteOffset <? curLen
                      then memmove buf (byteOffset + srcLen) byteOffset (curLen - byteOffset + 1)
                      else store buf (curLen + srcLen) 0%Z);
              buf2 ← memcpy buf1 byteOffset s srcLen;
              Some (Ptr buf2, curLen + srcLen)
        end
  | _, _ => Some (buffer, curLen)
  end.

Section Replace.

Variable toLower : Z -> Z.

(** [while (true) { ... }] of [replace]: the buffer, [currentLen] and
    [truncated] when the loop is left. *)
Fixpoint replace_loop (fuel : nat) (str : list Z) (maxLen : nat) (from to : list Z)
    (fromLen toLen : nat) (ignoreCase : bool) (currentLen p : nat)
    : option (list Z * nat * bool) :=
  match fuel with
  | 0 => None
  | S fuel' =>
      text ← cstr_at str p;
      fp ← (if ignoreCase then strcasestr toLower text from
            else Some (if fromLen =? 1 then strchr text (cget from 0) else strstr text from));
      match fp with
      | Null => Some (str, currentLen, false)
      | Ptr off =>
          let p1 := p + off in
          if fromLen <? toLen then
            let diff := toLen - fromLen in
            if maxLen <=? currentLen + diff then Some (str, currentLen, true)
            else
              str1 ← memmove str (p1 + toLen) (p1 + fromLen)
                       (size_sub currentLen (p1 + fromLen) + 1);
              str2 ← memcpy str1 p1 to toLen;
              replace_loop fuel' str2 maxLen from to fromLen toLen ignoreCase
                (currentLen + diff) (p1 + toLen)
          else if toLen <? fromLen then
            let diff := fromLen - toLen in
            str1 ← memmove str (p1 + toLen) (p1 + fromLen)
                     (size_sub currentLen (p1 + fromLen) + 1);
            str2 ← memcpy str1 p1 to toLen;
            replace_loop fuel' str2 maxLen from to fromLen toLen ignoreCase
              (size_sub currentLen diff) (p1 + toLen)
          else
            str2 ← memcpy str p1 to toLen;
            replace_loop fuel' str2 maxLen from to fromLen toLen ignoreCase
              currentLen (p1 + toLen)
      end
  end.

(** [replace], cmsStringUtil.cpp. *)
Definition replace (str : ptr (list Z)) (maxLen curLen : nat) (from to : ptr (list Z))
    (ignoreCase : bool) : option (ptr (list Z) * nat) :=
  match str, from, to with
  | Ptr buf, Ptr f, Ptr t =>
      if (cget f 0 =? 0)%Z then Some (str, curLen)
      else
        let fromLen := strlen f in
        let toLen := strlen t in
        '(buf1, currentLen, truncated) ←
          replace_loop (S (length buf)) buf maxLen f t fromLen toLen ignoreCase curLen 0;
        if truncated : bool then sanitizeUtf8 (Ptr buf1) maxLen
        else Some (Ptr buf1, currentLen)
  | _, _, _ => Some (str, curLen)
  end.

End Replace.

(** ** Fixed buffer queries *)

(** Modelled from the spec: [StringBase::utilization] lives in
    [cmsStringBase.h], which is not among the sources.  The spec gives it
    as the length over the capacity as a percentage, and in its scenario
    counts the capacity without the byte reserved for the terminator. *)
Definition utilization (len N : nat) : Q :=
  (inject_Z (Z.of_nat len) / inject_Z (Z.of_nat (N - 1)) * 100)%Q.

(** ** Auxiliary definitions for the statements *)


(** The scenario of the spec: [append("Hello")] then [append(", World!")]
    on a buffer of capacity 16. *)
Definition hello_world (buffer : list Z) : option (ptr (list Z) * nat) :=
  '(b1, n1) ← append (Ptr buffer) 16 0 (Ptr (bytes "Hello")) 5;
  append b1 16 n1 (Ptr (bytes ", World!")) 8.

(** The decimal digits of [n], most significant first, as ASCII bytes
    (the reference the integer conversion is compared with). *)
Fixpoint dec_digits (fuel : nat) (n : Z) : list Z :=
  match fuel with
  | 0 => []
  | S fuel' =>
      if (n <? 10)%Z then [(n + 48)%Z]
      else dec_digits fuel' (n / 10) ++ [(n mod 10 + 48)%Z]
  end.

Definition decimal (n : Z) : list Z := dec_digits (S (Z.to_nat (Z.log2 n))) n.

(** One well-formed UTF-8 character, as a round of [validateUtf8] accepts
    it: no terminator inside, and the round advances by its length
    whatever follows. *)
Definition is_char (ch : list Z) : Prop :=
  Forall (fun b => b <> 0%Z) ch
  /\ forall tl : list Z,
       validate_step (cget (ch ++ tl) 0) (cget (ch ++ tl) 1)
                     (cget (ch ++ tl) 2) (cget (ch ++ tl) 3) = Some (length ch).

(** Valid UTF-8 text: a sequence of well-formed characters. *)
Inductive utf8 : list Z -> Prop :=
| utf8_nil : utf8 []
| utf8_cons (ch rest : list Z) : is_char ch -> utf8 rest -> utf8 (ch ++ rest).

(** What [sanitizeUtf8] emits for a byte it rejects. *)
Definition tok (t : list Z) : Prop := t = replacement \/ t = [63%Z].

(** The tail of a marker that [src] still has to read after [dst] jumped
    ahead. *)
Definition lag (X : list Z) : Prop := X = [] \/ X = [189%Z] \/ X = [191; 189]%Z.

(** The loop invariant of [sanitizeUtf8].  Either the cursors coincide and
    the terminator of the input is still ahead, or [dst] has run ahead of
    [src] and the bytes between them are the rest of a marker followed by
    emitted markers and ['?']s. *)
Inductive san_inv (maxLen : nat) (buf : list Z) (src dst : nat) : Prop :=
| san_sync (m : nat) :
    src = dst -> dst < maxLen -> maxLen <= length buf ->
    utf8 (take dst buf) -> strlen_from buf src = Some m ->
    san_inv maxLen buf src dst
| san_lag (pre X : list Z) (T : list (list Z)) (post : list Z) :
    buf = pre ++ (X ++ concat T) ++ post ->
    src = length pre -> dst = length pre + length (X ++ concat T) ->
    X ++ concat T <> [] -> lag X -> Forall tok T ->
    dst < maxLen -> maxLen <= length buf ->
    utf8 (pre ++ X ++ concat T) ->
    san_inv maxLen buf src dst.

(** What [nonzero_run] answers when every byte it reads is inside the
    buffer. *)
Fixpoint nzb (buf : list Z) (i n : nat) : bool :=
  match n with
  | 0 => true
  | S n' => negb (cget buf i =? 0)%Z && nzb buf (S i) n'
  end.

(** The reference for the case-insensitive search: where the folded needle
    occurs in the folded haystack. *)
Section MatchSpec.

Variable toLower : Z -> Z.
Variables haystack needle : list Z.

(** Two bytes are equal after folding. *)
Definition feq (a b : Z) : Prop := toLower a = toLower b.

(** The needle occurs at offset [p] of the haystack. *)
Definition occurs_at (p : nat) : Prop :=
  p + length needle <= length haystack
  /\ forall k : nat, k < length needle -> feq (cget haystack (p + k)) (cget needle k).

(** [r] is the first occurrence, or [Null] when there is none. *)
Definition first_occ (r : ptr nat) : Prop :=
  match r with
  | Ptr p => occurs_at p /\ forall p' : nat, p' < p -> ~ occurs_at p'
  | Null => forall p : nat, ~ occurs_at p
  end.

(** The first [j] bytes of the needle match the haystack just before [i]. *)
Definition suf (j i : nat) : Prop :=
  j <= i /\ i <= length haystack
  /\ forall k : nat, k < j -> feq (cget haystack (i - j + k)) (cget needle k).

(** The first [l] bytes of the needle are a proper border of its first [q]. *)
Definition bord (l q : nat) : Prop :=
  l < q /\ q <= length needle
  /\ forall k : nat, k < l -> feq (cget needle k) (cget needle (q - l + k)).

(** The first [q] entries of the failure table are right: entry [i] is the
    longest proper border of the first [i + 1] bytes. *)
Definition lps_upto (lps : list Z) (q : nat) : Prop :=
  forall i : nat, i < q ->
    exists l : nat,
      lps !! i = Some (Z.of_nat l) /\ bord l (i + 1)
      /\ forall l' : nat, bord l' (i + 1) -> l' <= l.

(** No longer border of the first [i] bytes can be extended by byte [i]. *)
Definition lps_dead (len i : nat) : Prop :=
  forall l' : nat, len < l' -> bord l' i -> i < length needle ->
    ~ feq (cget needle i) (cget needle l').

(** The invariant of the KMP scan at haystack index [i] and needle index [j]. *)
Definition kmp_inv (i j : nat) : Prop :=
  j < length needle /\ suf j i
  /\ (forall j' : nat, j < j' -> j' < length needle -> suf j' i -> i < length haystack ->
        ~ feq (cget haystack i) (cget needle j'))
  /\ (forall i' : nat, i' <= i -> ~ suf (length needle) i').

End MatchSpec.


(** The byte fold of a search: [toLower] when case is ignored. *)
Definition fold_of (toLower : Z -> Z) (ignoreCase : bool) : Z -> Z :=
  if ignoreCase then toLower else fun b => b.

(** The description of [replace] in the specification, on texts rather than
    on memory: the second side of the refinement of [replace]. *)
Section ReplaceSpec.

Variable fold : Z -> Z.
Variables from to : list Z.
(** The capacity: the longest text the buffer holds. *)
Variable cap : nat.

(** Does [pat] begin [text], byte by byte after folding? *)
Fixpoint prefix_fold (pat text : list Z) : bool :=
  match pat, text with
  | [], _ => true
  | c :: pat', b :: text' => (fold b =? fold c)%Z && prefix_fold pat' text'
  | _ :: _, [] => false
  end.

(** The text is read from left to right; [skip] bytes of an occurrence that
    has just been replaced are still to be passed over, [len] is the length
    of the whole text so far.  An occurrence is replaced by [to] unless
    [to] is longer and the text would outgrow the capacity: then the rest is
    kept as it is and the result is flagged as truncated. *)
Fixpoint replace_text (text : list Z) (skip len : nat) : list Z * bool :=
  match text with
  | [] => ([], false)
  | b :: text' =>
      match skip with
      | S k => replace_text text' k len
      | 0 =>
          if prefix_fold from text then
            if (length from <? length to) && (cap <? len + (length to - length from))
            then (text, true)
            else
              let '(out, truncated) :=
                replace_text text' (length from - 1) (len + length to - length from) in
              (to ++ out, truncated)
          else
            let '(out, truncated) := replace_text text' 0 len in
            (b :: out, truncated)
      end
  end.

End ReplaceSpec.

(** [replace] as the specification words it, for a buffer of [maxLen] bytes
    that holds the text [s]: the new text, and whether a replacement was
    refused for lack of room. *)
Definition replace_spec (toLower : Z -> Z) (s from to : list Z) (maxLen : nat)
    (ignoreCase : bool) : list Z * bool :=
  replace_text (fold_of toLower ignoreCase) from to (maxLen - 1) s 0 (length s).

(** ** cmsQueue.h: the fixed-size ring buffer [cms::Queue<T, N>] *)

(** [a % n] on [size_t]; the remainder by zero is undefined. *)
Definition size_mod (a n : nat) : option nat :=
  if n =? 0 then None else Some (a mod n).

Module Queue.
Section WithItem.

Context {T : Type}.
(** The template argument [N], the capacity. *)
Variable N : nat.

(** The members of [Queue<T, N>]; [_data] is the array [T _data[N]]. *)
Record t : Type := mk { _data : list T; _head : nat; _tail : nat; _count : nat }.

(** [Queue()]: the indices are reset, the array keeps whatever it held. *)
Definition init (data : list T) : t := mk data 0 0 0.

Definition isEmpty (q : t) : bool := _count q =? 0.
Definition isFull (q : t) : bool := _count q =? N.
Definition size (q : t) : nat := _count q.

(** [enqueue]: when the queue is full the head gives way first. *)
Definition enqueue (q : t) (item : T) : option t :=
  q1 ← (if isFull q
        then h ← size_mod (_head q + 1) N;
             Some (mk (_data q) h (_tail q) (size_sub (_count q) 1))
        else Some q);
  d ← store (_data q1) (_tail q1) item;
  tl ← size_mod (_tail q1 + 1) N;
  Some (mk d (_head q1) tl (_count q1 + 1)).

(** [pop]: the answer, [outItem] after the call, the queue after the call. *)
Definition pop (q : t) (outItem : T) : option (bool * T * t) :=
  if isEmpty q then Some (false, outItem, q)
  else
    item ← _data q !! _head q;
    h ← size_mod (_head q + 1) N;
    Some (true, item, mk (_data q) h (_tail q) (size_sub (_count q) 1)).

(** [getAt]: the answer and [outItem] after the call. *)
Definition getAt (q : t) (index : nat) (outItem : T) : option (bool * T) :=
  if _count q <=? index then Some (false, outItem)
  else
    pos ← size_mod (_head q + index) N;
    item ← _data q !! pos;
    Some (true, item).

(** The state a queue is in between calls. *)
Definition wf (q : t) : Prop :=
  length (_data q) = N /\ _head q < N /\ _count q <= N
  /\ _tail q = (_head q + _count q) mod N.

(** The items a queue holds, oldest first: [_count] cells of the array read
    from [_head] on, around the end of the array. *)
Definition contents (q : t) : list T :=
  take (_count q) (drop (_head q) (_data q) ++ take (_head q) (_data q)).

(** [enqueue] of each item of a list in turn. *)
Fixpoint enqueue_all (q : t) (items : list T) : option t :=
  match items with
  | [] => Some q
  | x :: items' => q1 ← enqueue q x; enqueue_all q1 items'
  end.

End WithItem.
Arguments t T : clear implicits.
End Queue.

(** ** UTF-8 aware measures *)

(** [while ( *p && *p < 0x80) { count++; p++; }] of [utf8_strlen]. *)
Fixpoint ascii_run (fuel : nat) (str : list Z) (p count : nat) : option (nat * nat) :=
  if negb (cget str p =? 0)%Z && (cget str p <? 128)%Z then
    match fuel with
    | 0 => None
    | S fuel' => ascii_run fuel' str (p + 1) (count + 1)
    end
  else Some (p, count).

(** [while ( *p ) { if (( *p & 0xC0) != 0x80) count++; p++; }] of [utf8_strlen]. *)
Fixpoint count_starts (fuel : nat) (str : list Z) (p count : nat) : option nat :=
  if negb (cget str p =? 0)%Z then
    match fuel with
    | 0 => None
    | S fuel' =>
        count_starts fuel' str (p + 1) (if negb (is_cont (cget str p)) then count + 1 else count)
    end
  else Some count.

(** [utf8_strlen], cmsStringUtil.cpp. *)
Definition utf8_strlen (str : ptr (list Z)) : option nat :=
  match str with
  | Null => Some 0
  | Ptr s =>
      '(p, count) ← ascii_run (length s) s 0 0;
      if (cget s p =? 0)%Z then Some count
      else count_starts (length s) s p count
  end.



(** The value of an [unsigned char]. *)
Definition is_byte (b : Z) : Prop := (0 <= b < 256)%Z.

(** A text cut into its characters: each piece is one well-formed UTF-8
    character made of byte values. *)
Definition chars (chs : list (list Z)) : Prop :=
  Forall (fun ch => is_char ch /\ Forall is_byte ch) chs.

(** The byte offset at which character [k] of a text begins (the length of
    the text when it has no more than [k] characters). *)
Definition char_offset (chs : list (list Z)) (k : nat) : nat :=
  length (concat (take k chs)).

(** How far the first loop of [findUtf8CharStart] gets on the text [s] when
    [n] first bytes of characters are still to be passed. *)
Fixpoint skip_starts (s : list Z) (n : nat) : nat :=
  match s, n with
  | [], _ => 0
  | _, 0 => 0
  | b :: t, S n' => S (skip_starts t (if is_cont b then S n' else n'))
  end.

(** The continuation bytes at the front of [s]: what the second loop of
    [findUtf8CharStart] passes. *)
Fixpoint cont_run (s : list Z) : nat :=
  match s with
  | [] => 0
  | b :: t => if is_cont b then S (cont_run t) else 0
  end.

(** ** Mutation engine: [remove], [substring], [byteSubstring] *)

(** [remove], cmsStringUtil.cpp. *)
Definition remove (buffer : ptr (list Z)) (curLen charIdx charCount : nat)
    : option (ptr (list Z) * nat) :=
  match buffer with
  | Null => Some (Null, 0)
  | Ptr buf =>
      text ← cstr_at buf 0;
      sp ← findUtf8CharStart (Ptr text) charIdx;
      match sp with
      | Null => Some (buffer, curLen)
      | Ptr startOffset =>
          if (cget text startOffset =? 0)%Z then Some (buffer, curLen)
          else
            ep ← findUtf8CharStart (Ptr text) (charIdx + charCount);
            match ep with
            | Null => None
            | Ptr endOffset =>
                let tailLen := size_sub curLen endOffset in
                buf1 ← memmove buf startOffset endOffset (tailLen + 1);
                Some (Ptr buf1, size_sub curLen (size_sub endOffset startOffset))
            end
      end
  end.

(** [substring], cmsStringUtil.cpp: the destination buffer and the length
    written. *)
Definition substring (src : ptr (list Z)) (dest : ptr (list Z)) (destLen left right : nat)
    : option (ptr (list Z) * nat) :=
  match src, dest with
  | Ptr s, Ptr d =>
      if destLen =? 0 then Some (dest, 0)
      else
        d0 ← store d 0 0%Z;
        sp ← findUtf8CharStart src left;
        match sp with
        | Null => Some (Ptr d0, 0)
        | Ptr startPtr =>
            if (cget s startPtr =? 0)%Z then Some (Ptr d0, 0)
            else
              ep ← (if right =? 0 then Some (Some (strlen s))
                    else if right <=? left then Some None
                    else
                      e ← findUtf8CharStart (Ptr (drop startPtr s)) (size_sub right left);
                      match e with
                      | Null => None
                      | Ptr off => Some (Some (startPtr + off))
                      end);
              match ep with
              | None => Some (Ptr d0, 0)
              | Some endPtr =>
                  if endPtr <=? startPtr then Some (Ptr d0, 0)
                  else
                    let byteLen := endPtr - startPtr in
                    let byteLen := if destLen <=? byteLen then destLen - 1 else byteLen in
                    d1 ← memcpy d0 0 (drop startPtr s) byteLen;
                    d2 ← store d1 byteLen 0%Z;
                    Some (Ptr d2, byteLen)
              end
        end
  | _, _ => Some (dest, 0)
  end.

(** [byteSubstring], cmsStringUtil.cpp. *)
Definition byteSubstring (src : ptr (list Z)) (dest : ptr (list Z))
    (destLen startByte endByte : nat) : option (ptr (list Z) * nat) :=
  match src, dest with
  | Ptr s, Ptr d =>
      if destLen =? 0 then Some (dest, 0)
      else
        d0 ← store d 0 0%Z;
        let srcLen := strlen s in
        if srcLen <=? startByte then Some (Ptr d0, 0)
        else
          let endByte := if (endByte =? 0) || (srcLen <? endByte) then srcLen else endByte in
          if endByte <=? startByte then Some (Ptr d0, 0)
          else
            let copyLen := endByte - startByte in
            let copyLen := if destLen <=? copyLen then destLen - 1 else copyLen in
            d1 ← memcpy d0 0 (drop startByte s) copyLen;
            d2 ← store d1 copyLen 0%Z;
            Some (Ptr d2, copyLen)
  | _, _ => Some (dest, 0)
  end.

(** ** [strlcpy] *)

(** [while (--nleft != 0) { if (( *dst++ = *src++) == '\0') break; }]:
    the destination, the two cursors and [nleft] when the loop is left.
    The loop is entered with [nleft] not zero. *)
Fixpoint strlcpy_loop (dst src : list Z) (di si nleft : nat)
    : option (list Z * nat * nat * nat) :=
  match nleft with
  | 0 => None
  | S n =>
      if n =? 0 then Some (dst, di, si, n)
      else
        let c := cget src si in
        dst1 ← store dst di c;
        if (c =? 0)%Z then Some (dst1, di + 1, si + 1, n)
        else strlcpy_loop dst1 src (di + 1) (si + 1) n
  end.

(** [strlcpy], cmsStringUtil.cpp: the destination and the value returned. *)
Definition strlcpy (dst src : list Z) (dsize : nat) : option (list Z * nat) :=
  '(dst1, di, si, nleft) ←
    (if negb (dsize =? 0) then strlcpy_loop dst src 0 0 dsize
     else Some (dst, 0, 0, dsize));
  '(dst2, si2) ←
    (if nleft =? 0 then
       dst2 ← (if negb (dsize =? 0) then store dst1 di 0%Z else Some dst1);
       (* while ( *src++ ); *)
       Some (dst2, si + strlen (drop si src) + 1)
     else Some (dst1, si));
  Some (dst2, si2 - 1).

(** ** [trim] *)

Section Trim.

(** The whitespace classifier of the missing header. *)
Variable isSpace : Z -> bool.

(** [while ( *start && isSpace( *start )) start++;] *)
Fixpoint trim_lead (fuel : nat) (buf : list Z) (start : nat) : option nat :=
  c ← load buf start;
  if negb (c =? 0)%Z && isSpace c then
    match fuel with
    | 0 => None
    | S fuel' => trim_lead fuel' buf (start + 1)
    end
  else Some start.

(** [while (end > start && isSpace( *end )) { *end = '\0'; end--; }] *)
Fixpoint trim_trail (fuel : nat) (buf : list Z) (start end_ : nat) : option (list Z * nat) :=
  if start <? end_ then
    c ← load buf end_;
    if isSpace c then
      match fuel with
      | 0 => None
      | S fuel' =>
          buf1 ← store buf end_ 0%Z;
          trim_trail fuel' buf1 start (end_ - 1)
      end
    else Some (buf, end_)
  else Some (buf, end_).

(** [trim], cmsStringUtil.cpp: the buffer and the length returned. *)
Definition trim (str : ptr (list Z)) : option (ptr (list Z) * nat) :=
  match str with
  | Null => Some (Null, 0)
  | Ptr buf =>
      c0 ← load buf 0;
      if (c0 =? 0)%Z then Some (str, 0)
      else
        len ← strlen_from buf 0;
        start ← trim_lead (length buf) buf 0;
        cs ← load buf start;
        if (cs =? 0)%Z then
          buf1 ← store buf 0 0%Z;
          Some (Ptr buf1, 0)
        else
          '(buf1, end_) ← trim_trail (length buf) buf start (size_sub len 1);
          let newLen := size_sub end_ start + 1 in
          buf2 ← (if negb (start =? 0) then memmove buf1 0 start (newLen + 1)
                  else Some buf1);
          Some (Ptr buf2, newLen)
  end.

End Trim.

(** ** Comparison: [startsWith], [endsWith], [equals], [compare], [indexOf] *)

(** [strncmp] of the C library on two C strings.  Only the sign of the
    result is fixed by the C standard; the value here is the difference of
    the first two bytes that differ. *)
Fixpoint strncmp (a b : list Z) (n : nat) : Z :=
  match n with
  | 0 => 0%Z
  | S n' =>
      let x := cget a 0 in
      let y := cget b 0 in
      if (x =? y)%Z then (if (x =? 0)%Z then 0%Z else strncmp (tail a) (tail b) n')
      else (x - y)%Z
  end.

(** [strcmp] of the C library, with the same convention for the value. *)
Fixpoint strcmp (a b : list Z) : Z :=
  match a with
  | [] => (0 - cget b 0)%Z
  | x :: a' =>
      if (x =? cget b 0)%Z then (if (x =? 0)%Z then 0%Z else strcmp a' (tail b))
      else (x - cget b 0)%Z
  end.

(** [memcmp] of the C library over the first [n] bytes of two arrays, with
    the same convention for the value; reading past the end of an array has
    no result. *)
Fixpoint memcmp (a b : list Z) (n : nat) {struct n} : option Z :=
  match n with
  | 0 => Some 0%Z
  | S n' =>
      match a, b with
      | x :: a', y :: b' => if (x =? y)%Z then memcmp a' b' n' else Some (x - y)%Z
      | _, _ => None
      end
  end.

(** [s1 == s2] on two pointers.  The embedding keeps what a pointer points
    to, not its address: whether two non-null pointers are the same pointer
    is the flag [same]. *)
Definition ptr_eq {A : Type} (same : bool) (s1 s2 : ptr A) : bool :=
  match s1, s2 with
  | Null, Null => true
  | Ptr _, Ptr _ => same
  | _, _ => false
  end.

Section Comparison.

Variable toLower : Z -> Z.

(** [for (i = 0; i < prefixLen; i++)] of [startsWith], [n] rounds left. *)
Fixpoint startsWith_loop (n : nat) (str prefix : list Z) (i : nat) : bool :=
  match n with
  | 0 => true
  | S n' =>
      if (cget str i =? 0)%Z then false
      else if negb (toLower (cget str i) =? toLower (cget prefix i))%Z then false
      else startsWith_loop n' str prefix (i + 1)
  end.

(** [startsWith] with the length of the prefix, cmsStringUtil.cpp. *)
Definition startsWith_len (str prefix : ptr (list Z)) (prefixLen : nat) (ignoreCase : bool)
    : bool :=
  match str, prefix with
  | Ptr s, Ptr p =>
      if negb ignoreCase then (strncmp s p prefixLen =? 0)%Z
      else startsWith_loop prefixLen s p 0
  | _, _ => false
  end.

(** [startsWith], cmsStringUtil.cpp. *)
Definition startsWith (str prefix : ptr (list Z)) (ignoreCase : bool) : bool :=
  match str, prefix with
  | Ptr s, Ptr p => startsWith_len str prefix (strlen p) ignoreCase
  | _, _ => false
  end.

(** [while ( *target && *suffix ) { ... target++; suffix++; } return *suffix == '\0';] *)
Fixpoint endsWith_loop (target suffix : list Z) : bool :=
  match target with
  | [] => (cget suffix 0 =? 0)%Z
  | x :: target' =>
      if negb (x =? 0)%Z && negb (cget suffix 0 =? 0)%Z then
        if negb (toLower x =? toLower (cget suffix 0))%Z then false
        else endsWith_loop target' (tail suffix)
      else (cget suffix 0 =? 0)%Z
  end.

(** [endsWith] with the two lengths, cmsStringUtil.cpp. *)
Definition endsWith_len (str : ptr (list Z)) (strLen : nat) (suffix : ptr (list Z))
    (suffixLen : nat) (ignoreCase : bool) : bool :=
  match str, suffix with
  | Ptr s, Ptr x =>
      if strLen <? suffixLen then false
      else
        let target := drop (strLen - suffixLen) s in
        if negb ignoreCase then (strcmp target x =? 0)%Z
        else endsWith_loop target x
  | _, _ => false
  end.

(** [endsWith], cmsStringUtil.cpp. *)
Definition endsWith (str suffix : ptr (list Z)) (ignoreCase : bool) : bool :=
  match str, suffix with
  | Ptr s, Ptr x => endsWith_len str (strlen s) suffix (strlen x) ignoreCase
  | _, _ => false
  end.

(** [for (i = 0; i < s1Len; i++)] of [equals], [n] rounds left. *)
Fixpoint equals_loop (n : nat) (s1 s2 : list Z) (i : nat) : option bool :=
  match n with
  | 0 => Some true
  | S n' =>
      c1 ← load s1 i;
      c2 ← load s2 i;
      if negb (toLower c1 =? toLower c2)%Z then Some false
      else equals_loop n' s1 s2 (i + 1)
  end.

(** [equals] with the two lengths, cmsStringUtil.cpp. *)
Definition equals_len (same : bool) (s1 : ptr (list Z)) (s1Len : nat) (s2 : ptr (list Z))
    (s2Len : nat) (ignoreCase : bool) : option bool :=
  if negb (s1Len =? s2Len) then Some false
  else if ptr_eq same s1 s2 then Some true
  else
    match s1, s2 with
    | Ptr a, Ptr b =>
        if negb ignoreCase then r ← memcmp a b s1Len; Some (r =? 0)%Z
        else equals_loop s1Len a b 0
    | _, _ => Some false
    end.

(** [equals], cmsStringUtil.cpp. *)
Definition equals (same : bool) (s1 s2 : ptr (list Z)) (ignoreCase : bool) : option bool :=
  if ptr_eq same s1 s2 then Some true
  else
    match s1, s2 with
    | Ptr a, Ptr b => equals_len same s1 (strlen a) s2 (strlen b) ignoreCase
    | _, _ => Some false
    end.

(** [compare], cmsStringUtil.cpp. *)
Definition compare (same : bool) (s1 : ptr (list Z)) (s1Len : nat) (s2 : ptr (list Z))
    (s2Len : nat) : option Z :=
  if ptr_eq same s1 s2 then Some 0%Z
  else
    match s1, s2 with
    | Null, _ => Some (-1)%Z
    | _, Null => Some 1%Z
    | Ptr a, Ptr b =>
        let minLen := if s1Len <? s2Len then s1Len else s2Len in
        res ← memcmp a b minLen;
        if negb (res =? 0)%Z then Some res
        else if s1Len <? s2Len then Some (-1)%Z
        else if s2Len <? s1Len then Some 1%Z
        else Some 0%Z
    end.

(** The loop of [compareIgnoreCase], [n] rounds left: the difference of
    the first two folded bytes that differ, if any. *)
Fixpoint compareIgnoreCase_loop (n : nat) (p1 p2 : list Z) (i : nat) : option (option Z) :=
  match n with
  | 0 => Some None
  | S n' =>
      c1 ← load p1 i;
      c2 ← load p2 i;
      let lc1 := to_unsigned 8 (toLower c1) in
      let lc2 := to_unsigned 8 (toLower c2) in
      if negb (c1 =? c2)%Z && negb (lc1 =? lc2)%Z then Some (Some (lc1 - lc2)%Z)
      else compareIgnoreCase_loop n' p1 p2 (i + 1)
  end.

(** [compareIgnoreCase], cmsStringUtil.cpp. *)
Definition compareIgnoreCase (same : bool) (s1 : ptr (list Z)) (s1Len : nat)
    (s2 : ptr (list Z)) (s2Len : nat) : option Z :=
  if ptr_eq same s1 s2 then Some 0%Z
  else
    match s1, s2 with
    | Null, _ => Some (-1)%Z
    | _, Null => Some 1%Z
    | Ptr a, Ptr b =>
        let minLen := if s1Len <? s2Len then s1Len else s2Len in
        d ← compareIgnoreCase_loop minLen a b 0;
        match d with
        | Some r => Some r
        | None =>
            if s1Len <? s2Len then Some (-1)%Z
            else if s2Len <? s1Len then Some 1%Z
            else Some 0%Z
        end
    end.

(** [while ( *str ) { if (toLower( *str ) == target) return str; str++; }]
    of [indexOf]; [char target] keeps the folded byte, and the comparison is
    taken on the folded values. *)
Fixpoint indexOf_loop (s : list Z) (target : Z) : ptr nat :=
  match s with
  | [] => Null
  | b :: s' =>
      if (b =? 0)%Z then Null
      else if (toLower b =? target)%Z then Ptr 0
      else match indexOf_loop s' target with
           | Ptr i => Ptr (S i)
           | Null => Null
           end
  end.

(** [indexOf], cmsStringUtil.cpp; the result is an offset into [str]. *)
Definition indexOf (str : ptr (list Z)) (c : Z) (ignoreCase : bool) : ptr nat :=
  match str with
  | Null => Null
  | Ptr s => if ignoreCase then indexOf_loop s (toLower c) else strchr s c
  end.

End Comparison.

(** ** Reference: the UTF-8 encoding form *)

(** A Unicode scalar value other than U+0000, which ends a C string:
    U+0001 to U+D7FF or U+E000 to U+10FFFF. *)
Definition scalar (cp : Z) : Prop := (0 < cp < 55296 \/ 57343 < cp <= 1114111)%Z.

(** The UTF-8 encoding of a scalar value, as the Unicode standard defines
    it (one to four bytes, the payload bits spread over the leading byte and
    the continuation bytes): the reference [validateUtf8] is compared
    with. *)
Definition utf8_encode (cp : Z) : list Z :=
  if (cp <? 128)%Z then [cp]
  else if (cp <? 2048)%Z then [192 + cp / 64; 128 + cp mod 64]%Z
  else if (cp <? 65536)%Z then
    [224 + cp / 4096; 128 + (cp / 64) mod 64; 128 + cp mod 64]%Z
  else
    [240 + cp / 262144; 128 + (cp / 4096) mod 64; 128 + (cp / 64) mod 64; 128 + cp mod 64]%Z.

(** ** Reference: fields and separators *)

(** The fields [fs] joined by the byte [d]: the text the two [split]s cut. *)
Fixpoint join (d : Z) (fs : list (list Z)) : list Z :=
  match fs with
  | [] => []
  | f :: fs' =>
      match fs' with
      | [] => f
      | _ :: _ => f ++ d :: join d fs'
      end
  end.

(** A field holds neither the terminator nor the delimiter [d]. *)
Definition field (d : Z) (f : list Z) : Prop := Forall (fun b => b <> 0%Z /\ b <> d) f.

(** ** [lastIndexOf] *)

Section LastIndexOf.

Variable toLower : Z -> Z.

(** [while (true) { found = ...; if (!found) break; lastFound = found;
    current = found + 1; }]: [current] and [lastFound] are offsets into
    [str]. *)
Fixpoint lastIndexOf_loop (fuel : nat) (str target : list Z) (ignoreCase : bool)
    (current : nat) (lastFound : ptr nat) : option (ptr nat) :=
  match fuel with
  | 0 => None
  | S fuel' =>
      found ← (if ignoreCase then strcasestr toLower (drop current str) target
               else Some (strstr (drop current str) target));
      match found with
      | Null => Some lastFound
      | Ptr off =>
          lastIndexOf_loop fuel' str target ignoreCase (current + off + 1) (Ptr (current + off))
      end
  end.

(** [lastIndexOf] with the two lengths, cmsStringUtil.cpp. *)
Definition lastIndexOf_len (str : ptr (list Z)) (strLen : nat) (target : ptr (list Z))
    (targetLen : nat) (ignoreCase : bool) : option Z :=
  match str, target with
  | Ptr s, Ptr t =>
      if (targetLen =? 0) || (strLen <? targetLen) then Some (-1)%Z
      else
        lastFound ← lastIndexOf_loop (length s + 1) s t ignoreCase 0 Null;
        match lastFound with
        | Null => Some (-1)%Z
        | Ptr l => Some (to_signed 32 (Z.of_nat (count_chars s 0 l)))
        end
  | _, _ => Some (-1)%Z
  end.

(** [lastIndexOf], cmsStringUtil.cpp. *)
Definition lastIndexOf (str target : ptr (list Z)) (ignoreCase : bool) : option Z :=
  match str, target with
  | Ptr s, Ptr t => lastIndexOf_len str (strlen s) target (strlen t) ignoreCase
  | _, _ => Some (-1)%Z
  end.

End LastIndexOf.
(** * Theorems *)

(** ** Sanity checks of the embedding on concrete inputs *)

Example append_int_demo :
  appendInt 32 (replicate 8 0%Z) 8 0 (-42) 0 32 = Some (bytes "-42" ++ replicate 5 0%Z, 3).
Proof. vm_compute. reflexivity. Qed.

Example kmp_demo :
  strcasestr ascii_toLower (bytes "xxABabcABCabd") (bytes "abcabd") = Some (Ptr 7)
  /\ strcasestr_naive ascii_toLower (bytes "xxABabcABCabd") (bytes "abcabd") = Some (Ptr 7).
Proof. vm_compute. auto. Qed.

Example split_demo :
  split (Ptr (bytes "a:b:c:d" ++ [0%Z])) 58 (Ptr [9;9;9]) 3
  = Some (Ptr [97; 0; 98; 0; 99; 58; 100; 0]%Z, Ptr [0; 2; 4], 3).
Proof. vm_compute. reflexivity. Qed.

Example find_demo :
  find ascii_toLower (Ptr (bytes "Hello World")) (Ptr (bytes "WORLD")) 0 true = Some 6%Z.
Proof. vm_compute. reflexivity. Qed.

Example toInt_demo : toInt ascii_isSpace ascii_isDigit (Ptr (bytes "  -123x")) = (-123)%Z.
Proof. vm_compute. reflexivity. Qed.

Example replace_demo :
  replace ascii_toLower (Ptr (bytes "a-b-c" ++ replicate 5 0%Z)) 10 5
    (Ptr (bytes "-")) (Ptr (bytes "+++")) false
  = Some (Ptr (bytes "a+++b+++c" ++ [0%Z]), 9).
Proof. vm_compute. reflexivity. Qed.

Example replace_trunc_demo :
  replace ascii_toLower (Ptr (bytes "a-b-c" ++ replicate 4 0%Z)) 9 5
    (Ptr (bytes "-")) (Ptr (bytes "+++")) false
  = Some (Ptr (bytes "a+++b-c" ++ [0%Z; 0%Z]), 7).
Proof. vm_compute. reflexivity. Qed.

Example insert_demo :
  insert (Ptr (bytes "abcd" ++ replicate 4 0%Z)) 8 4 2 (Ptr (bytes "XY"))
  = Some (Ptr (bytes "abXYcd" ++ [0%Z; 0%Z]), 6).
Proof. vm_compute. reflexivity. Qed.

(** [sanitizeUtf8] rewrites in place: once a marker has been written, [dst]
    runs ahead of [src], and [src] goes on to read what [dst] wrote. *)
Example sanitize_alias_demo :
  sanitizeUtf8 (Ptr ([128; 65; 66; 0] ++ replicate 6 0)%Z) 10
  = Some (Ptr [239; 191; 189; 239; 191; 189; 239; 191; 189; 0]%Z, 9).
Proof. vm_compute. reflexivity. Qed.

(** ** Basic facts about sizes and memory accesses *)

Lemma size_sub_le (a b : nat) : b <= a -> size_sub a b = a - b.
Proof.
  intros H. unfold size_sub.
  destruct (Nat.leb_spec b a) as [_|Hlt]; [reflexivity | lia].
Qed.

Lemma store_Some {A : Type} (buf : list A) (i : nat) (v : A) :
  i < length buf -> store buf i v = Some (<[i := v]> buf).
Proof. intros H. unfold store. destruct (decide (i < length buf)); [reflexivity | lia]. Qed.

Lemma store_inv {A : Type} (buf buf' : list A) (i : nat) (v : A) :
  store buf i v = Some buf' -> i < length buf /\ buf' = <[i := v]> buf.
Proof.
  unfold store. destruct (decide (i < length buf)); intros H; [|discriminate].
  injection H as <-. auto.
Qed.

(** ** C6: the two appends of the scenario *)

(** C6, as stated, at a zeroed buffer: the code leaves "Hello, World!"
    (13 bytes), which is not the 11-byte "Hello, Worl" of the claim. *)
Lemma hello_world_not_clipped :
  hello_world (replicate 16 0%Z) = Some (Ptr (bytes "Hello, World!" ++ [0; 0; 0]%Z), 13)
  /\ bytes "Hello, World!" <> bytes "Hello, Worl"
  /\ 13 <> 11.
Proof. split; [vm_compute; reflexivity | split; [discriminate | lia]]. Qed.

(** C6, amended: from an empty buffer of capacity 16 (first byte the
    terminator, the other fifteen arbitrary), [append("Hello")] then
    [append(", World!")] leaves the 13 bytes "Hello, World!" and the
    terminator, nothing clipped, and [utilization] is (13/15)*100. *)
Theorem hello_world_fits (junk : list Z) :
  length junk = 15 ->
  hello_world (0%Z :: junk)
  = Some (Ptr (bytes "Hello, World!" ++ 0%Z :: drop 13 junk), 13)
  /\ (utilization 13 16 == (13 # 15) * 100)%Q.
Proof.
  intros Hlen.
  do 15 (destruct junk as [|? junk]; [discriminate Hlen|]).
  destruct junk; [|discriminate Hlen].
  split; [vm_compute; reflexivity | reflexivity].
Qed.

Lemma hello_world_fits_witness :
  hello_world (0%Z :: replicate 15 88%Z)
  = Some (Ptr (bytes "Hello, World!" ++ 0%Z :: drop 13 (replicate 15 88%Z)), 13)
  /\ (utilization 13 16 == (13 # 15) * 100)%Q.
Proof. apply (hello_world_fits (replicate 15 88%Z)). reflexivity. Defined.

(** ** C10: the number primitives are all-or-nothing *)






(** ** C3: the terminator after [appendInt] *)

(** C3 at the failing input: a buffer of capacity 5 that holds "ab" and a
    stale 'X' behind its terminator.  [appendInt] of -123 writes the sign,
    finds that the digits do not fit and returns: the tracked length is 3
    and the byte at index 3 is the stale 'X', not the terminator. *)
Lemma appendInt_sign_without_terminator :
  appendInt 32 (bytes "ab" ++ [0; 88; 0]%Z) 5 2 (-123) 0 32
  = Some (bytes "ab-X" ++ [0%Z], 3)
  /\ load (bytes "ab-X" ++ [0%Z]) 3 = Some 88%Z
  /\ cstr_at (bytes "ab-X" ++ [0%Z]) 0 = Some (bytes "ab-X").
Proof. vm_compute. auto. Qed.

(** ** C2: clipping at the capacity splits a multi-byte character *)

(** C2 at the failing input: a buffer of capacity 4 holding "ab", and the
    two-byte character U+00E9 to append.  One byte is free, so [append]
    copies the lead byte alone, and the buffer no longer holds valid
    UTF-8; [insert] clips the same way. *)
Lemma append_splits_character :
  validateUtf8 (Ptr (bytes "ab")) = Some true
  /\ validateUtf8 (Ptr [195; 169]%Z) = Some true
  /\ append (Ptr (bytes "ab" ++ [0; 0]%Z)) 4 2 (Ptr [195; 169]%Z) 2
     = Some (Ptr (bytes "ab" ++ [195; 0]%Z), 3)
  /\ validateUtf8 (Ptr (bytes "ab" ++ [195]%Z)) = Some false
  /\ insert (Ptr (bytes "ab" ++ [0; 0]%Z)) 4 2 0 (Ptr [195; 169]%Z)
     = Some (Ptr ([195]%Z ++ bytes "ab" ++ [0%Z]), 3)
  /\ validateUtf8 (Ptr ([195]%Z ++ bytes "ab")) = Some false.
Proof. vm_compute. repeat split; reflexivity. Qed.

(** ** C8: the two splits at the token limit *)

(** Both forms give the three tokens of the scenario. *)
Example split_ssid :
  split (Ptr (bytes "SSID:MyHome:WPA2" ++ [0%Z])) 58 (Ptr [0; 0; 0]) 3
  = Some (Ptr (bytes "SSID" ++ 0%Z :: bytes "MyHome" ++ 0%Z :: bytes "WPA2" ++ [0%Z]),
          Ptr [0; 5; 12], 3)
  /\ split_view (Ptr (bytes "SSID:MyHome:WPA2")) 58 (Ptr (replicate 3 (mkToken 0 0))) 3
     = Some (Ptr [mkToken 0 4; mkToken 5 6; mkToken 12 4], 3)
  /\ map (token_text (bytes "SSID:MyHome:WPA2")) [mkToken 0 4; mkToken 5 6; mkToken 12 4]
     = [bytes "SSID"; bytes "MyHome"; bytes "WPA2"].
Proof. vm_compute. repeat split; reflexivity. Qed.

(** C8 at the failing input "a:b:c:d" with three slots: the destructive
    form leaves "c:d" as the last token, the non-destructive form stops its
    last token at the third delimiter and views "c" only. *)
Lemma split_view_drops_remainder :
  split (Ptr (bytes "a:b:c:d" ++ [0%Z])) 58 (Ptr [0; 0; 0]) 3
  = Some (Ptr (bytes "a" ++ 0%Z :: bytes "b" ++ 0%Z :: bytes "c:d" ++ [0%Z]), Ptr [0; 2; 4], 3)
  /\ cstr_at (bytes "a" ++ 0%Z :: bytes "b" ++ 0%Z :: bytes "c:d" ++ [0%Z]) 4
     = Some (bytes "c:d")
  /\ split_view (Ptr (bytes "a:b:c:d")) 58 (Ptr (replicate 3 (mkToken 0 0))) 3
     = Some (Ptr [mkToken 0 1; mkToken 2 1; mkToken 4 1], 3)
  /\ token_text (bytes "a:b:c:d") (mkToken 4 1) = bytes "c".
Proof. vm_compute. repeat split; reflexivity. Qed.

(** ** C7: null pointers, empty patterns, indices past the end *)


Lemma cget_ge (s : list Z) (i : nat) : length s <= i -> cget s i = 0%Z.
Proof. intros H. unfold cget. rewrite lookup_ge_None_2 by lia. reflexivity. Qed.

Lemma strlen_le_length (s : list Z) : strlen s <= length s.
Proof.
  induction s as [|b s IH]; cbn; [lia|].
  destruct (b =? 0)%Z; lia.
Qed.





(** ** C9: [appendInt] on negative values *)

Example decimal_demo :
  decimal 0 = bytes "0" /\ decimal 7 = bytes "7" /\ decimal 2147483648 = bytes "2147483648".
Proof. vm_compute. auto. Qed.

Lemma log2_div_lt (n d : Z) : (2 <= d)%Z -> (2 <= n)%Z -> (Z.log2 (n / d) < Z.log2 n)%Z.
Proof.
  intros Hd Hn.
  assert (n / d <= n / 2)%Z as Hle.
  { apply Z.div_le_compat_l; lia. }
  apply Z.le_lt_trans with (Z.log2 (n / 2)); [apply Z.log2_le_mono; exact Hle|].
  replace (n / 2)%Z with (Z.shiftr n 1) by (rewrite Z.shiftr_div_pow2 by lia; reflexivity).
  rewrite Z.log2_shiftr by lia.
  assert (1 <= Z.log2 n)%Z.
  { change 1%Z with (Z.log2 2). apply Z.log2_le_mono. lia. }
  lia.
Qed.

Lemma dec_digits_fuel (f1 : nat) :
  forall (f2 : nat) (n : Z),
    (0 <= n)%Z -> (Z.log2 n < Z.of_nat f1)%Z -> (Z.log2 n < Z.of_nat f2)%Z ->
    dec_digits f1 n = dec_digits f2 n.
Proof.
  induction f1 as [|f1 IH]; intros f2 n Hn H1 H2.
  - pose proof (Z.log2_nonneg n). lia.
  - destruct f2 as [|f2]; [pose proof (Z.log2_nonneg n); lia|].
    cbn [dec_digits].
    destruct (Z.ltb_spec n 10); [reflexivity|].
    pose proof (log2_div_lt n 10 ltac:(lia) ltac:(lia)).
    f_equal. apply IH; [apply Z.div_pos; lia | lia | lia].
Qed.

Lemma decimal_unfold (n : Z) :
  (0 <= n)%Z ->
  decimal n = if (n <? 10)%Z then [(n + 48)%Z] else decimal (n / 10) ++ [(n mod 10 + 48)%Z].
Proof.
  intros Hn. unfold decimal at 1. cbn [dec_digits].
  destruct (Z.ltb_spec n 10); [reflexivity|].
  pose proof (log2_div_lt n 10 ltac:(lia) ltac:(lia)).
  pose proof (Z.log2_nonneg n). pose proof (Z.log2_nonneg (n / 10)).
  f_equal. unfold decimal. apply dec_digits_fuel; [apply Z.div_pos; lia | lia | lia].
Qed.

Lemma decimal_small (n : Z) : (0 <= n < 10)%Z -> decimal n = [(n + 48)%Z].
Proof.
  intros H. rewrite decimal_unfold by lia.
  destruct (Z.ltb_spec n 10); [reflexivity | lia].
Qed.

Lemma decimal_big (n : Z) :
  (10 <= n)%Z -> decimal n = decimal (n / 10) ++ [(n mod 10 + 48)%Z].
Proof.
  intros H. rewrite decimal_unfold by lia.
  destruct (Z.ltb_spec n 10); [lia | reflexivity].
Qed.

Lemma decimal_two (n : Z) :
  (10 <= n < 100)%Z -> decimal n = [(n / 10 + 48)%Z; (n mod 10 + 48)%Z].
Proof.
  intros H. rewrite decimal_big by lia.
  rewrite decimal_small; [reflexivity|].
  split; [apply Z.div_pos; lia | apply Z.div_lt_upper_bound; lia].
Qed.

Lemma decimal_pair (n : Z) :
  (100 <= n)%Z ->
  decimal n = decimal (n / 100) ++ [((n mod 100) / 10 + 48)%Z; ((n mod 100) mod 10 + 48)%Z].
Proof.
  intros H.
  assert (10 <= n / 10)%Z as H10 by (apply Z.div_le_lower_bound; lia).
  rewrite (decimal_big n) by lia. rewrite (decimal_big (n / 10)) by lia.
  rewrite Z.div_div by lia. change (10 * 10)%Z with 100%Z.
  rewrite <- app_assoc. cbn [app].
  replace ((n / 10) mod 10)%Z with ((n mod 100) / 10)%Z
    by (Z.div_mod_to_equations; lia).
  replace ((n mod 100) mod 10)%Z with (n mod 10)%Z
    by (Z.div_mod_to_equations; lia).
  reflexivity.
Qed.

Lemma decimal_length_upper (k : nat) :
  forall n : Z, (0 <= n < 10 ^ Z.of_nat (S k))%Z -> length (decimal n) <= S k.
Proof.
  induction k as [|k IH]; intros n Hn.
  - rewrite decimal_small by (change (10 ^ Z.of_nat 1)%Z with 10%Z in Hn; lia). cbn. lia.
  - destruct (Z_lt_le_dec n 10).
    + rewrite decimal_small by lia. cbn. lia.
    + rewrite decimal_big by lia. rewrite length_app. cbn [length].
      assert (length (decimal (n / 10)) <= S k); [|lia].
      apply IH. split; [apply Z.div_pos; lia|].
      apply Z.div_lt_upper_bound; [lia|].
      replace (Z.of_nat (S (S k))) with (1 + Z.of_nat (S k))%Z in Hn by lia.
      rewrite Z.pow_add_r in Hn by lia. change (10 ^ 1)%Z with 10%Z in Hn. lia.
Qed.

Lemma decimal_length_lower (k : nat) :
  forall n : Z, (10 ^ Z.of_nat k <= n)%Z -> S k <= length (decimal n).
Proof.
  induction k as [|k IH]; intros n Hn.
  - change (10 ^ Z.of_nat 0)%Z with 1%Z in Hn.
    rewrite decimal_unfold by lia. destruct (n <? 10)%Z; [cbn; lia|].
    rewrite length_app. cbn. lia.
  - replace (Z.of_nat (S k)) with (1 + Z.of_nat k)%Z in Hn by lia.
    rewrite Z.pow_add_r in Hn by lia. change (10 ^ 1)%Z with 10%Z in Hn.
    assert (0 < 10 ^ Z.of_nat k)%Z by (apply Z.pow_pos_nonneg; lia).
    rewrite decimal_big by lia. rewrite length_app. cbn [length].
    assert (S k <= length (decimal (n / 10))); [|lia].
    apply IH. apply Z.div_le_lower_bound; lia.
Qed.

Lemma decimal_nonempty (n : Z) : (0 <= n)%Z -> 1 <= length (decimal n).
Proof.
  intros Hn. rewrite decimal_unfold by lia.
  destruct (n <? 10)%Z; [cbn; lia|]. rewrite length_app. cbn. lia.
Qed.

Lemma digitsCount10_decimal (n : Z) :
  (0 <= n < 10 ^ 10)%Z -> Z.to_nat (digitsCount10 n) = length (decimal n).
Proof.
  intros Hn. change (10 ^ 10)%Z with 10000000000%Z in Hn. unfold digitsCount10.
  repeat match goal with
         | |- context [(n <? ?c)%Z] => destruct (Z.ltb_spec n c)
         end;
    match goal with
    | |- Z.to_nat ?k = _ =>
        let k' := eval vm_compute in (Z.to_nat k) in
        change (Z.to_nat k) with k';
        apply Nat.le_antisymm;
        [ first [ apply decimal_nonempty; lia | idtac ];
          apply (decimal_length_lower (pred k'));
          let p := eval vm_compute in (10 ^ Z.of_nat (pred k'))%Z in
          change (10 ^ Z.of_nat (pred k'))%Z with p; lia
        | apply (decimal_length_upper (pred k'));
          let p := eval vm_compute in (10 ^ Z.of_nat (S (pred k')))%Z in
          change (10 ^ Z.of_nat (S (pred k')))%Z with p; lia ]
    end.
Qed.

Lemma digitsTable_lookup (r : Z) :
  (0 <= r < 100)%Z ->
  digitsTable !! Z.to_nat (Z.shiftl r 1) = Some (r / 10 + 48)%Z
  /\ digitsTable !! (Z.to_nat (Z.shiftl r 1) + 1) = Some (r mod 10 + 48)%Z.
Proof.
  intros Hr.
  assert (forallb (fun n : nat =>
            let r := Z.of_nat n in
            match digitsTable !! Z.to_nat (Z.shiftl r 1),
                  digitsTable !! (Z.to_nat (Z.shiftl r 1) + 1) with
            | Some a, Some b => (a =? r / 10 + 48)%Z && (b =? r mod 10 + 48)%Z
            | _, _ => false
            end) (seq 0 100) = true) as Hall by (vm_compute; reflexivity).
  rewrite forallb_forall in Hall.
  specialize (Hall (Z.to_nat r)).
  rewrite Z2Nat.id in Hall by lia. cbv zeta in Hall.
  assert (In (Z.to_nat r) (seq 0 100)) as Hin by (apply in_seq; lia).
  specialize (Hall Hin).
  destruct (digitsTable !! Z.to_nat (Z.shiftl r 1)) as [a|]; [|discriminate].
  destruct (digitsTable !! (Z.to_nat (Z.shiftl r 1) + 1)) as [b|]; [|discriminate].
  apply andb_prop in Hall as [Ha Hb].
  apply Z.eqb_eq in Ha, Hb. subst. auto.
Qed.

(** Writing one byte just below the write index [length l]. *)
Lemma write_back (l r : list Z) (d : Z) :
  1 <= length l ->
  exists (l' : list Z) (x : Z),
    l = l' ++ [x]
    /\ dec (length l) = Some (length l')
    /\ store (l ++ r) (length l') d = Some (l' ++ d :: r).
Proof.
  intros Hlen.
  destruct (exists_last (l := l)) as (l' & x & ->); [intros ->; cbn in Hlen; lia|].
  exists l', x. rewrite length_app. cbn [length].
  replace (length l' + 1) with (S (length l')) by lia.
  split; [reflexivity|]. split; [reflexivity|].
  rewrite store_Some by (rewrite !length_app; cbn; lia).
  f_equal. rewrite <- app_assoc. cbn [app].
  replace (length l') with (length l' + 0) at 1 by lia.
  rewrite insert_app_r. reflexivity.
Qed.

Lemma uint_pairs_spec (fuel : nat) :
  forall (v : Z) (l r : list Z),
    (0 <= v)%Z -> (Z.log2 v < Z.of_nat fuel)%Z -> length (decimal v) <= length l ->
    exists (ds : list Z) (v' : Z),
      uint_pairs fuel (l ++ r) (length l) v
      = Some (take (length l - length ds) l ++ ds ++ r, length l - length ds, v')
      /\ (0 <= v' < 100)%Z
      /\ decimal v = decimal v' ++ ds.
Proof.
  induction fuel as [|fuel IH]; intros v l r Hv Hfuel Hlen.
  - pose proof (Z.log2_nonneg v). lia.
  - cbn [uint_pairs]. destruct (Z.ltb_spec v 100) as [Hsmall|Hbig].
    + exists [], v. cbn [length app]. rewrite Nat.sub_0_r, firstn_all, app_nil_r.
      auto with lia.
    + pose proof (Z.mod_pos_bound v 100 ltac:(lia)) as Hr.
      destruct (digitsTable_lookup (v mod 100) Hr) as [Htens Hunits].
      rewrite decimal_pair in Hlen |- * by lia.
      rewrite length_app in Hlen. cbn [length] in Hlen.
      rewrite Hunits. cbn [mbind option_bind].
      destruct (write_back l r ((v mod 100) mod 10 + 48)%Z) as (l1 & x & -> & Hdec1 & Hst1);
        [lia|].
      rewrite Hdec1. cbn [mbind option_bind]. rewrite Hst1. cbn [mbind option_bind].
      rewrite Htens. cbn [mbind option_bind].
      rewrite length_app in Hlen. cbn [length] in Hlen.
      destruct (write_back l1 (((v mod 100) mod 10 + 48)%Z :: r) ((v mod 100) / 10 + 48)%Z)
        as (l2 & y & -> & Hdec2 & Hst2); [lia|].
      rewrite Hdec2. cbn [mbind option_bind]. rewrite Hst2. cbn [mbind option_bind].
      rewrite length_app in Hlen. cbn [length] in Hlen.
      pose proof (log2_div_lt v 100 ltac:(lia) ltac:(lia)).
      destruct (IH (v / 100)%Z l2
                  (((v mod 100) / 10 + 48)%Z :: ((v mod 100) mod 10 + 48)%Z :: r))
        as (ds & v' & Heq & Hv' & Hdecv); [apply Z.div_pos; lia | lia | lia |].
      rewrite Heq.
      exists (ds ++ [((v mod 100) / 10 + 48)%Z; ((v mod 100) mod 10 + 48)%Z]), v'.
      assert (length ds <= length l2) as Hds.
      { rewrite Hdecv, length_app in Hlen. lia. }
      rewrite !length_app. cbn [length].
      replace (length l2 + 1 + 1 - (length ds + 2)) with (length l2 - length ds) by lia.
      rewrite <- (app_assoc l2), take_app_le by lia.
      rewrite <- !app_assoc. cbn [app].
      split; [reflexivity|]. split; [assumption|].
      rewrite Hdecv, <- app_assoc. reflexivity.
Qed.

Lemma pad_loop_spec (fuel : nat) :
  forall (l r : list Z) (startIdx : nat) (padChar : Z),
    startIdx <= length l -> length l - startIdx <= fuel ->
    pad_loop fuel (l ++ r) (length l) startIdx padChar
    = Some (take startIdx l ++ replicate (length l - startIdx) padChar ++ r).
Proof.
  induction fuel as [|fuel IH]; intros l r startIdx padChar Hstart Hfuel.
  - assert (length l = startIdx) as Heq by lia.
    cbn [pad_loop]. destruct (Nat.ltb_spec startIdx (length l)); [lia|].
    rewrite <- Heq at 1. rewrite firstn_all, Heq, Nat.sub_diag. reflexivity.
  - cbn [pad_loop]. destruct (Nat.ltb_spec startIdx (length l)) as [Hlt|Hge].
    + destruct (write_back l r padChar) as (l1 & x & -> & Hdec & Hst); [lia|].
      rewrite Hdec. cbn [mbind option_bind]. rewrite Hst. cbn [mbind option_bind].
      rewrite length_app in Hlt, Hfuel |- *. cbn [length] in Hlt, Hfuel |- *.
      rewrite IH by lia.
      rewrite take_app_le by lia.
      replace (length l1 + 1 - startIdx) with (S (length l1 - startIdx)) by lia.
      rewrite replicate_S_end, <- !app_assoc. reflexivity.
    + assert (length l = startIdx) as Heq by lia.
      rewrite <- Heq at 1. rewrite firstn_all, Heq, Nat.sub_diag. reflexivity.
Qed.

(** [appendUIntInternal] when the number fits: the padding and the decimal
    digits of [uval] follow the old content, then the terminator. *)
Lemma appendUIntInternal_fits
    (buffer : list Z) (maxLen curLen : nat) (uval width padChar : Z) :
  let total := Z.to_nat (Z.max (digitsCount10 uval) width) in
  (0 <= uval < 10 ^ 10)%Z ->
  curLen + total < maxLen -> maxLen <= length buffer ->
  appendUIntInternal buffer maxLen curLen uval width padChar
  = Some (take curLen buffer ++ replicate (total - length (decimal uval)) padChar
            ++ decimal uval ++ 0%Z :: drop (curLen + total + 1) buffer,
          curLen + total).
Proof.
  intros total Hu Hfit Hcap.
  pose proof (digitsCount10_decimal uval Hu) as Hdigits.
  pose proof (decimal_nonempty uval ltac:(lia)) as Hne.
  unfold appendUIntInternal.
  replace (if (width <? digitsCount10 uval)%Z then digitsCount10 uval else width)
    with (Z.max (digitsCount10 uval) width)
    by (destruct (Z.ltb_spec width (digitsCount10 uval)); lia).
  fold total.
  assert (length (decimal uval) <= total) as Htot by (unfold total; lia).
  destruct (Nat.leb_spec maxLen (curLen + total)); [lia|].
  rewrite store_Some by lia. cbn [mbind option_bind].
  rewrite insert_take_drop by lia.
  set (l := take (curLen + total) buffer).
  set (r := 0%Z :: drop (S (curLen + total)) buffer).
  assert (length l = curLen + total) as Hl by (unfold l; rewrite length_take; lia).
  rewrite <- Hl at 1.
  pose proof (Z.log2_nonneg uval).
  destruct (uint_pairs_spec (S (Z.to_nat (Z.log2 uval))) uval l r)
    as (ds & v' & Heq & Hv' & Hdec); [lia | lia | lia |].
  rewrite Heq. cbn [mbind option_bind].
  assert (length (decimal uval) = length (decimal v') + length ds) as Hlen
    by (rewrite Hdec, length_app; reflexivity).
  set (l1 := take (length l - length ds) l).
  assert (length l1 = length l - length ds) as Hl1
    by (unfold l1; rewrite length_take; lia).
  rewrite <- Hl1.
  assert (exists l2 : list Z,
    (if (10 <=? v')%Z
     then
       let i := Z.to_nat (Z.shiftl v' 1) in
       digitsTable !! (i + 1) ≫= λ d1 : Z,
         dec (length l1) ≫= λ w : nat,
           store (l1 ++ ds ++ r) w d1 ≫= λ b : list Z,
             digitsTable !! i ≫= λ d0 : Z,
               dec w ≫= λ w' : nat,
                 store b w' d0 ≫= λ b' : list Z, Some (b', w')
     else
       dec (length l1) ≫= λ w : nat,
         store (l1 ++ ds ++ r) w (v' + 48)%Z ≫= λ b : list Z, Some (b, w))
    = Some (l2 ++ decimal uval ++ r, length l2)
    /\ l2 = take (length l - length (decimal uval)) l) as (l2 & Hstep & Hl2).
  { destruct (Z.leb_spec 10 v') as [Hbig|Hsmall].
    - rewrite (decimal_two v') in Hdec, Hlen by lia. cbn [length] in Hlen.
      destruct (digitsTable_lookup v' Hv') as [Htens Hunits].
      cbv zeta. rewrite Hunits. cbn [mbind option_bind].
      destruct (write_back l1 (ds ++ r) (v' mod 10 + 48)%Z) as (la & x & Hla & Hdec1 & Hst1);
        [lia|].
      rewrite Hdec1. cbn [mbind option_bind]. rewrite Hst1. cbn [mbind option_bind].
      rewrite Htens. cbn [mbind option_bind].
      assert (length l1 = length la + 1) as Hla1 by (rewrite Hla, length_app; reflexivity).
      destruct (write_back la ((v' mod 10 + 48)%Z :: ds ++ r) (v' / 10 + 48)%Z)
        as (lb & y & Hlb & Hdec2 & Hst2); [lia|].
      rewrite Hdec2. cbn [mbind option_bind]. rewrite Hst2. cbn [mbind option_bind].
      assert (length la = length lb + 1) as Hlb1 by (rewrite Hlb, length_app; reflexivity).
      exists lb. split.
      + rewrite Hdec. cbn [app]. reflexivity.
      + transitivity (take (length lb) l1).
        { rewrite Hla, Hlb, <- app_assoc, take_app_length. reflexivity. }
        subst l1. rewrite take_take. f_equal. lia.
    - rewrite (decimal_small v') in Hdec, Hlen by lia. cbn [length] in Hlen.
      destruct (write_back l1 (ds ++ r) (v' + 48)%Z) as (la & x & Hla & Hdec1 & Hst1);
        [lia|].
      rewrite Hdec1. cbn [mbind option_bind]. rewrite Hst1. cbn [mbind option_bind].
      assert (length l1 = length la + 1) as Hla1 by (rewrite Hla, length_app; reflexivity).
      exists la. split.
      + rewrite Hdec. cbn [app]. reflexivity.
      + transitivity (take (length la) l1).
        { rewrite Hla, take_app_length. reflexivity. }
        subst l1. rewrite take_take. f_equal. lia. }
  cbv zeta in Hstep. rewrite Hstep. cbn [mbind option_bind].
  assert (length l2 = curLen + total - length (decimal uval)) as Hl2len
    by (rewrite Hl2, length_take; lia).
  rewrite pad_loop_spec by lia. cbn [mbind option_bind].
  assert (take curLen l2 = take curLen buffer) as ->.
  { rewrite Hl2. subst l. rewrite !take_take. f_equal. rewrite length_take. lia. }
  replace (length l2 - curLen) with (total - length (decimal uval)) by lia.
  subst r. replace (S (curLen + total)) with (curLen + total + 1) by lia.
  reflexivity.
Qed.

Lemma magnitude_no_overflow (bits val : Z) :
  (1 < bits)%Z -> (- 2 ^ (bits - 1) <= val < 0)%Z ->
  to_unsigned bits (to_unsigned bits (to_signed bits (- to_signed bits (val + 1))) + 1)
  = (- val)%Z.
Proof.
  intros Hbits Hval. unfold to_unsigned, to_signed.
  assert (2 ^ bits = 2 * 2 ^ (bits - 1))%Z as Hpow.
  { replace bits with (1 + (bits - 1))%Z at 1 by lia.
    rewrite Z.pow_add_r by lia. reflexivity. }
  assert (0 < 2 ^ (bits - 1))%Z as Hpos by (apply Z.pow_pos_nonneg; lia).
  rewrite Hpow.
  set (P := (2 ^ (bits - 1))%Z) in *.
  rewrite (Z.mod_small (val + 1 + P)) by lia.
  rewrite (Z.mod_small (- (val + 1 + P - P) + P)) by lia.
  rewrite (Z.mod_small (- (val + 1 + P - P) + P - P)) by lia.
  rewrite Z.mod_small by lia. lia.
Qed.



(** On a 64-bit [long] the branch table of [appendUIntInternal] still
    stops at ten digits: the eleven digits of 10^10 are written over the
    sign. *)
Example appendInt_eleven_digits :
  appendInt 64 (replicate 16 0%Z) 16 0 (-10000000000) 0 32
  = Some (bytes "10000000000" ++ replicate 5 0%Z, 11).
Proof. vm_compute. reflexivity. Qed.

(** ** C1: [sanitizeUtf8] is idempotent and yields valid UTF-8 *)

Lemma cget_app_r (pre s : list Z) (j : nat) : cget (pre ++ s) (length pre + j) = cget s j.
Proof.
  unfold cget. rewrite lookup_app_r by lia.
  replace (length pre + j - length pre) with j by lia. reflexivity.
Qed.

Lemma cget_load (buf : list Z) (i : nat) (b : Z) : load buf i = Some b -> cget buf i = b.
Proof. unfold load, cget. intros ->. reflexivity. Qed.

Lemma cget_nonzero_load (buf : list Z) (i : nat) :
  cget buf i <> 0%Z -> load buf i = Some (cget buf i).
Proof.
  unfold load, cget. destruct (buf !! i); cbn; [reflexivity | congruence].
Qed.

Lemma is_cont_zero : is_cont 0 = false.
Proof. reflexivity. Qed.

Lemma validate_step_range (a b c d : Z) (k : nat) :
  validate_step a b c d = Some k -> 1 <= k <= 4.
Proof.
  unfold validate_step. intros H.
  repeat match type of H with
         | (if ?c then _ else _) = _ => destruct c
         end;
    try discriminate H; injection H as <-; lia.
Qed.

(** The round only looks at the bytes of the character it accepts. *)
Lemma validate_step_prefix (a b c d b' c' d' : Z) (k : nat) :
  validate_step a b c d = Some k ->
  (1 < k -> b' = b) -> (2 < k -> c' = c) -> (3 < k -> d' = d) ->
  validate_step a b' c' d' = Some k.
Proof.
  intros H Hb Hc Hd.
  destruct (validate_step_range _ _ _ _ _ H) as [Hlo Hhi].
  unfold validate_step in H |- *.
  destruct (a <=? 127)%Z; [exact H|].
  destruct ((194 <=? a)%Z && (a <=? 223)%Z).
  { destruct (negb (is_cont b)) eqn:E; [discriminate H|].
    injection H as <-. rewrite Hb by lia. rewrite E. reflexivity. }
  destruct (a =? 224)%Z.
  { destruct ((b <? 160)%Z || (191 <? b)%Z || negb (is_cont c)) eqn:E; [discriminate H|].
    injection H as <-. rewrite Hb, Hc by lia. rewrite E. reflexivity. }
  destruct ((225 <=? a)%Z && (a <=? 236)%Z).
  { destruct (negb (is_cont b) || negb (is_cont c)) eqn:E; [discriminate H|].
    injection H as <-. rewrite Hb, Hc by lia. rewrite E. reflexivity. }
  destruct (a =? 237)%Z.
  { destruct ((b <? 128)%Z || (159 <? b)%Z || negb (is_cont c)) eqn:E; [discriminate H|].
    injection H as <-. rewrite Hb, Hc by lia. rewrite E. reflexivity. }
  destruct ((238 <=? a)%Z && (a <=? 239)%Z).
  { destruct (negb (is_cont b) || negb (is_cont c)) eqn:E; [discriminate H|].
    injection H as <-. rewrite Hb, Hc by lia. rewrite E. reflexivity. }
  destruct (a =? 240)%Z.
  { destruct ((b <? 144)%Z || (191 <? b)%Z || negb (is_cont c) || negb (is_cont d)) eqn:E;
      [discriminate H|].
    injection H as <-. rewrite Hb, Hc, Hd by lia. rewrite E. reflexivity. }
  destruct ((241 <=? a)%Z && (a <=? 243)%Z).
  { destruct (negb (is_cont b) || negb (is_cont c) || negb (is_cont d)) eqn:E;
      [discriminate H|].
    injection H as <-. rewrite Hb, Hc, Hd by lia. rewrite E. reflexivity. }
  destruct (a =? 244)%Z.
  { destruct ((b <? 128)%Z || (143 <? b)%Z || negb (is_cont c) || negb (is_cont d)) eqn:E;
      [discriminate H|].
    injection H as <-. rewrite Hb, Hc, Hd by lia. rewrite E. reflexivity. }
  discriminate H.
Qed.

(** The bytes of an accepted character after the first are not the
    terminator. *)
Lemma validate_step_nonzero (a b c d : Z) (k : nat) :
  validate_step a b c d = Some k ->
  (1 < k -> b <> 0%Z) /\ (2 < k -> c <> 0%Z) /\ (3 < k -> d <> 0%Z).
Proof.
  intros H.
  assert (forall x : Z, is_cont x = true -> x <> 0%Z) as Hcont.
  { intros x Hx ->. discriminate Hx. }
  unfold validate_step in H.
  repeat match type of H with
         | (if ?c then _ else _) = _ => destruct c eqn:?
         end;
    try discriminate H; injection H as <-;
    repeat match goal with
           | E : (_ || _) = false |- _ => apply orb_false_elim in E as [? ?]
           | E : negb _ = false |- _ => apply negb_false_iff in E
           end;
    (split; [|split]); intros Hk; try lia; auto.
Qed.

Lemma utf8_char (ch : list Z) : is_char ch -> utf8 ch.
Proof.
  intros H. rewrite <- (app_nil_r ch). apply utf8_cons; [exact H | apply utf8_nil].
Qed.

Lemma utf8_app (a b : list Z) : utf8 a -> utf8 b -> utf8 (a ++ b).
Proof.
  induction 1 as [|ch rest Hch Hrest IH]; intros Hb; [exact Hb|].
  rewrite <- app_assoc. apply utf8_cons; auto.
Qed.

Lemma is_char_length (ch : list Z) : is_char ch -> 1 <= length ch <= 4.
Proof.
  intros [_ H]. exact (validate_step_range _ _ _ _ _ (H [])).
Qed.

Lemma utf8_nonzero (s : list Z) : utf8 s -> Forall (fun b => b <> 0%Z) s.
Proof.
  induction 1 as [|ch rest [Hnz _] _ IH]; [constructor|].
  apply Forall_app. auto.
Qed.

Lemma is_char_marker : is_char replacement.
Proof.
  split; [repeat constructor; discriminate|]. intros tl. reflexivity.
Qed.

Lemma is_char_question : is_char [63%Z].
Proof.
  split; [repeat constructor; discriminate|]. intros tl. reflexivity.
Qed.

Lemma utf8_tok (t : list Z) : tok t -> utf8 t.
Proof.
  intros [-> | ->]; apply utf8_char; [apply is_char_marker | apply is_char_question].
Qed.

(** [validateUtf8] accepts valid text. *)
Lemma validate_loop_utf8 (s : list Z) :
  utf8 s ->
  forall (pre : list Z) (fuel : nat),
    length s <= fuel -> validate_loop fuel (pre ++ s) (length pre) = Some true.
Proof.
  induction 1 as [|ch rest Hch Hrest IH]; intros pre fuel Hfuel.
  - destruct fuel; cbn; rewrite app_nil_r, cget_ge by lia; reflexivity.
  - pose proof (is_char_length ch Hch) as Hlen.
    destruct Hch as [Hnz Hstep].
    rewrite length_app in Hfuel.
    destruct fuel as [|fuel]; [lia|].
    cbn [validate_loop].
    assert (forall j : nat, cget (pre ++ ch ++ rest) (length pre + j) = cget (ch ++ rest) j)
      as Hget by (intros j; apply cget_app_r).
    pose proof (Hget 0) as Hget0. rewrite Nat.add_0_r in Hget0.
    rewrite !Hget0, !Hget, (Hstep rest).
    assert (cget (ch ++ rest) 0 <> 0%Z) as Hb0.
    { destruct ch as [|b0 ch']; [cbn in Hlen; lia|]. inversion Hnz; assumption. }
    destruct (Z.eqb_spec (cget (ch ++ rest) 0) 0); [contradiction|].
    replace (length pre + length ch) with (length (pre ++ ch))
      by (rewrite length_app; reflexivity).
    rewrite (app_assoc pre ch rest).
    apply IH. lia.
Qed.

Lemma validateUtf8_utf8 (s : list Z) : utf8 s -> validateUtf8 (Ptr s) = Some true.
Proof.
  intros H. exact (validate_loop_utf8 s H [] (length s) (le_n _)).
Qed.

Lemma strlen_from_app (pre s rest : list Z) :
  Forall (fun b => b <> 0%Z) s ->
  strlen_from (pre ++ s ++ 0%Z :: rest) (length pre) = Some (length s).
Proof.
  intros Hs. induction pre as [|x pre IH]; cbn [length app strlen_from]; [|exact IH].
  induction Hs as [|b s Hb Hs IHs]; cbn [length app strlen_from].
  - reflexivity.
  - destruct (Z.eqb_spec b 0); [contradiction|].
    destruct s; cbn [app] in *; rewrite IHs; reflexivity.
Qed.

Lemma cstr_at_app (pre s rest : list Z) :
  Forall (fun b => b <> 0%Z) s ->
  cstr_at (pre ++ s ++ 0%Z :: rest) (length pre) = Some s.
Proof.
  intros Hs. unfold cstr_at. rewrite strlen_from_app by exact Hs.
  cbn [mbind option_bind]. rewrite drop_app_length, take_app_length. reflexivity.
Qed.

Lemma strlen_from_inv (buf : list Z) :
  forall (off m : nat),
    strlen_from buf off = Some m ->
    exists pre s rest : list Z,
      buf = pre ++ s ++ 0%Z :: rest /\ length pre = off /\ length s = m
      /\ Forall (fun b => b <> 0%Z) s.
Proof.
  induction buf as [|b buf IH]; intros off m H.
  - destruct off; discriminate H.
  - destruct off as [|off]; cbn [strlen_from] in H.
    + destruct (Z.eqb_spec b 0) as [->|Hb].
      * injection H as <-. exists [], [], buf. repeat split; constructor.
      * destruct (strlen_from buf 0) as [m'|] eqn:E; [|discriminate H].
        injection H as <-.
        destruct (IH 0 m' E) as (pre & s & rest & -> & Hpre & Hs & Hnz).
        destruct pre; [|discriminate Hpre].
        exists [], (b :: s), rest. cbn. repeat split; [congruence | constructor; assumption].
    + destruct (IH off m H) as (pre & s & rest & -> & Hpre & Hs & Hnz).
      exists (b :: pre), s, rest. cbn. repeat split; [congruence | assumption..].
Qed.

Lemma strlen_from_load (buf : list Z) (off m : nat) :
  strlen_from buf off = Some m ->
  exists b : Z,
    load buf off = Some b
    /\ (b = 0%Z -> m = 0)
    /\ (b <> 0%Z -> strlen_from buf (S off) = Some (m - 1) /\ 1 <= m).
Proof.
  intros H. destruct (strlen_from_inv buf off m H) as (pre & s & rest & -> & <- & <- & Hnz).
  unfold load. destruct Hnz as [|b s Hb Hs].
  - exists 0%Z. cbn [app length].
    rewrite lookup_app_r, Nat.sub_diag by lia.
    split; [reflexivity|]. split; [reflexivity | congruence].
  - exists b. cbn [app length].
    rewrite lookup_app_r, Nat.sub_diag by lia.
    split; [reflexivity|]. split; [congruence|]. intros _. split; [|lia].
    replace (S (length pre)) with (length (pre ++ [b])) by (rewrite length_app; cbn; lia).
    replace (pre ++ b :: s ++ 0%Z :: rest) with ((pre ++ [b]) ++ s ++ 0%Z :: rest)
      by (rewrite <- app_assoc; reflexivity).
    rewrite strlen_from_app by assumption. f_equal. lia.
Qed.

Lemma nonzero_run_sync (buf : list Z) (n : nat) :
  forall (i m : nat),
    strlen_from buf i = Some m -> nonzero_run buf i n = Some (nzb buf i n).
Proof.
  induction n as [|n IH]; intros i m H; [reflexivity|].
  cbn [nonzero_run nzb].
  destruct (strlen_from_load buf i m H) as (b & Hload & _ & Hnext).
  rewrite Hload, (cget_load _ _ _ Hload). cbn [mbind option_bind].
  destruct (Z.eqb_spec b 0) as [|Hb]; [reflexivity|].
  destruct (Hnext Hb) as [Hs _]. rewrite (IH _ _ Hs). reflexivity.
Qed.

Lemma copy_up_same (k : nat) :
  forall (buf : list Z) (p : nat),
    p + k <= length buf -> copy_up k buf p p = Some (buf, p + k, p + k).
Proof.
  induction k as [|k IH]; intros buf p Hlen; cbn [copy_up].
  - rewrite Nat.add_0_r. reflexivity.
  - unfold load. destruct (lookup_lt_is_Some_2 buf p ltac:(lia)) as [b Hb].
    rewrite Hb. cbn [mbind option_bind].
    rewrite store_Some by lia. cbn [mbind option_bind].
    rewrite list_insert_id by exact Hb.
    rewrite IH by lia. replace (S p + k) with (p + S k) by lia. reflexivity.
Qed.

Ltac bool_cases :=
  repeat match goal with
         | |- context [(?a =? 0)%Z] =>
             destruct (Z.eqb_spec a 0); [subst; rewrite ?is_cont_zero|]
         end;
  repeat match goal with
         | |- context [(?a <=? ?b)%Z] => destruct (Z.leb_spec a b)
         | |- context [(?a <? ?b)%Z] => destruct (Z.ltb_spec a b)
         | |- context [(?a =? ?b)%Z] => destruct (Z.eqb_spec a b)
         | |- context [is_cont ?b] => destruct (is_cont b) eqn:?
         end;
  cbn [negb andb orb]; cbv iota; try reflexivity; try lia.

(** The ten branches of a round of [sanitizeUtf8] keep exactly what a round
    of [validateUtf8] accepts, and replace the rest. *)
Lemma sanitize_round_cases (buf : list Z) (src dst maxLen : nat) (b0 : Z) :
  load buf src = Some b0 -> 1 <= maxLen ->
  (forall n : nat, n <= 3 -> nonzero_run buf (src + 1) n = Some (nzb buf (src + 1) n)) ->
  sanitize_round buf src dst maxLen
  = match validate_step b0 (cget buf (src + 1)) (cget buf (src + 2)) (cget buf (src + 3)) with
    | Some k => keep_seq k buf src dst maxLen
    | None => put_replacement buf src dst maxLen
    end.
Proof.
  intros Hload Hmax Hnz.
  unfold sanitize_round, validate_step.
  rewrite Hload. cbn [mbind option_bind].
  rewrite !Hnz by lia. cbn [mbind option_bind nzb].
  replace (S (src + 1)) with (src + 2) by lia.
  replace (S (src + 2)) with (src + 3) by lia.
  generalize (cget buf (src + 1)) (cget buf (src + 2)) (cget buf (src + 3)).
  intros b1 b2 b3.
  destruct (b0 <=? 127)%Z; cbv iota.
  { unfold keep_seq.
    destruct (Nat.leb_spec (maxLen - 1) dst), (Nat.leb_spec maxLen (dst + 1));
      try lia; reflexivity. }
  destruct ((194 <=? b0)%Z && (b0 <=? 223)%Z); cbv iota.
  { bool_cases. }
  destruct (b0 =? 224)%Z; cbv iota.
  { bool_cases. }
  destruct ((225 <=? b0)%Z && (b0 <=? 236)%Z); cbv iota.
  { bool_cases. }
  destruct (b0 =? 237)%Z; cbv iota.
  { bool_cases. }
  destruct ((238 <=? b0)%Z && (b0 <=? 239)%Z); cbv iota.
  { bool_cases. }
  destruct (b0 =? 240)%Z; cbv iota.
  { bool_cases. }
  destruct ((241 <=? b0)%Z && (b0 <=? 243)%Z); cbv iota.
  { bool_cases. }
  destruct (b0 =? 244)%Z; cbv iota.
  { bool_cases. }
  reflexivity.
Qed.

Lemma load_app_head (pre rest : list Z) (b : Z) : load (pre ++ b :: rest) (length pre) = Some b.
Proof. unfold load. rewrite lookup_app_r, Nat.sub_diag by lia. reflexivity. Qed.

Lemma store_app_head (pre rest : list Z) (b v : Z) :
  store (pre ++ b :: rest) (length pre) v = Some (pre ++ v :: rest).
Proof.
  rewrite store_Some by (rewrite length_app; cbn; lia).
  f_equal. replace (length pre) with (length pre + 0) at 1 by lia.
  rewrite insert_app_r. reflexivity.
Qed.

(** [put_replacement] on a buffer split at [dst]. *)
Lemma put_replacement_app (front post : list Z) (src maxLen : nat) :
  maxLen <= length (front ++ post) ->
  put_replacement (front ++ post) src (length front) maxLen
  = if length front + 3 <? maxLen
    then Some (Continue (front ++ replacement ++ drop 3 post) (src + 1) (length front + 3))
    else if length front <? maxLen - 1
         then Some (Continue (front ++ 63%Z :: drop 1 post) (src + 1) (length front + 1))
         else Some Break.
Proof.
  intros Hcap. rewrite length_app in Hcap. unfold put_replacement, replLen.
  destruct (Nat.ltb_spec (length front + 3) maxLen) as [H3|H3].
  - unfold memcpy.
    destruct (decide (length front + 3 <= length (front ++ post) /\ 3 <= length replacement))
      as [_|Hn]; [|exfalso; apply Hn; rewrite length_app; cbn; lia].
    cbn [mbind option_bind].
    rewrite take_app_length, drop_app_add. reflexivity.
  - destruct (Nat.ltb_spec (length front) (maxLen - 1)) as [H1|H1]; [|reflexivity].
    destruct post as [|y post]; [cbn in Hcap; lia|].
    rewrite store_app_head. reflexivity.
Qed.

(** Copying [chunk] from [src] to a [dst] that lies behind it. *)
Lemma copy_up_ahead (chunk : list Z) :
  forall (pre mid post : list Z),
    length chunk <= length post ->
    copy_up (length chunk) (pre ++ chunk ++ mid ++ post) (length pre)
      (length pre + length chunk + length mid)
    = Some (pre ++ chunk ++ mid ++ chunk ++ drop (length chunk) post,
            length pre + length chunk,
            length pre + length chunk + length mid + length chunk).
Proof.
  induction chunk as [|c chunk IH]; intros pre mid post Hlen; cbn [length copy_up].
  - cbn. rewrite !Nat.add_0_r. reflexivity.
  - cbn [app]. rewrite load_app_head. cbn [mbind option_bind].
    destruct post as [|y post]; [cbn in Hlen; lia|].
    replace (pre ++ c :: chunk ++ mid ++ y :: post)
      with ((pre ++ c :: chunk ++ mid) ++ y :: post)
      by (rewrite <- app_assoc; cbn; rewrite <- app_assoc; reflexivity).
    replace (length pre + S (length chunk) + length mid)
      with (length (pre ++ c :: chunk ++ mid))
      by (rewrite !length_app; cbn [length]; rewrite length_app; lia).
    rewrite store_app_head. cbn [mbind option_bind].
    replace ((pre ++ c :: chunk ++ mid) ++ c :: post)
      with ((pre ++ [c]) ++ chunk ++ (mid ++ [c]) ++ post)
      by (rewrite <- !app_assoc; cbn; rewrite <- !app_assoc; reflexivity).
    replace (S (length pre)) with (length (pre ++ [c])) by (rewrite length_app; cbn; lia).
    replace (S (length (pre ++ c :: chunk ++ mid)))
      with (length (pre ++ [c]) + length chunk + length (mid ++ [c]))
      by (rewrite !length_app; cbn [length]; rewrite length_app; lia).
    cbn [length] in Hlen.
    rewrite IH by lia.
    rewrite <- !app_assoc. cbn [app drop].
    repeat match goal with
           | |- Some _ = Some _ => f_equal
           | |- (_, _) = (_, _) => f_equal
           end;
      try reflexivity; repeat first [rewrite length_app | progress cbn [length]]; lia.
Qed.

Lemma strlen_from_skip (buf : list Z) (k : nat) :
  forall (p m : nat),
    strlen_from buf p = Some m ->
    (forall j : nat, j < k -> cget buf (p + j) <> 0%Z) ->
    k <= m /\ strlen_from buf (p + k) = Some (m - k).
Proof.
  induction k as [|k IH]; intros p m H Hnz.
  - rewrite Nat.add_0_r, Nat.sub_0_r. split; [lia | exact H].
  - destruct (strlen_from_load buf p m H) as (b & Hload & _ & Hnext).
    assert (b <> 0%Z) as Hb.
    { specialize (Hnz 0 ltac:(lia)). rewrite Nat.add_0_r, (cget_load _ _ _ Hload) in Hnz.
      exact Hnz. }
    destruct (Hnext Hb) as [Hs Hm].
    destruct (IH (S p) (m - 1) Hs) as [Hk Hs'].
    { intros j Hj. replace (S p + j) with (p + S j) by lia. apply Hnz. lia. }
    split; [lia|].
    replace (p + S k) with (S p + k) by lia. rewrite Hs'. f_equal. lia.
Qed.

Lemma cget_take_drop (buf tl : list Z) (p k j : nat) :
  j < k -> p + k <= length buf -> cget (take k (drop p buf) ++ tl) j = cget buf (p + j).
Proof.
  intros Hj Hlen. unfold cget.
  rewrite lookup_app_l by (rewrite length_take, length_drop; lia).
  rewrite lookup_take_lt, lookup_drop by lia. reflexivity.
Qed.

(** The bytes a round of [validateUtf8] accepts at [p] form a character. *)
Lemma is_char_at (buf : list Z) (p k : nat) :
  p + k <= length buf -> cget buf p <> 0%Z ->
  validate_step (cget buf p) (cget buf (p + 1)) (cget buf (p + 2)) (cget buf (p + 3)) = Some k ->
  is_char (take k (drop p buf)).
Proof.
  intros Hlen Hb0 Hstep.
  destruct (validate_step_range _ _ _ _ _ Hstep) as [Hlo Hhi].
  destruct (validate_step_nonzero _ _ _ _ _ Hstep) as (H1 & H2 & H3).
  assert (length (take k (drop p buf)) = k) as Hk
    by (rewrite length_take, length_drop; lia).
  split.
  - apply Forall_lookup_2. intros j b Hj.
    assert (j < k) as Hjk by (apply lookup_lt_Some in Hj; lia).
    rewrite lookup_take_lt, lookup_drop in Hj by lia.
    assert (cget buf (p + j) = b) as <- by (unfold cget; rewrite Hj; reflexivity).
    destruct j as [|[|[|[|j]]]]; [rewrite Nat.add_0_r; exact Hb0 | auto with lia ..| lia].
  - intros tl. rewrite Hk.
    assert (cget (take k (drop p buf) ++ tl) 0 = cget buf p) as ->.
    { rewrite cget_take_drop by lia. rewrite Nat.add_0_r. reflexivity. }
    apply (validate_step_prefix _ _ _ _ _ _ _ _ Hstep);
      intros Hgt; apply cget_take_drop; lia.
Qed.

Ltac len_norm := repeat first [rewrite length_app | rewrite length_take | rewrite length_drop
                              | progress cbn [length concat]].

(** One round with the cursors together. *)
Lemma san_step_sync (maxLen : nat) (buf : list Z) (p m : nat) (b0 : Z) :
  p < maxLen -> maxLen <= length buf -> utf8 (take p buf) ->
  strlen_from buf p = Some m -> load buf p = Some b0 -> b0 <> 0%Z ->
  exists r : round,
    sanitize_round buf p p maxLen = Some r
    /\ match r with
       | Break => True
       | Continue buf' src' dst' =>
           san_inv maxLen buf' src' dst' /\ p < src' /\ length buf' = length buf
       end.
Proof.
  intros Hp Hcap Hutf Hstr Hload Hb0.
  destruct (strlen_from_load buf p m Hstr) as (b & Hload' & _ & Hnext).
  rewrite Hload in Hload'. injection Hload' as <-.
  destruct (Hnext Hb0) as [Hstr1 Hm].
  rewrite (sanitize_round_cases buf p p maxLen b0 Hload) by
    (try lia; intros n _; replace (p + 1) with (S p) by lia;
     exact (nonzero_run_sync buf n (S p) (m - 1) Hstr1)).
  pose proof (cget_load _ _ _ Hload) as Hc0.
  destruct (validate_step b0 (cget buf (p + 1)) (cget buf (p + 2)) (cget buf (p + 3)))
    as [k|] eqn:Hstep.
  - (* a well-formed character *)
    destruct (validate_step_range _ _ _ _ _ Hstep) as [Hlo Hhi].
    destruct (validate_step_nonzero _ _ _ _ _ Hstep) as (H1 & H2 & H3).
    unfold keep_seq. destruct (Nat.leb_spec maxLen (p + k)) as [|Hfit].
    { exists Break. auto. }
    rewrite copy_up_same by lia. cbn [mbind option_bind].
    exists (Continue buf (p + k) (p + k)). split; [reflexivity|].
    split; [|split; [lia | reflexivity]].
    assert (forall j : nat, j < k -> cget buf (p + j) <> 0%Z) as Hnz.
    { intros j Hj. destruct j as [|[|[|[|j]]]]; [|auto with lia..|lia].
      rewrite Nat.add_0_r, Hc0. exact Hb0. }
    destruct (strlen_from_skip buf k p m Hstr Hnz) as [_ Hstrk].
    apply (san_sync maxLen buf (p + k) (p + k) (m - k)); auto with lia.
    rewrite <- take_take_drop. apply utf8_app; [exact Hutf|].
    apply utf8_char, is_char_at; [lia | rewrite Hc0; exact Hb0 | rewrite Hc0; exact Hstep].
  - (* a byte that starts no character *)
    assert (buf = take p buf ++ drop p buf) as Hsplit by (symmetry; apply take_drop).
    assert (length (take p buf) = p) as Hfront by (rewrite length_take; lia).
    set (front := take p buf) in *. set (post := drop p buf) in *.
    replace (put_replacement buf p p maxLen)
      with (put_replacement (front ++ post) p (length front) maxLen)
      by (rewrite Hfront, <- Hsplit; reflexivity).
    rewrite put_replacement_app by (rewrite <- Hsplit; lia).
    rewrite Hfront.
    assert (length post = length buf - p) as Hpost by (subst post; apply length_drop).
    assert (drop 1 post = drop (S p) buf) as Hpost1
      by (subst post; rewrite drop_drop; f_equal; lia).
    clearbody front post.
    destruct (Nat.ltb_spec (p + 3) maxLen) as [H3|H3].
    + eexists. split; [reflexivity|].
      split; [|split; [lia|]].
      * apply (san_lag maxLen _ (p + 1) (p + 3) (front ++ [239%Z]) [191; 189]%Z []
                 (drop 3 post)).
        -- rewrite <- !app_assoc. reflexivity.
        -- len_norm. lia.
        -- len_norm. lia.
        -- discriminate.
        -- right. right. reflexivity.
        -- constructor.
        -- lia.
        -- len_norm. cbn. len_norm. lia.
        -- rewrite <- app_assoc. apply utf8_app; [exact Hutf|].
           apply utf8_char, is_char_marker.
      * len_norm. cbn. len_norm. lia.
    + destruct (Nat.ltb_spec p (maxLen - 1)) as [H1|H1]; [|exists Break; auto].
      eexists. split; [reflexivity|].
      split; [|split; [lia|]].
      * destruct (strlen_from_inv buf (S p) (m - 1) Hstr1)
          as (pre2 & s2 & rest2 & Hbuf & Hpre2 & Hs2 & Hnz2).
        assert (drop 1 post = s2 ++ 0%Z :: rest2) as Hd.
        { rewrite Hpost1, <- Hpre2, Hbuf. apply drop_app_length. }
        rewrite Hd.
        replace (front ++ 63%Z :: s2 ++ 0%Z :: rest2)
          with ((front ++ [63%Z]) ++ s2 ++ 0%Z :: rest2)
          by (rewrite <- app_assoc; reflexivity).
        apply (san_sync maxLen _ (p + 1) (p + 1) (m - 1)).
        -- reflexivity.
        -- lia.
        -- rewrite <- Hd. len_norm. lia.
        -- rewrite take_app_length' by (len_norm; lia).
           apply utf8_app; [exact Hutf | apply utf8_char, is_char_question].
        -- replace (p + 1) with (length (front ++ [63%Z])) by (len_norm; lia).
           rewrite strlen_from_app by assumption. congruence.
      * len_norm. lia.
Qed.

Lemma sanitize_round_stray (buf : list Z) (src dst maxLen : nat) (b0 : Z) :
  load buf src = Some b0 -> b0 = 191%Z \/ b0 = 189%Z ->
  sanitize_round buf src dst maxLen = put_replacement buf src dst maxLen.
Proof.
  intros Hload [-> | ->]; unfold sanitize_round; rewrite Hload; reflexivity.
Qed.

Lemma sanitize_round_question (buf : list Z) (src dst maxLen : nat) :
  load buf src = Some 63%Z ->
  sanitize_round buf src dst maxLen
  = if maxLen - 1 <=? dst then Some Break
    else '(buf1, src1, dst1) ← copy_up 1 buf src dst; Some (Continue buf1 src1 dst1).
Proof.
  intros Hload. unfold sanitize_round. rewrite Hload. reflexivity.
Qed.

Lemma sanitize_round_marker (buf : list Z) (src dst maxLen : nat) :
  load buf src = Some 239%Z -> load buf (src + 1) = Some 191%Z ->
  load buf (src + 2) = Some 189%Z ->
  sanitize_round buf src dst maxLen = keep_seq 3 buf src dst maxLen.
Proof.
  intros H0 H1 H2. unfold sanitize_round.
  rewrite H0, (cget_load _ _ _ H1), (cget_load _ _ _ H2).
  cbn [mbind option_bind nonzero_run].
  replace (S (src + 1)) with (src + 2) by lia.
  rewrite H1, H2. reflexivity.
Qed.

Lemma tok_nonempty (t : list Z) : tok t -> t <> [].
Proof. intros [-> | ->]; discriminate. Qed.

(** After a round that consumed [c] and emitted the token [t] behind the
    pending bytes, the invariant holds again. *)
Lemma lag_emit (maxLen : nat) (pre c X : list Z) (T : list (list Z)) (t post : list Z) :
  lag X -> Forall tok T -> tok t ->
  utf8 (pre ++ c ++ X ++ concat T) ->
  length (pre ++ c ++ X ++ concat T ++ t) < maxLen ->
  maxLen <= length (pre ++ c ++ X ++ concat T ++ t ++ post) ->
  san_inv maxLen (pre ++ c ++ X ++ concat T ++ t ++ post)
    (length pre + length c) (length (pre ++ c ++ X ++ concat T ++ t)).
Proof.
  intros HX HT Ht Hutf Hdst Hcap.
  assert (concat (T ++ [t]) = concat T ++ t) as Hcat
    by (rewrite concat_app; cbn [concat]; rewrite app_nil_r; reflexivity).
  apply (san_lag maxLen _ _ _ (pre ++ c) X (T ++ [t]) post).
  - rewrite Hcat, <- !app_assoc. reflexivity.
  - rewrite length_app. reflexivity.
  - rewrite Hcat. len_norm. lia.
  - rewrite Hcat. pose proof (tok_nonempty t Ht).
    intros Hnil. apply app_eq_nil in Hnil as [_ Hnil].
    apply app_eq_nil in Hnil as [_ Hnil]. contradiction.
  - exact HX.
  - apply Forall_app. split; [exact HT | constructor; [exact Ht | constructor]].
  - exact Hdst.
  - exact Hcap.
  - rewrite Hcat.
    replace ((pre ++ c) ++ X ++ concat T ++ t) with ((pre ++ c ++ X ++ concat T) ++ t)
      by (rewrite <- !app_assoc; reflexivity).
    apply utf8_app; [exact Hutf | apply utf8_tok; exact Ht].
Qed.

(** One round when [src] reads the tail of a marker: the byte is replaced. *)
Lemma san_step_stray (maxLen : nat) (pre : list Z) (b : Z) (X : list Z)
    (T : list (list Z)) (post : list Z) :
  b = 191%Z \/ b = 189%Z ->
  lag X -> Forall tok T ->
  utf8 (pre ++ [b] ++ X ++ concat T) ->
  length (pre ++ [b] ++ X ++ concat T) < maxLen ->
  maxLen <= length ((pre ++ [b] ++ X ++ concat T) ++ post) ->
  exists r : round,
    sanitize_round ((pre ++ [b] ++ X ++ concat T) ++ post) (length pre)
      (length (pre ++ [b] ++ X ++ concat T)) maxLen = Some r
    /\ match r with
       | Break => True
       | Continue buf' src' dst' =>
           san_inv maxLen buf' src' dst' /\ length pre < src'
           /\ length buf' = length ((pre ++ [b] ++ X ++ concat T) ++ post)
       end.
Proof.
  intros Hb HX HT Hutf Hdst Hcap.
  set (front := pre ++ [b] ++ X ++ concat T) in *.
  assert (load (front ++ post) (length pre) = Some b) as Hload.
  { subst front. rewrite <- app_assoc. cbn [app]. apply load_app_head. }
  rewrite (sanitize_round_stray _ _ _ _ b Hload Hb).
  rewrite put_replacement_app by exact Hcap.
  assert (length (front ++ post) = length front + length post) as Hlen
    by apply length_app.
  destruct (Nat.ltb_spec (length front + 3) maxLen) as [H3|H3].
  - eexists. split; [reflexivity|].
    assert (length (drop 3 post) = length post - 3) as Hd by apply length_drop.
    split; [|split; [lia | len_norm; cbn; len_norm; lia]].
    pose proof (lag_emit maxLen pre [b] X T replacement (drop 3 post) HX HT
                  (or_introl eq_refl)) as Hinv.
    replace (pre ++ [b] ++ X ++ concat T ++ replacement ++ drop 3 post)
      with (front ++ replacement ++ drop 3 post) in Hinv
      by (subst front; rewrite <- !app_assoc; reflexivity).
    replace (length (pre ++ [b] ++ X ++ concat T ++ replacement))
      with (length front + 3) in Hinv
      by (subst front; len_norm; cbn; len_norm; lia).
    cbn [length] in Hinv. apply Hinv; [exact Hutf | lia |].
    len_norm. cbn. len_norm. lia.
  - destruct (Nat.ltb_spec (length front) (maxLen - 1)) as [H1|H1]; [|exists Break; auto].
    eexists. split; [reflexivity|].
    assert (length (drop 1 post) = length post - 1) as Hd by apply length_drop.
    split; [|split; [lia | len_norm; lia]].
    pose proof (lag_emit maxLen pre [b] X T [63%Z] (drop 1 post) HX HT
                  (or_intror eq_refl)) as Hinv.
    replace (pre ++ [b] ++ X ++ concat T ++ [63%Z] ++ drop 1 post)
      with (front ++ 63%Z :: drop 1 post) in Hinv
      by (subst front; rewrite <- !app_assoc; reflexivity).
    replace (length (pre ++ [b] ++ X ++ concat T ++ [63%Z]))
      with (length front + 1) in Hinv
      by (subst front; len_norm; lia).
    cbn [length] in Hinv. apply Hinv; [exact Hutf | lia |].
    len_norm. lia.
Qed.

(** One round when [src] reads a token that [dst] wrote earlier: the token
    is copied behind the pending bytes. *)
Lemma san_step_token (maxLen : nat) (pre t : list Z) (T : list (list Z)) (post : list Z) :
  tok t -> Forall tok T ->
  utf8 (pre ++ t ++ concat T) ->
  length (pre ++ t ++ concat T) < maxLen ->
  maxLen <= length ((pre ++ t ++ concat T) ++ post) ->
  exists r : round,
    sanitize_round ((pre ++ t ++ concat T) ++ post) (length pre)
      (length (pre ++ t ++ concat T)) maxLen = Some r
    /\ match r with
       | Break => True
       | Continue buf' src' dst' =>
           san_inv maxLen buf' src' dst' /\ length pre < src'
           /\ length buf' = length ((pre ++ t ++ concat T) ++ post)
       end.
Proof.
  intros Ht HT Hutf Hdst Hcap.
  assert (length ((pre ++ t ++ concat T) ++ post)
          = length (pre ++ t ++ concat T) + length post) as Hlen by apply length_app.
  assert (length (pre ++ t ++ concat T) = length pre + length t + length (concat T)) as Hfront
    by (len_norm; lia).
  assert (copy_ok : forall k : nat,
    k = length t -> length t <= length post ->
    copy_up k ((pre ++ t ++ concat T) ++ post) (length pre)
      (length (pre ++ t ++ concat T))
    = Some (pre ++ t ++ concat T ++ t ++ drop (length t) post,
            length pre + length t, length (pre ++ t ++ concat T) + length t)).
  { intros k -> Hfit. rewrite Hfront.
    replace ((pre ++ t ++ concat T) ++ post) with (pre ++ t ++ concat T ++ post)
      by (rewrite <- !app_assoc; reflexivity).
    rewrite copy_up_ahead by exact Hfit. reflexivity. }
  assert (after :
    length (pre ++ t ++ concat T) + length t < maxLen ->
    san_inv maxLen (pre ++ t ++ concat T ++ t ++ drop (length t) post)
      (length pre + length t) (length (pre ++ t ++ concat T) + length t)).
  { intros Hfit.
    pose proof (lag_emit maxLen pre t [] T t (drop (length t) post)
                  (or_introl eq_refl) HT Ht) as Hinv.
    cbn [app] in Hinv.
    replace (length (pre ++ t ++ concat T ++ t))
      with (length (pre ++ t ++ concat T) + length t) in Hinv by (len_norm; lia).
    apply Hinv; [exact Hutf | exact Hfit |].
    len_norm. lia. }
  assert (length (pre ++ t ++ concat T ++ t ++ drop (length t) post)
          = length (pre ++ t ++ concat T) + length t + (length post - length t)) as Hlen'
    by (len_norm; lia).
  assert (1 <= length t) as Hne by (destruct Ht as [-> | ->]; cbn; lia).
  destruct Ht as [Hm | Hq].
  - (* the marker *)
    assert (length t = 3) as H3 by (rewrite Hm; reflexivity).
    rewrite sanitize_round_marker.
    2:{ rewrite Hm, <- app_assoc. apply load_app_head. }
    2:{ rewrite Hm, <- app_assoc.
        replace (pre ++ (replacement ++ concat T) ++ post)
          with ((pre ++ [239%Z]) ++ 191%Z :: ([189%Z] ++ concat T) ++ post)
          by (rewrite <- !app_assoc; reflexivity).
        replace (length pre + 1) with (length (pre ++ [239%Z])) by (len_norm; lia).
        apply load_app_head. }
    2:{ rewrite Hm, <- app_assoc.
        replace (pre ++ (replacement ++ concat T) ++ post)
          with ((pre ++ [239; 191]%Z) ++ 189%Z :: concat T ++ post)
          by (rewrite <- !app_assoc; reflexivity).
        replace (length pre + 2) with (length (pre ++ [239; 191]%Z)) by (len_norm; lia).
        apply load_app_head. }
    unfold keep_seq.
    destruct (Nat.leb_spec maxLen (length (pre ++ t ++ concat T) + 3)) as [|Hfit];
      [exists Break; auto|].
    rewrite (copy_ok 3) by lia. cbn [mbind option_bind].
    eexists. split; [reflexivity|].
    split; [apply after; lia|]. split; [lia|]. rewrite Hlen', Hlen. lia.
  - (* the question mark *)
    assert (length t = 1) as H1 by (rewrite Hq; reflexivity).
    rewrite sanitize_round_question.
    2:{ rewrite Hq, <- app_assoc. apply load_app_head. }
    destruct (Nat.leb_spec (maxLen - 1) (length (pre ++ t ++ concat T))) as [|Hfit];
      [exists Break; auto|].
    rewrite (copy_ok 1) by lia. cbn [mbind option_bind].
    eexists. split; [reflexivity|].
    split; [apply after; lia|]. split; [lia|]. rewrite Hlen', Hlen. lia.
Qed.

Lemma san_inv_facts (maxLen : nat) (buf : list Z) (src dst : nat) :
  san_inv maxLen buf src dst ->
  src <= dst /\ dst < maxLen /\ maxLen <= length buf /\ utf8 (take dst buf)
  /\ exists b : Z, load buf src = Some b.
Proof.
  intros [m -> Hdst Hcap Hutf Hstr | pre X T post -> -> -> Hne HX HT Hdst Hcap Hutf].
  - destruct (strlen_from_load buf dst m Hstr) as (b & Hb & _). eauto 10 with lia.
  - split; [lia|]. split; [exact Hdst|]. split; [exact Hcap|]. split.
    + rewrite app_assoc, take_app_length' by (len_norm; lia).
      exact Hutf.
    + destruct (X ++ concat T) as [|b R] eqn:E; [contradiction|].
      exists b. cbn [app]. apply load_app_head.
Qed.

(** One round of the loop keeps the invariant and moves [src] on. *)
Lemma san_step (maxLen : nat) (buf : list Z) (src dst : nat) (b0 : Z) :
  san_inv maxLen buf src dst -> load buf src = Some b0 -> b0 <> 0%Z ->
  exists r : round,
    sanitize_round buf src dst maxLen = Some r
    /\ match r with
       | Break => True
       | Continue buf' src' dst' =>
           san_inv maxLen buf' src' dst' /\ src < src' /\ length buf' = length buf
       end.
Proof.
  intros [m -> Hdst Hcap Hutf Hstr | pre X T post -> -> -> Hne HX HT Hdst Hcap Hutf]
    Hload Hb0.
  - exact (san_step_sync maxLen buf dst m b0 Hdst Hcap Hutf Hstr Hload Hb0).
  - destruct HX as [-> | [-> | ->]].
    + (* a pending token *)
      destruct T as [|t T]; [contradiction|].
      assert (tok t /\ Forall tok T) as [Ht HT'] by (inversion HT; auto).
      clear HT. rename HT' into HT.
      cbn [app concat] in *.
      replace (pre ++ (t ++ concat T) ++ post) with ((pre ++ t ++ concat T) ++ post) in *
        by (rewrite <- !app_assoc; reflexivity).
      replace (length pre + length (t ++ concat T)) with (length (pre ++ t ++ concat T)) in *
        by (len_norm; lia).
      exact (san_step_token maxLen pre t T post Ht HT Hutf Hdst Hcap).
    + (* the last byte of a marker *)
      replace (pre ++ ([189%Z] ++ concat T) ++ post)
        with ((pre ++ [189%Z] ++ [] ++ concat T) ++ post) in *
        by (rewrite <- !app_assoc; reflexivity).
      replace (length pre + length ([189%Z] ++ concat T))
        with (length (pre ++ [189%Z] ++ [] ++ concat T)) in *
        by (len_norm; lia).
      exact (san_step_stray maxLen pre 189 [] T post (or_intror eq_refl)
               (or_introl eq_refl) HT Hutf Hdst Hcap).
    + (* the last two bytes of a marker *)
      replace (pre ++ ([191; 189]%Z ++ concat T) ++ post)
        with ((pre ++ [191%Z] ++ [189%Z] ++ concat T) ++ post) in *
        by (rewrite <- !app_assoc; reflexivity).
      replace (length pre + length ([191; 189]%Z ++ concat T))
        with (length (pre ++ [191%Z] ++ [189%Z] ++ concat T)) in *
        by (len_norm; lia).
      exact (san_step_stray maxLen pre 191 [189%Z] T post (or_introl eq_refl)
               (or_intror (or_introl eq_refl)) HT Hutf Hdst Hcap).
Qed.

(** The loop ends within [maxLen] rounds, with valid UTF-8 before [dst]. *)
Lemma sanitize_loop_inv (maxLen : nat) (fuel : nat) :
  forall (buf : list Z) (src dst : nat),
    san_inv maxLen buf src dst -> maxLen - src <= fuel ->
    exists (buf' : list Z) (dst' : nat),
      sanitize_loop fuel buf src dst maxLen = Some (buf', dst')
      /\ dst' < maxLen /\ length buf' = length buf /\ utf8 (take dst' buf').
Proof.
  induction fuel as [|fuel IH]; intros buf src dst Hinv Hfuel;
    destruct (san_inv_facts _ _ _ _ Hinv) as (Hle & Hdst & Hcap & Hutf & b0 & Hload).
  - lia.
  - cbn [sanitize_loop]. rewrite Hload. cbn [mbind option_bind].
    destruct (Z.eqb_spec b0 0) as [|Hb0]; [eauto 10|].
    destruct (san_step maxLen buf src dst b0 Hinv Hload Hb0) as (r & Hr & Hafter).
    rewrite Hr. cbn [mbind option_bind].
    destruct r as [buf1 src1 dst1|]; [|eauto 10].
    destruct Hafter as (Hinv1 & Hsrc & Hlen1).
    destruct (IH buf1 src1 dst1 Hinv1 ltac:(lia)) as (buf' & dst' & Hloop & ? & Hlen' & ?).
    exists buf', dst'. rewrite Hloop. split; [reflexivity|].
    split; [assumption|]. split; [congruence | assumption].
Qed.

(** On a buffer that already holds valid UTF-8 below the capacity, the
    loop copies every character onto itself. *)
Lemma sanitize_loop_utf8 (maxLen : nat) (s : list Z) :
  utf8 s ->
  forall (pre rest : list Z) (fuel : nat),
    length pre + length s < maxLen -> maxLen <= length (pre ++ s ++ 0%Z :: rest) ->
    length s <= fuel ->
    sanitize_loop fuel (pre ++ s ++ 0%Z :: rest) (length pre) (length pre) maxLen
    = Some (pre ++ s ++ 0%Z :: rest, length pre + length s).
Proof.
  induction 1 as [|ch s' Hch Hs' IH]; intros pre rest fuel Hfit Hcap Hfuel.
  - destruct fuel; cbn [sanitize_loop app]; rewrite load_app_head;
      cbn [mbind option_bind length]; rewrite Nat.add_0_r; reflexivity.
  - pose proof (is_char_length ch Hch) as Hlen.
    pose proof (utf8_nonzero _ (utf8_cons ch s' Hch Hs')) as Hnz.
    destruct Hch as [Hchnz Hstep].
    rewrite length_app in Hfit, Hfuel.
    destruct fuel as [|fuel]; [lia|].
    destruct ch as [|b0 ch']; [cbn in Hlen; lia|].
    assert (b0 <> 0%Z) as Hb0 by (inversion Hchnz; assumption).
    set (buf := pre ++ ((b0 :: ch') ++ s') ++ 0%Z :: rest) in *.
    assert (load buf (length pre) = Some b0) as Hload
      by (subst buf; cbn [app]; apply load_app_head).
    assert (strlen_from buf (length pre + 1) = Some (length (ch' ++ s'))) as Hstr.
    { subst buf. cbn [app].
      replace (pre ++ b0 :: (ch' ++ s') ++ 0%Z :: rest)
        with ((pre ++ [b0]) ++ (ch' ++ s') ++ 0%Z :: rest)
        by (rewrite <- !app_assoc; reflexivity).
      replace (length pre + 1) with (length (pre ++ [b0])) by (len_norm; lia).
      apply strlen_from_app. cbn [app] in Hnz. inversion Hnz; assumption. }
    cbn [sanitize_loop]. rewrite Hload. cbn [mbind option_bind].
    destruct (Z.eqb_spec b0 0); [contradiction|].
    rewrite (sanitize_round_cases buf (length pre) (length pre) maxLen b0 Hload)
      by (try lia; intros k _; exact (nonzero_run_sync buf k _ _ Hstr)).
    assert (forall j : nat, cget buf (length pre + j) = cget ((b0 :: ch') ++ s' ++ 0%Z :: rest) j)
      as Hget.
    { intros j. subst buf. rewrite <- (app_assoc (b0 :: ch')). apply cget_app_r. }
    specialize (Hstep (s' ++ 0%Z :: rest)).
    rewrite !Hget. change b0 with (cget ((b0 :: ch') ++ s' ++ 0%Z :: rest) 0) at 1.
    rewrite Hstep.
    unfold keep_seq.
    destruct (Nat.leb_spec maxLen (length pre + length (b0 :: ch'))); [lia|].
    rewrite copy_up_same by lia. cbn [mbind option_bind].
    subst buf.
    replace (pre ++ ((b0 :: ch') ++ s') ++ 0%Z :: rest)
      with ((pre ++ b0 :: ch') ++ s' ++ 0%Z :: rest) in *
      by (rewrite <- !app_assoc; reflexivity).
    replace (length pre + length (b0 :: ch')) with (length (pre ++ b0 :: ch'))
      by (rewrite length_app; reflexivity).
    cbn [length] in Hfit, Hfuel, Hlen.
    rewrite IH; [|len_norm; lia | exact Hcap | lia].
    len_norm. do 2 f_equal. lia.
Qed.

(** On valid text within the capacity [sanitizeUtf8] changes nothing. *)
Lemma sanitizeUtf8_text (maxLen : nat) (s rest : list Z) :
  utf8 s -> length s < maxLen -> maxLen <= length (s ++ 0%Z :: rest) ->
  sanitizeUtf8 (Ptr (s ++ 0%Z :: rest)) maxLen = Some (Ptr (s ++ 0%Z :: rest), length s).
Proof.
  intros Hutf Hfit Hcap. unfold sanitizeUtf8.
  destruct (Nat.eqb_spec maxLen 0); [lia|].
  pose proof (sanitize_loop_utf8 maxLen s Hutf [] rest maxLen) as E.
  cbn [app length Nat.add] in E. rewrite E by lia.
  cbn [mbind option_bind].
  destruct (Nat.ltb_spec (length s) maxLen); [|lia].
  rewrite store_Some by lia. cbn [mbind option_bind].
  rewrite list_insert_id; [reflexivity|].
  rewrite lookup_app_r, Nat.sub_diag by lia. reflexivity.
Qed.

(** What [sanitizeUtf8] leaves in a buffer that held a terminated string. *)
Lemma sanitizeUtf8_result (buf : list Z) (maxLen : nat) :
  1 <= maxLen -> maxLen <= length buf -> is_Some (strlen_from buf 0) ->
  exists s rest : list Z,
    sanitizeUtf8 (Ptr buf) maxLen = Some (Ptr (s ++ 0%Z :: rest), length s)
    /\ length s < maxLen /\ length (s ++ 0%Z :: rest) = length buf /\ utf8 s.
Proof.
  intros Hmax Hcap [m Hstr].
  assert (san_inv maxLen buf 0 0) as Hinv.
  { apply (san_sync maxLen buf 0 0 m); auto with lia. rewrite take_0. apply utf8_nil. }
  destruct (sanitize_loop_inv maxLen maxLen buf 0 0 Hinv ltac:(lia))
    as (buf1 & dst & Hloop & Hdst & Hlen1 & Hutf).
  set (s := take dst buf1) in *.
  set (rest := drop (S dst) buf1).
  assert (length s = dst) as Hs by (subst s; rewrite length_take; lia).
  assert (<[dst := 0%Z]> buf1 = s ++ 0%Z :: rest) as Hbuf'
    by (apply insert_take_drop; lia).
  exists s, rest. split; [|split; [lia|split; [|exact Hutf]]].
  - unfold sanitizeUtf8.
    destruct (Nat.eqb_spec maxLen 0); [lia|].
    rewrite Hloop. cbn [mbind option_bind].
    destruct (Nat.ltb_spec dst maxLen); [|lia].
    rewrite store_Some by lia. cbn [mbind option_bind]. rewrite Hbuf', Hs. reflexivity.
  - rewrite <- Hbuf', length_insert. exact Hlen1.
Qed.

(** C1: on a buffer that holds a terminated string, for every capacity
    [maxLen] from 1 up to the size of the array, [sanitizeUtf8] returns;
    the length it returns is below the capacity and the array keeps its
    size; the string it leaves (up to the terminator, which sits at the
    returned length) passes [validateUtf8]; and a second [sanitizeUtf8]
    returns the same buffer and the same length. *)
Theorem sanitize_valid_idempotent (buf : list Z) (maxLen : nat) :
  1 <= maxLen -> maxLen <= length buf -> is_Some (strlen_from buf 0) ->
  exists (buf' : list Z) (len : nat) (s : list Z),
    sanitizeUtf8 (Ptr buf) maxLen = Some (Ptr buf', len)
    /\ len < maxLen /\ length buf' = length buf
    /\ cstr_at buf' 0 = Some s /\ length s = len
    /\ validateUtf8 (Ptr s) = Some true
    /\ sanitizeUtf8 (Ptr buf') maxLen = Some (Ptr buf', len).
Proof.
  intros Hmax Hcap Hstr.
  destruct (sanitizeUtf8_result buf maxLen Hmax Hcap Hstr)
    as (s & rest & Hfirst & Hfit & Hlen & Hutf).
  exists (s ++ 0%Z :: rest), (length s), s.
  split; [exact Hfirst|]. split; [exact Hfit|]. split; [exact Hlen|].
  split; [exact (cstr_at_app [] s rest (utf8_nonzero s Hutf))|].
  split; [reflexivity|].
  split; [exact (validateUtf8_utf8 s Hutf)|].
  apply sanitizeUtf8_text; [exact Hutf | exact Hfit | rewrite Hlen; exact Hcap].
Qed.

Lemma sanitize_valid_idempotent_witness :
  exists (buf' : list Z) (len : nat) (s : list Z),
    sanitizeUtf8 (Ptr [128; 65; 66; 0; 7; 7; 7; 7; 7; 7]%Z) 10 = Some (Ptr buf', len)
    /\ len < 10 /\ length buf' = length [128; 65; 66; 0; 7; 7; 7; 7; 7; 7]%Z
    /\ cstr_at buf' 0 = Some s /\ length s = len
    /\ validateUtf8 (Ptr s) = Some true
    /\ sanitizeUtf8 (Ptr buf') 10 = Some (Ptr buf', len).
Proof.
  apply (sanitize_valid_idempotent [128; 65; 66; 0; 7; 7; 7; 7; 7; 7]%Z 10).
  - lia.
  - vm_compute. lia.
  - vm_compute. eexists. reflexivity.
Defined.

(** ** C5: the KMP branch of [strcasestr] against the naive scan *)

Lemma int16_roundtrip (l : nat) :
  l < 64 -> to_signed 16 (Z.of_nat l) = Z.of_nat l /\ size_of_int16 (Z.of_nat l) = l.
Proof.
  intros H. unfold to_signed, size_of_int16, to_unsigned.
  change (2 ^ (16 - 1))%Z with 32768%Z. change (2 ^ 16)%Z with 65536%Z.
  change (2 ^ Z.of_nat SIZE_BITS)%Z with 4294967296%Z.
  rewrite !Z.mod_small by lia. split; lia.
Qed.

Section Kmp.

Variable toLower : Z -> Z.
Variables haystack needle : list Z.
Hypothesis haystack_nonzero : Forall (fun b => b <> 0%Z) haystack.
Hypothesis needle_nonzero : Forall (fun b => b <> 0%Z) needle.

#[local] Abbreviation m := (length needle).
#[local] Abbreviation fq := (feq toLower).
#[local] Abbreviation bd := (bord toLower needle).
#[local] Abbreviation sf := (suf toLower haystack needle).
#[local] Abbreviation occ := (occurs_at toLower haystack needle).
#[local] Abbreviation first := (first_occ toLower haystack needle).
#[local] Abbreviation lps_ok := (lps_upto toLower needle).
#[local] Abbreviation dead := (lps_dead toLower needle).
#[local] Abbreviation kinv := (kmp_inv toLower haystack needle).

Lemma eq_fold_feq (a b : Z) : eq_fold toLower a b = true <-> fq a b.
Proof. unfold eq_fold, feq. apply Z.eqb_eq. Qed.

Lemma eq_fold_spec (a b : Z) : reflect (fq a b) (eq_fold toLower a b).
Proof. apply iff_reflect. symmetry. apply eq_fold_feq. Qed.

Lemma feq_sym (a b : Z) : fq a b -> fq b a.
Proof. unfold feq. congruence. Qed.

Lemma feq_trans (a b c : Z) : fq a b -> fq b c -> fq a c.
Proof. unfold feq. congruence. Qed.

Lemma cget_nonzero_lt (s : list Z) (i : nat) :
  Forall (fun b => b <> 0%Z) s -> i < length s -> cget s i <> 0%Z.
Proof.
  intros Hs Hi. unfold cget.
  destruct (lookup_lt_is_Some_2 s i Hi) as [b Hb]. rewrite Hb. cbn.
  exact (proj1 (Forall_lookup _ _) Hs i b Hb).
Qed.

Lemma cget_zero_iff (s : list Z) (i : nat) :
  Forall (fun b => b <> 0%Z) s -> cget s i = 0%Z <-> length s <= i.
Proof.
  intros Hs. split.
  - intros Hz. destruct (Nat.lt_ge_cases i (length s)) as [Hlt|]; [|assumption].
    exfalso. exact (cget_nonzero_lt s i Hs Hlt Hz).
  - apply cget_ge.
Qed.

Lemma strlen_nonzero (s : list Z) : Forall (fun b => b <> 0%Z) s -> strlen s = length s.
Proof.
  induction 1 as [|b s Hb Hs IH]; cbn; [reflexivity|].
  destruct (Z.eqb_spec b 0); [contradiction | congruence].
Qed.

(** *** Borders *)

Lemma bord_trans (a b c : nat) : bd a b -> bd b c -> bd a c.
Proof.
  intros (Hab & Hb & Ha) (Hbc & Hc & Hb'). split; [lia|]. split; [lia|].
  intros k Hk. apply feq_trans with (cget needle (b - a + k)); [apply Ha; lia|].
  replace (c - a + k) with (c - b + (b - a + k)) by lia. apply Hb'. lia.
Qed.

(** Of two borders of the same prefix, the shorter is a border of the longer. *)
Lemma bord_nested (a b c : nat) : bd a c -> bd b c -> a < b -> bd a b.
Proof.
  intros (Hac & Hc & Ha) (Hbc & _ & Hb) Hab. split; [lia|]. split; [lia|].
  intros k Hk. apply feq_trans with (cget needle (c - a + k)); [apply Ha; lia|].
  apply feq_sym. replace (c - a + k) with (c - b + (b - a + k)) by lia. apply Hb. lia.
Qed.

Lemma bord_extend (l q : nat) :
  bd l q -> q < m -> fq (cget needle q) (cget needle l) -> bd (l + 1) (q + 1).
Proof.
  intros (Hlq & Hq & Hl) Hqm Hfeq. split; [lia|]. split; [lia|].
  intros k Hk. replace (q + 1 - (l + 1) + k) with (q - l + k) by lia.
  destruct (Nat.eq_dec k l) as [->|].
  - replace (q - l + l) with q by lia. apply feq_sym. exact Hfeq.
  - apply Hl. lia.
Qed.

Lemma bord_shrink (l q : nat) :
  bd (l + 1) (q + 1) -> 1 <= q -> bd l q /\ fq (cget needle q) (cget needle l).
Proof.
  intros (Hlq & Hq & Hl) Hq1. split.
  - split; [lia|]. split; [lia|]. intros k Hk.
    replace (q - l + k) with (q + 1 - (l + 1) + k) by lia. apply Hl. lia.
  - apply feq_sym. specialize (Hl l ltac:(lia)).
    replace (q + 1 - (l + 1) + l) with q in Hl by lia. exact Hl.
Qed.

Lemma bord_zero (q : nat) : 1 <= q -> q <= m -> bd 0 q.
Proof. intros H1 H2. split; [lia|]. split; [lia|]. intros k Hk. lia. Qed.

(** *** The failure table *)

Lemma lps_ok_insert (lps : list Z) (i l : nat) :
  lps_ok lps i -> i < length lps -> bd l (i + 1) ->
  (forall l' : nat, bd l' (i + 1) -> l' <= l) ->
  lps_ok (<[i := Z.of_nat l]> lps) (i + 1).
Proof.
  intros Hok Hi Hb Hmax k Hk.
  destruct (Nat.eq_dec k i) as [->|Hne].
  - exists l. rewrite list_lookup_insert_eq by exact Hi. auto.
  - destruct (Hok k ltac:(lia)) as (l0 & Hl0 & Hb0 & Hmax0).
    exists l0. rewrite list_lookup_insert_ne by lia. auto.
Qed.

Lemma computeLPS_loop_ok (fuel : nat) :
  forall (lps : list Z) (len i : nat),
    1 <= i -> i <= m -> m <= 64 -> m <= length lps ->
    lps_ok lps i -> bd len i -> dead len i ->
    2 * (m - i) + len <= fuel ->
    exists lps' : list Z,
      computeLPS_loop toLower fuel needle m lps len i = Some lps'
      /\ lps_ok lps' m /\ length lps' = length lps.
Proof.
  induction fuel as [|fuel IH]; intros lps len i Hi1 Him Hm64 Hlen Hok Hbord Hdead Hfuel.
  - assert (i = m) as -> by lia.
    exists lps. cbn [computeLPS_loop]. rewrite Nat.ltb_irrefl. auto.
  - cbn [computeLPS_loop].
    destruct (Nat.ltb_spec i m) as [Hlt|Hge].
    2:{ assert (i = m) as -> by lia. exists lps. auto. }
    destruct (eq_fold_spec (cget needle i) (cget needle len)) as [Hfeq|Hnfeq].
    + (* the border grows *)
      destruct (int16_roundtrip (len + 1)) as [Hcast _];
        [destruct Hbord; lia|].
      rewrite Hcast, store_Some by lia. cbn [mbind option_bind].
      pose proof (bord_extend len i Hbord Hlt Hfeq) as Hext.
      assert (forall l' : nat, bd l' (i + 1) -> l' <= len + 1) as Hmax.
      { intros l' Hl'. destruct (Nat.le_gt_cases l' (len + 1)) as [|Hgt]; [assumption|].
        exfalso. replace l' with (l' - 1 + 1) in Hl' by lia.
        destruct (bord_shrink _ _ Hl' Hi1) as [Hb' Hf'].
        exact (Hdead (l' - 1) ltac:(lia) Hb' Hlt Hf'). }
      destruct (IH (<[i := Z.of_nat (len + 1)]> lps) (len + 1) (i + 1)) as (lps' & Hrun & Hok' & Hlen');
        try lia.
      * rewrite length_insert. exact Hlen.
      * apply lps_ok_insert; [exact Hok | lia | exact Hext | exact Hmax].
      * exact Hext.
      * intros l' Hgt Hl' _ _. specialize (Hmax l' Hl'). lia.
      * exists lps'. rewrite length_insert in Hlen'. auto.
    + destruct (Nat.eqb_spec len 0) as [Hz|Hnz]; cbn [negb].
      * (* no border can be extended *)
        rewrite store_Some by lia. cbn [mbind option_bind].
        assert (forall l' : nat, bd l' (i + 1) -> l' <= 0) as Hmax.
        { intros l' Hl'. destruct l' as [|l']; [lia|]. exfalso.
          replace (S l') with (l' + 1) in Hl' by lia.
          destruct (bord_shrink _ _ Hl' Hi1) as [Hb' Hf'].
          destruct (Nat.eq_dec l' 0) as [->|]; [subst len; exact (Hnfeq Hf')|].
          exact (Hdead l' ltac:(lia) Hb' Hlt Hf'). }
        destruct (IH (<[i := 0%Z]> lps) len (i + 1)) as (lps' & Hrun & Hok' & Hlen');
          try lia.
        -- rewrite length_insert. exact Hlen.
        -- subst len. apply (lps_ok_insert lps i 0); [exact Hok | lia | | exact Hmax].
           apply bord_zero; lia.
        -- subst len. apply bord_zero; lia.
        -- intros l' Hgt Hl' _ _. specialize (Hmax l' Hl'). lia.
        -- exists lps'. rewrite length_insert in Hlen'. auto.
      * (* fall back to the border of the border *)
        destruct Hbord as (Hli & Him' & Hbk).
        destruct (Hok (len - 1) ltac:(lia)) as (l & Hl & Hbl & Hmaxl).
        replace (len - 1 + 1) with len in Hbl, Hmaxl by lia.
        unfold load. rewrite Hl. cbn [mbind option_bind].
        destruct (int16_roundtrip l) as [_ Hcast]; [destruct Hbl; lia|].
        rewrite Hcast.
        assert (bd len i) as Hbord by (split; [lia|]; split; [lia | exact Hbk]).
        apply IH; try lia; try assumption.
        -- exact (bord_trans _ _ _ Hbl Hbord).
        -- intros l' Hgt Hl' _ Hf'.
           destruct (Nat.lt_trichotomy l' len) as [Hlt'|[->|Hgt']].
           ++ pose proof (bord_nested _ _ _ Hl' Hbord Hlt') as Hnest.
              specialize (Hmaxl l' Hnest). lia.
           ++ exact (Hnfeq Hf').
           ++ exact (Hdead l' Hgt' Hl' Hlt Hf').
        -- destruct Hbl. lia.
Qed.

Lemma computeLPS_ok (lps0 : list Z) :
  1 <= m -> m <= 64 -> m <= length lps0 ->
  exists lps : list Z,
    computeLPS toLower needle m lps0 = Some lps /\ lps_ok lps m.
Proof.
  intros H1 H64 Hlen. unfold computeLPS.
  rewrite store_Some by lia. cbn [mbind option_bind].
  destruct (computeLPS_loop_ok (2 * m) (<[0 := 0%Z]> lps0) 0 1) as (lps & Hrun & Hok & _);
    try lia.
  - rewrite length_insert. exact Hlen.
  - apply (lps_ok_insert lps0 0 0); [intros k Hk; lia | lia | apply bord_zero; lia |].
    intros l' (Hl' & _). lia.
  - apply bord_zero; lia.
  - intros l' Hgt (Hl' & _). lia.
  - exists lps. auto.
Qed.

(** *** The scan *)

Lemma suf_extend (j i : nat) :
  sf j i -> i < length haystack -> fq (cget haystack i) (cget needle j) ->
  sf (j + 1) (i + 1).
Proof.
  intros (Hji & Hi & Hk) Hlt Hfeq. split; [lia|]. split; [lia|].
  intros k Hkj. replace (i + 1 - (j + 1) + k) with (i - j + k) by lia.
  destruct (Nat.eq_dec k j) as [->|].
  - replace (i - j + j) with i by lia. exact Hfeq.
  - apply Hk. lia.
Qed.

Lemma suf_shrink (j i : nat) :
  sf (j + 1) (i + 1) -> sf j i /\ fq (cget haystack i) (cget needle j).
Proof.
  intros (Hji & Hi & Hk). split.
  - split; [lia|]. split; [lia|]. intros k Hkj.
    replace (i - j + k) with (i + 1 - (j + 1) + k) by lia. apply Hk. lia.
  - specialize (Hk j ltac:(lia)).
    replace (i + 1 - (j + 1) + j) with i in Hk by lia. exact Hk.
Qed.

Lemma suf_bord (l j i : nat) : sf j i -> bd l j -> sf l i.
Proof.
  intros (Hji & Hi & Hk) (Hlj & Hj & Hb). split; [lia|]. split; [lia|].
  intros k Hkl. apply feq_trans with (cget needle (j - l + k)).
  - replace (i - l + k) with (i - j + (j - l + k)) by lia. apply Hk. lia.
  - apply feq_sym. apply Hb. exact Hkl.
Qed.

Lemma suf_suf_bord (a b i : nat) : sf a i -> sf b i -> a < b -> b <= m -> bd a b.
Proof.
  intros (Hai & _ & Ha) (Hbi & _ & Hb) Hab Hbm. split; [lia|]. split; [lia|].
  intros k Hk. apply feq_trans with (cget haystack (i - a + k)).
  - apply feq_sym. apply Ha. exact Hk.
  - replace (i - a + k) with (i - b + (b - a + k)) by lia. apply Hb. lia.
Qed.

Lemma suf_zero (i : nat) : i <= length haystack -> sf 0 i.
Proof. intros Hi. split; [lia|]. split; [lia|]. intros k Hk. lia. Qed.

Lemma occ_suf (p : nat) : occ p <-> sf m (p + m).
Proof.
  split.
  - intros (Hp & Hk). split; [lia|]. split; [lia|]. intros k Hkm.
    replace (p + m - m + k) with (p + k) by lia. apply Hk. exact Hkm.
  - intros (_ & Hp & Hk). split; [lia|]. intros k Hkm.
    replace (p + k) with (p + m - m + k) by lia. apply Hk. exact Hkm.
Qed.

(** After a matching byte no longer prefix ends at [i + 1]. *)
Lemma longest_after_match (i j : nat) :
  kinv i j -> i < length haystack ->
  forall j' : nat, j + 1 < j' -> j' <= m -> ~ sf j' (i + 1).
Proof.
  intros (Hjm & Hsuf & Hmax & Hnone) Hi j' Hgt Hle Hs.
  replace j' with (j' - 1 + 1) in Hs by lia.
  destruct (suf_shrink _ _ Hs) as [Hs' Hf].
  exact (Hmax (j' - 1) ltac:(lia) ltac:(lia) Hs' Hi Hf).
Qed.

(** After a mismatch against the first needle byte nothing ends at [i + 1]. *)
Lemma longest_after_miss (i : nat) :
  kinv i 0 -> i < length haystack -> ~ fq (cget haystack i) (cget needle 0) ->
  forall j' : nat, 0 < j' -> j' <= m -> ~ sf j' (i + 1).
Proof.
  intros (Hjm & Hsuf & Hmax & Hnone) Hi Hmiss j' Hgt Hle Hs.
  replace j' with (j' - 1 + 1) in Hs by lia.
  destruct (suf_shrink _ _ Hs) as [Hs' Hf].
  destruct (Nat.eq_dec (j' - 1) 0) as [Hz|Hnz].
  - rewrite Hz in Hf. exact (Hmiss Hf).
  - exact (Hmax (j' - 1) ltac:(lia) ltac:(lia) Hs' Hi Hf).
Qed.

(** Falling back through the failure table keeps the invariant. *)
Lemma kinv_fallback (lps : list Z) (i j : nat) :
  lps_ok lps m -> 1 <= j -> j < m -> sf j i ->
  (forall j' : nat, j < j' -> j' < m -> sf j' i -> i < length haystack ->
     ~ fq (cget haystack i) (cget needle j')) ->
  (i < length haystack -> ~ fq (cget haystack i) (cget needle j)) ->
  (forall i' : nat, i' <= i -> ~ sf m i') ->
  exists l : nat,
    lps !! (j - 1) = Some (Z.of_nat l) /\ l < j /\ kinv i l.
Proof.
  intros Hok Hj1 Hjm Hsuf Hmax Hmiss Hnone.
  destruct (Hok (j - 1) ltac:(lia)) as (l & Hl & Hbl & Hmaxl).
  replace (j - 1 + 1) with j in Hbl, Hmaxl by lia.
  exists l. split; [exact Hl|]. split; [destruct Hbl; lia|].
  split; [destruct Hbl; lia|]. split; [exact (suf_bord _ _ _ Hsuf Hbl)|].
  split; [|exact Hnone].
  intros j' Hgt Hlt Hs Hi.
  destruct (Nat.lt_trichotomy j' j) as [Hlt'|[->|Hgt']].
  - pose proof (suf_suf_bord _ _ _ Hs Hsuf Hlt' ltac:(lia)) as Hb.
    specialize (Hmaxl j' Hb). lia.
  - exact (Hmiss Hi).
  - exact (Hmax j' Hgt' Hlt Hs Hi).
Qed.

Lemma first_null (i : nat) :
  1 <= m -> length haystack <= i -> (forall i' : nat, i' <= i -> ~ sf m i') -> first Null.
Proof.
  intros Hm Hi Hnone p Hocc. apply occ_suf in Hocc.
  apply (Hnone (p + m)); [destruct Hocc as (_ & H & _); lia | exact Hocc].
Qed.

Lemma kmp_scan_ok (lps : list Z) (fuel : nat) :
  lps_ok lps m -> 1 <= m -> m <= 64 ->
  forall i j : nat,
    kinv i j -> 2 * (length haystack - i) + j <= fuel ->
    exists r : ptr nat,
      kmp_scan toLower fuel haystack needle m lps i j = Some r /\ first r.
Proof.
  intros Hok Hm1 Hm64. induction fuel as [|fuel IH]; intros i j Hinv Hfuel.
  - exists Null. cbn [kmp_scan].
    rewrite (proj2 (cget_zero_iff haystack i haystack_nonzero)) by lia.
    split; [reflexivity|].
    destruct Hinv as (_ & _ & _ & Hnone). apply (first_null i); [lia | lia | exact Hnone].
  - cbn [kmp_scan].
    destruct (Z.eqb_spec (cget haystack i) 0) as [Hz|Hnz].
    { exists Null. split; [reflexivity|].
      apply cget_zero_iff in Hz; [|exact haystack_nonzero].
      destruct Hinv as (_ & _ & _ & Hnone). apply (first_null i); [lia | lia | exact Hnone]. }
    assert (i < length haystack) as Hi.
    { destruct (Nat.lt_ge_cases i (length haystack)) as [|Hge]; [assumption|].
      exfalso. apply Hnz. apply cget_ge. exact Hge. }
    pose proof Hinv as (Hjm & Hsuf & Hmax & Hnone).
    destruct (eq_fold_spec (cget haystack i) (cget needle j)) as [Hfeq|Hmiss].
    + (* the byte matches: both indices advance *)
      pose proof (suf_extend _ _ Hsuf Hi Hfeq) as Hsuf1.
      pose proof (longest_after_match i j Hinv Hi) as Hlong.
      destruct (Nat.eqb_spec (j + 1) m) as [Hend|Hnend].
      * exists (Ptr (i + 1 - m)). split; [reflexivity|]. split.
        -- apply occ_suf. destruct Hsuf1 as (Hle & _).
           replace (i + 1 - m + m) with (i + 1) by lia.
           rewrite <- Hend at 1. apply suf_extend; assumption.
        -- intros p' Hp' Hocc. apply occ_suf in Hocc.
           apply (Hnone (p' + m)); [destruct Hsuf1; lia | exact Hocc].
      * assert (forall i' : nat, i' <= i + 1 -> ~ sf m i') as Hnone1.
        { intros i' Hi'. destruct (Nat.eq_dec i' (i + 1)) as [->|].
          - apply Hlong; lia.
          - apply Hnone. lia. }
        destruct (negb (cget haystack (i + 1) =? 0)%Z
                  && negb (eq_fold toLower (cget haystack (i + 1)) (cget needle (j + 1))))
          eqn:Htest.
        -- apply andb_true_iff in Htest as [Hnz1 Hmiss1].
           apply negb_true_iff in Hmiss1.
           replace (negb (j + 1 =? 0)) with true
             by (symmetry; apply negb_true_iff, Nat.eqb_neq; lia).
           destruct (kinv_fallback lps (i + 1) (j + 1)) as (l & Hl & Hlj & Hinv1);
             try assumption; try lia.
           ++ intros j' Hgt Hlt Hs _ _. exact (Hlong j' Hgt ltac:(lia) Hs).
           ++ intros _ Hf. apply eq_fold_feq in Hf. congruence.
           ++ unfold load. rewrite Hl. cbn [mbind option_bind].
              rewrite (proj2 (int16_roundtrip l ltac:(lia))).
              apply IH; [exact Hinv1 | lia].
        -- apply IH; [|lia].
           split; [lia|]. split; [exact Hsuf1|]. split; [|exact Hnone1].
           intros j' Hgt Hlt Hs _ _. exact (Hlong j' Hgt ltac:(lia) Hs).
    + (* the byte differs: the else-if fires at the same position *)
      replace (j =? m) with false by (symmetry; apply Nat.eqb_neq; lia).
      replace (negb (cget haystack i =? 0)%Z) with true
        by (symmetry; apply negb_true_iff, Z.eqb_neq; exact Hnz).
      replace (eq_fold toLower (cget haystack i) (cget needle j)) with false
        by (symmetry; apply not_true_is_false; intros Hf; apply Hmiss, eq_fold_feq, Hf).
      cbn [andb negb].
      destruct (Nat.eqb_spec j 0) as [Hj0|Hj0]; cbn [negb].
      * subst j. apply IH; [|lia].
        pose proof (longest_after_miss i Hinv Hi Hmiss) as Hlong.
        split; [lia|]. split; [apply suf_zero; lia|]. split.
        -- intros j' Hgt Hlt Hs _ _. exact (Hlong j' Hgt ltac:(lia) Hs).
        -- intros i' Hi'. destruct (Nat.eq_dec i' (i + 1)) as [->|].
           ++ apply Hlong; lia.
           ++ apply Hnone. lia.
      * destruct (kinv_fallback lps i j) as (l & Hl & Hlj & Hinv1);
          try assumption; try lia.
        -- intros _. exact Hmiss.
        -- unfold load. rewrite Hl. cbn [mbind option_bind].
           rewrite (proj2 (int16_roundtrip l ltac:(lia))).
           apply IH; [exact Hinv1 | lia].
Qed.

(** *** The naive scan *)

Lemma naive_tail_spec (p : nat) (fuel : nat) :
  forall k : nat,
    k <= m -> m - k <= fuel -> p + k <= length haystack ->
    (forall k' : nat, k' < k -> fq (cget haystack (p + k')) (cget needle k')) ->
    exists b : bool,
      naive_tail toLower fuel haystack needle (p + k) k = Some b
      /\ (b = true <-> occ p).
Proof.
  induction fuel as [|fuel IH]; intros k Hkm Hfuel Hpk Hpre.
  - assert (k = m) as -> by lia. cbn [naive_tail].
    rewrite (cget_ge needle m) by lia.
    rewrite andb_false_r. cbn [andb]. exists true. split; [reflexivity|].
    split; [|reflexivity]. intros _. split; [lia | exact Hpre].
  - cbn [naive_tail].
    destruct (Z.eqb_spec (cget haystack (p + k)) 0) as [Hhz|Hhnz]; cbn [negb andb].
    { apply cget_zero_iff in Hhz; [|exact haystack_nonzero].
      destruct (Z.eqb_spec (cget needle k) 0) as [Hnz|Hnnz].
      - apply cget_zero_iff in Hnz; [|exact needle_nonzero].
        exists true. split; [reflexivity|]. split; [|reflexivity].
        intros _. assert (k = m) as -> by lia. split; [lia | exact Hpre].
      - exists false. split; [reflexivity|]. split; [discriminate|].
        intros (Hocc & _). exfalso. apply Hnnz. apply cget_ge.
        lia. }
    assert (p + k < length haystack) as Hlt.
    { destruct (Nat.lt_ge_cases (p + k) (length haystack)) as [|Hge]; [assumption|].
      exfalso. apply Hhnz. apply cget_ge. exact Hge. }
    destruct (Z.eqb_spec (cget needle k) 0) as [Hnz|Hnnz]; cbn [negb andb].
    { apply cget_zero_iff in Hnz; [|exact needle_nonzero].
      exists true. split; [reflexivity|]. split; [|reflexivity].
      intros _. assert (k = m) as -> by lia. split; [lia | exact Hpre]. }
    assert (k < m) as Hk.
    { destruct (Nat.lt_ge_cases k m) as [|Hge]; [assumption|].
      exfalso. apply Hnnz. apply cget_ge. exact Hge. }
    destruct (eq_fold_spec (cget haystack (p + k)) (cget needle k)) as [Hfeq|Hmiss].
    + replace (p + k + 1) with (p + (k + 1)) by lia.
      apply IH; try lia.
      intros k' Hk'. destruct (Nat.eq_dec k' k) as [->|]; [exact Hfeq | apply Hpre; lia].
    + exists false. split; [reflexivity|]. split; [discriminate|].
      intros (_ & Hocc). exfalso. exact (Hmiss (Hocc k Hk)).
Qed.

Lemma naive_scan_ok (fuel : nat) :
  1 <= m ->
  forall pos : nat,
    length haystack - pos <= fuel ->
    (forall p : nat, p < pos -> ~ occ p) ->
    exists r : ptr nat,
      naive_scan toLower fuel haystack needle (toLower (cget needle 0)) pos = Some r
      /\ first r.
Proof.
  intros Hm. induction fuel as [|fuel IH]; intros pos Hfuel Hnone.
  - exists Null. cbn [naive_scan]. rewrite (cget_ge haystack pos) by lia.
    split; [reflexivity|]. intros p Hocc. pose proof Hocc as (Hp & _).
    apply (Hnone p); [lia | exact Hocc].
  - cbn [naive_scan].
    destruct (Z.eqb_spec (cget haystack pos) 0) as [Hz|Hnz].
    { exists Null. split; [reflexivity|].
      apply cget_zero_iff in Hz; [|exact haystack_nonzero].
      intros p Hocc. pose proof Hocc as (Hp & _).
      apply (Hnone p); [lia | exact Hocc]. }
    assert (pos < length haystack) as Hlt.
    { destruct (Nat.lt_ge_cases pos (length haystack)) as [|Hge]; [assumption|].
      exfalso. apply Hnz. apply cget_ge. exact Hge. }
    assert (forall b : bool, (b = true <-> occ pos) -> b = false ->
              forall p : nat, p < pos + 1 -> ~ occ p) as Hnext.
    { intros b Hb -> p Hp. destruct (Nat.eq_dec p pos) as [->|].
      - intros Hocc. apply Hb in Hocc. discriminate.
      - apply Hnone. lia. }
    destruct (Z.eqb_spec (toLower (cget haystack pos)) (toLower (cget needle 0))) as [Hfeq|Hmiss].
    + destruct (naive_tail_spec pos m 1) as (b & Hrun & Hb); try lia.
      { intros k' Hk'. assert (k' = 0) as -> by lia.
        replace (pos + 0) with pos by lia. exact Hfeq. }
      rewrite Hrun. destruct b.
      * exists (Ptr pos). split; [reflexivity|]. split; [apply Hb; reflexivity | exact Hnone].
      * apply IH; [lia|]. exact (Hnext false Hb eq_refl).
    + apply IH; [lia|]. apply (Hnext false); [|reflexivity].
      split; [discriminate|]. intros (_ & Hocc). exfalso. apply Hmiss.
      specialize (Hocc 0 ltac:(lia)). replace (pos + 0) with pos in Hocc by lia. exact Hocc.
Qed.

(** *** The two branches agree *)

Lemma first_occ_unique (r r' : ptr nat) : first r -> first r' -> r = r'.
Proof.
  destruct r as [|p], r' as [|p']; cbn [first_occ].
  - reflexivity.
  - intros Hnone (Hocc & _). exfalso. exact (Hnone p' Hocc).
  - intros (Hocc & _) Hnone. exfalso. exact (Hnone p Hocc).
  - intros (Hocc & Hmin) (Hocc' & Hmin'). f_equal.
    destruct (Nat.lt_trichotomy p p') as [Hlt|[->|Hgt]]; [|reflexivity|].
    + exfalso. exact (Hmin' p Hlt Hocc).
    + exfalso. exact (Hmin p' Hgt Hocc').
Qed.

Lemma strcasestr_naive_ok :
  1 <= m -> exists r : ptr nat, strcasestr_naive toLower haystack needle = Some r /\ first r.
Proof.
  intros Hm. unfold strcasestr_naive. apply naive_scan_ok; [exact Hm | lia |].
  intros p Hp. lia.
Qed.

Lemma strcasestr_kmp_ok :
  1 <= m -> m <= 64 ->
  exists r : ptr nat, strcasestr_kmp toLower haystack needle m = Some r /\ first r.
Proof.
  intros Hm1 Hm64. unfold strcasestr_kmp.
  destruct (computeLPS_ok (replicate 64 0%Z)) as (lps & Hrun & Hok);
    [exact Hm1 | exact Hm64 | rewrite length_replicate; exact Hm64 |].
  rewrite Hrun. cbn [mbind option_bind].
  apply kmp_scan_ok; [exact Hok | exact Hm1 | exact Hm64 | | lia].
  split; [lia|]. split; [apply suf_zero; lia|]. split.
  - intros j' Hgt _ (Hle & _) _. lia.
  - intros i' Hi' (Hle & _). lia.
Qed.

Lemma strcasestr_first :
  1 <= m -> exists r : ptr nat, strcasestr toLower haystack needle = Some r /\ first r.
Proof.
  intros Hm. unfold strcasestr. rewrite (strlen_nonzero needle needle_nonzero).
  replace (cget needle 0 =? 0)%Z with false
    by (symmetry; apply Z.eqb_neq; apply cget_nonzero_lt; [exact needle_nonzero | lia]).
  destruct (Nat.leb_spec m 64) as [Hle|Hgt].
  - apply strcasestr_kmp_ok; assumption.
  - apply strcasestr_naive_ok; assumption.
Qed.

End Kmp.

(** C5: for every haystack and every needle of 1 to 64 bytes, the KMP path
    of [strcasestr] (failure table over the folded pattern, then the scan)
    returns a result, and it is the result of the naive first-byte-filtered
    scan of the fallback branch: the first offset at which the folded needle
    occurs, or null when there is none. [strcasestr] itself takes the KMP
    path for such a needle, so it agrees with the naive scan as well. The
    fold [toLower] is arbitrary. *)
Theorem strcasestr_kmp_agrees_with_naive
    (toLower : Z -> Z) (haystack needle : list Z) :
  Forall (fun b => b <> 0%Z) haystack -> Forall (fun b => b <> 0%Z) needle ->
  1 <= length needle -> length needle <= 64 ->
  exists r : ptr nat,
    strcasestr_kmp toLower haystack needle (length needle) = Some r
    /\ strcasestr_naive toLower haystack needle = Some r
    /\ strcasestr toLower haystack needle = Some r
    /\ first_occ toLower haystack needle r.
Proof.
  intros Hh Hn Hm1 Hm64.
  destruct (strcasestr_kmp_ok toLower haystack needle Hh Hm1 Hm64) as (r & Hk & Hr).
  destruct (strcasestr_naive_ok toLower haystack needle Hh Hn Hm1) as (r' & Hv & Hr').
  pose proof (first_occ_unique toLower haystack needle r r' Hr Hr') as <-.
  exists r. split; [exact Hk|]. split; [exact Hv|]. split; [|exact Hr].
  unfold strcasestr.
  rewrite (strlen_nonzero needle Hn).
  replace (cget needle 0 =? 0)%Z with false.
  - replace (length needle <=? 64) with true by (symmetry; apply Nat.leb_le; exact Hm64).
    exact Hk.
  - symmetry. apply Z.eqb_neq. apply cget_nonzero_lt; [exact Hn | lia].
Qed.

Lemma strcasestr_kmp_agrees_with_naive_witness :
  exists r : ptr nat,
    strcasestr_kmp ascii_toLower (bytes "say ABABAC now") (bytes "ababac") 6 = Some r
    /\ strcasestr_naive ascii_toLower (bytes "say ABABAC now") (bytes "ababac") = Some r
    /\ strcasestr ascii_toLower (bytes "say ABABAC now") (bytes "ababac") = Some r
    /\ first_occ ascii_toLower (bytes "say ABABAC now") (bytes "ababac") r.
Proof.
  apply (strcasestr_kmp_agrees_with_naive ascii_toLower
           (bytes "say ABABAC now") (bytes "ababac")).
  - vm_compute. repeat constructor; discriminate.
  - vm_compute. repeat constructor; discriminate.
  - vm_compute. lia.
  - vm_compute. lia.
Defined.

(** ** C4: [replace] against its description on texts *)

Section ReplaceText.

Variable fold : Z -> Z.
Variables from to : list Z.
Variable cap : nat.
Hypothesis from_nonempty : 1 <= length from.

#[local] Abbreviation rtext := (replace_text fold from to cap).

Lemma occurs_at_cons (b : Z) (text : list Z) (p : nat) :
  occurs_at fold (b :: text) from (S p) <-> occurs_at fold text from p.
Proof.
  clear from_nonempty. unfold occurs_at. cbn [length]. split; intros [Hp Hk]; (split; [lia|]); exact Hk.
Qed.

Lemma prefix_fold_occurs (text : list Z) :
  prefix_fold fold from text = true <-> occurs_at fold text from 0.
Proof.
  clear from_nonempty. unfold occurs_at, feq. revert text.
  induction from as [|c pat IH]; intros text; cbn [prefix_fold length].
  - split; [|reflexivity]. intros _. split; [lia|]. intros k Hk. lia.
  - destruct text as [|b text]; cbn [length].
    + split; [discriminate|]. intros [H _]. lia.
    + rewrite andb_true_iff, IH, Z.eqb_eq. split.
      * intros [Hb [Hlen Hk]]. split; [lia|]. intros [|k] Hlt; [exact Hb|].
        apply (Hk k). lia.
      * intros [Hlen Hk]. split; [exact (Hk 0 ltac:(lia))|]. split; [lia|].
        intros k Hlt. apply (Hk (S k)). lia.
Qed.

Lemma replace_text_skip (text : list Z) :
  forall k len : nat, rtext text k len = rtext (drop k text) 0 len.
Proof.
  induction text as [|b text IH]; intros k len.
  - rewrite drop_nil. destruct k; reflexivity.
  - destruct k as [|k]; [reflexivity|]. cbn [replace_text drop]. apply IH.
Qed.

Lemma replace_text_none (text : list Z) (len : nat) :
  (forall p : nat, ~ occurs_at fold text from p) -> rtext text 0 len = (text, false).
Proof.
  induction text as [|b text IH]; intros Hnone; [reflexivity|].
  cbn [replace_text].
  destruct (prefix_fold fold from (b :: text)) eqn:Hpre.
  - exfalso. apply (Hnone 0). apply prefix_fold_occurs. exact Hpre.
  - rewrite IH; [reflexivity|]. intros p Hp. apply (Hnone (S p)).
    apply occurs_at_cons. exact Hp.
Qed.

(** Up to the first occurrence the text is copied. *)
Lemma replace_text_first (text : list Z) :
  forall off len : nat,
    first_occ fold text from (Ptr off) ->
    prefix_fold fold from (drop off text) = true
    /\ rtext text 0 len
       = (take off text ++ (rtext (drop off text) 0 len).1, (rtext (drop off text) 0 len).2).
Proof.
  induction text as [|b text IH]; intros off len [Hocc Hmin].
  - destruct Hocc as [Hlen _]. cbn [length] in Hlen. lia.
  - destruct off as [|off].
    + cbn [drop take app]. split; [apply prefix_fold_occurs; exact Hocc|].
      destruct (rtext (b :: text) 0 len). reflexivity.
    + cbn [drop take].
      destruct (IH off len) as [Hpre Heq].
      { split; [apply occurs_at_cons in Hocc; exact Hocc|].
        intros p' Hp' Hocc'. apply (Hmin (S p')); [lia|].
        apply occurs_at_cons. exact Hocc'. }
      split; [exact Hpre|].
      cbn [replace_text].
      destruct (prefix_fold fold from (b :: text)) eqn:Hhead.
      * exfalso. apply (Hmin 0); [lia|]. apply prefix_fold_occurs. exact Hhead.
      * rewrite Heq. reflexivity.
Qed.

(** At an occurrence: the replacement, or the refusal. *)
Lemma replace_text_here (text : list Z) (len : nat) :
  prefix_fold fold from text = true ->
  rtext text 0 len
  = if (length from <? length to) && (cap <? len + (length to - length from))
    then (text, true)
    else (to ++ (rtext (drop (length from) text) 0 (len + length to - length from)).1,
          (rtext (drop (length from) text) 0 (len + length to - length from)).2).
Proof.
  intros Hpre. destruct text as [|b text].
  - apply prefix_fold_occurs in Hpre. destruct Hpre as [Hlen _]. cbn [length] in Hlen. lia.
  - cbn [replace_text]. rewrite Hpre.
    destruct ((length from <? length to) && (cap <? len + (length to - length from)));
      [reflexivity|].
    rewrite replace_text_skip.
    replace (length from) with (S (length from - 1)) at 3 5 by lia.
    cbn [drop].
    destruct (rtext (drop (length from - 1) text) 0 (len + length to - length from)).
    reflexivity.
Qed.

End ReplaceText.

(** *** The searches of [replace] find the first occurrence *)

Lemma first_occ_cons (fold : Z -> Z) (b : Z) (h n : list Z) (r : ptr nat) :
  ~ occurs_at fold (b :: h) n 0 ->
  first_occ fold h n r ->
  first_occ fold (b :: h) n (match r with Ptr i => Ptr (S i) | Null => Null end).
Proof.
  intros Hhead. destruct r as [|i]; cbn [first_occ].
  - intros Hnone [|p]; [exact Hhead|]. rewrite occurs_at_cons. apply Hnone.
  - intros [Hocc Hmin]. split; [apply occurs_at_cons; exact Hocc|].
    intros [|p'] Hlt; [exact Hhead|]. rewrite occurs_at_cons. apply Hmin. lia.
Qed.

Lemma first_occ_nil (fold : Z -> Z) (n : list Z) : 1 <= length n -> first_occ fold [] n Null.
Proof. intros Hn p [Hlen _]. cbn [length] in Hlen. lia. Qed.

Lemma first_occ_here (fold : Z -> Z) (h n : list Z) :
  occurs_at fold h n 0 -> first_occ fold h n (Ptr 0).
Proof. intros Hocc. split; [exact Hocc|]. intros p' Hp'. lia. Qed.

Lemma starts_with_prefix (h n : list Z) :
  Forall (fun b => b <> 0%Z) h -> Forall (fun b => b <> 0%Z) n ->
  starts_with h n = prefix_fold (fun b => b) n h.
Proof.
  intros Hh Hn. revert h Hh.
  induction Hn as [|c n Hc Hn IH]; intros h Hh.
  { destruct h; reflexivity. }
  destruct Hh as [|b h Hb Hh]; cbn [starts_with prefix_fold];
    (destruct (Z.eqb_spec c 0); [contradiction|]); [reflexivity|].
  destruct (Z.eqb_spec b 0); [contradiction|].
  rewrite IH by exact Hh. reflexivity.
Qed.

Lemma strstr_first (h n : list Z) :
  Forall (fun b => b <> 0%Z) h -> Forall (fun b => b <> 0%Z) n -> 1 <= length n ->
  first_occ (fun b => b) h n (strstr h n).
Proof.
  intros Hh Hn Hlen. induction Hh as [|b h Hb Hh IH]; cbn [strstr].
  - rewrite starts_with_prefix by first [exact Hn | constructor].
    destruct (prefix_fold (fun b => b) n []) eqn:Hpre.
    + apply first_occ_here. apply prefix_fold_occurs. exact Hpre.
    + apply first_occ_nil. exact Hlen.
  - rewrite starts_with_prefix by first [exact Hn | constructor; assumption].
    destruct (prefix_fold (fun b => b) n (b :: h)) eqn:Hpre.
    + apply first_occ_here. apply prefix_fold_occurs. exact Hpre.
    + destruct (Z.eqb_spec b 0); [contradiction|].
      apply first_occ_cons; [|exact IH].
      intros Hocc. apply prefix_fold_occurs in Hocc. congruence.
Qed.

Lemma strchr_first (h : list Z) (c : Z) :
  Forall (fun b => b <> 0%Z) h -> c <> 0%Z ->
  first_occ (fun b => b) h [c] (strchr h c).
Proof.
  intros Hh Hc. induction Hh as [|b h Hb Hh IH]; cbn [strchr].
  - destruct (Z.eqb_spec c 0); [contradiction|].
    apply first_occ_nil. cbn [length]. lia.
  - destruct (Z.eqb_spec b c) as [Heq|Hne].
    + apply first_occ_here. apply prefix_fold_occurs. cbn [prefix_fold].
      rewrite andb_true_r. apply Z.eqb_eq. exact Heq.
    + destruct (Z.eqb_spec b 0); [contradiction|].
      apply first_occ_cons; [|exact IH].
      intros Hocc. apply prefix_fold_occurs in Hocc. cbn [prefix_fold] in Hocc.
      rewrite andb_true_r in Hocc. apply Z.eqb_eq in Hocc. contradiction.
Qed.

Lemma replace_search_first (toLower : Z -> Z) (ignoreCase : bool) (text from : list Z) :
  Forall (fun b => b <> 0%Z) text -> Forall (fun b => b <> 0%Z) from -> 1 <= length from ->
  exists r : ptr nat,
    (if ignoreCase then strcasestr toLower text from
     else Some (if length from =? 1 then strchr text (cget from 0) else strstr text from))
    = Some r
    /\ first_occ (fold_of toLower ignoreCase) text from r.
Proof.
  intros Ht Hf Hlen. destruct ignoreCase; cbn [fold_of].
  - apply strcasestr_first; assumption.
  - eexists. split; [reflexivity|].
    destruct (Nat.eqb_spec (length from) 1) as [Hone|Hmore].
    + destruct from as [|c [|c' from']]; cbn [length] in Hone; try lia.
      cbn. apply strchr_first; [exact Ht|]. inversion Hf. assumption.
    + apply strstr_first; assumption.
Qed.

(** *** The memory moves of one replacement *)

Lemma memmove_memcpy (pre F B rest to : list Z) :
  length pre + length to + length B + 1 <= length (pre ++ F ++ B ++ 0%Z :: rest) ->
  exists (str1 rest' : list Z),
    memmove (pre ++ F ++ B ++ 0%Z :: rest)
      (length pre + length to) (length pre + length F) (length B + 1) = Some str1
    /\ memcpy str1 (length pre) to (length to) = Some (pre ++ to ++ B ++ 0%Z :: rest')
    /\ length to + length rest' = length F + length rest.
Proof.
  intros Hfit. set (buf := pre ++ F ++ B ++ 0%Z :: rest) in *.
  assert (length buf = length pre + length F + length B + 1 + length rest) as Hlen
    by (unfold buf; len_norm; lia).
  assert (drop (length pre + length F) buf = B ++ 0%Z :: rest) as Hdrop.
  { unfold buf. rewrite drop_app_add' by reflexivity. apply drop_app_length. }
  assert (take (length B + 1) (B ++ 0%Z :: rest) = B ++ [0%Z]) as Htake.
  { rewrite take_app_add' by reflexivity. reflexivity. }
  assert (take (length pre + length to) buf = pre ++ take (length to) (F ++ B ++ 0%Z :: rest))
    as Hhead by (unfold buf; apply take_app_add'; reflexivity).
  assert (length (take (length to) (F ++ B ++ 0%Z :: rest)) = length to) as Hlen_head
    by (rewrite length_take; len_norm; lia).
  clearbody buf.
  eexists. exists (drop (length pre + length to + (length B + 1)) buf).
  split; [|split].
  - unfold memmove.
    destruct (decide (length pre + length to + (length B + 1) <= length buf
                      /\ length pre + length F + (length B + 1) <= length buf)) as [_|Hno];
      [reflexivity | exfalso; apply Hno; lia].
  - rewrite Hdrop, Htake, Hhead. unfold memcpy.
    match goal with
    | |- context [decide ?P] => destruct (decide P) as [_|Hno]
    end.
    2:{ exfalso. apply Hno. rewrite !length_app, Hlen_head, length_drop.
        cbn [length]. lia. }
    rewrite <- !app_assoc.
    rewrite take_app_length.
    rewrite firstn_all.
    replace (length pre + length to)
      with (length (pre ++ take (length to) (F ++ B ++ 0%Z :: rest)))
      by (rewrite length_app, Hlen_head; reflexivity).
    rewrite (app_assoc pre (take _ _)).
    rewrite drop_app_length. rewrite <- ?app_assoc. reflexivity.
  - rewrite length_drop. lia.
Qed.

Lemma memcpy_over (pre F B rest to : list Z) :
  length to = length F ->
  memcpy (pre ++ F ++ B ++ 0%Z :: rest) (length pre) to (length to)
  = Some (pre ++ to ++ B ++ 0%Z :: rest).
Proof.
  intros Heq. unfold memcpy.
  match goal with
  | |- context [decide ?P] => destruct (decide P) as [_|Hno]
  end.
  2:{ exfalso. apply Hno. len_norm. lia. }
  rewrite take_app_length, firstn_all.
  rewrite drop_app_add' by reflexivity. rewrite Heq, drop_app_length. reflexivity.
Qed.

(** *** The loop of [replace] *)

Lemma occurrence_split (fold : Z -> Z) (cur from : list Z) (off : nat) :
  occurs_at fold cur from off ->
  exists A F B : list Z,
    cur = A ++ F ++ B /\ length A = off /\ length F = length from
    /\ drop off cur = F ++ B /\ drop (length from) (F ++ B) = B /\ take off cur = A.
Proof.
  intros [Hlen _].
  exists (take off cur), (take (length from) (drop off cur)),
    (drop (length from) (drop off cur)).
  assert (length (take (length from) (drop off cur)) = length from) as HF
    by (rewrite length_take, length_drop; lia).
  split; [rewrite !take_drop; reflexivity|].
  split; [rewrite length_take; lia|].
  split; [exact HF|].
  split; [rewrite take_drop; reflexivity|].
  split; [|reflexivity].
  rewrite take_drop. reflexivity.
Qed.

Lemma replace_loop_refines (toLower : Z -> Z) (ignoreCase : bool) (from to : list Z)
    (maxLen : nat) :
  Forall (fun b => b <> 0%Z) from -> Forall (fun b => b <> 0%Z) to -> 1 <= length from ->
  forall (fuel : nat) (pre cur rest : list Z),
    Forall (fun b => b <> 0%Z) cur ->
    length pre + length cur < maxLen ->
    maxLen <= length (pre ++ cur ++ 0%Z :: rest) ->
    length cur < fuel ->
    exists (out rest' : list Z) (truncated : bool),
      replace_text (fold_of toLower ignoreCase) from to (maxLen - 1) cur 0
        (length pre + length cur) = (out, truncated)
      /\ replace_loop toLower fuel (pre ++ cur ++ 0%Z :: rest) maxLen from to
           (length from) (length to) ignoreCase (length pre + length cur) (length pre)
         = Some (pre ++ out ++ 0%Z :: rest', length pre + length out, truncated)
      /\ length out + length rest' = length cur + length rest
      /\ length pre + length out < maxLen
      /\ Forall (fun b => b <> 0%Z) out.
Proof.
  intros Hfrom Hto Hlen. induction fuel as [|fuel IH]; intros pre cur rest Hcur Hfit Hcap Hfuel;
    [lia|].
  cbn [replace_loop]. rewrite cstr_at_app by exact Hcur. cbn [mbind option_bind].
  destruct (replace_search_first toLower ignoreCase cur from Hcur Hfrom Hlen)
    as (r & Hsearch & Hfirst).
  rewrite Hsearch. cbn [mbind option_bind].
  destruct r as [|off].
  - exists cur, rest, false.
    split; [apply replace_text_none; exact Hfirst|].
    split; [reflexivity|]. split; [reflexivity|]. split; [exact Hfit | exact Hcur].
  - destruct (replace_text_first (fold_of toLower ignoreCase) from to (maxLen - 1) Hlen
                cur off (length pre + length cur) Hfirst) as [Hpre Heq].
    destruct Hfirst as [Hocc _].
    destruct (occurrence_split _ _ _ _ Hocc) as (A & F & B & -> & HA & HF & Hdrop & HdropF & Htake).
    rewrite Hdrop in Hpre, Heq. rewrite Htake in Heq.
    rewrite (replace_text_here _ _ _ _ Hlen _ _ Hpre), HdropF in Heq.
    assert (Forall (fun b => b <> 0%Z) A /\ Forall (fun b => b <> 0%Z) B) as [HnA HnB]
      by (rewrite !Forall_app in Hcur; tauto).
    rewrite !length_app in Hfit, Hfuel, Heq |- *.
    rewrite !length_app in Hcap. cbn [length] in Hcap.
    assert (pre ++ (A ++ F ++ B) ++ 0%Z :: rest = (pre ++ A) ++ F ++ B ++ 0%Z :: rest) as Hbuf
      by (rewrite <- !app_assoc; reflexivity).
    assert (length (pre ++ A) = length pre + off) as HpA by (rewrite length_app; lia).
    set (len := length pre + (length A + (length F + length B))) in *.
    remember ((length from <? length to) && (maxLen - 1 <? len + (length to - length from)))
      as cond eqn:Hc.
    assert (forall (rest1 str2 : list Z) (cl p : nat),
              cond = false ->
              length to + length rest1 = length F + length rest ->
              len + length to - length from < maxLen ->
              str2 = ((pre ++ A) ++ to) ++ B ++ 0%Z :: rest1 ->
              cl = len + length to - length from ->
              p = length pre + off + length to ->
              exists (out rest' : list Z) (truncated : bool),
                replace_text (fold_of toLower ignoreCase) from to (maxLen - 1)
                  (A ++ F ++ B) 0 len = (out, truncated)
                /\ replace_loop toLower fuel str2 maxLen from to (length from) (length to)
                     ignoreCase cl p
                   = Some (pre ++ out ++ 0%Z :: rest', length pre + length out, truncated)
                /\ length out + length rest' = length A + (length F + length B) + length rest
                /\ length pre + length out < maxLen
                /\ Forall (fun b => b <> 0%Z) out) as Hstep.
    { intros rest1 str2 cl p Hcond Hrest1 Hroom -> -> ->.
      destruct (IH ((pre ++ A) ++ to) B rest1) as (out & rest' & tr & Hspec & Hrun & Hlens & Hfit' & Hnz).
      - exact HnB.
      - rewrite !length_app. unfold len in Hroom. lia.
      - len_norm. lia.
      - lia.
      - replace (length ((pre ++ A) ++ to) + length B) with (len + length to - length from)
          in Hspec, Hrun by (rewrite !length_app; unfold len; lia).
        replace (length ((pre ++ A) ++ to)) with (length pre + off + length to)
          in Hrun, Hfit' by (rewrite !length_app; lia).
        exists (A ++ to ++ out), rest', tr.
        rewrite Heq, Hcond, Hspec. cbn [fst snd].
        split; [reflexivity|].
        split; [rewrite Hrun, <- !app_assoc, !length_app; do 3 f_equal; lia|].
        split; [rewrite !length_app; lia|].
        split; [rewrite !length_app; lia|].
        rewrite !Forall_app. auto. }
    clear IH Hsearch Hocc Hdrop HdropF Htake Hpre.
    cbv zeta. rewrite Hbuf.
    assert (size_sub len (length pre + off + length from) + 1 = length B + 1) as Hn
      by (rewrite size_sub_le by (unfold len; lia); unfold len; lia).
    rewrite Hn.
    assert (length pre + off + length to + length B + 1
              <= length ((pre ++ A) ++ F ++ B ++ 0%Z :: rest) ->
              exists (str1 rest1 : list Z),
                memmove ((pre ++ A) ++ F ++ B ++ 0%Z :: rest)
                  (length pre + off + length to) (length pre + off + length from)
                  (length B + 1) = Some str1
                /\ memcpy str1 (length pre + off) to (length to)
                   = Some (((pre ++ A) ++ to) ++ B ++ 0%Z :: rest1)
                /\ length to + length rest1 = length F + length rest) as Hmove.
    { intros Hroom.
      destruct (memmove_memcpy (pre ++ A) F B rest to) as (str1 & rest1 & Hmm & Hmc & Hl);
        [rewrite HpA; exact Hroom|].
      rewrite HpA, HF in Hmm. rewrite HpA in Hmc.
      exists str1, rest1. split; [exact Hmm|]. split; [|exact Hl].
      rewrite Hmc, <- !app_assoc. reflexivity. }
    destruct (Nat.ltb_spec (length from) (length to)) as [Hgrow|Hngrow].
    + destruct (Nat.leb_spec maxLen (len + (length to - length from))) as [Hfull|Hroom].
      * exists (A ++ F ++ B), rest, true.
        assert (cond = true) as Hcond.
        { rewrite Hc. cbn [andb]. apply Nat.ltb_lt. lia. }
        rewrite Heq, Hcond. cbn [fst snd].
        split; [reflexivity|].
        split; [rewrite <- !app_assoc, !length_app; reflexivity|].
        split; [rewrite !length_app; lia|].
        split; [rewrite !length_app; exact Hfit | exact Hcur].
      * destruct Hmove as (str1 & rest1 & Hmm & Hmc & Hl);
          [len_norm; unfold len in Hroom; lia|].
        rewrite Hmm. cbn [mbind option_bind]. rewrite Hmc. cbn [mbind option_bind].
        apply (Hstep rest1); try reflexivity; try lia.
        rewrite Hc. cbn [andb]. apply Nat.ltb_ge. lia.
    + assert (cond = false) as Hcond
        by (rewrite Hc; reflexivity).
      destruct (Nat.ltb_spec (length to) (length from)) as [Hshrink|Hsame].
      * destruct Hmove as (str1 & rest1 & Hmm & Hmc & Hl);
          [len_norm; lia|].
        rewrite Hmm. cbn [mbind option_bind]. rewrite Hmc. cbn [mbind option_bind].
        apply (Hstep rest1); try reflexivity; try lia; [exact Hcond|].
        rewrite size_sub_le by (unfold len; lia). lia.
      * replace (length pre + off) with (length (pre ++ A)) by exact HpA.
        rewrite memcpy_over by lia. cbn [mbind option_bind].
        apply (Hstep rest); try reflexivity; try lia; try exact Hcond.
        rewrite <- !app_assoc. reflexivity.
Qed.

Lemma replace_text_truncated (fold : Z -> Z) (from to : list Z) (cap : nat) (text : list Z) :
  forall (skip len : nat) (out : list Z),
    replace_text fold from to cap text skip len = (out, true) -> length from < length to.
Proof.
  induction text as [|b text IH]; intros skip len out H; cbn [replace_text] in H.
  - discriminate H.
  - destruct skip as [|k]; [|exact (IH _ _ _ H)].
    destruct (prefix_fold fold from (b :: text)).
    + destruct ((length from <? length to) && (cap <? len + (length to - length from)))
        eqn:Hcond.
      * apply andb_true_iff in Hcond as [Hlt _]. apply Nat.ltb_lt. exact Hlt.
      * destruct (replace_text fold from to cap text (length from - 1)
                    (len + length to - length from)) as [out' tr] eqn:Hrec.
        inversion H; subst. exact (IH _ _ _ Hrec).
    + destruct (replace_text fold from to cap text 0 len) as [out' tr] eqn:Hrec.
      inversion H; subst. exact (IH _ _ _ Hrec).
Qed.

(** With a byte that is not UTF-8 in the text, the pass of [sanitizeUtf8]
    that ends a truncated [replace] rewrites what follows that byte, the
    replacement already made included. *)
Example replace_trunc_invalid_demo :
  replace_spec ascii_toLower [128; 97; 97]%Z (bytes "a") (bytes "bb") 5 false
  = ([128; 98; 98; 97]%Z, true)
  /\ replace ascii_toLower (Ptr [128; 97; 97; 0; 0]%Z) 5 3
       (Ptr (bytes "a")) (Ptr (bytes "bb")) false
     = Some (Ptr [239; 191; 189; 63; 0]%Z, 4).
Proof. vm_compute. split; reflexivity. Qed.

(** C4: on a buffer of at least [maxLen] bytes that holds the text [s]
    (shorter than [maxLen], [curLen] its length), with a pattern [from] that
    is not empty, [replace] returns, and refines [replace_spec], the
    left-to-right substitution on texts that resumes after each replacement
    and stops at the first replacement that would outgrow the capacity:
    - when nothing was refused the buffer holds the substituted text, its
      terminator, and the returned length is the length of that text;
    - when a replacement was refused ([to] is then longer than [from]) the
      result is that of one [sanitizeUtf8] on the buffer that holds the text
      with the replacements made so far, and the text left passes
      [validateUtf8]; if the partly substituted text is valid UTF-8 it is
      left as it is;
    - the array keeps its size and the returned length stays below
      [maxLen]. *)
Theorem replace_refines_spec (toLower : Z -> Z) (ignoreCase : bool)
    (s rest from to : list Z) (maxLen : nat) :
  Forall (fun b => b <> 0%Z) s -> Forall (fun b => b <> 0%Z) from ->
  Forall (fun b => b <> 0%Z) to -> 1 <= length from ->
  length s < maxLen -> maxLen <= length (s ++ 0%Z :: rest) ->
  exists (out rest' : list Z) (truncated : bool) (res t : list Z) (len : nat),
    replace_spec toLower s from to maxLen ignoreCase = (out, truncated)
    /\ length (out ++ 0%Z :: rest') = length (s ++ 0%Z :: rest)
    /\ length out < maxLen
    /\ (truncated = true -> length from < length to)
    /\ replace toLower (Ptr (s ++ 0%Z :: rest)) maxLen (length s) (Ptr from) (Ptr to) ignoreCase
       = (if truncated then sanitizeUtf8 (Ptr (out ++ 0%Z :: rest')) maxLen
          else Some (Ptr (out ++ 0%Z :: rest'), length out))
    /\ replace toLower (Ptr (s ++ 0%Z :: rest)) maxLen (length s) (Ptr from) (Ptr to) ignoreCase
       = Some (Ptr res, len)
    /\ length res = length (s ++ 0%Z :: rest) /\ len < maxLen
    /\ cstr_at res 0 = Some t /\ length t = len
    /\ (truncated = true -> validateUtf8 (Ptr t) = Some true)
    /\ (truncated = false \/ utf8 out -> res = out ++ 0%Z :: rest' /\ t = out).
Proof.
  intros Hs Hfrom Hto Hlen Hfit Hcap.
  destruct (replace_loop_refines toLower ignoreCase from to maxLen Hfrom Hto Hlen
              (S (length (s ++ 0%Z :: rest))) [] s rest Hs)
    as (out & rest' & tr & Hspec & Hrun & Hlens & Hfit' & Hnz).
  { exact Hfit. }
  { exact Hcap. }
  { rewrite length_app. lia. }
  cbn [app length Nat.add] in Hspec, Hrun, Hfit'.
  assert (length (out ++ 0%Z :: rest') = length (s ++ 0%Z :: rest)) as Hsize
    by (rewrite !length_app; cbn [length]; lia).
  assert (replace toLower (Ptr (s ++ 0%Z :: rest)) maxLen (length s) (Ptr from) (Ptr to)
            ignoreCase
          = (if tr then sanitizeUtf8 (Ptr (out ++ 0%Z :: rest')) maxLen
             else Some (Ptr (out ++ 0%Z :: rest'), length out))) as Hcode.
  { unfold replace.
    replace (cget from 0 =? 0)%Z with false
      by (symmetry; apply Z.eqb_neq; apply cget_nonzero_lt; [exact Hfrom | lia]).
    rewrite (strlen_nonzero from Hfrom), (strlen_nonzero to Hto), Hrun.
    reflexivity. }
  assert (cstr_at (out ++ 0%Z :: rest') 0 = Some out) as Hout
    by exact (cstr_at_app [] out rest' Hnz).
  destruct tr.
  - destruct (sanitizeUtf8_result (out ++ 0%Z :: rest') maxLen)
      as (t & rest2 & Hsan & Hfit2 & Hsize2 & Hutf); [lia | lia | |].
    { unfold cstr_at in Hout. destruct (strlen_from (out ++ 0%Z :: rest') 0); [eauto | discriminate]. }
    exists out, rest', true, (t ++ 0%Z :: rest2), t, (length t).
    split; [exact Hspec|]. split; [exact Hsize|]. split; [exact Hfit'|].
    split; [intros _; exact (replace_text_truncated _ _ _ _ _ _ _ _ Hspec)|].
    split; [exact Hcode|]. split; [rewrite Hcode; exact Hsan|].
    split; [lia|]. split; [exact Hfit2|].
    split; [exact (cstr_at_app [] t rest2 (utf8_nonzero t Hutf))|].
    split; [reflexivity|].
    split; [intros _; exact (validateUtf8_utf8 t Hutf)|].
    intros [Hno|Hvalid]; [discriminate|].
    rewrite (sanitizeUtf8_text maxLen out rest' Hvalid Hfit') in Hsan by lia.
    inversion Hsan as [[Hres Hl]].
    apply app_inj_1 in Hres as [Ht _]; [|exact Hl]. subst t. split; reflexivity.
  - exists out, rest', false, (out ++ 0%Z :: rest'), out, (length out).
    split; [exact Hspec|]. split; [exact Hsize|]. split; [exact Hfit'|].
    split; [discriminate|].
    split; [exact Hcode|]. split; [exact Hcode|].
    split; [exact Hsize|]. split; [exact Hfit'|].
    split; [exact Hout|]. split; [reflexivity|].
    split; [discriminate|]. intros _. split; reflexivity.
Qed.

Lemma replace_refines_spec_witness :
  exists (out rest' : list Z) (truncated : bool) (res t : list Z) (len : nat),
    replace_spec ascii_toLower (bytes "a-b-c") (bytes "-") (bytes "+++") 9 false
    = (out, truncated)
    /\ length (out ++ 0%Z :: rest') = length (bytes "a-b-c" ++ 0%Z :: replicate 3 0%Z)
    /\ length out < 9
    /\ (truncated = true -> length (bytes "-") < length (bytes "+++"))
    /\ replace ascii_toLower (Ptr (bytes "a-b-c" ++ 0%Z :: replicate 3 0%Z)) 9
         (length (bytes "a-b-c")) (Ptr (bytes "-")) (Ptr (bytes "+++")) false
       = (if truncated then sanitizeUtf8 (Ptr (out ++ 0%Z :: rest')) 9
          else Some (Ptr (out ++ 0%Z :: rest'), length out))
    /\ replace ascii_toLower (Ptr (bytes "a-b-c" ++ 0%Z :: replicate 3 0%Z)) 9
         (length (bytes "a-b-c")) (Ptr (bytes "-")) (Ptr (bytes "+++")) false
       = Some (Ptr res, len)
    /\ length res = length (bytes "a-b-c" ++ 0%Z :: replicate 3 0%Z) /\ len < 9
    /\ cstr_at res 0 = Some t /\ length t = len
    /\ (truncated = true -> validateUtf8 (Ptr t) = Some true)
    /\ (truncated = false \/ utf8 out -> res = out ++ 0%Z :: rest' /\ t = out).
Proof.
  apply (replace_refines_spec ascii_toLower false (bytes "a-b-c") (replicate 3 0%Z)
           (bytes "-") (bytes "+++") 9).
  - vm_compute. repeat constructor; discriminate.
  - vm_compute. repeat constructor; discriminate.
  - vm_compute. repeat constructor; discriminate.
  - vm_compute. lia.
  - vm_compute. lia.
  - vm_compute. lia.
Defined.

(** * Further properties of the code *)

(** ** cmsQueue.h: [Queue<T, N>] *)

Lemma mod_lt_cases (a n : nat) :
  0 < n -> a < n + n -> a mod n = if a <? n then a else a - n.
Proof.
  intros Hn Ha. destruct (Nat.ltb_spec a n) as [Hlt|Hge].
  - apply Nat.mod_small. exact Hlt.
  - symmetry. apply (Nat.mod_unique a n 1); lia.
Qed.

Ltac mod_norm n :=
  repeat match goal with
         | |- context [?a mod n] =>
             rewrite (mod_lt_cases a n) by lia; destruct (Nat.ltb_spec a n)
         | H : context [?a mod n] |- _ =>
             rewrite (mod_lt_cases a n) in H by lia; destruct (Nat.ltb_spec a n)
         end.

Section QueueFacts.

Context {T : Type}.
Variable N : nat.

Lemma ring_lookup (d : list T) (h i : nat) :
  h < length d -> i < length d ->
  (drop h d ++ take h d) !! i = d !! ((h + i) mod length d).
Proof.
  intros Hh Hi. mod_norm (length d).
  - rewrite lookup_app_l by (rewrite length_drop; lia). apply lookup_drop.
  - rewrite lookup_app_r by (rewrite length_drop; lia).
    rewrite length_drop, lookup_take_lt by lia. f_equal. lia.
Qed.

Lemma contents_lookup (q : Queue.t T) (i : nat) :
  Queue.wf N q ->
  Queue.contents q !! i
  = if decide (i < Queue._count q) then Queue._data q !! ((Queue._head q + i) mod N) else None.
Proof.
  intros (Hlen & Hh & Hc & _). unfold Queue.contents.
  destruct (decide (i < Queue._count q)) as [Hi|Hi].
  - rewrite lookup_take_lt by exact Hi. rewrite ring_lookup by lia. rewrite Hlen. reflexivity.
  - apply lookup_take_ge. lia.
Qed.

Lemma contents_length (q : Queue.t T) :
  Queue.wf N q -> length (Queue.contents q) = Queue._count q.
Proof.
  intros (Hlen & Hh & Hc & _). unfold Queue.contents.
  rewrite length_take, length_app, length_drop, length_take. lia.
Qed.

Lemma size_mod_Some (a : nat) : 0 < N -> size_mod a N = Some (a mod N).
Proof. intros H. unfold size_mod. destruct (Nat.eqb_spec N 0); [lia | reflexivity]. Qed.

Lemma enqueue_spec (q : Queue.t T) (x : T) :
  Queue.wf N q ->
  exists q' : Queue.t T,
    Queue.enqueue N q x = Some q' /\ Queue.wf N q'
    /\ Queue.contents q'
       = (if Queue.isFull N q then drop 1 (Queue.contents q) else Queue.contents q) ++ [x].
Proof.
  intros Hwf. pose proof Hwf as (Hlen & Hh & Hc & Htl).
  destruct q as [d h tl c]. cbn [Queue._data Queue._head Queue._tail Queue._count] in *.
  unfold Queue.enqueue, Queue.isFull. cbn [Queue._data Queue._head Queue._tail Queue._count].
  destruct (Nat.eqb_spec c N) as [Hfull|Hroom].
  - (* full: the oldest item gives way *)
    subst c. assert (tl = h) as -> by (subst tl; mod_norm N; lia).
    rewrite size_mod_Some by lia. cbn [mbind option_bind Queue._data Queue._tail Queue._head Queue._count].
    rewrite store_Some by lia. cbn [mbind option_bind].
    rewrite size_mod_Some by lia. cbn [mbind option_bind].
    rewrite size_sub_le by lia.
    eexists. split; [reflexivity|].
    assert (Queue.wf N (Queue.mk (<[h:=x]> d) ((h + 1) mod N) ((h + 1) mod N) (N - 1 + 1))) as Hwf'.
    { unfold Queue.wf. cbn [Queue._data Queue._head Queue._tail Queue._count].
      rewrite length_insert. split; [exact Hlen|]. split; [apply Nat.mod_upper_bound; lia|].
      split; [lia|]. mod_norm N; lia. }
    split; [exact Hwf'|].
    apply list_eq. intros i.
    rewrite (contents_lookup _ i Hwf'). cbn [Queue._data Queue._head Queue._tail Queue._count].
    destruct (decide (i < N - 1 + 1)) as [Hi|Hi].
    + destruct (decide (i = N - 1)) as [->|Hne].
      * rewrite lookup_app_r by (rewrite length_drop, (contents_length _ Hwf); cbn; lia).
        rewrite length_drop, (contents_length _ Hwf). cbn [Queue._count].
        replace (N - 1 - (N - 1)) with 0 by lia. cbn.
        replace (((h + 1) mod N + (N - 1)) mod N) with h by (mod_norm N; lia).
        apply list_lookup_insert_eq. lia.
      * rewrite lookup_app_l by (rewrite length_drop, (contents_length _ Hwf); cbn; lia).
        rewrite lookup_drop, (contents_lookup _ _ Hwf).
        cbn [Queue._data Queue._head Queue._tail Queue._count].
        destruct (decide (1 + i < N)); [|lia].
        rewrite list_lookup_insert_ne by (mod_norm N; lia).
        f_equal. mod_norm N; lia.
    + rewrite lookup_ge_None_2; [reflexivity|].
      rewrite length_app, length_drop, (contents_length _ Hwf). cbn. lia.
  - (* room left *)
    cbn [mbind option_bind Queue._data Queue._tail Queue._head Queue._count].
    assert (tl < N) as Htl' by (subst tl; apply Nat.mod_upper_bound; lia).
    rewrite store_Some by lia. cbn [mbind option_bind].
    rewrite size_mod_Some by lia. cbn [mbind option_bind].
    eexists. split; [reflexivity|].
    assert (Queue.wf N (Queue.mk (<[tl:=x]> d) h ((tl + 1) mod N) (c + 1))) as Hwf'.
    { unfold Queue.wf. cbn [Queue._data Queue._head Queue._tail Queue._count].
      rewrite length_insert. split; [exact Hlen|]. split; [exact Hh|].
      split; [lia|]. subst tl. mod_norm N; lia. }
    split; [exact Hwf'|].
    apply list_eq. intros i.
    rewrite (contents_lookup _ i Hwf'). cbn [Queue._data Queue._head Queue._tail Queue._count].
    destruct (decide (i < c + 1)) as [Hi|Hi].
    + destruct (decide (i = c)) as [->|Hne].
      * rewrite lookup_app_r by (rewrite (contents_length _ Hwf); cbn; lia).
        rewrite (contents_length _ Hwf). cbn [Queue._count].
        rewrite Nat.sub_diag. cbn. rewrite <- Htl. apply list_lookup_insert_eq. lia.
      * rewrite lookup_app_l by (rewrite (contents_length _ Hwf); cbn; lia).
        rewrite (contents_lookup _ _ Hwf).
        cbn [Queue._data Queue._head Queue._tail Queue._count].
        destruct (decide (i < c)); [|lia].
        rewrite list_lookup_insert_ne by (subst tl; mod_norm N; lia).
        reflexivity.
    + rewrite lookup_ge_None_2; [reflexivity|].
      rewrite length_app, (contents_length _ Hwf). cbn. lia.
Qed.

Lemma enqueue_all_spec (items : list T) :
  forall q : Queue.t T,
    Queue.wf N q ->
    exists q' : Queue.t T,
      Queue.enqueue_all N q items = Some q' /\ Queue.wf N q'
      /\ Queue.contents q'
         = drop (length (Queue.contents q ++ items) - N) (Queue.contents q ++ items).
Proof.
  induction items as [|x items IH]; intros q Hwf; cbn [Queue.enqueue_all].
  - exists q. split; [reflexivity|]. split; [exact Hwf|].
    pose proof Hwf as (_ & _ & Hc & _).
    rewrite app_nil_r, (contents_length _ Hwf), (proj2 (Nat.sub_0_le _ _) Hc). reflexivity.
  - destruct (enqueue_spec q x Hwf) as (q1 & Hrun & Hwf1 & Hcont).
    rewrite Hrun. cbn [mbind option_bind].
    destruct (IH q1 Hwf1) as (q' & Hrun' & Hwf' & Hcont').
    exists q'. split; [exact Hrun'|]. split; [exact Hwf'|].
    rewrite Hcont', Hcont. clear Hcont' Hrun' Hwf' Hrun IH.
    pose proof (contents_length _ Hwf) as Hlen. pose proof Hwf as (_ & _ & Hc & _).
    unfold Queue.isFull. destruct (Nat.eqb_spec (Queue._count q) N) as [Hfull|Hroom].
    + destruct (Queue.contents q) as [|y ys]; cbn [length] in Hlen.
      * cbn [drop app length]. replace N with 0 by lia. reflexivity.
      * cbn [drop app]. change (drop 0 ys) with ys. rewrite <- !app_assoc. cbn [app].
        rewrite !length_app. cbn [length]. rewrite length_app. cbn [length].
        replace (length ys + S (length items) - N) with (length items) by lia.
        replace (S (length ys + S (length items)) - N) with (S (length items)) by lia.
        reflexivity.
    + rewrite <- !app_assoc. reflexivity.
Qed.

(** X1: on a queue in a consistent state [enqueue] returns; the new item is
    the newest of the contents; when the queue was full the oldest item is
    dropped for it, otherwise nothing is lost; the size never passes [N]. *)
Theorem queue_enqueue (q : Queue.t T) (x : T) :
  Queue.wf N q ->
  exists q' : Queue.t T,
    Queue.enqueue N q x = Some q' /\ Queue.wf N q'
    /\ Queue.contents q'
       = (if Queue.isFull N q then drop 1 (Queue.contents q) else Queue.contents q) ++ [x]
    /\ Queue.size q' = Nat.min N (Queue.size q + 1).
Proof.
  intros Hwf. destruct (enqueue_spec q x Hwf) as (q' & Hrun & Hwf' & Hcont).
  exists q'. split; [exact Hrun|]. split; [exact Hwf'|]. split; [exact Hcont|].
  unfold Queue.size. rewrite <- (contents_length _ Hwf'), Hcont, length_app.
  pose proof (contents_length _ Hwf) as Hlen. pose proof Hwf as (_ & Hh & Hc & _).
  unfold Queue.isFull. destruct (Nat.eqb_spec (Queue._count q) N).
  - rewrite length_drop, Hlen. cbn [length]. lia.
  - rewrite Hlen. cbn [length]. lia.
Qed.

(** X2: [pop] on a queue in a consistent state: when the queue is empty it
    answers [false] and changes neither [outItem] nor the queue; otherwise
    it answers [true], hands out the oldest item and leaves the rest in
    order. *)
Theorem queue_pop (q : Queue.t T) (outItem : T) :
  Queue.wf N q ->
  match Queue.contents q with
  | [] => Queue.pop N q outItem = Some (false, outItem, q)
  | x :: rest =>
      exists q' : Queue.t T,
        Queue.pop N q outItem = Some (true, x, q') /\ Queue.wf N q'
        /\ Queue.contents q' = rest
  end.
Proof.
  intros Hwf. pose proof Hwf as (Hlen & Hh & Hc & Htl).
  pose proof (contents_length _ Hwf) as Hcl.
  pose proof (contents_lookup q 0 Hwf) as H0.
  destruct q as [d h tl c]. cbn [Queue._data Queue._head Queue._tail Queue._count] in *.
  unfold Queue.pop, Queue.isEmpty. cbn [Queue._data Queue._head Queue._tail Queue._count].
  destruct (Queue.contents (Queue.mk d h tl c)) as [|x rest] eqn:Hcont; cbn [length] in Hcl.
  - subst c. reflexivity.
  - destruct (Nat.eqb_spec c 0) as [|Hne]; [lia|].
    destruct (decide (0 < c)); [|lia].
    cbn in H0. replace ((h + 0) mod N) with h in H0 by (mod_norm N; lia).
    rewrite <- H0. cbn [mbind option_bind].
    rewrite size_mod_Some by lia. cbn [mbind option_bind].
    rewrite size_sub_le by lia.
    eexists. split; [reflexivity|].
    assert (Queue.wf N (Queue.mk d ((h + 1) mod N) tl (c - 1))) as Hwf'.
    { unfold Queue.wf. cbn [Queue._data Queue._head Queue._tail Queue._count].
      split; [exact Hlen|]. split; [apply Nat.mod_upper_bound; lia|].
      split; [lia|]. subst tl. mod_norm N; lia. }
    split; [exact Hwf'|].
    apply list_eq. intros i.
    rewrite (contents_lookup _ i Hwf'). cbn [Queue._data Queue._head Queue._tail Queue._count].
    change (rest !! i) with ((x :: rest) !! S i). rewrite <- Hcont.
    rewrite (contents_lookup _ (S i) Hwf).
    cbn [Queue._data Queue._head Queue._tail Queue._count].
    destruct (decide (i < c - 1)), (decide (S i < c)); try lia; [|reflexivity].
    f_equal. mod_norm N; lia.
Qed.

(** X3: [getAt] on a queue in a consistent state reads the contents by
    position, 0 being the oldest item; past the last item it answers
    [false] and leaves [outItem] alone. *)
Theorem queue_getAt (q : Queue.t T) (index : nat) (outItem : T) :
  Queue.wf N q ->
  Queue.getAt N q index outItem
  = Some (match Queue.contents q !! index with
          | Some x => (true, x)
          | None => (false, outItem)
          end).
Proof.
  intros Hwf. pose proof Hwf as (Hlen & Hh & Hc & Htl).
  rewrite (contents_lookup q index Hwf). unfold Queue.getAt.
  destruct (Nat.leb_spec (Queue._count q) index) as [Hge|Hlt].
  - destruct (decide (index < Queue._count q)); [lia | reflexivity].
  - destruct (decide (index < Queue._count q)); [|lia].
    rewrite size_mod_Some by lia. cbn [mbind option_bind].
    destruct (lookup_lt_is_Some_2 (Queue._data q) ((Queue._head q + index) mod N)) as [x Hx].
    { rewrite Hlen. apply Nat.mod_upper_bound. lia. }
    rewrite Hx. reflexivity.
Qed.

(** X4: a queue keeps the newest [N] items: after any number of [enqueue]s
    onto a queue in a consistent state the contents are the last [N] items
    of the old contents followed by the enqueued ones, in order. *)
Theorem queue_keeps_newest (q : Queue.t T) (items : list T) :
  Queue.wf N q ->
  exists q' : Queue.t T,
    Queue.enqueue_all N q items = Some q' /\ Queue.wf N q'
    /\ Queue.contents q'
       = drop (length (Queue.contents q ++ items) - N) (Queue.contents q ++ items)
    /\ Queue.size q' = Nat.min N (Queue.size q + length items).
Proof.
  intros Hwf. destruct (enqueue_all_spec items q Hwf) as (q' & Hrun & Hwf' & Hcont).
  exists q'. split; [exact Hrun|]. split; [exact Hwf'|]. split; [exact Hcont|].
  unfold Queue.size. rewrite <- (contents_length _ Hwf'), Hcont, length_drop, length_app.
  rewrite (contents_length _ Hwf). pose proof Hwf as (_ & _ & Hc & _). lia.
Qed.

End QueueFacts.

Lemma queue_enqueue_witness :
  exists q' : Queue.t nat,
    Queue.enqueue 3 (Queue.mk [7; 8; 9] 1 1 3) 5 = Some q' /\ Queue.wf 3 q'
    /\ Queue.contents q'
       = (if Queue.isFull 3 (Queue.mk [7; 8; 9] 1 1 3)
          then drop 1 (Queue.contents (Queue.mk [7; 8; 9] 1 1 3))
          else Queue.contents (Queue.mk [7; 8; 9] 1 1 3)) ++ [5]
    /\ Queue.size q' = Nat.min 3 (Queue.size (Queue.mk [7; 8; 9] 1 1 3) + 1).
Proof.
  apply (queue_enqueue 3 (Queue.mk [7; 8; 9] 1 1 3) 5).
  unfold Queue.wf. cbn. repeat split; lia.
Defined.

Lemma queue_pop_witness :
  match Queue.contents (Queue.mk [7; 8; 9] 2 1 2) with
  | [] => Queue.pop 3 (Queue.mk [7; 8; 9] 2 1 2) 0 = Some (false, 0, Queue.mk [7; 8; 9] 2 1 2)
  | x :: rest =>
      exists q' : Queue.t nat,
        Queue.pop 3 (Queue.mk [7; 8; 9] 2 1 2) 0 = Some (true, x, q') /\ Queue.wf 3 q'
        /\ Queue.contents q' = rest
  end.
Proof.
  apply (queue_pop 3 (Queue.mk [7; 8; 9] 2 1 2) 0).
  unfold Queue.wf. cbn. repeat split; lia.
Defined.

Lemma queue_getAt_witness :
  Queue.getAt 3 (Queue.mk [7; 8; 9] 2 1 2) 1 0
  = Some (match Queue.contents (Queue.mk [7; 8; 9] 2 1 2) !! 1 with
          | Some x => (true, x)
          | None => (false, 0)
          end).
Proof.
  apply (queue_getAt 3 (Queue.mk [7; 8; 9] 2 1 2) 1 0).
  unfold Queue.wf. cbn. repeat split; lia.
Defined.

Lemma queue_keeps_newest_witness :
  exists q' : Queue.t nat,
    Queue.enqueue_all 3 (Queue.init [0; 0; 0]) [1; 2; 3; 4; 5] = Some q' /\ Queue.wf 3 q'
    /\ Queue.contents q'
       = drop (length (Queue.contents (Queue.init [0; 0; 0]) ++ [1; 2; 3; 4; 5]) - 3)
           (Queue.contents (Queue.init [0; 0; 0]) ++ [1; 2; 3; 4; 5])
    /\ Queue.size q' = Nat.min 3 (Queue.size (Queue.init [0; 0; 0]) + length [1; 2; 3; 4; 5]).
Proof.
  apply (queue_keeps_newest 3 (Queue.init [0; 0; 0]) [1; 2; 3; 4; 5]).
  unfold Queue.wf. cbn. repeat split; lia.
Defined.

(** ** [append]: clipping and composition *)

Lemma append_text (s rest src : list Z) (maxLen srcLen : nat) :
  length s < maxLen -> maxLen <= length (s ++ 0%Z :: rest) -> srcLen <= length src ->
  append (Ptr (s ++ 0%Z :: rest)) maxLen (length s) (Ptr src) srcLen
  = Some (Ptr (s ++ take (Nat.min srcLen (maxLen - 1 - length s)) src
                 ++ 0%Z :: drop (Nat.min srcLen (maxLen - 1 - length s)) rest),
          length s + Nat.min srcLen (maxLen - 1 - length s)).
Proof.
  intros Hfit Hcap Hsrc. rewrite length_app in Hcap. cbn [length] in Hcap.
  unfold append. rewrite !size_sub_le by lia.
  destruct (Nat.eqb_spec srcLen 0) as [->|Hne]; cbn [orb].
  { cbn [Nat.min take drop app]. rewrite Nat.add_0_r. reflexivity. }
  destruct (Nat.leb_spec (maxLen - 1) (length s)) as [Hfull|Hroom].
  { replace (maxLen - 1 - length s) with 0 by lia. rewrite Nat.min_0_r.
    cbn [take drop app]. rewrite Nat.add_0_r. reflexivity. }
  set (k := Nat.min srcLen (maxLen - 1 - length s)).
  replace (if srcLen <? maxLen - 1 - length s then srcLen else maxLen - 1 - length s) with k
    by (unfold k; destruct (Nat.ltb_spec srcLen (maxLen - 1 - length s)); lia).
  assert (0 < k) as Hk by (unfold k; lia).
  assert (k <= length rest) as Hkr by (unfold k; lia).
  assert (k <= length src) as Hks by (unfold k; lia).
  clearbody k.
  destruct (Nat.ltb_spec 0 k) as [_|]; [|lia].
  unfold memcpy.
  destruct (decide (length s + k <= length (s ++ 0%Z :: rest) /\ k <= length src)) as [_|Hno].
  2:{ exfalso. apply Hno. rewrite length_app. cbn [length]. lia. }
  cbn [mbind option_bind].
  rewrite take_app_length, drop_app_add' by reflexivity.
  assert (length (take k src) = k) as Hlt by (rewrite length_take; lia).
  rewrite store_Some by (rewrite !length_app, Hlt, length_drop; cbn [length]; lia).
  cbn [mbind option_bind]. do 3 f_equal.
  destruct (lookup_lt_is_Some_2 (0%Z :: rest) k) as [y Hy]; [cbn [length]; lia|].
  rewrite (drop_S _ _ _ Hy). cbn [drop].
  rewrite insert_app_r_alt by lia. rewrite insert_app_r_alt by lia.
  replace (length s + k - length s - length (take k src)) with 0 by lia.
  reflexivity.
Qed.

(** X5: on a buffer that holds the text [s] with its terminator, [append]
    copies as many of the offered bytes as the capacity leaves room for
    ([maxLen - 1 - length s], possibly none), puts the terminator right
    behind them and returns the new length; the text [s] and the bytes
    behind the new terminator are not touched. *)
Theorem append_clips_and_terminates (s rest src : list Z) (maxLen srcLen : nat) :
  length s < maxLen -> maxLen <= length (s ++ 0%Z :: rest) -> srcLen <= length src ->
  exists k : nat,
    k = Nat.min srcLen (maxLen - 1 - length s)
    /\ append (Ptr (s ++ 0%Z :: rest)) maxLen (length s) (Ptr src) srcLen
       = Some (Ptr (s ++ take k src ++ 0%Z :: drop k rest), length s + k)
    /\ length (s ++ take k src ++ 0%Z :: drop k rest) = length (s ++ 0%Z :: rest)
    /\ length s + k < maxLen.
Proof.
  intros Hfit Hcap Hsrc. eexists. split; [reflexivity|].
  split; [exact (append_text s rest src maxLen srcLen Hfit Hcap Hsrc)|].
  rewrite length_app in Hcap. cbn [length] in Hcap. len_norm. lia.
Qed.

Lemma append_clips_and_terminates_witness :
  exists k : nat,
    k = Nat.min 5 (8 - 1 - length (bytes "abcd"))
    /\ append (Ptr (bytes "abcd" ++ 0%Z :: [1; 2; 3; 4]%Z)) 8 (length (bytes "abcd"))
         (Ptr (bytes "hello")) 5
       = Some (Ptr (bytes "abcd" ++ take k (bytes "hello") ++ 0%Z :: drop k [1; 2; 3; 4]%Z),
               length (bytes "abcd") + k)
    /\ length (bytes "abcd" ++ take k (bytes "hello") ++ 0%Z :: drop k [1; 2; 3; 4]%Z)
       = length (bytes "abcd" ++ 0%Z :: [1; 2; 3; 4]%Z)
    /\ length (bytes "abcd") + k < 8.
Proof.
  apply (append_clips_and_terminates (bytes "abcd") [1; 2; 3; 4]%Z (bytes "hello") 8 5).
  - vm_compute. lia.
  - vm_compute. lia.
  - vm_compute. lia.
Defined.

(** X6: two [append]s in a row leave the buffer and the length that one
    [append] of the two sources joined leaves, clipped or not. *)
Theorem append_append (s rest s1 s2 : list Z) (maxLen : nat) :
  length s < maxLen -> maxLen <= length (s ++ 0%Z :: rest) ->
  ('(b1, n1) ← append (Ptr (s ++ 0%Z :: rest)) maxLen (length s) (Ptr s1) (length s1);
   append b1 maxLen n1 (Ptr s2) (length s2))
  = append (Ptr (s ++ 0%Z :: rest)) maxLen (length s) (Ptr (s1 ++ s2)) (length (s1 ++ s2)).
Proof.
  intros Hfit Hcap.
  rewrite (append_text s rest s1 maxLen (length s1)) by (assumption || lia).
  rewrite (append_text s rest (s1 ++ s2) maxLen (length (s1 ++ s2))) by (assumption || lia).
  cbn [mbind option_bind].
  set (room := maxLen - 1 - length s).
  set (k1 := Nat.min (length s1) room).
  assert (length (s ++ take k1 s1) = length s + k1) as Hl1
    by (rewrite length_app, length_take; unfold k1; lia).
  rewrite length_app in Hcap. cbn [length] in Hcap.
  rewrite app_assoc, <- Hl1.
  rewrite (append_text (s ++ take k1 s1) (drop k1 rest) s2 maxLen (length s2)).
  2:{ rewrite Hl1. unfold k1, room. lia. }
  2:{ rewrite length_app, Hl1. cbn [length]. rewrite length_drop. unfold k1, room. lia. }
  2:{ lia. }
  rewrite Hl1.
  set (k2 := Nat.min (length s2) (maxLen - 1 - (length s + k1))).
  assert (Nat.min (length (s1 ++ s2)) room = k1 + k2) as Hk
    by (rewrite length_app; unfold k1, k2, room; lia).
  rewrite Hk, drop_drop.
  assert (take (k1 + k2) (s1 ++ s2) = take k1 s1 ++ take k2 s2) as Ht.
  { destruct (Nat.le_gt_cases (length s1) room) as [Hle|Hgt].
    - assert (k1 = length s1) as E by (unfold k1; lia).
      rewrite E, take_app_add' by reflexivity. rewrite firstn_all. reflexivity.
    - assert (k1 = room /\ k2 = 0) as [E1 E2] by (unfold k1, k2, room; lia).
      rewrite E2, Nat.add_0_r. cbn [take]. rewrite app_nil_r.
      apply take_app_le. lia. }
  rewrite Ht, <- !app_assoc, Nat.add_assoc. reflexivity.
Qed.

Lemma append_append_witness :
  ('(b1, n1) ← append (Ptr (bytes "ab" ++ 0%Z :: [1; 2; 3; 4; 5]%Z)) 8 (length (bytes "ab"))
                 (Ptr (bytes "cde")) (length (bytes "cde"));
   append b1 8 n1 (Ptr (bytes "fghi")) (length (bytes "fghi")))
  = append (Ptr (bytes "ab" ++ 0%Z :: [1; 2; 3; 4; 5]%Z)) 8 (length (bytes "ab"))
      (Ptr (bytes "cde" ++ bytes "fghi")) (length (bytes "cde" ++ bytes "fghi")).
Proof.
  apply (append_append (bytes "ab") [1; 2; 3; 4; 5]%Z (bytes "cde") (bytes "fghi") 8).
  - vm_compute. lia.
  - vm_compute. lia.
Defined.

(** ** UTF-8: characters, their first bytes and the character index *)

Lemma is_cont_range_bool (n : nat) :
  n < 256 -> is_cont (Z.of_nat n) = (128 <=? n) && (n <=? 191).
Proof.
  intros Hn.
  assert (forallb (fun n => Bool.eqb (is_cont (Z.of_nat n)) ((128 <=? n) && (n <=? 191)))
            (seq 0 256) = true) as Hall by (vm_compute; reflexivity).
  rewrite forallb_forall in Hall.
  specialize (Hall n ltac:(apply in_seq; lia)).
  apply Bool.eqb_prop in Hall. exact Hall.
Qed.

Lemma is_cont_range (b : Z) :
  is_byte b -> is_cont b = true <-> (128 <= b <= 191)%Z.
Proof.
  intros [Hlo Hhi].
  pose proof (is_cont_range_bool (Z.to_nat b) ltac:(lia)) as H.
  rewrite Z2Nat.id in H by lia. rewrite H, andb_true_iff, Nat.leb_le, Nat.leb_le. lia.
Qed.

Lemma is_cont_false (b : Z) :
  is_byte b -> (b < 128 \/ 192 <= b)%Z -> is_cont b = false.
Proof.
  intros Hb Hr. apply not_true_is_false. rewrite (is_cont_range b Hb). lia.
Qed.

Ltac bool_hyps :=
  repeat match goal with
         | H : (_ && _) = true |- _ => apply andb_true_iff in H as [? ?]
         | H : (_ || _) = false |- _ => apply orb_false_iff in H as [? ?]
         | H : negb _ = false |- _ => apply negb_false_iff in H
         | H : (_ <=? _)%Z = true |- _ => apply Z.leb_le in H
         | H : (_ <=? _)%Z = false |- _ => apply Z.leb_gt in H
         | H : (_ <? _)%Z = true |- _ => apply Z.ltb_lt in H
         | H : (_ <? _)%Z = false |- _ => apply Z.ltb_ge in H
         | H : (_ =? _)%Z = true |- _ => apply Z.eqb_eq in H
         | H : (_ =? _)%Z = false |- _ => apply Z.eqb_neq in H
         end.

(** What a round of [validateUtf8] has checked of the bytes it accepts. *)
Lemma validate_step_conts (a b c d : Z) (k : nat) :
  is_byte a -> is_byte b -> is_byte c -> is_byte d ->
  validate_step a b c d = Some k ->
  is_cont a = false
  /\ (1 < k -> is_cont b = true) /\ (2 < k -> is_cont c = true)
  /\ (3 < k -> is_cont d = true).
Proof.
  intros Ha Hb Hc Hd H.
  assert (forall x : Z, is_byte x -> (128 <= x <= 191)%Z -> is_cont x = true) as Hin
    by (intros x Hx Hr; apply is_cont_range; assumption).
  assert (forall x : Z, is_byte x -> (x < 128 \/ 192 <= x)%Z -> is_cont x = false) as Hout
    by (intros x Hx Hr; apply is_cont_false; assumption).
  unfold validate_step in H.
  repeat match type of H with
         | (if ?c then _ else _) = _ => destruct c eqn:?
         end;
    try discriminate H; injection H as <-; bool_hyps;
    (split; [apply Hout; [assumption | lia]|]);
    (split; [intros ?; try lia; first [assumption | apply Hin; [assumption | lia]]|]);
    (split; intros ?; try lia; first [assumption | apply Hin; [assumption | lia]]).
Qed.

(** A character is one byte that is not a continuation byte, followed by
    continuation bytes only. *)
Lemma char_shape (ch : list Z) :
  is_char ch -> Forall is_byte ch ->
  exists (b0 : Z) (tl : list Z),
    ch = b0 :: tl /\ b0 <> 0%Z /\ is_cont b0 = false
    /\ Forall (fun b => is_cont b = true) tl.
Proof.
  intros [Hnz Hstep] Hbytes.
  specialize (Hstep []). rewrite app_nil_r in Hstep.
  pose proof (validate_step_range _ _ _ _ _ Hstep) as Hk.
  assert (forall i : nat, is_byte (cget ch i)) as Hget.
  { intros i. unfold cget. destruct (ch !! i) as [x|] eqn:Hx; cbn.
    - exact (proj1 (Forall_lookup _ _) Hbytes i x Hx).
    - unfold is_byte. lia. }
  destruct (validate_step_conts _ _ _ _ _ (Hget 0) (Hget 1) (Hget 2) (Hget 3) Hstep)
    as (H0 & H1 & H2 & H3).
  destruct ch as [|b0 tl]; [cbn [length] in Hk; lia|].
  exists b0, tl. inversion Hnz; subst.
  split; [reflexivity|]. split; [assumption|]. split; [exact H0|].
  cbn [length] in *.
  destruct tl as [|b1 tl]; [constructor|].
  constructor; [apply H1; cbn [length]; lia|].
  destruct tl as [|b2 tl]; [constructor|].
  constructor; [apply H2; cbn [length]; lia|].
  destruct tl as [|b3 tl]; [constructor|].
  constructor; [apply H3; cbn [length]; lia|].
  destruct tl; [constructor | cbn [length] in Hk; lia].
Qed.

(** *** [findUtf8CharStart] on bytes *)

Lemma cget_app_here (pre suf : list Z) (b : Z) : cget (pre ++ b :: suf) (length pre) = b.
Proof.
  pose proof (cget_app_r pre (b :: suf) 0) as H. rewrite Nat.add_0_r in H. exact H.
Qed.

Lemma cget_app_end (pre : list Z) : cget pre (length pre) = 0%Z.
Proof. apply cget_ge. lia. Qed.

Lemma skip_chars_bytes (charIdx : nat) (suf : list Z) :
  forall (pre : list Z) (count fuel : nat),
    Forall (fun b => b <> 0%Z) suf -> count <= charIdx -> length suf <= fuel ->
    skip_chars fuel (pre ++ suf) charIdx (length pre) count
    = Some (length pre + skip_starts suf (charIdx - count)).
Proof.
  induction suf as [|b t IH]; intros pre count fuel Hnz Hcount Hfuel.
  - rewrite app_nil_r. destruct fuel; cbn [skip_chars]; rewrite cget_app_end;
      cbn; rewrite Nat.add_0_r; reflexivity.
  - inversion Hnz as [|? ? Hb Ht]; subst. cbn [length] in Hfuel.
    destruct fuel as [|fuel]; [lia|]. cbn [skip_chars].
    rewrite cget_app_here.
    destruct (Z.eqb_spec b 0) as [|_]; [contradiction|]. cbn [negb andb].
    destruct (Nat.ltb_spec count charIdx) as [Hlt|Hge].
    + replace (charIdx - count) with (S (charIdx - count - 1)) by lia.
      cbn [skip_starts].
      replace (pre ++ b :: t) with ((pre ++ [b]) ++ t) by (rewrite <- app_assoc; reflexivity).
      replace (length pre + 1) with (length (pre ++ [b])) by (rewrite length_app; reflexivity).
      rewrite IH; [|exact Ht | destruct (is_cont b); cbn [negb]; lia | lia].
      rewrite length_app. cbn [length]. f_equal.
      match goal with
      | |- _ + skip_starts t ?u = _ + S (skip_starts t ?v) =>
          replace u with v by (destruct (is_cont b); cbn [negb]; lia)
      end.
      lia.
    + replace (charIdx - count) with 0 by lia. cbn [skip_starts].
      rewrite Nat.add_0_r. reflexivity.
Qed.

Lemma skip_conts_bytes (suf : list Z) :
  forall (pre : list Z) (fuel : nat),
    Forall (fun b => b <> 0%Z) suf -> length suf <= fuel ->
    skip_conts fuel (pre ++ suf) (length pre) = Some (length pre + cont_run suf).
Proof.
  induction suf as [|b t IH]; intros pre fuel Hnz Hfuel.
  - rewrite app_nil_r. destruct fuel; cbn [skip_conts]; rewrite cget_app_end;
      cbn; rewrite Nat.add_0_r; reflexivity.
  - inversion Hnz as [|? ? Hb Ht]; subst. cbn [length] in Hfuel.
    destruct fuel as [|fuel]; [lia|]. cbn [skip_conts cont_run].
    rewrite cget_app_here.
    destruct (Z.eqb_spec b 0) as [|_]; [contradiction|]. cbn [negb andb].
    destruct (is_cont b).
    + replace (pre ++ b :: t) with ((pre ++ [b]) ++ t) by (rewrite <- app_assoc; reflexivity).
      replace (length pre + 1) with (length (pre ++ [b])) by (rewrite length_app; reflexivity).
      rewrite IH by (assumption || lia). rewrite length_app. cbn [length]. f_equal. lia.
    + rewrite Nat.add_0_r. reflexivity.
Qed.

Lemma skip_starts_le (s : list Z) : forall n : nat, skip_starts s n <= length s.
Proof.
  induction s as [|b t IH]; intros n; [cbn; lia|].
  destruct n as [|n]; cbn [skip_starts length]; [lia|].
  specialize (IH (if is_cont b then S n else n)). lia.
Qed.

Lemma cont_run_le (s : list Z) : cont_run s <= length s.
Proof. induction s as [|b t IH]; cbn; [lia|]. destruct (is_cont b); lia. Qed.

Lemma findUtf8CharStart_bytes (s : list Z) (charIdx : nat) :
  Forall (fun b => b <> 0%Z) s ->
  findUtf8CharStart (Ptr s) charIdx
  = Some (Ptr (skip_starts s charIdx + cont_run (drop (skip_starts s charIdx) s))).
Proof.
  intros Hnz. unfold findUtf8CharStart.
  pose proof (skip_chars_bytes charIdx s [] 0 (length s) Hnz ltac:(lia) ltac:(lia)) as H1.
  cbn [app length Nat.add] in H1. rewrite Nat.sub_0_r in H1. rewrite H1.
  cbn [mbind option_bind].
  set (p := skip_starts s charIdx).
  pose proof (skip_starts_le s charIdx) as Hp. fold p in Hp.
  pose proof (skip_conts_bytes (drop p s) (take p s) (length s)) as H2.
  rewrite take_drop, length_take in H2.
  replace (Nat.min p (length s)) with p in H2 by lia.
  rewrite H2; [reflexivity | | rewrite length_drop; lia].
  rewrite <- (take_drop p s) in Hnz. apply Forall_app in Hnz. tauto.
Qed.

(** *** Texts cut into characters *)

Lemma chars_cons (ch : list Z) (chs : list (list Z)) :
  chars (ch :: chs) ->
  chars chs
  /\ exists (b0 : Z) (tl : list Z),
       ch = b0 :: tl /\ b0 <> 0%Z /\ is_cont b0 = false
       /\ Forall (fun b => is_cont b = true) tl.
Proof.
  intros H. inversion H as [|? ? [Hch Hby] Hrest]; subst.
  split; [exact Hrest | exact (char_shape ch Hch Hby)].
Qed.

Lemma chars_nonzero (chs : list (list Z)) :
  chars chs -> Forall (fun b => b <> 0%Z) (concat chs).
Proof.
  induction 1 as [|ch chs [[Hnz _] _] _ IH]; cbn [concat]; [constructor|].
  apply Forall_app. auto.
Qed.

Lemma chars_bytes (chs : list (list Z)) : chars chs -> Forall is_byte (concat chs).
Proof.
  induction 1 as [|ch chs [_ Hby] _ IH]; cbn [concat]; [constructor|].
  apply Forall_app. auto.
Qed.

Lemma chars_utf8 (chs : list (list Z)) : chars chs -> utf8 (concat chs).
Proof.
  induction 1 as [|ch chs [Hch _] _ IH]; cbn [concat]; [apply utf8_nil|].
  apply utf8_cons; assumption.
Qed.

Lemma char_offset_0 (chs : list (list Z)) : char_offset chs 0 = 0.
Proof. reflexivity. Qed.

Lemma char_offset_cons (ch : list Z) (chs : list (list Z)) (k : nat) :
  char_offset (ch :: chs) (S k) = length ch + char_offset chs k.
Proof. unfold char_offset. cbn [take concat]. apply length_app. Qed.

Lemma char_offset_all (chs : list (list Z)) (k : nat) :
  length chs <= k -> char_offset chs k = length (concat chs).
Proof. intros H. unfold char_offset. rewrite take_ge by exact H. reflexivity. Qed.

Lemma skip_starts_conts (tl rest : list Z) (n : nat) :
  Forall (fun b => is_cont b = true) tl ->
  skip_starts (tl ++ rest) (S n) = length tl + skip_starts rest (S n).
Proof.
  induction 1 as [|b tl Hb _ IH]; [reflexivity|].
  cbn [app skip_starts length]. rewrite Hb, IH. reflexivity.
Qed.

Lemma cont_run_app (tl rest : list Z) :
  Forall (fun b => is_cont b = true) tl ->
  cont_run (tl ++ rest) = length tl + cont_run rest.
Proof.
  induction 1 as [|b tl Hb _ IH]; [reflexivity|].
  cbn [app cont_run length]. rewrite Hb, IH. reflexivity.
Qed.

Lemma cont_run_chars (chs : list (list Z)) : chars chs -> cont_run (concat chs) = 0.
Proof.
  intros H. destruct chs as [|ch chs]; [reflexivity|].
  destruct (chars_cons _ _ H) as (_ & b0 & tl & -> & _ & Hc & _).
  cbn [concat app cont_run]. rewrite Hc. reflexivity.
Qed.

Lemma skip_then_conts (chs : list (list Z)) :
  chars chs ->
  forall k : nat,
    skip_starts (concat chs) k + cont_run (drop (skip_starts (concat chs) k) (concat chs))
    = char_offset chs k.
Proof.
  induction chs as [|ch chs IH]; intros H k.
  - cbn. destruct k; reflexivity.
  - destruct (chars_cons _ _ H) as (Hrest & b0 & tl & -> & Hnz & Hc0 & Hconts).
    destruct k as [|k].
    + cbn [concat app skip_starts drop cont_run]. rewrite Hc0. reflexivity.
    + rewrite char_offset_cons. cbn [concat app skip_starts length]. rewrite Hc0.
      destruct k as [|k].
      * assert (skip_starts (tl ++ concat chs) 0 = 0) as -> by (destruct (tl ++ concat chs); reflexivity).
        cbn [drop]. change (drop 0 (tl ++ concat chs)) with (tl ++ concat chs).
        rewrite (cont_run_app _ _ Hconts), (cont_run_chars _ Hrest).
        rewrite char_offset_0. lia.
      * rewrite (skip_starts_conts _ _ _ Hconts). cbn [drop].
        rewrite drop_app_add' by reflexivity.
        specialize (IH Hrest (S k)). lia.
Qed.

(** X7: on a text made of well-formed UTF-8 characters
    [findUtf8CharStart] returns the byte offset at which character
    [charIdx] begins, that is the total length of the characters before it,
    and the length of the text when [charIdx] is past the last character. *)
Theorem findUtf8CharStart_character_boundary (chs : list (list Z)) (charIdx : nat) :
  chars chs ->
  findUtf8CharStart (Ptr (concat chs)) charIdx = Some (Ptr (char_offset chs charIdx)).
Proof.
  intros H. rewrite (findUtf8CharStart_bytes _ _ (chars_nonzero _ H)).
  rewrite (skip_then_conts _ H). reflexivity.
Qed.

Ltac chars_tac :=
  unfold chars, is_char, is_byte;
  repeat first [ discriminate | lia | (intros ?; reflexivity) | constructor ].

Lemma findUtf8CharStart_character_boundary_witness :
  findUtf8CharStart (Ptr (concat [[97]; [226; 130; 172]; [98]]%Z)) 2
  = Some (Ptr (char_offset [[97]; [226; 130; 172]; [98]]%Z 2)).
Proof.
  apply (findUtf8CharStart_character_boundary [[97]; [226; 130; 172]; [98]]%Z 2).
  chars_tac.
Defined.

(** *** [utf8_strlen] *)

Lemma count_chars_all (s : list Z) :
  count_chars s 0 (length s) = length (filter (fun b => negb (is_cont b) = true) s).
Proof. unfold count_chars. rewrite Nat.sub_0_r, drop_0, firstn_all. reflexivity. Qed.

Lemma count_chars_cons (b : Z) (s : list Z) :
  count_chars (b :: s) 0 (length (b :: s))
  = (if is_cont b then 0 else 1) + count_chars s 0 (length s).
Proof.
  rewrite !count_chars_all. rewrite filter_cons.
  destruct (is_cont b); cbn [negb].
  - destruct (decide (false = true)) as [E|_]; [discriminate E | reflexivity].
  - destruct (decide (true = true)) as [_|E]; [reflexivity | contradiction].
Qed.

Lemma count_starts_bytes (suf : list Z) :
  forall (pre : list Z) (count fuel : nat),
    Forall (fun b => b <> 0%Z) suf -> length suf <= fuel ->
    count_starts fuel (pre ++ suf) (length pre) count
    = Some (count + count_chars suf 0 (length suf)).
Proof.
  induction suf as [|b t IH]; intros pre count fuel Hnz Hfuel.
  - rewrite app_nil_r. destruct fuel; cbn [count_starts]; rewrite cget_app_end;
      cbn; rewrite Nat.add_0_r; reflexivity.
  - inversion Hnz as [|? ? Hb Ht]; subst. cbn [length] in Hfuel.
    destruct fuel as [|fuel]; [lia|]. cbn [count_starts].
    rewrite cget_app_here.
    destruct (Z.eqb_spec b 0) as [|_]; [contradiction|]. cbn [negb].
    replace (pre ++ b :: t) with ((pre ++ [b]) ++ t) by (rewrite <- app_assoc; reflexivity).
    replace (length pre + 1) with (length (pre ++ [b])) by (rewrite length_app; reflexivity).
    rewrite IH by (assumption || lia). rewrite count_chars_cons.
    destruct (is_cont b); cbn [negb]; f_equal; lia.
Qed.

Lemma ascii_run_bytes (suf : list Z) :
  forall (pre : list Z) (count fuel : nat),
    Forall is_byte suf -> length suf <= fuel ->
    exists (a : nat),
      ascii_run fuel (pre ++ suf) (length pre) count = Some (length pre + a, count + a)
      /\ a <= length suf
      /\ count_chars suf 0 (length suf)
         = a + count_chars (drop a suf) 0 (length (drop a suf)).
Proof.
  induction suf as [|b t IH]; intros pre count fuel Hby Hfuel.
  - exists 0. rewrite app_nil_r. split; [|split; [lia | reflexivity]].
    destruct fuel; cbn [ascii_run]; rewrite cget_app_end; cbn; rewrite !Nat.add_0_r; reflexivity.
  - inversion Hby as [|? ? Hb Ht]; subst. cbn [length] in Hfuel.
    destruct fuel as [|fuel]; [lia|]. cbn [ascii_run].
    rewrite cget_app_here.
    destruct (negb (b =? 0)%Z && (b <? 128)%Z) eqn:Htest.
    + apply andb_true_iff in Htest as [_ Hlt]. apply Z.ltb_lt in Hlt.
      replace (pre ++ b :: t) with ((pre ++ [b]) ++ t) by (rewrite <- app_assoc; reflexivity).
      replace (length pre + 1) with (length (pre ++ [b])) by (rewrite length_app; reflexivity).
      destruct (IH (pre ++ [b]) (count + 1) fuel Ht ltac:(lia)) as (a & Hrun & Ha & Hcount).
      exists (S a). rewrite Hrun, length_app. cbn [length drop].
      split; [do 2 f_equal; lia|]. split; [lia|].
      rewrite count_chars_cons, (is_cont_false b Hb) by lia.
      change (length (b :: t)) with (S (length t)) in *. lia.
    + exists 0. rewrite !Nat.add_0_r. split; [reflexivity|]. split; [lia | reflexivity].
Qed.

Lemma utf8_strlen_bytes (s : list Z) :
  Forall (fun b => b <> 0%Z) s -> Forall is_byte s ->
  utf8_strlen (Ptr s) = Some (count_chars s 0 (length s)).
Proof.
  intros Hnz Hby. unfold utf8_strlen.
  destruct (ascii_run_bytes s [] 0 (length s) Hby ltac:(lia)) as (a & Hrun & Ha & Hcount).
  cbn [app length Nat.add] in Hrun. rewrite Hrun. cbn [mbind option_bind].
  pose proof (count_starts_bytes (drop a s) (take a s) a (length s)) as Hrest.
  rewrite take_drop, length_take in Hrest.
  replace (Nat.min a (length s)) with a in Hrest by lia.
  destruct (Z.eqb_spec (cget s a) 0) as [Hz|_].
  - f_equal. rewrite Hcount.
    apply cget_zero_iff in Hz; [|exact Hnz].
    rewrite drop_ge by lia. cbn. lia.
  - rewrite Hrest; [f_equal; lia | | rewrite length_drop; lia].
    rewrite <- (take_drop a s) in Hnz. apply Forall_app in Hnz. tauto.
Qed.

Lemma count_chars_chars (chs : list (list Z)) :
  chars chs -> count_chars (concat chs) 0 (length (concat chs)) = length chs.
Proof.
  induction chs as [|ch chs IH]; intros H; [reflexivity|].
  destruct (chars_cons _ _ H) as (Hrest & b0 & tl & -> & _ & Hc0 & Hconts).
  specialize (IH Hrest). cbn [concat app length].
  rewrite count_chars_cons, Hc0. f_equal.
  clear - Hconts IH. induction Hconts as [|b tl Hb _ IHt]; [exact IH|].
  cbn [app]. rewrite count_chars_cons, Hb. exact IHt.
Qed.

(** X8: on a text made of well-formed UTF-8 characters [utf8_strlen]
    returns the number of characters, whether the ASCII fast path covers
    all, some or none of the text. *)
Theorem utf8_strlen_counts_characters (chs : list (list Z)) :
  chars chs -> utf8_strlen (Ptr (concat chs)) = Some (length chs).
Proof.
  intros H.
  rewrite (utf8_strlen_bytes _ (chars_nonzero _ H) (chars_bytes _ H)).
  rewrite (count_chars_chars _ H). reflexivity.
Qed.

Lemma utf8_strlen_counts_characters_witness :
  utf8_strlen (Ptr (concat [[97]; [226; 130; 172]; [195; 169]; [98]]%Z))
  = Some (length [[97]; [226; 130; 172]; [195; 169]; [98]]%Z).
Proof.
  apply (utf8_strlen_counts_characters [[97]; [226; 130; 172]; [195; 169]; [98]]%Z).
  chars_tac.
Defined.

(** *** [utf8SafeEnd] *)

Lemma char_offset_le (chs : list (list Z)) :
  forall j j' : nat, j <= j' -> char_offset chs j <= char_offset chs j'.
Proof.
  induction chs as [|ch chs IH]; intros j j' Hle.
  - unfold char_offset. rewrite !take_nil. lia.
  - destruct j as [|j]; [rewrite char_offset_0; lia|].
    destruct j' as [|j']; [lia|].
    rewrite !char_offset_cons. specialize (IH j j' ltac:(lia)). lia.
Qed.

Lemma char_offset_bound (chs : list (list Z)) (j : nat) :
  char_offset chs j <= length (concat chs).
Proof.
  destruct (Nat.le_gt_cases (length chs) j) as [Hge|Hlt].
  - rewrite char_offset_all by exact Hge. lia.
  - rewrite <- (char_offset_all chs (length chs)) by lia. apply char_offset_le. lia.
Qed.

Lemma char_offset_lt (chs : list (list Z)) :
  chars chs ->
  forall j : nat, j < length chs -> char_offset chs j < char_offset chs (S j).
Proof.
  induction chs as [|ch chs IH]; intros H j Hj; [cbn in Hj; lia|].
  destruct (chars_cons _ _ H) as (Hrest & b0 & tl & -> & _).
  destruct j as [|j].
  - rewrite char_offset_0, char_offset_cons. cbn [length]. lia.
  - rewrite !char_offset_cons. cbn [length] in Hj. specialize (IH Hrest j ltac:(lia)). lia.
Qed.


Lemma not_cont_boundary (chs : list (list Z)) :
  chars chs ->
  forall e : nat,
    e <= length (concat chs) -> is_cont (cget (concat chs) e) = false ->
    exists j : nat, j <= length chs /\ char_offset chs j = e.
Proof.
  induction chs as [|ch chs IH]; intros H e He Hc.
  - exists 0. cbn in He. split; [lia|]. rewrite char_offset_0. lia.
  - destruct (chars_cons _ _ H) as (Hrest & b0 & tl & -> & _ & _ & Hconts).
    cbn [concat] in *. rewrite length_app in He.
    destruct (Nat.lt_ge_cases e (length (b0 :: tl))) as [Hin|Hout].
    + destruct e as [|e]; [exists 0; split; [lia | reflexivity]|].
      exfalso. cbn [length] in Hin.
      destruct (lookup_lt_is_Some_2 tl e ltac:(lia)) as [b Hb].
      assert (cget ((b0 :: tl) ++ concat chs) (S e) = b) as E.
      { unfold cget.
        change (((b0 :: tl) ++ concat chs) !! S e) with ((tl ++ concat chs) !! e).
        rewrite lookup_app_l by lia. rewrite Hb. reflexivity. }
      rewrite E in Hc.
      pose proof (proj1 (Forall_lookup _ _) Hconts e b Hb) as Hcb. cbn in Hcb. congruence.
    + replace e with (length (b0 :: tl) + (e - length (b0 :: tl))) in Hc |- * by lia.
      rewrite cget_app_r in Hc.
      destruct (IH Hrest (e - length (b0 :: tl)) ltac:(lia) Hc) as (j & Hj & Hoff).
      exists (S j). cbn [length]. split; [lia|].
      rewrite char_offset_cons, Hoff. reflexivity.
Qed.




(** ** [insert] and [remove] at character positions *)

Lemma concat_take_drop (chs : list (list Z)) (k : nat) :
  concat chs = concat (take k chs) ++ concat (drop k chs).
Proof. rewrite <- concat_app, take_drop. reflexivity. Qed.

Lemma chars_app (a b : list (list Z)) : chars (a ++ b) <-> chars a /\ chars b.
Proof. unfold chars. apply Forall_app. Qed.

Lemma chars_take (chs : list (list Z)) (k : nat) : chars chs -> chars (take k chs).
Proof. intros H. rewrite <- (take_drop k chs) in H. apply chars_app in H. tauto. Qed.

Lemma chars_drop (chs : list (list Z)) (k : nat) : chars chs -> chars (drop k chs).
Proof. intros H. rewrite <- (take_drop k chs) in H. apply chars_app in H. tauto. Qed.

Lemma cstr_at_0 (s rest : list Z) :
  Forall (fun b => b <> 0%Z) s -> cstr_at (s ++ 0%Z :: rest) 0 = Some s.
Proof. intros Hs. exact (cstr_at_app [] s rest Hs). Qed.

Lemma store_then_memcpy (s rest src : list Z) :
  length src <= length rest ->
  exists buf1 rest' : list Z,
    store (s ++ 0%Z :: rest) (length s + length src) 0%Z = Some buf1
    /\ memcpy buf1 (length s) src (length src) = Some (s ++ src ++ 0%Z :: rest')
    /\ length src + length rest' = length rest.
Proof.
  intros Hfit.
  exists (<[length s + length src := 0%Z]> (s ++ 0%Z :: rest)).
  destruct (Nat.eq_dec (length src) 0) as [Hz|Hnz].
  - destruct src; [|discriminate Hz]. exists rest.
    split; [apply store_Some; rewrite length_app; cbn [length]; lia|].
    cbn [length]. rewrite Nat.add_0_r.
    rewrite list_insert_id by (rewrite lookup_app_r, Nat.sub_diag by lia; reflexivity).
    unfold memcpy.
    destruct (decide (length s + 0 <= length (s ++ 0%Z :: rest) /\ 0 <= length (@nil Z)))
      as [_|Hno]; [|exfalso; apply Hno; rewrite length_app; cbn; lia].
    rewrite Nat.add_0_r, take_app_length, drop_app_length. split; reflexivity.
  - exists (drop (length src) rest).
    split; [apply store_Some; rewrite length_app; cbn [length]; lia|].
    unfold memcpy.
    rewrite length_insert.
    destruct (decide (length s + length src <= length (s ++ 0%Z :: rest)
                      /\ length src <= length src)) as [_|Hno];
      [|exfalso; apply Hno; rewrite length_app; cbn [length]; lia].
    rewrite firstn_all.
    rewrite take_insert_ge by lia. rewrite take_app_length.
    rewrite insert_take_drop by (rewrite length_app; cbn [length]; lia).
    rewrite drop_app_length' by (rewrite length_take, length_app; cbn [length]; lia).
    split; [|rewrite length_drop; lia].
    do 4 f_equal.
    replace (S (length s + length src)) with (length s + S (length src)) by lia.
    rewrite drop_app_add' by reflexivity. reflexivity.
Qed.

Lemma insert_chars (chs : list (list Z)) (src rest : list Z) (maxLen k : nat) :
  chars chs -> Forall (fun b => b <> 0%Z) src -> 1 <= length src ->
  length (concat chs) + length src < maxLen ->
  maxLen <= length (concat chs ++ 0%Z :: rest) ->
  exists rest' : list Z,
    insert (Ptr (concat chs ++ 0%Z :: rest)) maxLen (length (concat chs)) k (Ptr src)
    = Some (Ptr (concat (take k chs) ++ src ++ concat (drop k chs) ++ 0%Z :: rest'),
            length (concat chs) + length src)
    /\ length src + length rest' = length rest.
Proof.
  intros H Hsrc Hne Hfit Hcap. rewrite length_app in Hcap. cbn [length] in Hcap.
  unfold insert.
  replace (cget src 0 =? 0)%Z with false
    by (symmetry; apply Z.eqb_neq; apply cget_nonzero_lt; [exact Hsrc | lia]).
  rewrite (cstr_at_0 (concat chs) rest (chars_nonzero _ H)). cbn [mbind option_bind].
  rewrite (findUtf8CharStart_bytes _ _ (chars_nonzero _ H)), (skip_then_conts _ H).
  cbn [mbind option_bind]. rewrite (strlen_nonzero src Hsrc).
  destruct (Nat.leb_spec maxLen (length (concat chs) + length src)) as [|_]; [lia|].
  destruct (Nat.eqb_spec (length src) 0) as [|_]; [lia|].
  pose proof (concat_take_drop chs k) as Hsplit.
  set (A := concat (take k chs)) in *. set (B := concat (drop k chs)) in *.
  assert (char_offset chs k = length A) as Hoff by reflexivity.
  rewrite Hoff, Hsplit, (length_app A B). rewrite Hsplit, (length_app A B) in Hfit, Hcap.
  clearbody A B.
  destruct (Nat.ltb_spec (length A) (length A + length B)) as [Hmid|Hend].
  - destruct (memmove_memcpy A [] B rest src) as (str1 & rest' & Hmm & Hmc & Hl).
    { len_norm. lia. }
    cbn [app length] in Hmm, Hl. rewrite Nat.add_0_r in Hmm.
    replace (length A + length B - length A + 1) with (length B + 1) by lia.
    rewrite <- app_assoc, Hmm. cbn [mbind option_bind]. rewrite Hmc.
    exists rest'. split; [reflexivity | exact Hl].
  - assert (B = []) as -> by (destruct B; [reflexivity | cbn [length] in Hend; lia]).
    rewrite app_nil_r. cbn [app length]. rewrite Nat.add_0_r.
    destruct (store_then_memcpy A rest src ltac:(lia)) as (buf1 & rest' & Hst & Hmc & Hl).
    rewrite Hst. cbn [mbind option_bind]. rewrite Hmc.
    exists rest'. split; [reflexivity | exact Hl].
Qed.

Lemma memmove_left (A M B rest : list Z) :
  exists rest' : list Z,
    memmove (A ++ M ++ B ++ 0%Z :: rest) (length A) (length A + length M) (length B + 1)
    = Some (A ++ B ++ 0%Z :: rest')
    /\ length rest' = length M + length rest.
Proof.
  exists (drop (length A + (length B + 1)) (A ++ M ++ B ++ 0%Z :: rest)).
  unfold memmove.
  match goal with
  | |- context [decide ?P] => destruct (decide P) as [_|Hno]
  end.
  2:{ exfalso. apply Hno. len_norm. lia. }
  split.
  - rewrite take_app_length. rewrite drop_app_add' by reflexivity.
    rewrite drop_app_length. rewrite take_app_add' by reflexivity.
    rewrite <- app_assoc. reflexivity.
  - len_norm. lia.
Qed.

Lemma remove_chars (chs : list (list Z)) (rest : list Z) (k n : nat) :
  chars chs ->
  exists rest' : list Z,
    remove (Ptr (concat chs ++ 0%Z :: rest)) (length (concat chs)) k n
    = Some (Ptr (concat (take k chs) ++ concat (drop (k + n) chs) ++ 0%Z :: rest'),
            length (concat (take k chs)) + length (concat (drop (k + n) chs)))
    /\ length (concat (take k chs) ++ concat (drop (k + n) chs) ++ 0%Z :: rest')
       = length (concat chs ++ 0%Z :: rest).
Proof.
  intros H. unfold remove.
  rewrite (cstr_at_0 (concat chs) rest (chars_nonzero _ H)). cbn [mbind option_bind].
  rewrite !(findUtf8CharStart_bytes _ _ (chars_nonzero _ H)), !(skip_then_conts _ H).
  cbn [mbind option_bind].
  destruct (Z.eqb_spec (cget (concat chs) (char_offset chs k)) 0) as [Hz|Hnz].
  - (* nothing to remove: the index is past the last character *)
    apply cget_zero_iff in Hz; [|exact (chars_nonzero _ H)].
    assert (length chs <= k) as Hk.
    { destruct (Nat.le_gt_cases (length chs) k) as [|Hlt]; [assumption|].
      pose proof (char_offset_lt chs H k Hlt). pose proof (char_offset_bound chs (S k)). lia. }
    rewrite take_ge, drop_ge by lia. cbn [concat app length]. rewrite Nat.add_0_r.
    exists rest. split; reflexivity.
  - assert (char_offset chs k = length (concat (take k chs))) as Hoffk by reflexivity.
    pose proof (concat_take_drop chs k) as E1.
    pose proof (concat_take_drop (drop k chs) n) as E2.
    rewrite drop_drop in E2.
    set (A := concat (take k chs)) in *.
    set (M := concat (take n (drop k chs))) in *.
    set (B := concat (drop (k + n) chs)) in *.
    assert (k < length chs) as Hk.
    { destruct (Nat.le_gt_cases (length chs) k) as [Hge|]; [|assumption].
      exfalso. apply Hnz. apply cget_ge. rewrite char_offset_all by exact Hge. lia. }
    assert (char_offset chs (k + n) = length A + length M) as ->.
    { unfold char_offset. rewrite <- (take_drop k chs) at 1.
      rewrite take_app_add' by (rewrite length_take; lia).
      rewrite concat_app, length_app. reflexivity. }
    rewrite Hoffk. fold A.
    rewrite E1, E2. clearbody A M B. rewrite !length_app.
    rewrite (size_sub_le (length A + length M) (length A)) by lia.
    rewrite !size_sub_le by lia.
    replace (length A + (length M + length B) - (length A + length M) + 1)
      with (length B + 1) by lia.
    destruct (memmove_left A M B rest) as (rest' & Hmm & Hl).
    rewrite <- !app_assoc, Hmm. cbn [mbind option_bind].
    exists rest'. split; [do 2 f_equal; lia|].
    len_norm. lia.
Qed.

(** X10: into a text made of well-formed UTF-8 characters, when the new
    text fits the capacity, [insert] puts [src] in front of character
    [charIdx] (behind the last one when [charIdx] is past the end): no
    character of the text is split, the terminator follows and the array
    keeps its size. *)
Theorem insert_at_character (chs : list (list Z)) (src rest : list Z) (maxLen charIdx : nat) :
  chars chs -> Forall (fun b => b <> 0%Z) src -> 1 <= length src ->
  length (concat chs) + length src < maxLen ->
  maxLen <= length (concat chs ++ 0%Z :: rest) ->
  exists rest' : list Z,
    insert (Ptr (concat chs ++ 0%Z :: rest)) maxLen (length (concat chs)) charIdx (Ptr src)
    = Some (Ptr (concat (take charIdx chs) ++ src ++ concat (drop charIdx chs) ++ 0%Z :: rest'),
            length (concat chs) + length src)
    /\ length (concat (take charIdx chs) ++ src ++ concat (drop charIdx chs) ++ 0%Z :: rest')
       = length (concat chs ++ 0%Z :: rest).
Proof.
  intros H Hsrc Hne Hfit Hcap.
  destruct (insert_chars chs src rest maxLen charIdx H Hsrc Hne Hfit Hcap) as (rest' & Hrun & Hl).
  exists rest'. split; [exact Hrun|].
  pose proof (f_equal length (concat_take_drop chs charIdx)) as E.
  rewrite length_app in E. len_norm. lia.
Qed.

Lemma insert_at_character_witness :
  exists rest' : list Z,
    insert (Ptr (concat [[97]; [226; 130; 172]; [98]]%Z ++ 0%Z :: [7; 7; 7; 7]%Z)) 10
      (length (concat [[97]; [226; 130; 172]; [98]]%Z)) 2 (Ptr (bytes "xy"))
    = Some (Ptr (concat (take 2 [[97]; [226; 130; 172]; [98]]%Z) ++ bytes "xy"
                 ++ concat (drop 2 [[97]; [226; 130; 172]; [98]]%Z) ++ 0%Z :: rest'),
            length (concat [[97]; [226; 130; 172]; [98]]%Z) + length (bytes "xy"))
    /\ length (concat (take 2 [[97]; [226; 130; 172]; [98]]%Z) ++ bytes "xy"
               ++ concat (drop 2 [[97]; [226; 130; 172]; [98]]%Z) ++ 0%Z :: rest')
       = length (concat [[97]; [226; 130; 172]; [98]]%Z ++ 0%Z :: [7; 7; 7; 7]%Z).
Proof.
  apply (insert_at_character [[97]; [226; 130; 172]; [98]]%Z (bytes "xy") [7; 7; 7; 7]%Z 10 2).
  - chars_tac.
  - vm_compute. repeat constructor; discriminate.
  - vm_compute. lia.
  - vm_compute. lia.
  - vm_compute. lia.
Defined.



(** X12: [remove] undoes [insert]: inserting a text of well-formed
    characters in front of character [k] of a text of well-formed
    characters (it fits the capacity) and then removing as many characters
    from character [k] on gives the text and the length back. *)
Theorem remove_undoes_insert (chs srcchs : list (list Z)) (rest : list Z) (maxLen k : nat) :
  chars chs -> chars srcchs -> 1 <= length (concat srcchs) -> k <= length chs ->
  length (concat chs) + length (concat srcchs) < maxLen ->
  maxLen <= length (concat chs ++ 0%Z :: rest) ->
  exists rest' : list Z,
    ('(b1, n1) ← insert (Ptr (concat chs ++ 0%Z :: rest)) maxLen (length (concat chs)) k
                   (Ptr (concat srcchs));
     remove b1 n1 k (length srcchs))
    = Some (Ptr (concat chs ++ 0%Z :: rest'), length (concat chs))
    /\ length rest' = length rest.
Proof.
  intros H Hs Hne Hk Hfit Hcap.
  destruct (insert_chars chs (concat srcchs) rest maxLen k H (chars_nonzero _ Hs) Hne Hfit Hcap)
    as (r1 & Hins & Hl1).
  rewrite Hins. cbn [mbind option_bind].
  set (chs2 := take k chs ++ srcchs ++ drop k chs).
  assert (chars chs2) as H2.
  { unfold chs2. apply chars_app. split; [apply chars_take; exact H|].
    apply chars_app. split; [exact Hs | apply chars_drop; exact H]. }
  assert (concat (take k chs) ++ concat srcchs ++ concat (drop k chs) ++ 0%Z :: r1
          = concat chs2 ++ 0%Z :: r1) as ->
    by (unfold chs2; rewrite !concat_app, <- !app_assoc; reflexivity).
  pose proof (f_equal length (concat_take_drop chs k)) as Ek.
  rewrite length_app in Ek.
  assert (length (concat chs) + length (concat srcchs) = length (concat chs2)) as E2.
  { unfold chs2. rewrite !concat_app, !length_app. lia. }
  rewrite E2.
  destruct (remove_chars chs2 r1 k (length srcchs) H2) as (r2 & Hrem & Hl2).
  rewrite Hrem.
  assert (take k chs2 = take k chs) as Et
    by (unfold chs2; apply take_app_length'; rewrite length_take; lia).
  assert (drop (k + length srcchs) chs2 = drop k chs) as Ed.
  { unfold chs2. rewrite drop_app_add' by (rewrite length_take; lia).
    apply drop_app_length. }
  rewrite Et, Ed in Hl2 |- *. rewrite <- length_app, <- (concat_take_drop chs k).
  rewrite app_assoc, <- (concat_take_drop chs k) in Hl2 |- *.
  exists r2. split; [reflexivity|].
  rewrite !length_app in Hl2. cbn [length] in Hl2. lia.
Qed.

Lemma remove_undoes_insert_witness :
  exists rest' : list Z,
    ('(b1, n1) ← insert (Ptr (concat [[97]; [226; 130; 172]; [98]]%Z ++ 0%Z :: [7; 7; 7; 7]%Z)) 10
                   (length (concat [[97]; [226; 130; 172]; [98]]%Z)) 1
                   (Ptr (concat [[195; 169]; [120]]%Z));
     remove b1 n1 1 (length [[195; 169]; [120]]%Z))
    = Some (Ptr (concat [[97]; [226; 130; 172]; [98]]%Z ++ 0%Z :: rest'),
            length (concat [[97]; [226; 130; 172]; [98]]%Z))
    /\ length rest' = length [7; 7; 7; 7]%Z.
Proof.
  apply (remove_undoes_insert [[97]; [226; 130; 172]; [98]]%Z [[195; 169]; [120]]%Z
           [7; 7; 7; 7]%Z 10 1).
  - chars_tac.
  - chars_tac.
  - vm_compute. lia.
  - vm_compute. lia.
  - vm_compute. lia.
  - vm_compute. lia.
Defined.

(** ** [substring] and [byteSubstring] *)

Lemma copy_out (d src : list Z) (n : nat) :
  n < length d -> n <= length src ->
  memcpy (<[0 := 0%Z]> d) 0 src n = Some (take n src ++ drop n (<[0 := 0%Z]> d))
  /\ store (take n src ++ drop n (<[0 := 0%Z]> d)) n 0%Z
     = Some (take n src ++ 0%Z :: drop (n + 1) d).
Proof.
  intros Hd Hs. split.
  - unfold memcpy. rewrite length_insert.
    destruct (decide (0 + n <= length d /\ n <= length src)) as [_|Hno];
      [|exfalso; apply Hno; lia].
    cbn [take app Nat.add]. reflexivity.
  - assert (length (take n src) = n) as Hl by (rewrite length_take; lia).
    rewrite store_Some by (rewrite length_app, Hl, length_drop, length_insert; lia).
    f_equal. rewrite insert_app_r_alt by lia. rewrite Hl, Nat.sub_diag. f_equal.
    destruct (lookup_lt_is_Some_2 (<[0 := 0%Z]> d) n) as [y Hy];
      [rewrite length_insert; lia|].
    rewrite (drop_S _ _ _ Hy). cbn [insert list_insert]. f_equal.
    replace (n + 1) with (S n) by lia.
    destruct d as [|x d]; [cbn in Hd; lia|]. reflexivity.
Qed.

Lemma copy_out_empty (d : list Z) :
  1 <= length d -> <[0 := 0%Z]> d = 0%Z :: drop 1 d.
Proof. intros H. destruct d; [cbn in H; lia | reflexivity]. Qed.

(** X13: [byteSubstring] writes the bytes of the source from [startByte] up
    to [endByte] (up to the end when [endByte] is 0 or past it; nothing when
    the range is empty or starts past the end), cut to [destLen - 1] bytes,
    puts the terminator behind them and returns their number; the
    destination is not touched behind the terminator. *)
Theorem byteSubstring_slice (s d : list Z) (destLen startByte endByte : nat) :
  Forall (fun b => b <> 0%Z) s -> 1 <= destLen -> destLen <= length d ->
  let e := if (endByte =? 0) || (length s <? endByte) then length s else endByte in
  let copy := take (destLen - 1) (take (e - startByte) (drop startByte s)) in
  byteSubstring (Ptr s) (Ptr d) destLen startByte endByte
  = Some (Ptr (copy ++ 0%Z :: drop (length copy + 1) d), length copy).
Proof.
  intros Hs Hd1 Hd e copy. unfold byteSubstring.
  destruct (Nat.eqb_spec destLen 0) as [|_]; [lia|].
  rewrite store_Some by lia. cbn [mbind option_bind].
  rewrite (strlen_nonzero s Hs). fold e.
  assert (e <= length s) as He.
  { unfold e. destruct ((endByte =? 0) || (length s <? endByte)) eqn:Hc; [lia|].
    apply orb_false_iff in Hc as [_ Hc]. apply Nat.ltb_ge in Hc. exact Hc. }
  assert (length (take (e - startByte) (drop startByte s)) = e - startByte) as Hpiece
    by (rewrite length_take, length_drop; lia).
  assert (length copy = Nat.min (destLen - 1) (e - startByte)) as Hcopy
    by (unfold copy; rewrite length_take, Hpiece; reflexivity).
  destruct (Nat.leb_spec (length s) startByte) as [Hpast|Hin].
  { assert (copy = []) as -> by (apply length_zero_iff_nil; lia).
    cbn [app length Nat.add]. rewrite copy_out_empty by lia. reflexivity. }
  destruct (Nat.leb_spec e startByte) as [Hempty|Hrange].
  { assert (copy = []) as -> by (apply length_zero_iff_nil; lia).
    cbn [app length Nat.add]. rewrite copy_out_empty by lia. reflexivity. }
  cbv zeta.
  set (n := if destLen <=? e - startByte then destLen - 1 else e - startByte).
  assert (n = length copy) as Hn
    by (unfold n; destruct (Nat.leb_spec destLen (e - startByte)); lia).
  assert (take n (drop startByte s) = copy) as Htake.
  { unfold copy. rewrite take_take. f_equal. lia. }
  clearbody n.
  destruct (copy_out d (drop startByte s) n) as [Hmc Hst];
    [lia | rewrite length_drop; lia|].
  rewrite Hmc. cbn [mbind option_bind]. rewrite Hst. cbn [mbind option_bind].
  rewrite Htake, Hn. reflexivity.
Qed.

Lemma byteSubstring_slice_witness :
  let e := if (7 =? 0) || (length (bytes "hello world") <? 7)
           then length (bytes "hello world") else 7 in
  let copy := take (4 - 1) (take (e - 2) (drop 2 (bytes "hello world"))) in
  byteSubstring (Ptr (bytes "hello world")) (Ptr [9; 9; 9; 9; 9; 9]%Z) 4 2 7
  = Some (Ptr (copy ++ 0%Z :: drop (length copy + 1) [9; 9; 9; 9; 9; 9]%Z), length copy).
Proof.
  apply (byteSubstring_slice (bytes "hello world") [9; 9; 9; 9; 9; 9]%Z 4 2 7).
  - vm_compute. repeat constructor; discriminate.
  - lia.
  - vm_compute. lia.
Defined.

(** X14: on a text made of well-formed UTF-8 characters [substring] writes
    the characters from index [left] up to index [right] (up to the end
    when [right] is 0; nothing when [right] is not 0 and not above [left],
    or when [left] is past the end), cut to [destLen - 1] bytes, puts the
    terminator behind them and returns their length in bytes. *)
Theorem substring_characters (chs : list (list Z)) (d : list Z) (destLen left right : nat) :
  chars chs -> 1 <= destLen -> destLen <= length d ->
  let piece := if right =? 0 then drop left chs else take (right - left) (drop left chs) in
  let copy := take (destLen - 1) (concat piece) in
  substring (Ptr (concat chs)) (Ptr d) destLen left right
  = Some (Ptr (copy ++ 0%Z :: drop (length copy + 1) d), length copy).
Proof.
  intros H Hd1 Hd piece copy. unfold substring.
  destruct (Nat.eqb_spec destLen 0) as [|_]; [lia|].
  rewrite store_Some by lia. cbn [mbind option_bind].
  rewrite (findUtf8CharStart_bytes _ _ (chars_nonzero _ H)), (skip_then_conts _ H).
  cbn [mbind option_bind].
  pose proof (concat_take_drop chs left) as Esplit.
  assert (char_offset chs left = length (concat (take left chs))) as Hoff by reflexivity.
  assert (drop (char_offset chs left) (concat chs) = concat (drop left chs)) as Hdrop
    by (rewrite Hoff, Esplit at 1; rewrite drop_app_length; reflexivity).
  assert (length copy <= destLen - 1) as Hcl by (unfold copy; rewrite length_take; lia).
  destruct (Z.eqb_spec (cget (concat chs) (char_offset chs left)) 0) as [Hz|Hnz].
  { apply cget_zero_iff in Hz; [|exact (chars_nonzero _ H)].
    assert (concat (drop left chs) = []) as Hnil.
    { rewrite <- Hdrop. apply drop_ge. exact Hz. }
    assert (concat piece = []) as Hp.
    { unfold piece. destruct (right =? 0); [exact Hnil|].
      pose proof (concat_take_drop (drop left chs) (right - left)) as E.
      rewrite Hnil in E. symmetry in E. apply app_eq_nil in E. tauto. }
    unfold copy. rewrite Hp, take_nil. cbn [app length Nat.add].
    rewrite copy_out_empty by lia. reflexivity. }
  assert (forall endPtr : nat,
            endPtr = char_offset chs left + length (concat piece) ->
            (if endPtr <=? char_offset chs left then Some (Ptr (<[0 := 0%Z]> d), 0)
             else
               let byteLen := endPtr - char_offset chs left in
               let byteLen := if destLen <=? byteLen then destLen - 1 else byteLen in
               d1 ← memcpy (<[0 := 0%Z]> d) 0 (drop (char_offset chs left) (concat chs)) byteLen;
               d2 ← store d1 byteLen 0%Z;
               Some (Ptr d2, byteLen))
            = Some (Ptr (copy ++ 0%Z :: drop (length copy + 1) d), length copy)) as Hfinish.
  { intros endPtr ->.
    assert (exists tail : list Z, concat (drop left chs) = concat piece ++ tail) as [tail Htail].
    { unfold piece. destruct (right =? 0).
      - exists []. rewrite app_nil_r. reflexivity.
      - eexists. apply concat_take_drop. }
    assert (length copy = Nat.min (destLen - 1) (length (concat piece))) as Hcopy
      by (unfold copy; apply length_take).
    destruct (Nat.leb_spec (char_offset chs left + length (concat piece)) (char_offset chs left))
      as [Hempty|Hrange].
    { assert (copy = []) as -> by (apply length_zero_iff_nil; lia).
      cbn [app length Nat.add]. rewrite copy_out_empty by lia. reflexivity. }
    cbv zeta.
    replace (char_offset chs left + length (concat piece) - char_offset chs left)
      with (length (concat piece)) by lia.
    set (n := if destLen <=? length (concat piece) then destLen - 1 else length (concat piece)).
    assert (n = length copy) as Hn
      by (unfold n; destruct (Nat.leb_spec destLen (length (concat piece))); lia).
    assert (take n (drop (char_offset chs left) (concat chs)) = copy) as Htake.
    { rewrite Hdrop, Htail, take_app_le by lia. unfold copy.
      rewrite Hn, Hcopy. rewrite <- take_take. f_equal.
      rewrite firstn_all. reflexivity. }
    clearbody n.
    destruct (copy_out d (drop (char_offset chs left) (concat chs)) n) as [Hmc Hst].
    { lia. }
    { rewrite Hdrop, Htail, length_app. lia. }
    rewrite Hmc. cbn [mbind option_bind]. rewrite Hst. cbn [mbind option_bind].
    rewrite Htake, Hn. reflexivity. }
  unfold piece in Hfinish |- *.
  destruct (Nat.eqb_spec right 0) as [Hr0|Hr].
  - cbn [mbind option_bind]. apply Hfinish.
    rewrite (strlen_nonzero _ (chars_nonzero _ H)).
    rewrite Hoff. rewrite Esplit at 1. apply length_app.
  - destruct (Nat.leb_spec right left) as [Hle|Hgt].
    + cbn [mbind option_bind].
      unfold copy, piece. destruct (Nat.eqb_spec right 0) as [|_]; [contradiction|].
      replace (right - left) with 0 by lia. rewrite take_0. cbn [concat].
      rewrite take_nil. cbn [app length Nat.add].
      rewrite copy_out_empty by lia. reflexivity.
    + rewrite Hdrop.
      rewrite (findUtf8CharStart_bytes _ _ (chars_nonzero _ (chars_drop _ left H))).
      rewrite (skip_then_conts _ (chars_drop _ left H)).
      cbn [mbind option_bind]. rewrite <- Hdrop. apply Hfinish.
      rewrite size_sub_le by lia. reflexivity.
Qed.

Lemma substring_characters_witness :
  let piece := if 3 =? 0 then drop 1 [[97]; [226; 130; 172]; [195; 169]; [98]]%Z
               else take (3 - 1) (drop 1 [[97]; [226; 130; 172]; [195; 169]; [98]]%Z) in
  let copy := take (8 - 1) (concat piece) in
  substring (Ptr (concat [[97]; [226; 130; 172]; [195; 169]; [98]]%Z))
    (Ptr [9; 9; 9; 9; 9; 9; 9; 9]%Z) 8 1 3
  = Some (Ptr (copy ++ 0%Z :: drop (length copy + 1) [9; 9; 9; 9; 9; 9; 9; 9]%Z), length copy).
Proof.
  apply (substring_characters [[97]; [226; 130; 172]; [195; 169]; [98]]%Z
           [9; 9; 9; 9; 9; 9; 9; 9]%Z 8 1 3).
  - chars_tac.
  - lia.
  - vm_compute. lia.
Defined.

(** ** [strlcpy] *)

Lemma strlcpy_loop_S (dst src : list Z) (di si n : nat) :
  strlcpy_loop dst src di si (S n)
  = if n =? 0 then Some (dst, di, si, n)
    else dst1 ← store dst di (cget src si);
         if (cget src si =? 0)%Z then Some (dst1, di + 1, si + 1, n)
         else strlcpy_loop dst1 src (di + 1) (si + 1) n.
Proof. reflexivity. Qed.

Lemma strlcpy_loop_spec (s : list Z) :
  Forall (fun b => b <> 0%Z) s ->
  forall (n i : nat) (dst : list Z),
    i <= length s -> i + S n <= length dst ->
    strlcpy_loop dst s i i (S n)
    = if length s - i <? n
      then Some (take i dst ++ drop i s ++ 0%Z :: drop (length s + 1) dst,
                 length s + 1, length s + 1, n - (length s - i))
      else Some (take i dst ++ take n (drop i s) ++ drop (i + n) dst, i + n, i + n, 0).
Proof.
  intros Hs. induction n as [|n IH]; intros i dst Hi Hd.
  - cbn [strlcpy_loop Nat.eqb]. destruct (Nat.ltb_spec (length s - i) 0); [lia|].
    rewrite take_0, !Nat.add_0_r. cbn [app]. rewrite take_drop. reflexivity.
  - rewrite strlcpy_loop_S. cbn [Nat.eqb].
    rewrite store_Some by lia. cbn [mbind option_bind].
    destruct (Z.eqb_spec (cget s i) 0) as [Hz|Hnz].
    + apply cget_zero_iff in Hz; [|exact Hs]. assert (i = length s) as -> by lia.
      rewrite Nat.sub_diag. destruct (Nat.ltb_spec 0 (S n)); [|lia].
      rewrite cget_ge by lia. rewrite drop_all. cbn [app].
      rewrite insert_take_drop by lia.
      replace (length s + 1) with (S (length s)) by lia.
      rewrite Nat.sub_0_r. reflexivity.
    + assert (i < length s) as Hlt.
      { destruct (Nat.lt_ge_cases i (length s)); [assumption|].
        exfalso. apply Hnz. apply cget_ge. assumption. }
      rewrite IH by (rewrite ?length_insert; lia).
      destruct (lookup_lt_is_Some_2 s i Hlt) as [b Hb].
      assert (cget s i = b) as -> by (unfold cget; rewrite Hb; reflexivity).
      assert (take (i + 1) (<[i := b]> dst) = take i dst ++ [b]) as Htake.
      { replace (i + 1) with (S i) by lia.
        rewrite (take_S_r _ _ b) by (apply list_lookup_insert_eq; lia).
        rewrite take_insert_ge by lia. reflexivity. }
      assert (drop i s = b :: drop (i + 1) s) as Hdrop
        by (replace (i + 1) with (S i) by lia; apply drop_S; exact Hb).
      rewrite Htake, Hdrop, <- !app_assoc. cbn [app take].
      destruct (Nat.ltb_spec (length s - (i + 1)) n), (Nat.ltb_spec (length s - i) (S n));
        try lia.
      * rewrite drop_insert_lt by lia.
        replace (n - (length s - (i + 1))) with (S n - (length s - i)) by lia.
        reflexivity.
      * rewrite drop_insert_lt by lia.
        replace (i + 1 + n) with (i + S n) by lia. reflexivity.
Qed.

(** X15: with room for [dsize] bytes in the destination, [strlcpy] writes
    the source cut to [dsize - 1] bytes, puts the terminator behind it and
    leaves the rest of the destination alone; with [dsize = 0] it writes
    nothing.  In both cases it returns the length of the source, so a
    result not below [dsize] tells that the copy was cut. *)
Theorem strlcpy_truncates_and_terminates (dst s : list Z) (dsize : nat) :
  Forall (fun b => b <> 0%Z) s -> dsize <= length dst ->
  strlcpy dst s dsize
  = Some (if dsize =? 0 then dst
          else take (Nat.min (length s) (dsize - 1)) s
               ++ 0%Z :: drop (Nat.min (length s) (dsize - 1) + 1) dst,
          length s).
Proof.
  intros Hs Hd. unfold strlcpy.
  destruct (Nat.eqb_spec dsize 0) as [->|Hne]; cbn [negb].
  - cbn [mbind option_bind Nat.eqb]. rewrite drop_0, (strlen_nonzero s Hs).
    do 2 f_equal. lia.
  - destruct dsize as [|n]; [lia|].
    rewrite (strlcpy_loop_spec s Hs n 0 dst) by lia.
    rewrite Nat.sub_0_r, drop_0, take_0. cbn [app Nat.add].
    replace (S n - 1) with n by lia.
    destruct (Nat.ltb_spec (length s) n) as [Hshort|Hlong].
    + cbn [mbind option_bind].
      destruct (Nat.eqb_spec (n - length s) 0) as [E|E]; [lia|].
      cbn [mbind option_bind]. rewrite Nat.min_l by lia. rewrite firstn_all.
      do 2 f_equal. lia.
    + cbn [mbind option_bind Nat.eqb].
      assert (length (take n s) = n) as Hl by (rewrite length_take; lia).
      rewrite store_Some by (rewrite length_app, Hl, length_drop; lia).
      cbn [mbind option_bind].
      assert (strlen (drop n s) = length s - n) as Hsl.
      { rewrite strlen_nonzero, length_drop; [reflexivity|].
        rewrite <- (take_drop n s) in Hs. apply Forall_app in Hs. tauto. }
      rewrite Hsl, Nat.min_r by lia.
      rewrite insert_app_r_alt by lia. rewrite Hl, Nat.sub_diag.
      destruct (lookup_lt_is_Some_2 dst n ltac:(lia)) as [y Hy].
      rewrite (drop_S _ _ _ Hy). cbn [insert list_insert].
      replace (n + 1) with (S n) by lia. do 2 f_equal. lia.
Qed.

Lemma strlcpy_truncates_and_terminates_witness :
  strlcpy [9; 9; 9; 9; 9; 9]%Z (bytes "hello world") 4
  = Some (if 4 =? 0 then [9; 9; 9; 9; 9; 9]%Z
          else take (Nat.min (length (bytes "hello world")) (4 - 1)) (bytes "hello world")
               ++ 0%Z :: drop (Nat.min (length (bytes "hello world")) (4 - 1) + 1)
                            [9; 9; 9; 9; 9; 9]%Z,
          length (bytes "hello world")).
Proof.
  apply (strlcpy_truncates_and_terminates [9; 9; 9; 9; 9; 9]%Z (bytes "hello world") 4).
  - vm_compute. repeat constructor; discriminate.
  - vm_compute. lia.
Defined.

(** ** [contains] and the failure table *)

(** X16: on two terminated texts [contains] returns, and it answers [true]
    exactly when the target occurs somewhere in the text, byte for byte or,
    with [ignoreCase], after folding both with [toLower]; the empty target
    occurs in every text. *)
Theorem contains_iff_occurs (toLower : Z -> Z) (s t : list Z) (ignoreCase : bool) :
  Forall (fun b => b <> 0%Z) s -> Forall (fun b => b <> 0%Z) t ->
  exists b : bool,
    contains toLower (Ptr s) (Ptr t) ignoreCase = Some b
    /\ (b = true <-> exists p : nat, occurs_at (fold_of toLower ignoreCase) s t p).
Proof.
  intros Hs Ht. unfold contains, contains_len.
  rewrite (strlen_nonzero s Hs), (strlen_nonzero t Ht).
  destruct (Nat.ltb_spec (length s) (length t)) as [Hshort|Hfit].
  { exists false. split; [reflexivity|]. split; [discriminate|].
    intros (p & Hlen & _). lia. }
  destruct (Nat.eqb_spec (length t) 0) as [Hempty|Hne].
  { exists true. split; [reflexivity|]. split; [|reflexivity].
    intros _. exists 0. split; [lia|]. intros k Hk. lia. }
  assert (exists r : ptr nat,
             (if ignoreCase then strcasestr toLower s t else Some (strstr s t)) = Some r
             /\ first_occ (fold_of toLower ignoreCase) s t r) as (r & Hr & Hfirst).
  { destruct ignoreCase.
    - apply strcasestr_first; [exact Hs | exact Ht | lia].
    - exists (strstr s t). split; [reflexivity|].
      apply strstr_first; [exact Hs | exact Ht | lia]. }
  rewrite Hr. cbn [mbind option_bind].
  destruct r as [|p]; cbn [first_occ] in Hfirst.
  - exists false. split; [reflexivity|]. split; [discriminate|].
    intros (p & Hp). exfalso. exact (Hfirst p Hp).
  - exists true. split; [reflexivity|]. split; [|reflexivity].
    intros _. exists p. exact (proj1 Hfirst).
Qed.

Lemma contains_iff_occurs_witness :
  exists b : bool,
    contains ascii_toLower (Ptr (bytes "Hello, World")) (Ptr (bytes "WORLD")) true = Some b
    /\ (b = true
        <-> exists p : nat,
              occurs_at (fold_of ascii_toLower true) (bytes "Hello, World") (bytes "WORLD") p).
Proof.
  apply (contains_iff_occurs ascii_toLower (bytes "Hello, World") (bytes "WORLD") true).
  - vm_compute. repeat constructor; discriminate.
  - vm_compute. repeat constructor; discriminate.
Defined.

(** X17: for a pattern of 1 to 64 bytes and a table with room for it,
    [computeLPS] returns, keeps the size of the table and leaves in entry
    [i] the length of the longest proper border of the first [i + 1] bytes
    of the folded pattern: a border of that length exists and none is
    longer. *)
Theorem computeLPS_longest_borders (toLower : Z -> Z) (pat lps0 : list Z) :
  1 <= length pat -> length pat <= 64 -> length pat <= length lps0 ->
  exists lps : list Z,
    computeLPS toLower pat (length pat) lps0 = Some lps
    /\ length lps = length lps0
    /\ forall i : nat, i < length pat ->
         exists l : nat,
           lps !! i = Some (Z.of_nat l)
           /\ bord toLower pat l (i + 1)
           /\ forall l' : nat, bord toLower pat l' (i + 1) -> l' <= l.
Proof.
  intros H1 H64 Hlen. unfold computeLPS.
  rewrite store_Some by lia. cbn [mbind option_bind].
  destruct (computeLPS_loop_ok toLower pat (2 * length pat) (<[0 := 0%Z]> lps0) 0 1)
    as (lps & Hrun & Hok & Hsize); try lia.
  - rewrite length_insert. exact Hlen.
  - apply (lps_ok_insert toLower pat lps0 0 0);
      [intros k Hk; lia | lia | apply bord_zero; lia |].
    intros l' (Hl' & _). lia.
  - apply bord_zero; lia.
  - intros l' Hgt (Hl' & _). lia.
  - exists lps. split; [exact Hrun|]. split.
    + rewrite Hsize. apply length_insert.
    + exact Hok.
Qed.

Lemma computeLPS_longest_borders_witness :
  exists lps : list Z,
    computeLPS ascii_toLower (bytes "aBaBac") (length (bytes "aBaBac")) (replicate 64 0%Z)
    = Some lps
    /\ length lps = length (replicate 64 0%Z)
    /\ forall i : nat, i < length (bytes "aBaBac") ->
         exists l : nat,
           lps !! i = Some (Z.of_nat l)
           /\ bord ascii_toLower (bytes "aBaBac") l (i + 1)
           /\ forall l' : nat, bord ascii_toLower (bytes "aBaBac") l' (i + 1) -> l' <= l.
Proof.
  apply (computeLPS_longest_borders ascii_toLower (bytes "aBaBac") (replicate 64 0%Z)).
  - vm_compute. lia.
  - vm_compute. lia.
  - vm_compute. lia.
Defined.

(** ** [toInt] reads back what [appendInt] writes *)

Lemma to_signed_small (bits x : Z) :
  (1 <= bits)%Z -> (- 2 ^ (bits - 1) <= x < 2 ^ (bits - 1))%Z -> to_signed bits x = x.
Proof.
  intros Hbits Hx. unfold to_signed.
  assert (2 ^ bits = 2 * 2 ^ (bits - 1))%Z as Hpow.
  { replace bits with (1 + (bits - 1))%Z at 1 by lia.
    rewrite Z.pow_add_r by lia. reflexivity. }
  rewrite Z.mod_small by lia. lia.
Qed.

Lemma strlen_app_zero (s rest : list Z) :
  Forall (fun b => b <> 0%Z) s -> strlen (s ++ 0%Z :: rest) = length s.
Proof.
  induction 1 as [|b s Hb Hs IH]; [reflexivity|].
  cbn [app strlen length]. destruct (Z.eqb_spec b 0); [contradiction|].
  rewrite IH. reflexivity.
Qed.

Lemma decimal_digits (n : Z) :
  (0 <= n)%Z -> Forall (fun d => (48 <= d <= 57)%Z) (decimal n).
Proof.
  intros Hn. generalize Hn. pattern n. apply Z_lt_induction; [|exact Hn].
  clear n Hn. intros n IH Hn.
  destruct (Z_lt_le_dec n 10).
  - rewrite decimal_small by lia. constructor; [lia | constructor].
  - rewrite decimal_big by lia. apply Forall_app. split.
    + assert (0 <= n / 10 < n)%Z as Hdiv
        by (split; [apply Z.div_pos; lia | apply Z.div_lt; lia]).
      apply IH; lia.
    + pose proof (Z.mod_pos_bound n 10 ltac:(lia)). constructor; [lia | constructor].
Qed.

Lemma decimal_value (n : Z) :
  (0 <= n < 2 ^ 63)%Z ->
  fold_left (fun acc d => to_signed 64 (acc * 10 + (d - 48))) (decimal n) 0%Z = n.
Proof.
  intros [Hn Hlt]. generalize Hn Hlt. pattern n. apply Z_lt_induction; [|exact Hn].
  clear n Hn Hlt. intros n IH Hn Hlt.
  destruct (Z_lt_le_dec n 10).
  - rewrite decimal_small by lia. cbn [fold_left].
    replace (0 * 10 + (n + 48 - 48))%Z with n by lia.
    apply to_signed_small; [lia|]. change (2 ^ (64 - 1))%Z with (2 ^ 63)%Z. lia.
  - rewrite decimal_big by lia. rewrite fold_left_app. cbn [fold_left].
    assert (0 <= n / 10 < n)%Z as Hdiv
      by (split; [apply Z.div_pos; lia | apply Z.div_lt; lia]).
    rewrite IH by lia.
    pose proof (Z.div_mod n 10 ltac:(lia)) as Hdm.
    replace (n / 10 * 10 + (n mod 10 + 48 - 48))%Z with n by lia.
    apply to_signed_small; [lia|]. change (2 ^ (64 - 1))%Z with (2 ^ 63)%Z. lia.
Qed.

Lemma toInt_digits_run (isDigit : Z -> bool) (ds : list Z) :
  Forall (fun d => isDigit d = true) ds ->
  forall (pre post : list Z) (fuel : nat) (val : Z),
    length ds <= fuel ->
    toInt_digits isDigit fuel (pre ++ ds ++ post) (length pre + length ds) (length pre) val
    = fold_left (fun acc d => to_signed 64 (acc * 10 + (d - 48))) ds val.
Proof.
  induction 1 as [|d ds Hd Hds IH]; intros pre post fuel val Hfuel.
  - cbn [length fold_left]. rewrite Nat.add_0_r.
    destruct fuel; cbn [toInt_digits]; [reflexivity|].
    rewrite Nat.ltb_irrefl. reflexivity.
  - destruct fuel as [|fuel]; [cbn [length] in Hfuel; lia|].
    cbn [length] in Hfuel. cbn [toInt_digits fold_left app].
    rewrite cget_app_here, Hd.
    replace (length pre <? length pre + length (d :: ds)) with true
      by (symmetry; apply Nat.ltb_lt; cbn [length]; lia).
    cbn [andb].
    specialize (IH (pre ++ [d]) post fuel (to_signed 64 (val * 10 + (d - 48)))
                  ltac:(lia)).
    rewrite length_app, <- app_assoc in IH. cbn [length app] in IH.
    replace (length pre + length (d :: ds)) with (length pre + 1 + length ds)
      by (cbn [length]; lia).
    exact IH.
Qed.

(** What [appendInt] writes without padding, for either sign. *)
Lemma appendInt_text (bits : Z) (buffer : list Z) (maxLen curLen : nat) (val padChar : Z) :
  let text := (if (val <? 0)%Z then [45%Z] else []) ++ decimal (Z.abs val) in
  (32 <= bits)%Z -> (- 2 ^ 31 <= val < 2 ^ 31)%Z ->
  curLen + length text < maxLen -> maxLen <= length buffer ->
  appendInt bits buffer maxLen curLen val 0 padChar
  = Some (take curLen buffer ++ text ++ 0%Z :: drop (curLen + length text + 1) buffer,
          curLen + length text).
Proof.
  intros text Hbits Hval Hfit Hcap.
  assert (2 ^ 31 <= 2 ^ (bits - 1))%Z as Hpow by (apply Z.pow_le_mono_r; lia).
  assert (2 ^ (bits - 1) < 2 ^ bits)%Z as Hpow' by (apply Z.pow_lt_mono_r; lia).
  assert (0 <= Z.abs val < 10 ^ 10)%Z as Hmag.
  { change (2 ^ 31)%Z with 2147483648%Z in Hval.
    change (10 ^ 10)%Z with 10000000000%Z. lia. }
  pose proof (digitsCount10_decimal (Z.abs val) Hmag) as Hcount.
  assert (Z.to_nat (Z.max (digitsCount10 (Z.abs val)) 0) = length (decimal (Z.abs val)))
    as Htotal.
  { rewrite Z.max_l; [exact Hcount|].
    pose proof (decimal_nonempty (Z.abs val) ltac:(lia)). lia. }
  pose proof (decimal_nonempty (Z.abs val) ltac:(lia)) as Hne.
  unfold appendInt.
  rewrite size_sub_le by lia.
  subst text. rewrite length_app in *.
  destruct (Nat.leb_spec (maxLen - 1) curLen); [lia|].
  destruct (Z.ltb_spec val 0) as [Hneg|Hpos]; cbn [app length] in *.
  - rewrite store_Some by lia. cbn [mbind option_bind].
    rewrite (magnitude_no_overflow bits val) by lia.
    replace (- val)%Z with (Z.abs val) by lia.
    change (if (0 <? 0)%Z then (0 - 1)%Z else 0%Z) with 0%Z.
    rewrite appendUIntInternal_fits;
      [ | exact Hmag | rewrite Htotal; lia | rewrite length_insert; lia ].
    rewrite Htotal, Nat.sub_diag. cbn [replicate app].
    f_equal. f_equal; [|lia].
    rewrite insert_take_drop by lia.
    rewrite (take_app_add' _ _ curLen 1) by (rewrite length_take; lia).
    cbn [take]. rewrite take_0, <- app_assoc. cbn [app].
    do 3 f_equal.
    rewrite drop_app_ge by (rewrite length_take; lia).
    rewrite length_take.
    replace (curLen + 1 + length (decimal (Z.abs val)) + 1 - curLen `min` length buffer)
      with (S (length (decimal (Z.abs val)) + 1)) by lia.
    cbn [drop]. rewrite drop_drop. do 2 f_equal. lia.
  - unfold to_unsigned at 1. rewrite Z.mod_small by lia.
    assert (Z.abs val = val) as Habs by lia. rewrite Habs in *.
    rewrite appendUIntInternal_fits;
      [ | exact Hmag | rewrite Htotal; lia | lia ].
    rewrite Htotal, Nat.sub_diag. cbn [replicate app Nat.add]. reflexivity.
Qed.

(** X18: [toInt] reads back what [appendInt] writes.  For an [int] value
    appended without padding where sign and digits fit the capacity,
    [appendInt] writes the sign (for a negative value) and the decimal
    digits behind the text and terminates them, and [toInt] of the
    appended part is the value, [INT_MIN] included.  The byte classifiers
    are those of the missing header: they must accept the ASCII digits and
    must not count them or ['-'] as space. *)
Theorem toInt_appendInt_roundtrip (isSpace isDigit : Z -> bool) (bits : Z)
    (buffer : list Z) (maxLen curLen : nat) (val padChar : Z) :
  let text := (if (val <? 0)%Z then [45%Z] else []) ++ decimal (Z.abs val) in
  (forall c : Z, (48 <= c <= 57)%Z -> isDigit c = true) ->
  (forall c : Z, (48 <= c <= 57)%Z \/ c = 45%Z -> isSpace c = false) ->
  (32 <= bits)%Z -> (- 2 ^ 31 <= val < 2 ^ 31)%Z ->
  curLen + length text < maxLen -> maxLen <= length buffer ->
  exists buffer' : list Z,
    appendInt bits buffer maxLen curLen val 0 padChar = Some (buffer', curLen + length text)
    /\ buffer' = take curLen buffer ++ text ++ 0%Z :: drop (curLen + length text + 1) buffer
    /\ toInt isSpace isDigit (Ptr (drop curLen buffer')) = val.
Proof.
  intros text Hdigit Hspace Hbits Hval Hfit Hcap.
  eexists. split; [apply appendInt_text; assumption|]. split; [reflexivity|].
  fold text.
  rewrite drop_app_length' by (rewrite length_take; lia).
  set (rest := drop (curLen + length text + 1) buffer).
  assert (0 <= Z.abs val < 2 ^ 63)%Z as Hmag.
  { change (2 ^ 31)%Z with 2147483648%Z in Hval.
    change (2 ^ 63)%Z with 9223372036854775808%Z. lia. }
  pose proof (decimal_digits (Z.abs val) ltac:(lia)) as Hds.
  pose proof (decimal_nonempty (Z.abs val) ltac:(lia)) as Hne.
  assert (Forall (fun b => b <> 0%Z) text) as Hnz.
  { subst text. apply Forall_app. split.
    - destruct (val <? 0)%Z; repeat constructor; discriminate.
    - eapply Forall_impl; [|exact Hds]. cbn. intros; lia. }
  assert (Forall (fun d => isDigit d = true) (decimal (Z.abs val))) as Hdg
    by (eapply Forall_impl; [|exact Hds]; cbn; intros; apply Hdigit; assumption).
  assert (exists d tl, decimal (Z.abs val) = d :: tl /\ (48 <= d <= 57)%Z) as (d & tl & Hdec & Hd).
  { destruct (decimal (Z.abs val)) as [|d tl] eqn:E; [cbn [length] in Hne; lia|].
    exists d, tl. split; [reflexivity|]. inversion Hds; assumption. }
  unfold toInt.
  assert (1 <= length text) as Hlen by (subst text; rewrite length_app; lia).
  assert (cget (text ++ 0%Z :: rest) 0 = if (val <? 0)%Z then 45%Z else d) as Hfirst.
  { subst text. rewrite Hdec. destruct (val <? 0)%Z; reflexivity. }
  rewrite Hfirst.
  replace ((if (val <? 0)%Z then 45%Z else d) =? 0)%Z with false
    by (destruct (val <? 0)%Z; symmetry; apply Z.eqb_neq; lia).
  rewrite (strlen_app_zero text rest Hnz).
  unfold toInt_len.
  destruct (Nat.eqb_spec (length text) 0) as [|_]; [lia|].
  assert (skip_space isSpace (length text) (text ++ 0%Z :: rest) (length text) 0 = 0) as ->.
  { destruct (length text) as [|n] eqn:E; [lia|]. cbn [skip_space].
    rewrite Hfirst. rewrite Hspace; [rewrite andb_false_r; reflexivity|].
    destruct (val <? 0)%Z; [right; reflexivity | left; exact Hd]. }
  destruct (Nat.eqb_spec 0 (length text)) as [|_]; [lia|].
  rewrite Hfirst. cbn [Nat.add].
  change (2 ^ 31)%Z with 2147483648%Z in Hval.
  subst text.
  destruct (Z.ltb_spec val 0) as [Hneg|Hpos].
  - rewrite Z.eqb_refl.
    rewrite <- app_assoc.
    rewrite (toInt_digits_run isDigit (decimal (Z.abs val)) Hdg [45%Z] (0%Z :: rest))
      by (rewrite length_app; cbn [length]; lia).
    rewrite decimal_value by exact Hmag.
    rewrite (to_signed_small 64) by (change (2 ^ (64 - 1))%Z with 9223372036854775808%Z; lia).
    rewrite (to_signed_small 32) by (change (2 ^ (32 - 1))%Z with 2147483648%Z; lia).
    lia.
  - replace (d =? 45)%Z with false by (symmetry; apply Z.eqb_neq; lia).
    replace (d =? 43)%Z with false by (symmetry; apply Z.eqb_neq; lia).
    cbn [app].
    rewrite (toInt_digits_run isDigit (decimal (Z.abs val)) Hdg [] (0%Z :: rest))
      by lia.
    rewrite decimal_value by exact Hmag.
    rewrite (to_signed_small 64) by (change (2 ^ (64 - 1))%Z with 9223372036854775808%Z; lia).
    rewrite (to_signed_small 32) by (change (2 ^ (32 - 1))%Z with 2147483648%Z; lia).
    lia.
Qed.

Lemma toInt_appendInt_roundtrip_witness :
  exists buffer' : list Z,
    appendInt 32 (replicate 16 88%Z) 16 2 (-2147483648) 0 32
    = Some (buffer', 2 + length (bytes "-2147483648"))
    /\ buffer' = take 2 (replicate 16 88%Z) ++ bytes "-2147483648"
                 ++ 0%Z :: drop (2 + length (bytes "-2147483648") + 1) (replicate 16 88%Z)
    /\ toInt ascii_isSpace ascii_isDigit (Ptr (drop 2 buffer')) = (-2147483648)%Z.
Proof.
  apply (toInt_appendInt_roundtrip ascii_isSpace ascii_isDigit 32
           (replicate 16 88%Z) 16 2 (-2147483648) 32).
  - intros c Hc. unfold ascii_isDigit. apply andb_true_intro.
    split; apply Z.leb_le; lia.
  - intros c Hc. unfold ascii_isSpace. apply orb_false_intro.
    + apply Z.eqb_neq. lia.
    + apply andb_false_intro2. apply Z.leb_gt. lia.
  - lia.
  - vm_compute. split; [discriminate | reflexivity].
  - vm_compute. lia.
  - vm_compute. lia.
Defined.

(** ** [trim] *)

Section TrimFacts.

Variable isSpace : Z -> bool.

#[local] Abbreviation sp := (fun b : Z => isSpace b = true).

Lemma spaces_prefix (s : list Z) :
  exists pre t : list Z,
    s = pre ++ t /\ Forall sp pre
    /\ (t = [] \/ (1 <= length t /\ isSpace (cget t 0) = false)).
Proof.
  induction s as [|b s (pre & t & -> & Hpre & Ht)].
  - exists [], []. auto.
  - destruct (isSpace b) eqn:Hb.
    + exists (b :: pre), t. split; [reflexivity|]. split; [constructor; assumption | exact Ht].
    + exists [], (b :: pre ++ t). split; [reflexivity|]. split; [constructor|].
      right. split; [cbn [length]; lia | exact Hb].
Qed.

Lemma spaces_suffix (t : list Z) :
  exists u post : list Z,
    t = u ++ post /\ Forall sp post
    /\ (u = [] \/ isSpace (cget u (length u - 1)) = false).
Proof.
  induction t as [|b t (u & post & -> & Hpost & Hu)] using rev_ind.
  - exists [], []. auto.
  - destruct (isSpace b) eqn:Hb.
    + destruct post as [|c post].
      * rewrite app_nil_r in *.
        destruct Hu as [->|Hu].
        -- exists [], [b]. split; [reflexivity|]. split; [repeat constructor; exact Hb | auto].
        -- exists u, [b]. split; [reflexivity|]. split; [repeat constructor; exact Hb | auto].
      * exists u, ((c :: post) ++ [b]). split; [rewrite app_assoc; reflexivity|].
        split; [|exact Hu]. apply Forall_app. split; [exact Hpost | repeat constructor; exact Hb].
    + destruct post as [|c post].
      * exists (u ++ [b]), []. rewrite !app_nil_r. split; [reflexivity|].
        split; [constructor|]. right.
        rewrite length_app. cbn [length].
        replace (length u + 1 - 1) with (length u) by lia.
        rewrite cget_app_here. exact Hb.
      * exists (u ++ (c :: post) ++ [b]), []. rewrite app_nil_r.
        split; [rewrite <- app_assoc; reflexivity|]. split; [constructor|]. right.
        rewrite app_assoc, length_app. cbn [length].
        replace (length (u ++ c :: post) + 1 - 1) with (length (u ++ c :: post)) by lia.
        rewrite cget_app_here. exact Hb.
Qed.

Lemma load_app_here (pre suf : list Z) (b : Z) : load (pre ++ b :: suf) (length pre) = Some b.
Proof. unfold load. apply list_lookup_middle. reflexivity. Qed.

Lemma trim_lead_spec (pre : list Z) :
  forall (done tl : list Z) (c : Z) (fuel : nat),
    Forall sp pre -> Forall (fun b => b <> 0%Z) pre ->
    (c = 0%Z \/ isSpace c = false) -> length pre <= fuel ->
    trim_lead isSpace fuel (done ++ pre ++ c :: tl) (length done)
    = Some (length done + length pre).
Proof.
  induction pre as [|b pre IH]; intros done tl c fuel Hsp Hnz Hc Hfuel.
  - cbn [app length]. rewrite Nat.add_0_r.
    destruct fuel; cbn [trim_lead]; rewrite load_app_here; cbn [mbind option_bind];
      (destruct Hc as [->|Hc]; [reflexivity | rewrite Hc, andb_false_r; reflexivity]).
  - destruct fuel as [|fuel]; [cbn [length] in Hfuel; lia|].
    cbn [trim_lead app]. rewrite load_app_here. cbn [mbind option_bind].
    inversion Hsp as [|? ? Hb Hsp']; subst. inversion Hnz as [|? ? Hb0 Hnz']; subst.
    rewrite Hb. destruct (Z.eqb_spec b 0) as [|_]; [contradiction|]. cbn [negb andb].
    specialize (IH (done ++ [b]) tl c fuel Hsp' Hnz' Hc ltac:(cbn [length] in Hfuel; lia)).
    rewrite length_app, <- app_assoc in IH. cbn [length app] in IH.
    rewrite IH. f_equal. cbn [length]. lia.
Qed.

Lemma trim_trail_spec (post : list Z) :
  forall (pre u zs : list Z) (b : Z) (fuel : nat),
    Forall sp post -> isSpace b = false -> length post <= fuel ->
    trim_trail isSpace fuel (pre ++ (u ++ [b]) ++ post ++ zs) (length pre)
      (length pre + length u + length post)
    = Some (pre ++ (u ++ [b]) ++ replicate (length post) 0%Z ++ zs, length pre + length u).
Proof.
  induction post as [|c post IH] using rev_ind; intros pre u zs b fuel Hsp Hb Hfuel.
  - cbn [length app replicate]. rewrite Nat.add_0_r.
    assert (load (pre ++ (u ++ [b]) ++ zs) (length pre + length u) = Some b) as Hload.
    { rewrite <- app_assoc, app_assoc. cbn [app].
      rewrite <- length_app. apply load_app_here. }
    destruct fuel; cbn [trim_trail];
      (destruct (length pre <? length pre + length u); [|reflexivity]);
      rewrite Hload; cbn [mbind option_bind]; rewrite Hb; reflexivity.
  - apply Forall_app in Hsp as [Hsp Hc]. inversion Hc as [|? ? Hc' _]; subst.
    rewrite length_app in *. cbn [length] in *.
    destruct fuel as [|fuel]; [lia|].
    cbn [trim_trail].
    replace (length pre <? length pre + length u + (length post + 1)) with true
      by (symmetry; apply Nat.ltb_lt; lia).
    assert (pre ++ (u ++ [b]) ++ (post ++ [c]) ++ zs
            = (pre ++ (u ++ [b]) ++ post) ++ c :: zs) as Hshape
      by (rewrite <- !app_assoc; reflexivity).
    assert (length pre + length u + (length post + 1) = length (pre ++ (u ++ [b]) ++ post))
      as Hidx by (rewrite !length_app; cbn [length]; lia).
    rewrite Hshape, Hidx, load_app_here. cbn [mbind option_bind]. rewrite Hc'.
    rewrite store_Some by (rewrite !length_app; cbn [length]; lia).
    cbn [mbind option_bind].
    rewrite insert_app_r_alt by lia. rewrite Nat.sub_diag.
    change (<[0 := 0%Z]> (c :: zs)) with (0%Z :: zs).
    rewrite <- Hidx.
    replace (length pre + length u + (length post + 1) - 1)
      with (length pre + length u + length post) by lia.
    rewrite <- !app_assoc.
    specialize (IH pre u (0%Z :: zs) b fuel Hsp Hb ltac:(lia)).
    rewrite <- !app_assoc in IH. rewrite IH. f_equal. f_equal.
    do 3 f_equal.
    replace (length post + 1) with (S (length post)) by lia.
    rewrite replicate_S_end, <- app_assoc. reflexivity.
Qed.

Lemma replicate_shift (n : nat) (x : Z) (l : list Z) :
  replicate n x ++ x :: l = x :: replicate n x ++ l.
Proof. induction n as [|n IH]; cbn [replicate app]; [reflexivity | rewrite IH; reflexivity]. Qed.

(** X19: on a terminated text [trim] strips the leading and the trailing
    bytes that [isSpace] accepts, and nothing else: the text is
    [pre ++ t ++ post] with [pre] and [post] all space, [t] is empty or
    begins and ends with a byte that is not space, and the buffer holds [t]
    and its terminator and keeps its size; the length of [t] is returned. *)
Theorem trim_strips_whitespace (s rest : list Z) :
  Forall (fun b => b <> 0%Z) s ->
  exists pre t post rest' : list Z,
    s = pre ++ t ++ post
    /\ Forall (fun b => isSpace b = true) pre
    /\ Forall (fun b => isSpace b = true) post
    /\ (t = [] \/ (isSpace (cget t 0) = false /\ isSpace (cget t (length t - 1)) = false))
    /\ trim isSpace (Ptr (s ++ 0%Z :: rest)) = Some (Ptr (t ++ 0%Z :: rest'), length t)
    /\ length (t ++ 0%Z :: rest') = length (s ++ 0%Z :: rest).
Proof.
  intros Hs.
  destruct (spaces_prefix s) as (pre & t0 & -> & Hpre & Ht0).
  apply Forall_app in Hs as [Hpre0 Ht00].
  unfold trim.
  destruct (pre ++ t0) as [|c0 s'] eqn:Es.
  { (* the empty text *)
    apply app_eq_nil in Es as [-> ->].
    exists [], [], [], rest. cbn [app load lookup list_lookup mbind option_bind length].
    rewrite Z.eqb_refl. repeat split; auto. }
  assert (c0 <> 0%Z) as Hc0.
  { assert (Forall (fun b => b <> 0%Z) (c0 :: s')) as H
      by (rewrite <- Es; apply Forall_app; split; assumption).
    inversion H; assumption. }
  change (load ((c0 :: s') ++ 0%Z :: rest) 0) with (Some c0). cbn [mbind option_bind].
  destruct (Z.eqb_spec c0 0) as [|_]; [contradiction|].
  assert (1 <= length (pre ++ t0)) as Hne by (rewrite Es; cbn [length]; lia).
  rewrite <- Es. clear c0 s' Es Hc0.
  pose proof (strlen_from_app [] (pre ++ t0) rest ltac:(apply Forall_app; split; assumption))
    as Hstrlen.
  cbn [app length] in Hstrlen. rewrite Hstrlen. clear Hstrlen.
  cbn [mbind option_bind].
  destruct Ht0 as [->|[Hlen0 Ht0]].
  - (* nothing but space *)
    rewrite app_nil_r in *.
    pose proof (trim_lead_spec pre [] rest 0%Z (length (pre ++ 0%Z :: rest)) Hpre Hpre0
                  (or_introl eq_refl) ltac:(rewrite length_app; lia)) as Hlead.
    cbn [app length Nat.add] in Hlead. rewrite Hlead. clear Hlead.
    cbn [mbind option_bind].
    rewrite load_app_here. cbn [mbind option_bind]. rewrite Z.eqb_refl.
    destruct pre as [|b pre]; [cbn [length] in Hne; lia|].
    rewrite store_Some by (cbn [length app]; lia). cbn [mbind option_bind].
    exists (b :: pre), [], [], (pre ++ 0%Z :: rest).
    rewrite app_nil_r. cbn [app length]. repeat split; auto.
  - destruct (spaces_suffix t0) as (u & post & -> & Hpost & Hu).
    destruct u as [|b u _] using rev_ind.
    { (* the first byte of [t0] is not space, so [u] cannot be empty *)
      exfalso. cbn [app] in *. destruct post as [|c post]; [cbn [length] in Hlen0; lia|].
      inversion Hpost as [|? ? Hc _]; subst. cbn in Ht0. congruence. }
    destruct Hu as [Hu|Hu]; [destruct u; discriminate|].
    rewrite length_app in Hu. cbn [length] in Hu.
    replace (length u + 1 - 1) with (length u) in Hu by lia.
    rewrite cget_app_here in Hu.
    apply Forall_app in Ht00 as [Hu0 Hpost0].
    set (c := cget ((u ++ [b]) ++ post) 0) in *.
    assert (exists tl, (u ++ [b]) ++ post = c :: tl) as (tl & Etl).
    { subst c. destruct u; cbn [app]; eexists; reflexivity. }
    assert (c <> 0%Z) as Hc.
    { assert (Forall (fun b => b <> 0%Z) (c :: tl)) as H
        by (rewrite <- Etl; apply Forall_app; split; assumption).
      inversion H; assumption. }
    set (B := pre ++ (u ++ [b]) ++ post ++ 0%Z :: rest).
    assert ((pre ++ (u ++ [b]) ++ post) ++ 0%Z :: rest = B) as ->
      by (subst B; rewrite <- !app_assoc; reflexivity).
    assert (length (pre ++ (u ++ [b]) ++ post) = length pre + length u + 1 + length post)
      as -> by (rewrite !length_app; cbn [length]; lia).
    assert (B = pre ++ c :: tl ++ 0%Z :: rest) as HB.
    { subst B. f_equal. rewrite app_assoc, Etl. reflexivity. }
    assert (length B = length pre + length u + 1 + length post + 1 + length rest) as HlenB
      by (subst B; rewrite !length_app; cbn [length]; lia).
    pose proof (trim_lead_spec pre [] (tl ++ 0%Z :: rest) c (length B) Hpre Hpre0
                  (or_intror Ht0) ltac:(lia)) as Hlead.
    cbn [app length Nat.add] in Hlead. rewrite <- HB in Hlead. rewrite Hlead. clear Hlead.
    cbn [mbind option_bind].
    assert (load B (length pre) = Some c) as -> by (rewrite HB; apply load_app_here).
    cbn [mbind option_bind].
    destruct (Z.eqb_spec c 0) as [|_]; [contradiction|].
    rewrite size_sub_le by lia.
    replace (length pre + length u + 1 + length post - 1)
      with (length pre + length u + length post) by lia.
    subst B.
    rewrite trim_trail_spec by (auto; lia).
    cbn [mbind option_bind].
    rewrite size_sub_le by lia.
    replace (length pre + length u - length pre + 1) with (length (u ++ [b]))
      by (rewrite length_app; cbn [length]; lia).
    rewrite replicate_shift.
    destruct (memmove_left [] pre (u ++ [b]) (replicate (length post) 0%Z ++ rest))
      as (rest' & Hmove & Hlen').
    cbn [app length Nat.add] in Hmove.
    assert (u ++ [b] = []
            \/ (isSpace (cget (u ++ [b]) 0) = false
                /\ isSpace (cget (u ++ [b]) (length (u ++ [b]) - 1)) = false)) as Hends.
    { right. split.
      - replace (cget (u ++ [b]) 0) with c; [exact Ht0|].
        subst c. destruct u; reflexivity.
      - rewrite length_app. cbn [length].
        replace (length u + 1 - 1) with (length u) by lia.
        rewrite cget_app_here. exact Hu. }
    exists pre, (u ++ [b]), post.
    destruct (Nat.eqb_spec (length pre) 0) as [Hz|Hnz]; cbn [negb].
    + destruct pre; [|discriminate]. cbn [app].
      exists (replicate (length post) 0%Z ++ rest). cbn [mbind option_bind].
      split; [reflexivity|]. split; [exact Hpre|]. split; [exact Hpost|].
      split; [exact Hends|]. split; [reflexivity|].
      rewrite ?length_app; cbn [length].
      rewrite ?length_app, ?length_replicate; cbn [length]. lia.
    + rewrite Hmove. cbn [mbind option_bind].
      exists rest'.
      split; [rewrite <- !app_assoc; reflexivity|]. split; [exact Hpre|].
      split; [exact Hpost|]. split; [exact Hends|]. split; [reflexivity|].
      rewrite ?length_app; cbn [length].
      rewrite ?length_app, ?Hlen', ?length_app, ?length_replicate; cbn [length]. lia.
Qed.

End TrimFacts.

Lemma trim_strips_whitespace_witness :
  exists pre t post rest' : list Z,
    bytes "  hello world  " = pre ++ t ++ post
    /\ Forall (fun b => ascii_isSpace b = true) pre
    /\ Forall (fun b => ascii_isSpace b = true) post
    /\ (t = [] \/ (ascii_isSpace (cget t 0) = false
                   /\ ascii_isSpace (cget t (length t - 1)) = false))
    /\ trim ascii_isSpace (Ptr (bytes "  hello world  " ++ 0%Z :: [7; 7]%Z))
       = Some (Ptr (t ++ 0%Z :: rest'), length t)
    /\ length (t ++ 0%Z :: rest') = length (bytes "  hello world  " ++ 0%Z :: [7; 7]%Z).
Proof.
  apply (trim_strips_whitespace ascii_isSpace (bytes "  hello world  ") [7; 7]%Z).
  vm_compute. repeat constructor; discriminate.
Defined.

(** ** Prefix, suffix and comparison *)

Lemma occurs_at_nil (fold : Z -> Z) (text : list Z) : occurs_at fold text [] 0.
Proof. split; [cbn [length]; lia|]. intros k Hk. cbn [length] in Hk. lia. Qed.

Lemma occurs_at_head (fold : Z -> Z) (b c : Z) (text pat : list Z) :
  occurs_at fold (b :: text) (c :: pat) 0 <-> fold b = fold c /\ occurs_at fold text pat 0.
Proof.
  unfold occurs_at, feq. cbn [length]. split.
  - intros [Hlen Hk]. split; [exact (Hk 0 ltac:(lia))|]. split; [lia|].
    intros k Hlt. exact (Hk (S k) ltac:(lia)).
  - intros [Hb [Hlen Hk]]. split; [lia|]. intros [|k] Hlt; [exact Hb|].
    apply (Hk k). lia.
Qed.

Lemma occurs_at_short (fold : Z -> Z) (c : Z) (pat : list Z) :
  ~ occurs_at fold [] (c :: pat) 0.
Proof. intros [Hlen _]. cbn [length] in Hlen. lia. Qed.

Lemma cget_drop (s : list Z) (k j : nat) : cget (drop k s) j = cget s (k + j).
Proof. unfold cget. rewrite lookup_drop. reflexivity. Qed.

Lemma occurs_at_drop (fold : Z -> Z) (s x : list Z) (k : nat) :
  k <= length s -> occurs_at fold (drop k s) x 0 <-> occurs_at fold s x k.
Proof.
  intros Hk. unfold occurs_at. rewrite length_drop.
  split; intros [Hlen Hj]; (split; [lia|]); intros j Hlt; specialize (Hj j Hlt);
    rewrite cget_drop in *; exact Hj.
Qed.

(** A pattern occurs at offset 0 exactly when the folded text begins with
    the folded pattern. *)
Lemma occurs_at_map (fold : Z -> Z) (pat : list Z) :
  forall text : list Z,
    occurs_at fold text pat 0
    <-> length pat <= length text /\ map fold (take (length pat) text) = map fold pat.
Proof.
  induction pat as [|c pat IH]; intros text.
  - cbn [length map]. rewrite take_0. split; [intros _; split; [lia | reflexivity]|].
    intros _. apply occurs_at_nil.
  - destruct text as [|b text].
    + split; [intros H; destruct (occurs_at_short _ _ _ H)|]. cbn [length]. lia.
    + rewrite occurs_at_head, IH. cbn [length take map]. split.
      * intros [Hb [Hlen Hmap]]. split; [lia|]. rewrite Hb, Hmap. reflexivity.
      * intros [Hlen Hmap]. injection Hmap as H0 H1.
        split; [exact H0|]. split; [lia | exact H1].
Qed.

Section ComparisonFacts.

Variable toLower : Z -> Z.

Lemma strncmp_prefix (p : list Z) :
  Forall (fun b => b <> 0%Z) p ->
  forall s : list Z,
    Forall (fun b => b <> 0%Z) s ->
    strncmp s p (length p) = 0%Z <-> occurs_at (fun b => b) s p 0.
Proof.
  induction 1 as [|c p Hc Hp IH]; intros s Hs.
  - cbn [length strncmp]. split; [intros _; apply occurs_at_nil | reflexivity].
  - cbn [length strncmp]. destruct s as [|b s].
    + change (cget [] 0) with 0%Z. change (cget (c :: p) 0) with c.
      destruct (Z.eqb_spec 0 c) as [|_]; [congruence|].
      split; [lia | intros H; destruct (occurs_at_short _ _ _ H)].
    + change (cget (b :: s) 0) with b. change (cget (c :: p) 0) with c. cbn [tail].
      inversion Hs as [|? ? Hb Hs']; subst.
      rewrite occurs_at_head.
      destruct (Z.eqb_spec b c) as [->|Hne].
      * destruct (Z.eqb_spec c 0) as [|_]; [contradiction|].
        rewrite (IH s Hs'). tauto.
      * split; [lia | tauto].
Qed.

Lemma startsWith_loop_spec (s p : list Z) (n : nat) :
  forall i : nat,
    startsWith_loop toLower n s p i = true
    <-> forall k : nat, k < n ->
          cget s (i + k) <> 0%Z /\ toLower (cget s (i + k)) = toLower (cget p (i + k)).
Proof.
  induction n as [|n IH]; intros i; cbn [startsWith_loop].
  - split; [intros _ k Hk; lia | reflexivity].
  - destruct (Z.eqb_spec (cget s i) 0) as [Hz|Hnz].
    { split; [discriminate|]. intros H. destruct (H 0 ltac:(lia)) as [H0 _].
      rewrite Nat.add_0_r in H0. contradiction. }
    destruct (Z.eqb_spec (toLower (cget s i)) (toLower (cget p i))) as [He|Hne]; cbn [negb].
    + rewrite IH. split.
      * intros H [|k] Hk; [rewrite Nat.add_0_r; auto|].
        replace (i + S k) with (i + 1 + k) by lia. apply H. lia.
      * intros H k Hk. replace (i + 1 + k) with (i + S k) by lia. apply H. lia.
    + split; [discriminate|]. intros H. destruct (H 0 ltac:(lia)) as [_ H0].
      rewrite Nat.add_0_r in H0. contradiction.
Qed.

(** X20: on two terminated texts [startsWith] answers [true] exactly when
    the prefix occurs at offset 0 of the text: the text is at least as long
    and begins with the bytes of the prefix, compared as they are or, with
    [ignoreCase], after folding both with [toLower].  The empty prefix
    begins every text. *)
Theorem startsWith_iff_prefix (s p : list Z) (ignoreCase : bool) :
  Forall (fun b => b <> 0%Z) s -> Forall (fun b => b <> 0%Z) p ->
  startsWith toLower (Ptr s) (Ptr p) ignoreCase = true
  <-> length p <= length s
      /\ map (fold_of toLower ignoreCase) (take (length p) s)
         = map (fold_of toLower ignoreCase) p.
Proof.
  intros Hs Hp. rewrite <- occurs_at_map.
  unfold startsWith, startsWith_len. rewrite (strlen_nonzero p Hp).
  destruct ignoreCase; cbn [negb fold_of].
  - rewrite startsWith_loop_spec. unfold occurs_at, feq. cbn [Nat.add]. split.
    + intros H. split; [|intros k Hk; apply (H k Hk)].
      destruct (Nat.le_gt_cases (length p) (length s)) as [|Hlt]; [assumption|].
      exfalso. destruct (H (length s) Hlt) as [Hz _]. apply Hz. apply cget_ge. lia.
    + intros [Hlen H] k Hk. split; [|apply (H k Hk)].
      apply cget_nonzero_lt; [exact Hs | lia].
  - rewrite Z.eqb_eq. apply strncmp_prefix; assumption.
Qed.

Lemma strcmp_equal (a : list Z) :
  Forall (fun b => b <> 0%Z) a ->
  forall b : list Z, Forall (fun c => c <> 0%Z) b -> strcmp a b = 0%Z <-> a = b.
Proof.
  induction 1 as [|x a Hx Ha IH]; intros b Hb; cbn [strcmp].
  - destruct b as [|y b].
    + change (cget [] 0) with 0%Z. split; reflexivity.
    + change (cget (y :: b) 0) with y. inversion Hb; subst.
      split; [lia | discriminate].
  - destruct b as [|y b].
    + change (cget [] 0) with 0%Z.
      destruct (Z.eqb_spec x 0) as [|_]; [contradiction|]. split; [lia | discriminate].
    + change (cget (y :: b) 0) with y. cbn [tail]. inversion Hb; subst.
      destruct (Z.eqb_spec x y) as [->|Hne].
      * destruct (Z.eqb_spec y 0) as [|_]; [contradiction|].
        rewrite (IH b) by assumption. split; congruence.
      * split; [lia | congruence].
Qed.

Lemma endsWith_loop_spec (t : list Z) :
  Forall (fun b => b <> 0%Z) t ->
  forall x : list Z,
    Forall (fun b => b <> 0%Z) x ->
    endsWith_loop toLower t x = true <-> occurs_at toLower t x 0.
Proof.
  induction 1 as [|b t Hb Ht IH]; intros x Hx; cbn [endsWith_loop].
  - destruct x as [|c x].
    + change (cget [] 0) with 0%Z. split; [intros _; apply occurs_at_nil | reflexivity].
    + change (cget (c :: x) 0) with c. inversion Hx; subst.
      destruct (Z.eqb_spec c 0) as [|_]; [contradiction|].
      split; [discriminate | intros H; destruct (occurs_at_short _ _ _ H)].
  - destruct (Z.eqb_spec b 0) as [|_]; [contradiction|]. cbn [negb andb].
    destruct x as [|c x].
    + change (cget [] 0) with 0%Z. cbn [Z.eqb negb].
      split; [intros _; apply occurs_at_nil | reflexivity].
    + change (cget (c :: x) 0) with c. cbn [tail]. inversion Hx; subst.
      destruct (Z.eqb_spec c 0) as [|_]; [contradiction|]. cbn [negb].
      rewrite occurs_at_head.
      destruct (Z.eqb_spec (toLower b) (toLower c)) as [He|Hne]; cbn [negb].
      * rewrite (IH x) by assumption. tauto.
      * split; [discriminate | tauto].
Qed.

(** X21: on two terminated texts [endsWith] answers [true] exactly when the
    text is at least as long as the suffix and its last bytes are those of
    the suffix, compared as they are or, with [ignoreCase], after folding
    both with [toLower].  The empty suffix ends every text. *)
Theorem endsWith_iff_suffix (s x : list Z) (ignoreCase : bool) :
  Forall (fun b => b <> 0%Z) s -> Forall (fun b => b <> 0%Z) x ->
  endsWith toLower (Ptr s) (Ptr x) ignoreCase = true
  <-> length x <= length s
      /\ map (fold_of toLower ignoreCase) (drop (length s - length x) s)
         = map (fold_of toLower ignoreCase) x.
Proof.
  intros Hs Hx. unfold endsWith, endsWith_len.
  rewrite (strlen_nonzero s Hs), (strlen_nonzero x Hx).
  destruct (Nat.ltb_spec (length s) (length x)) as [Hshort|Hfit].
  { split; [discriminate | lia]. }
  set (t := drop (length s - length x) s).
  assert (length t = length x) as Hlen by (subst t; rewrite length_drop; lia).
  assert (Forall (fun b => b <> 0%Z) t) as Ht.
  { rewrite <- (take_drop (length s - length x) s) in Hs.
    apply Forall_app in Hs. tauto. }
  assert (occurs_at (fold_of toLower ignoreCase) t x 0
          <-> length x <= length s
              /\ map (fold_of toLower ignoreCase) t = map (fold_of toLower ignoreCase) x)
    as Hocc.
  { rewrite occurs_at_map. rewrite <- Hlen at 2. rewrite firstn_all. split.
    - intros [_ H]. split; [lia | exact H].
    - intros [_ H]. split; [lia | exact H]. }
  rewrite <- Hocc.
  destruct ignoreCase; cbn [negb fold_of].
  - apply endsWith_loop_spec; assumption.
  - rewrite Z.eqb_eq, (strcmp_equal t Ht x Hx), occurs_at_map.
    rewrite <- Hlen at 2. rewrite firstn_all, !map_id. split.
    + intros ->. split; [lia | reflexivity].
    + intros [_ H]. exact H.
Qed.

End ComparisonFacts.

Lemma startsWith_iff_prefix_witness :
  startsWith ascii_toLower (Ptr (bytes "Content-Type: text")) (Ptr (bytes "content-type")) true
  = true
  <-> length (bytes "content-type") <= length (bytes "Content-Type: text")
      /\ map (fold_of ascii_toLower true)
           (take (length (bytes "content-type")) (bytes "Content-Type: text"))
         = map (fold_of ascii_toLower true) (bytes "content-type").
Proof.
  apply (startsWith_iff_prefix ascii_toLower (bytes "Content-Type: text")
           (bytes "content-type") true).
  - vm_compute. repeat constructor; discriminate.
  - vm_compute. repeat constructor; discriminate.
Defined.

Lemma endsWith_iff_suffix_witness :
  endsWith ascii_toLower (Ptr (bytes "firmware.BIN")) (Ptr (bytes ".bin")) true = true
  <-> length (bytes ".bin") <= length (bytes "firmware.BIN")
      /\ map (fold_of ascii_toLower true)
           (drop (length (bytes "firmware.BIN") - length (bytes ".bin")) (bytes "firmware.BIN"))
         = map (fold_of ascii_toLower true) (bytes ".bin").
Proof.
  apply (endsWith_iff_suffix ascii_toLower (bytes "firmware.BIN") (bytes ".bin") true).
  - vm_compute. repeat constructor; discriminate.
  - vm_compute. repeat constructor; discriminate.
Defined.

(** ** [equals], [compare], [compareIgnoreCase], [indexOf] *)

Lemma memcmp_spec (n : nat) :
  forall a b : list Z,
    n <= length a -> n <= length b ->
    exists r : Z,
      memcmp a b n = Some r
      /\ ((r = 0%Z /\ take n a = take n b)
          \/ (r <> 0%Z
              /\ exists k : nat,
                   k < n /\ take k a = take k b /\ r = (cget a k - cget b k)%Z)).
Proof.
  induction n as [|n IH]; intros a b Ha Hb.
  - exists 0%Z. split; [reflexivity|]. left. rewrite !take_0. auto.
  - destruct a as [|x a]; [cbn [length] in Ha; lia|].
    destruct b as [|y b]; [cbn [length] in Hb; lia|].
    cbn [length] in Ha, Hb. cbn [memcmp].
    destruct (Z.eqb_spec x y) as [->|Hne].
    + destruct (IH a b ltac:(lia) ltac:(lia)) as (r & Hr & Hcase).
      exists r. split; [exact Hr|].
      destruct Hcase as [[Hz Heq]|[Hnz (k & Hk & Heq & Hval)]].
      * left. split; [exact Hz|]. cbn [take]. rewrite Heq. reflexivity.
      * right. split; [exact Hnz|]. exists (S k). split; [lia|].
        split; [cbn [take]; rewrite Heq; reflexivity | exact Hval].
    + exists (x - y)%Z. split; [reflexivity|]. right. split; [lia|].
      exists 0. split; [lia|]. split; reflexivity.
Qed.

Section EqualityFacts.

Variable toLower : Z -> Z.

Lemma equals_loop_spec (a b : list Z) (n : nat) :
  forall i : nat,
    i + n <= length a -> i + n <= length b ->
    exists r : bool,
      equals_loop toLower n a b i = Some r
      /\ (r = true
          <-> map toLower (take n (drop i a)) = map toLower (take n (drop i b))).
Proof.
  induction n as [|n IH]; intros i Ha Hb; cbn [equals_loop].
  - exists true. rewrite !take_0. split; [reflexivity | tauto].
  - destruct (lookup_lt_is_Some_2 a i ltac:(lia)) as [x Hx].
    destruct (lookup_lt_is_Some_2 b i ltac:(lia)) as [y Hy].
    unfold load. rewrite Hx, Hy. cbn [mbind option_bind].
    rewrite (drop_S a x i Hx), (drop_S b y i Hy). cbn [take map].
    destruct (Z.eqb_spec (toLower x) (toLower y)) as [He|Hne]; cbn [negb].
    + destruct (IH (i + 1) ltac:(lia) ltac:(lia)) as (r & Hr & Hiff).
      exists r. split; [exact Hr|]. rewrite Hiff.
      replace (i + 1) with (S i) by lia. rewrite He. split; [congruence|].
      intros H. injection H as H. exact H.
    + exists false. split; [reflexivity|]. split; [discriminate|].
      intros H. injection H as H0 _. contradiction.
Qed.

(** X22: on two terminated texts [equals] returns, and it answers [true]
    exactly when the texts have the same bytes or, with [ignoreCase], the
    same bytes after folding with [toLower]; texts of different lengths are
    never equal, and a pointer equals itself. *)
Theorem equals_iff_same_text (same : bool) (a b : list Z) (ignoreCase : bool) :
  Forall (fun c => c <> 0%Z) a -> Forall (fun c => c <> 0%Z) b ->
  (same = true -> a = b) ->
  exists r : bool,
    equals toLower same (Ptr a) (Ptr b) ignoreCase = Some r
    /\ (r = true
        <-> map (fold_of toLower ignoreCase) a = map (fold_of toLower ignoreCase) b).
Proof.
  intros Ha Hb Hsame. unfold equals, equals_len. cbn [ptr_eq].
  destruct same.
  { exists true. split; [reflexivity|]. rewrite (Hsame eq_refl). tauto. }
  rewrite (strlen_nonzero a Ha), (strlen_nonzero b Hb).
  destruct (Nat.eqb_spec (length a) (length b)) as [Hlen|Hlen]; cbn [negb].
  2:{ exists false. split; [reflexivity|]. split; [discriminate|].
      intros H. apply (f_equal length) in H. rewrite !length_map in H. contradiction. }
  destruct ignoreCase; cbn [negb fold_of].
  - destruct (equals_loop_spec a b (length a) 0 ltac:(lia) ltac:(lia)) as (r & Hr & Hiff).
    exists r. split; [exact Hr|].
    rewrite Hiff, !drop_0, firstn_all. rewrite Hlen, firstn_all. tauto.
  - destruct (memcmp_spec (length a) a b ltac:(lia) ltac:(lia)) as (r & Hr & Hcase).
    rewrite Hr. cbn [mbind option_bind]. exists (r =? 0)%Z. split; [reflexivity|].
    rewrite !map_id, Z.eqb_eq.
    destruct Hcase as [[Hz Heq]|[Hnz (k & Hk & Heq & Hval)]].
    + rewrite firstn_all in Heq. rewrite Hlen, firstn_all in Heq. tauto.
    + split; [contradiction|]. intros ->. lia.
Qed.

End EqualityFacts.

Lemma equals_iff_same_text_witness :
  exists r : bool,
    equals ascii_toLower false (Ptr (bytes "MyHome")) (Ptr (bytes "myhome")) true = Some r
    /\ (r = true
        <-> map (fold_of ascii_toLower true) (bytes "MyHome")
            = map (fold_of ascii_toLower true) (bytes "myhome")).
Proof.
  apply (equals_iff_same_text ascii_toLower false (bytes "MyHome") (bytes "myhome") true).
  - vm_compute. repeat constructor; discriminate.
  - vm_compute. repeat constructor; discriminate.
  - discriminate.
Defined.

Lemma take_eq_cget (a b : list Z) (n k : nat) :
  take n a = take n b -> k < n -> cget a k = cget b k.
Proof.
  intros Heq Hk. unfold cget.
  rewrite <- (lookup_take_lt a n k Hk), <- (lookup_take_lt b n k Hk), Heq. reflexivity.
Qed.

(** X23: [compare] orders two byte ranges lexicographically.  For two
    ranges inside their arrays (and, when both pointers are the same
    pointer, of the same length) it returns 0 exactly when the ranges hold
    the same bytes, and a negative value exactly when the first range is a
    proper prefix of the second or has the smaller byte at the first
    position where they differ. *)
Theorem compare_lexicographic (same : bool) (a b : list Z) (len1 len2 : nat) :
  len1 <= length a -> len2 <= length b ->
  (same = true -> a = b /\ len1 = len2) ->
  exists r : Z,
    compare same (Ptr a) len1 (Ptr b) len2 = Some r
    /\ (r = 0%Z <-> take len1 a = take len2 b)
    /\ ((r < 0)%Z
        <-> exists k : nat,
              k <= len1 /\ k <= len2 /\ take k a = take k b
              /\ ((k = len1 /\ k < len2)
                  \/ (k < len1 /\ k < len2 /\ (cget a k < cget b k)%Z))).
Proof.
  intros Ha Hb Hsame. unfold compare. cbn [ptr_eq].
  destruct same.
  { destruct (Hsame eq_refl) as [-> ->]. exists 0%Z. split; [reflexivity|].
    split; [tauto|]. split; [lia|]. intros (k & _ & _ & _ & [H|H]); lia. }
  set (minLen := if len1 <? len2 then len1 else len2).
  assert (minLen = Nat.min len1 len2) as HminLen
    by (subst minLen; destruct (Nat.ltb_spec len1 len2); lia).
  destruct (memcmp_spec minLen a b ltac:(lia) ltac:(lia)) as (r0 & Hr0 & Hcase).
  rewrite Hr0. cbn [mbind option_bind].
  assert (forall n m : nat, n <= length a -> m <= length b -> take n a = take m b -> n = m)
    as Hsamelen.
  { intros n m Hn Hm H. apply (f_equal length) in H. rewrite !length_take in H. lia. }
  destruct Hcase as [[-> Heq]|[Hnz (k & Hk & Heq & Hval)]].
  - cbn [Z.eqb negb].
    assert (forall k : nat,
               k < len1 -> k < len2 -> (cget a k < cget b k)%Z -> False) as Hnodiff.
    { intros k H1 H2 Hlt. rewrite (take_eq_cget a b minLen k Heq) in Hlt by lia. lia. }
    destruct (Nat.ltb_spec len1 len2) as [Hlt|Hge].
    + exists (-1)%Z. split; [reflexivity|]. split.
      * split; [discriminate|]. intros H. apply Hsamelen in H; lia.
      * split; [|lia]. intros _. exists len1.
        split; [lia|]. split; [lia|]. split; [|left; lia].
        replace minLen with len1 in Heq by lia. exact Heq.
    + destruct (Nat.ltb_spec len2 len1) as [Hgt|Heqlen].
      * exists 1%Z. split; [reflexivity|]. split.
        -- split; [discriminate|]. intros H. apply Hsamelen in H; lia.
        -- split; [lia|]. intros (k & H1 & H2 & _ & [H|(H3 & H4 & H5)]); [lia|].
           destruct (Hnodiff k H3 H4 H5).
      * assert (len1 = len2) as <- by lia. exists 0%Z. split; [reflexivity|]. split.
        -- replace minLen with len1 in Heq by lia. tauto.
        -- split; [lia|]. intros (k & H1 & H2 & _ & [H|(H3 & H4 & H5)]); [lia|].
           destruct (Hnodiff k H3 H4 H5).
  - destruct (Z.eqb_spec r0 0) as [|_]; [contradiction|]. cbn [negb].
    exists r0. split; [reflexivity|]. split.
    + split; [contradiction|]. intros H. exfalso. apply Hnz.
      pose proof (Hsamelen _ _ Ha Hb H) as <-.
      rewrite (take_eq_cget a b len1 k H) in Hval by lia. lia.
    + split.
      * intros Hneg. exists k. split; [lia|]. split; [lia|]. split; [exact Heq|].
        right. split; [lia|]. split; lia.
      * intros (k' & H1 & H2 & Heq' & [[-> H]|(H3 & H4 & H5)]).
        -- exfalso. apply Hnz.
           rewrite (take_eq_cget a b len1 k Heq') in Hval by lia. lia.
        -- destruct (Nat.lt_trichotomy k k') as [Hlt|[->|Hgt]].
           ++ exfalso. apply Hnz.
              rewrite (take_eq_cget a b k' k Heq') in Hval by lia. lia.
           ++ lia.
           ++ rewrite (take_eq_cget a b k k' Heq) in H5 by lia. lia.
Qed.

Lemma compare_lexicographic_witness :
  exists r : Z,
    compare false (Ptr (bytes "apple pie")) 5 (Ptr (bytes "apples")) 6 = Some r
    /\ (r = 0%Z <-> take 5 (bytes "apple pie") = take 6 (bytes "apples"))
    /\ ((r < 0)%Z
        <-> exists k : nat,
              k <= 5 /\ k <= 6 /\ take k (bytes "apple pie") = take k (bytes "apples")
              /\ ((k = 5 /\ k < 6)
                  \/ (k < 5 /\ k < 6
                      /\ (cget (bytes "apple pie") k < cget (bytes "apples") k)%Z))).
Proof.
  apply (compare_lexicographic false (bytes "apple pie") (bytes "apples") 5 6).
  - vm_compute. lia.
  - vm_compute. lia.
  - discriminate.
Defined.

Section FoldedFacts.

Variable toLower : Z -> Z.

#[local] Abbreviation fold8 := (fun c : Z => to_unsigned 8 (toLower c)).

Lemma compareIgnoreCase_loop_spec (a b : list Z) (n : nat) :
  forall i : nat,
    i + n <= length a -> i + n <= length b ->
    exists (d : option Z) (r0 : Z),
      compareIgnoreCase_loop toLower n a b i = Some d
      /\ memcmp (drop i (map fold8 a)) (drop i (map fold8 b)) n = Some r0
      /\ ((d = None /\ r0 = 0%Z) \/ (d = Some r0 /\ r0 <> 0%Z)).
Proof.
  induction n as [|n IH]; intros i Ha Hb; cbn [compareIgnoreCase_loop memcmp].
  - exists None, 0%Z. auto.
  - destruct (lookup_lt_is_Some_2 a i ltac:(lia)) as [x Hx].
    destruct (lookup_lt_is_Some_2 b i ltac:(lia)) as [y Hy].
    unfold load. rewrite Hx, Hy. cbn [mbind option_bind].
    assert (map fold8 a !! i = Some (fold8 x)) as Hx' by (rewrite list_lookup_fmap, Hx; reflexivity).
    assert (map fold8 b !! i = Some (fold8 y)) as Hy' by (rewrite list_lookup_fmap, Hy; reflexivity).
    rewrite (drop_S _ _ i Hx'), (drop_S _ _ i Hy').
    destruct (IH (i + 1) ltac:(lia) ltac:(lia)) as (d & r0 & Hd & Hr0 & Hcase).
    replace (i + 1) with (S i) in Hr0 by lia.
    destruct (Z.eqb_spec (fold8 x) (fold8 y)) as [He|Hne].
    + rewrite andb_false_r. exists d, r0. auto.
    + destruct (Z.eqb_spec x y) as [->|Hxy]; [contradiction|]. cbn [negb andb].
      exists (Some (fold8 x - fold8 y)%Z), (fold8 x - fold8 y)%Z.
      split; [reflexivity|]. split; [reflexivity|]. right. split; [reflexivity | lia].
Qed.

(** X24: [compareIgnoreCase] is [compare] on the folded bytes: for two
    ranges inside their arrays it returns a value of the same sign as
    [compare] returns on the two arrays folded byte by byte with [toLower]
    (taken as an unsigned byte); the fast path for identical bytes changes
    nothing. *)
Theorem compareIgnoreCase_compares_folded (same : bool) (a b : list Z) (len1 len2 : nat) :
  len1 <= length a -> len2 <= length b ->
  exists r r' : Z,
    compareIgnoreCase toLower same (Ptr a) len1 (Ptr b) len2 = Some r
    /\ compare same (Ptr (map (fun c => to_unsigned 8 (toLower c)) a)) len1
         (Ptr (map (fun c => to_unsigned 8 (toLower c)) b)) len2
       = Some r'
    /\ Z.sgn r = Z.sgn r'.
Proof.
  intros Ha Hb. unfold compareIgnoreCase, compare. cbn [ptr_eq].
  destruct same; [exists 0%Z, 0%Z; auto|].
  set (minLen := if len1 <? len2 then len1 else len2).
  assert (minLen <= len1 /\ minLen <= len2) as [H1 H2]
    by (subst minLen; destruct (Nat.ltb_spec len1 len2); lia).
  destruct (compareIgnoreCase_loop_spec a b minLen 0 ltac:(lia) ltac:(lia))
    as (d & r0 & Hd & Hr0 & Hcase).
  rewrite !drop_0 in Hr0. rewrite Hd, Hr0. cbn [mbind option_bind].
  destruct Hcase as [[-> ->]|[-> Hnz]].
  - cbn [Z.eqb negb]. destruct (len1 <? len2); [eauto|]. destruct (len2 <? len1); eauto.
  - destruct (Z.eqb_spec r0 0) as [|_]; [contradiction|]. cbn [negb]. eauto.
Qed.

Lemma indexOf_loop_first (s : list Z) (c : Z) :
  Forall (fun b => b <> 0%Z) s ->
  first_occ toLower s [c] (indexOf_loop toLower s (toLower c)).
Proof.
  induction 1 as [|b s Hb Hs IH]; cbn [indexOf_loop].
  - apply first_occ_nil. cbn [length]. lia.
  - destruct (Z.eqb_spec b 0) as [|_]; [contradiction|].
    destruct (Z.eqb_spec (toLower b) (toLower c)) as [He|Hne].
    + apply first_occ_here. split; [cbn [length]; lia|].
      intros k Hk. cbn [length] in Hk. replace k with 0 by lia. exact He.
    + apply first_occ_cons; [|exact IH].
      intros [_ H]. apply Hne. exact (H 0 ltac:(cbn [length]; lia)).
Qed.

Lemma strchr_terminator (s : list Z) :
  Forall (fun b => b <> 0%Z) s -> strchr s 0 = Ptr (length s).
Proof.
  induction 1 as [|b s Hb Hs IH]; cbn [strchr length]; [reflexivity|].
  destruct (Z.eqb_spec b 0) as [|_]; [contradiction|]. rewrite IH. reflexivity.
Qed.

(** X25: on a terminated text [indexOf] returns the offset of the first
    byte equal to [c] (of the first byte that folds to the same as [c],
    with [ignoreCase]) and null when there is none.  For the terminator
    itself the two modes differ: the case-sensitive search finds it at the
    end of the text. *)
Theorem indexOf_first_occurrence (s : list Z) (c : Z) (ignoreCase : bool) :
  Forall (fun b => b <> 0%Z) s -> ignoreCase = true \/ c <> 0%Z ->
  first_occ (fold_of toLower ignoreCase) s [c] (indexOf toLower (Ptr s) c ignoreCase)
  /\ indexOf toLower (Ptr s) 0%Z false = Ptr (length s).
Proof.
  intros Hs Hc. split.
  - unfold indexOf. destruct ignoreCase; cbn [fold_of].
    + apply indexOf_loop_first. exact Hs.
    + destruct Hc as [|Hc]; [discriminate|]. apply strchr_first; assumption.
  - cbn [indexOf]. apply strchr_terminator. exact Hs.
Qed.

End FoldedFacts.

Lemma compareIgnoreCase_compares_folded_witness :
  exists r r' : Z,
    compareIgnoreCase ascii_toLower false (Ptr (bytes "Alpha")) 5 (Ptr (bytes "alPHABET")) 8
    = Some r
    /\ compare false (Ptr (map (fun c => to_unsigned 8 (ascii_toLower c)) (bytes "Alpha"))) 5
         (Ptr (map (fun c => to_unsigned 8 (ascii_toLower c)) (bytes "alPHABET"))) 8
       = Some r'
    /\ Z.sgn r = Z.sgn r'.
Proof.
  apply (compareIgnoreCase_compares_folded ascii_toLower false
           (bytes "Alpha") (bytes "alPHABET") 5 8).
  - vm_compute. lia.
  - vm_compute. lia.
Defined.

Lemma indexOf_first_occurrence_witness :
  first_occ (fold_of ascii_toLower true) (bytes "hello world") [87%Z]
    (indexOf ascii_toLower (Ptr (bytes "hello world")) 87 true)
  /\ indexOf ascii_toLower (Ptr (bytes "hello world")) 0%Z false
     = Ptr (length (bytes "hello world")).
Proof.
  apply (indexOf_first_occurrence ascii_toLower (bytes "hello world") 87 true).
  - vm_compute. repeat constructor; discriminate.
  - left. reflexivity.
Defined.

(** ** [validateUtf8] against the encoding form *)

Lemma validate_loop_sound (s : list Z) :
  Forall (fun b => b <> 0%Z) s ->
  forall (fuel i : nat),
    i <= length s -> length s - i <= fuel ->
    exists r : bool, validate_loop fuel s i = Some r /\ (r = true -> utf8 (drop i s)).
Proof.
  intros Hs.
  assert (forall j : nat, cget s j <> 0%Z -> j < length s) as Hin.
  { intros j Hj. destruct (Nat.lt_ge_cases j (length s)); [assumption|].
    exfalso. apply Hj. apply cget_ge. assumption. }
  induction fuel as [|fuel IH]; intros i Hi Hfuel.
  - assert (i = length s) as -> by lia. cbn [validate_loop].
    rewrite cget_ge by lia. exists true. split; [reflexivity|].
    intros _. rewrite drop_all. constructor.
  - cbn [validate_loop]. destruct (Z.eqb_spec (cget s i) 0) as [Hz|Hnz].
    + exists true. split; [reflexivity|]. intros _.
      apply cget_zero_iff in Hz; [|exact Hs]. rewrite drop_ge by lia. constructor.
    + pose proof (Hin i Hnz) as Hlt.
      destruct (validate_step (cget s i) (cget s (i + 1)) (cget s (i + 2)) (cget s (i + 3)))
        as [k|] eqn:Hstep.
      2:{ exists false. split; [reflexivity | discriminate]. }
      pose proof (validate_step_range _ _ _ _ _ Hstep) as Hk.
      destruct (validate_step_nonzero _ _ _ _ _ Hstep) as (H1 & H2 & H3).
      assert (i + k <= length s) as Hfit.
      { destruct (Nat.eq_dec k 1) as [->|]; [lia|].
        destruct (Nat.eq_dec k 2) as [->|]; [specialize (Hin _ (H1 ltac:(lia))); lia|].
        destruct (Nat.eq_dec k 3) as [->|]; [specialize (Hin _ (H2 ltac:(lia))); lia|].
        assert (k = 4) as -> by lia. specialize (Hin _ (H3 ltac:(lia))). lia. }
      destruct (IH (i + k) Hfit ltac:(lia)) as (r & Hr & Hutf).
      exists r. split; [exact Hr|]. intros ->.
      rewrite <- (take_drop k (drop i s)), drop_drop.
      apply utf8_cons; [|apply Hutf; reflexivity].
      apply is_char_at; assumption.
Qed.

Lemma utf8_chars (s : list Z) :
  utf8 s -> Forall is_byte s -> exists chs : list (list Z), chars chs /\ s = concat chs.
Proof.
  induction 1 as [|ch rest Hch Hrest IH]; intros Hb.
  - exists []. split; [constructor | reflexivity].
  - apply Forall_app in Hb as [Hb1 Hb2].
    destruct (IH Hb2) as (chs & Hchs & ->).
    exists (ch :: chs). split; [|reflexivity]. constructor; [split; assumption | exact Hchs].
Qed.

Ltac cont_bytes :=
  repeat match goal with
         | H : is_cont ?b = true, Hb : is_byte ?b |- _ =>
             apply (is_cont_range b Hb) in H
         end.

(** Walks through the comparisons of one round of [validateUtf8]. *)
Ltac step_cases :=
  repeat (match goal with
          | |- context [(?x <=? ?y)%Z] => destruct (Z.leb_spec x y)
          | |- context [(?x <? ?y)%Z] => destruct (Z.ltb_spec x y)
          | |- context [(?x =? ?y)%Z] => destruct (Z.eqb_spec x y)
          end; try lia; cbn [andb orb negb]);
  try reflexivity.

Lemma encode_is_char (cp : Z) :
  scalar cp -> is_char (utf8_encode cp) /\ Forall is_byte (utf8_encode cp).
Proof.
  intros Hcp. unfold scalar in Hcp.
  assert (forall x : Z, (128 <= x <= 191)%Z -> is_cont x = true) as Hcont
    by (intros x Hx; apply is_cont_range; [unfold is_byte; lia | exact Hx]).
  pose proof (Z.div_div cp 64 64 ltac:(lia) ltac:(lia)) as Hd2.
  pose proof (Z.div_div cp 4096 64 ltac:(lia) ltac:(lia)) as Hd3.
  change (64 * 64)%Z with 4096%Z in Hd2. change (4096 * 64)%Z with 262144%Z in Hd3.
  unfold utf8_encode.
  destruct (Z.ltb_spec cp 128) as [H1|H1];
    [|destruct (Z.ltb_spec cp 2048) as [H2|H2];
      [|destruct (Z.ltb_spec cp 65536) as [H3|H3]]].
  - split; [|repeat constructor; unfold is_byte; lia].
    split; [repeat constructor; lia|]. intros tl. cbn [app length].
    change (cget (cp :: tl) 0) with cp. unfold validate_step.
    destruct (Z.leb_spec cp 127); [reflexivity | lia].
  - set (b0 := (192 + cp / 64)%Z). set (b1 := (128 + cp mod 64)%Z).
    assert (194 <= b0 <= 223)%Z as Hb0 by (subst b0; Z.div_mod_to_equations; lia).
    assert (128 <= b1 <= 191)%Z as Hb1 by (subst b1; Z.div_mod_to_equations; lia).
    clearbody b0 b1. clear Hd2 Hd3 Hcp H1 H2.
    split; [|repeat constructor; unfold is_byte; lia].
    split; [repeat constructor; lia|]. intros tl. cbn [app length].
    change (cget (b0 :: b1 :: tl) 0) with b0. change (cget (b0 :: b1 :: tl) 1) with b1.
    unfold validate_step. rewrite (Hcont b1 Hb1).
    destruct (Z.leb_spec b0 127); [lia|].
    destruct (Z.leb_spec 194 b0); [|lia]. destruct (Z.leb_spec b0 223); [|lia].
    reflexivity.
  - set (b0 := (224 + cp / 4096)%Z). set (b1 := (128 + (cp / 64) mod 64)%Z).
    set (b2 := (128 + cp mod 64)%Z).
    assert (224 <= b0 <= 239)%Z as Hb0 by (subst b0; Z.div_mod_to_equations; lia).
    assert (128 <= b1 <= 191)%Z as Hb1 by (subst b1; Z.div_mod_to_equations; lia).
    assert (128 <= b2 <= 191)%Z as Hb2 by (subst b2; Z.div_mod_to_equations; lia).
    assert (b0 = 224 -> 160 <= b1)%Z as Hlow by (subst b0 b1; Z.div_mod_to_equations; lia).
    assert (b0 = 237 -> b1 <= 159)%Z as Hsur by (subst b0 b1; Z.div_mod_to_equations; lia).
    clearbody b0 b1 b2. clear Hd2 Hd3 Hcp H1 H2 H3.
    split; [|repeat constructor; unfold is_byte; lia].
    split; [repeat constructor; lia|]. intros tl. cbn [app length].
    change (cget (b0 :: b1 :: b2 :: tl) 0) with b0.
    change (cget (b0 :: b1 :: b2 :: tl) 1) with b1.
    change (cget (b0 :: b1 :: b2 :: tl) 2) with b2.
    unfold validate_step. rewrite (Hcont b1 Hb1), (Hcont b2 Hb2). cbn [negb orb].
    step_cases.
  - set (b0 := (240 + cp / 262144)%Z). set (b1 := (128 + (cp / 4096) mod 64)%Z).
    set (b2 := (128 + (cp / 64) mod 64)%Z). set (b3 := (128 + cp mod 64)%Z).
    assert (240 <= b0 <= 244)%Z as Hb0 by (subst b0; Z.div_mod_to_equations; lia).
    assert (128 <= b1 <= 191)%Z as Hb1 by (subst b1; Z.div_mod_to_equations; lia).
    assert (128 <= b2 <= 191)%Z as Hb2 by (subst b2; Z.div_mod_to_equations; lia).
    assert (128 <= b3 <= 191)%Z as Hb3 by (subst b3; Z.div_mod_to_equations; lia).
    assert (b0 = 240 -> 144 <= b1)%Z as Hlow by (subst b0 b1; Z.div_mod_to_equations; lia).
    assert (b0 = 244 -> b1 <= 143)%Z as Htop by (subst b0 b1; Z.div_mod_to_equations; lia).
    clearbody b0 b1 b2 b3. clear Hd2 Hd3 Hcp H1 H2 H3.
    split; [|repeat constructor; unfold is_byte; lia].
    split; [repeat constructor; lia|]. intros tl. cbn [app length].
    change (cget (b0 :: b1 :: b2 :: b3 :: tl) 0) with b0.
    change (cget (b0 :: b1 :: b2 :: b3 :: tl) 1) with b1.
    change (cget (b0 :: b1 :: b2 :: b3 :: tl) 2) with b2.
    change (cget (b0 :: b1 :: b2 :: b3 :: tl) 3) with b3.
    unfold validate_step. rewrite (Hcont b1 Hb1), (Hcont b2 Hb2), (Hcont b3 Hb3).
    cbn [negb orb].
    step_cases.
Qed.

(** The branches of one round of [validateUtf8] that accept, read off a
    hypothesis. *)
Ltac accepted_rounds H :=
  unfold validate_step in H;
  repeat match type of H with
         | (if ?c then _ else _) = _ => destruct c eqn:?
         end;
  try discriminate H; clear H; bool_hyps; try congruence; cont_bytes.

Ltac encode_eq :=
  unfold utf8_encode;
  repeat (match goal with
          | |- context [(?x <? ?y)%Z] => destruct (Z.ltb_spec x y)
          end; try lia);
  repeat (f_equal; try (Z.div_mod_to_equations; lia)).

Lemma char_decode (ch : list Z) :
  is_char ch -> Forall is_byte ch -> exists cp : Z, scalar cp /\ utf8_encode cp = ch.
Proof.
  intros [Hnz Hstep] Hb. specialize (Hstep []). rewrite app_nil_r in Hstep.
  pose proof (validate_step_range _ _ _ _ _ Hstep) as Hk.
  destruct ch as [|a [|b [|c [|d [|e ch]]]]]; cbn [length] in Hk; try lia; clear Hk;
    repeat match goal with
           | H : Forall _ (_ :: _) |- _ => inversion H; subst; clear H
           | H : Forall _ [] |- _ => clear H
           end.
  - change (validate_step a 0 0 0 = Some 1) in Hstep.
    accepted_rounds Hstep.
    exists a. split; [unfold scalar, is_byte in *; lia | encode_eq].
  - change (validate_step a b 0 0 = Some 2) in Hstep.
    accepted_rounds Hstep.
    exists ((a - 192) * 64 + (b - 128))%Z.
    split; [unfold scalar; lia | encode_eq].
  - change (validate_step a b c 0 = Some 3) in Hstep.
    accepted_rounds Hstep;
      (exists ((a - 224) * 4096 + (b - 128) * 64 + (c - 128))%Z;
       split; [unfold scalar; lia | encode_eq]).
  - change (validate_step a b c d = Some 4) in Hstep.
    accepted_rounds Hstep;
      (exists ((a - 240) * 262144 + (b - 128) * 4096 + (c - 128) * 64 + (d - 128))%Z;
       split; [unfold scalar; lia | encode_eq]).
Qed.

Lemma chars_decode (chs : list (list Z)) :
  chars chs ->
  exists cps : list Z, Forall scalar cps /\ concat chs = concat (map utf8_encode cps).
Proof.
  induction 1 as [|ch chs [Hch Hb] _ (cps & Hcps & IH)].
  - exists []. split; [constructor | reflexivity].
  - destruct (char_decode ch Hch Hb) as (cp & Hcp & <-).
    exists (cp :: cps). split; [constructor; assumption|].
    cbn [concat map]. rewrite IH. reflexivity.
Qed.

Lemma encode_utf8 (cps : list Z) :
  Forall scalar cps -> utf8 (concat (map utf8_encode cps)).
Proof.
  induction 1 as [|cp cps Hcp _ IH]; cbn [map concat]; [constructor|].
  apply utf8_cons; [|exact IH]. apply encode_is_char. exact Hcp.
Qed.

(** X26: [validateUtf8] accepts exactly UTF-8.  On a terminated text of
    bytes it returns, and it answers [true] exactly when the text is the
    concatenation of the UTF-8 encodings of Unicode scalar values: overlong
    forms, surrogates (U+D800 to U+DFFF), values above U+10FFFF, stray
    continuation bytes and cut sequences are all rejected. *)
Theorem validateUtf8_accepts_encodings (s : list Z) :
  Forall (fun b => b <> 0%Z) s -> Forall is_byte s ->
  exists r : bool,
    validateUtf8 (Ptr s) = Some r
    /\ (r = true
        <-> exists cps : list Z, Forall scalar cps /\ s = concat (map utf8_encode cps)).
Proof.
  intros Hs Hb. unfold validateUtf8.
  destruct (validate_loop_sound s Hs (length s) 0 ltac:(lia) ltac:(lia)) as (r & Hr & Hutf).
  exists r. split; [exact Hr|]. split.
  - intros ->. specialize (Hutf eq_refl). rewrite drop_0 in Hutf.
    destruct (utf8_chars s Hutf Hb) as (chs & Hchs & ->).
    apply chars_decode. exact Hchs.
  - intros (cps & Hcps & ->).
    pose proof (validateUtf8_utf8 _ (encode_utf8 cps Hcps)) as Hok.
    unfold validateUtf8 in Hok. rewrite Hok in Hr. injection Hr as <-. reflexivity.
Qed.

Lemma validateUtf8_accepts_encodings_witness :
  exists r : bool,
    validateUtf8 (Ptr [97; 195; 169; 226; 130; 172; 240; 159; 152; 128]%Z) = Some r
    /\ (r = true
        <-> exists cps : list Z,
              Forall scalar cps
              /\ [97; 195; 169; 226; 130; 172; 240; 159; 152; 128]%Z
                 = concat (map utf8_encode cps)).
Proof.
  apply (validateUtf8_accepts_encodings [97; 195; 169; 226; 130; 172; 240; 159; 152; 128]%Z).
  - repeat constructor; discriminate.
  - repeat constructor; unfold is_byte; lia.
Defined.

(** ** The two [split]s *)

Lemma join_cons (d : Z) (f g : list Z) (fs : list (list Z)) :
  join d (f :: g :: fs) = f ++ d :: join d (g :: fs).
Proof. reflexivity. Qed.

Lemma join_nonzero (d : Z) (fs : list (list Z)) :
  d <> 0%Z -> Forall (field d) fs -> Forall (fun b => b <> 0%Z) (join d fs).
Proof.
  intros Hd. induction 1 as [|f fs Hf Hfs IH]; [constructor|].
  assert (Forall (fun b => b <> 0%Z) f) as Hf0
    by (eapply Forall_impl; [|exact Hf]; cbn; tauto).
  destruct fs as [|g fs]; [exact Hf0|].
  rewrite join_cons. apply Forall_app. split; [exact Hf0|]. constructor; assumption.
Qed.

(** Scanning a field: [p] runs to its end and nothing else changes. *)
Lemma split_view_loop_field (d : Z) (f : list Z) :
  field d f ->
  forall (pre tl : list Z) (tokens : list Token) (maxTokens count start fuel : nat),
    split_view_loop (length f + fuel) (pre ++ f ++ tl) d tokens maxTokens count start (length pre)
    = split_view_loop fuel (pre ++ f ++ tl) d tokens maxTokens count start
        (length pre + length f).
Proof.
  induction 1 as [|b f [Hb0 Hbd] Hf IH]; intros pre tl tokens maxTokens count start fuel.
  - cbn [length Nat.add]. rewrite Nat.add_0_r. reflexivity.
  - cbn [length Nat.add split_view_loop app]. rewrite cget_app_here.
    destruct (Z.eqb_spec b 0) as [|_]; [contradiction|].
    destruct (Z.eqb_spec b d) as [|_]; [contradiction|].
    specialize (IH (pre ++ [b]) tl tokens maxTokens count start fuel).
    rewrite length_app, <- app_assoc in IH. cbn [length app] in IH.
    rewrite IH. f_equal. lia.
Qed.

Lemma token_text_field (pre f tl : list Z) :
  token_text (pre ++ f ++ tl) (mkToken (length pre) (length pre + length f - length pre)) = f.
Proof.
  unfold token_text. cbn [tok_len tok_ptr].
  rewrite drop_app_length. replace (length pre + length f - length pre) with (length f) by lia.
  rewrite take_app_length. reflexivity.
Qed.

Lemma split_view_loop_spec (d : Z) (maxTokens : nat) (fs : list (list Z)) :
  d <> 0%Z ->
  forall (f pre : list Z) (tokens : list Token) (count fuel : nat),
    Forall (field d) (f :: fs) -> maxTokens <= length tokens -> count < maxTokens ->
    length (join d (f :: fs)) <= fuel ->
    let str := pre ++ join d (f :: fs) in
    let m := Nat.min (length fs) (maxTokens - 1 - count) in
    exists (toks' : list Token) (start' p' : nat),
      split_view_loop fuel str d tokens maxTokens count (length pre) (length pre)
      = Some (toks', count + m, start', p')
      /\ length toks' = length tokens
      /\ (forall i : nat, i < count -> toks' !! i = tokens !! i)
      /\ (forall i : nat, i < m ->
            exists t : Token,
              toks' !! (count + i) = Some t /\ (f :: fs) !! i = Some (token_text str t))
      /\ (f :: fs) !! m = Some (token_text str (mkToken start' (p' - start'))).
Proof.
  intros Hd. induction fs as [|g fs IH]; intros f pre tokens count fuel Hfs Hmax Hcount Hfuel;
    cbv zeta.
  - (* the last field: the scan stops at the terminator *)
    inversion Hfs as [|? ? Hf _]; subst. cbn [join length Nat.min] in *.
    replace fuel with (length f + (fuel - length f)) by lia.
    pose proof (split_view_loop_field d f Hf pre [] tokens maxTokens count (length pre)
                  (fuel - length f)) as Hscan.
    rewrite app_nil_r in Hscan. rewrite Hscan.
    exists tokens, (length pre), (length pre + length f).
    assert (cget (pre ++ f) (length pre + length f) = 0%Z) as Hend
      by (apply cget_ge; rewrite length_app; lia).
    split.
    { destruct (fuel - length f); cbn [split_view_loop]; rewrite Hend; cbn [Z.eqb];
        rewrite Nat.add_0_r; reflexivity. }
    split; [reflexivity|]. split; [reflexivity|]. split; [intros i Hi; lia|].
    cbn [lookup list_lookup]. f_equal.
    pose proof (token_text_field pre f []) as Ht. rewrite app_nil_r in Ht. symmetry. exact Ht.
  - inversion Hfs as [|? ? Hf Hfs']; subst.
    rewrite join_cons in *. rewrite length_app in Hfuel. cbn [length] in Hfuel.
    set (str := pre ++ f ++ d :: join d (g :: fs)).
    replace fuel with (length f + (fuel - length f)) by lia.
    rewrite (split_view_loop_field d f Hf pre (d :: join d (g :: fs))).
    fold str.
    assert (cget str (length pre + length f) = d) as Hhere.
    { subst str. rewrite app_assoc, <- length_app. apply cget_app_here. }
    destruct (fuel - length f) as [|fuel'] eqn:Efuel; [lia|].
    cbn [split_view_loop]. rewrite Hhere.
    destruct (Z.eqb_spec d 0) as [|_]; [contradiction|]. rewrite Z.eqb_refl.
    rewrite size_sub_le by lia.
    assert (token_text str (mkToken (length pre) (length pre + length f - length pre)) = f)
      as Htok by apply token_text_field.
    destruct (Nat.ltb_spec count (maxTokens - 1)) as [Hroom|Hfull].
    + (* the field becomes a token and the scan goes on *)
      rewrite store_Some by lia. cbn [mbind option_bind].
      set (tokens1 := <[count := mkToken (length pre) (length pre + length f - length pre)]> tokens).
      destruct (IH g (pre ++ f ++ [d]) tokens1 (count + 1) fuel' Hfs')
        as (toks' & start' & p' & Hrun & Hlen & Hold & Hnew & Hlast).
      { subst tokens1. rewrite length_insert. exact Hmax. }
      { lia. }
      { lia. }
      assert ((pre ++ f ++ [d]) ++ join d (g :: fs) = str) as Hstr
        by (subst str; rewrite <- !app_assoc; reflexivity).
      assert (length (pre ++ f ++ [d]) = length pre + length f + 1) as Hlenpre
        by (rewrite !length_app; cbn [length]; lia).
      cbv zeta in Hrun, Hnew, Hlast. rewrite Hstr, Hlenpre in *.
      exists toks', start', p'.
      replace (count + Nat.min (length (g :: fs)) (maxTokens - 1 - count))
        with (count + 1 + Nat.min (length fs) (maxTokens - 1 - (count + 1)))
        by (cbn [length]; lia).
      split; [exact Hrun|].
      split; [rewrite Hlen; subst tokens1; apply length_insert|].
      split.
      { intros i Hi. rewrite (Hold i ltac:(lia)). subst tokens1.
        apply list_lookup_insert_ne. lia. }
      split.
      { intros [|i] Hi.
        - exists (mkToken (length pre) (length pre + length f - length pre)).
          rewrite Nat.add_0_r. split; [|cbn [lookup list_lookup]; rewrite Htok; reflexivity].
          rewrite (Hold count ltac:(lia)). subst tokens1.
          apply list_lookup_insert_eq. lia.
        - destruct (Hnew i) as (t & Ht & Hfield); [cbn [length] in Hi; lia|].
          exists t. replace (count + S i) with (count + 1 + i) by lia.
          split; [exact Ht | exact Hfield]. }
      replace (Nat.min (length (g :: fs)) (maxTokens - 1 - count))
        with (S (Nat.min (length fs) (maxTokens - 1 - (count + 1))))
        by (cbn [length]; lia).
      exact Hlast.
    + (* no slot is left: the scan stops at the delimiter *)
      exists tokens, (length pre), (length pre + length f).
      replace (Nat.min (length (g :: fs)) (maxTokens - 1 - count)) with 0 by lia.
      rewrite Nat.add_0_r.
      split; [reflexivity|]. split; [reflexivity|]. split; [reflexivity|].
      split; [intros i Hi; lia|].
      cbn [lookup list_lookup]. rewrite Htok. reflexivity.
Qed.

(** X27: the non-destructive [split] views one field per token.  On a
    text made of fields separated by the delimiter it fills
    [min (number of fields) maxTokens] tokens, and token [i] views exactly
    field [i]; the array of tokens keeps its size.  When the slots run out,
    the fields behind the last token are in no token. *)
Theorem split_view_fields (d : Z) (fields : list (list Z)) (toks : list Token)
    (maxTokens : nat) :
  d <> 0%Z -> fields <> [] -> Forall (field d) fields ->
  1 <= maxTokens -> maxTokens <= length toks ->
  exists toks' : list Token,
    split_view (Ptr (join d fields)) d (Ptr toks) maxTokens
    = Some (Ptr toks', Nat.min (length fields) maxTokens)
    /\ length toks' = length toks
    /\ forall i : nat, i < Nat.min (length fields) maxTokens ->
         exists t : Token,
           toks' !! i = Some t /\ fields !! i = Some (token_text (join d fields) t).
Proof.
  intros Hd Hne Hfields Hmax1 Hmax.
  destruct fields as [|f fs]; [contradiction|].
  unfold split_view.
  destruct (Nat.eqb_spec maxTokens 0) as [|_]; [lia|].
  destruct (split_view_loop_spec d maxTokens fs Hd f [] toks 0 (length (join d (f :: fs)))
              Hfields Hmax ltac:(lia) ltac:(lia))
    as (toks1 & start' & p' & Hrun & Hlen & _ & Hnew & Hlast).
  cbv zeta in Hrun, Hnew, Hlast. cbn [app length Nat.add] in Hrun, Hnew, Hlast.
  rewrite Nat.sub_0_r in *.
  rewrite Hrun. cbn [mbind option_bind].
  set (m := Nat.min (length fs) (maxTokens - 1)) in *.
  rewrite store_Some by lia. cbn [mbind option_bind].
  exists (<[m := mkToken start' (p' - start')]> toks1).
  replace (Nat.min (length (f :: fs)) maxTokens) with (m + 1) by (cbn [length]; lia).
  split; [reflexivity|]. split; [rewrite length_insert; exact Hlen|].
  intros i Hi. destruct (Nat.eq_dec i m) as [->|Hne'].
  - exists (mkToken start' (p' - start')).
    split; [apply list_lookup_insert_eq; lia | exact Hlast].
  - destruct (Hnew i ltac:(lia)) as (t & Ht & Hfield). exists t.
    split; [rewrite list_lookup_insert_ne by lia; exact Ht | exact Hfield].
Qed.

Lemma split_view_fields_witness :
  exists toks' : list Token,
    split_view (Ptr (join 58 [bytes "a"; bytes "b"; bytes "c"; bytes "d"])) 58
      (Ptr (replicate 3 (mkToken 0 0))) 3
    = Some (Ptr toks', Nat.min (length [bytes "a"; bytes "b"; bytes "c"; bytes "d"]) 3)
    /\ length toks' = length (replicate 3 (mkToken 0 0))
    /\ forall i : nat, i < Nat.min (length [bytes "a"; bytes "b"; bytes "c"; bytes "d"]) 3 ->
         exists t : Token,
           toks' !! i = Some t
           /\ [bytes "a"; bytes "b"; bytes "c"; bytes "d"] !! i
              = Some (token_text (join 58 [bytes "a"; bytes "b"; bytes "c"; bytes "d"]) t).
Proof.
  apply (split_view_fields 58 [bytes "a"; bytes "b"; bytes "c"; bytes "d"]
           (replicate 3 (mkToken 0 0)) 3).
  - discriminate.
  - discriminate.
  - vm_compute. repeat constructor; discriminate.
  - lia.
  - vm_compute. lia.
Defined.

Lemma join_cons_nonempty (d : Z) (f : list Z) (ps : list (list Z)) :
  ps <> [] -> join d (f :: ps) = f ++ d :: join d ps.
Proof. destruct ps; [contradiction | reflexivity]. Qed.

Lemma split_loop_field (d : Z) (f : list Z) :
  field d f ->
  forall (pre tl : list Z) (tokens : list nat) (maxTokens count fuel : nat),
    split_loop (length f + fuel) (pre ++ f ++ tl) d tokens maxTokens count (length pre)
    = split_loop fuel (pre ++ f ++ tl) d tokens maxTokens count (length pre + length f).
Proof.
  induction 1 as [|b f [Hb0 Hbd] Hf IH]; intros pre tl tokens maxTokens count fuel.
  - cbn [length Nat.add]. rewrite Nat.add_0_r. reflexivity.
  - cbn [length Nat.add split_loop app]. rewrite load_app_here. cbn [mbind option_bind].
    destruct (Z.eqb_spec b 0) as [|_]; [contradiction|].
    destruct (Z.eqb_spec b d) as [|_]; [contradiction|].
    specialize (IH (pre ++ [b]) tl tokens maxTokens count fuel).
    rewrite length_app, <- app_assoc in IH. cbn [length app] in IH.
    rewrite IH. f_equal. lia.
Qed.

Lemma field_nonzero (d : Z) (f : list Z) : field d f -> Forall (fun b => b <> 0%Z) f.
Proof. intros H. eapply Forall_impl; [|exact H]. cbn. tauto. Qed.

Lemma split_loop_spec (d : Z) (maxTokens : nat) (rest : list Z) (fs : list (list Z)) :
  d <> 0%Z ->
  forall (f pre : list Z) (tokens : list nat) (count fuel : nat),
    Forall (field d) (f :: fs) -> maxTokens <= length tokens -> count <= maxTokens ->
    length (join d (f :: fs)) <= fuel ->
    let m := Nat.min (length fs) (maxTokens - count) in
    let pieces := take m (f :: fs) ++ [join d (drop m (f :: fs))] in
    let buf' := pre ++ join 0%Z pieces ++ 0%Z :: rest in
    exists toks' : list nat,
      split_loop fuel (pre ++ join d (f :: fs) ++ 0%Z :: rest) d tokens maxTokens count
        (length pre)
      = Some (buf', toks', count + m)
      /\ length toks' = length tokens
      /\ (forall i : nat, i < count -> toks' !! i = tokens !! i)
      /\ cstr_at buf' (length pre) = pieces !! 0
      /\ (forall i : nat, i < m ->
            exists off : nat,
              toks' !! (count + i) = Some off /\ cstr_at buf' off = pieces !! (S i)).
Proof.
  intros Hd. induction fs as [|g fs IH]; intros f pre tokens count fuel Hfs Hmax Hcount Hfuel;
    cbv zeta.
  - (* the last field: the scan stops at the terminator *)
    inversion Hfs as [|? ? Hf _]; subst. cbn [join length Nat.min take drop app] in *.
    rewrite ?take_0, ?drop_0. cbn [app join].
    replace fuel with (length f + (fuel - length f)) by lia.
    rewrite (split_loop_field d f Hf pre (0%Z :: rest)).
    exists tokens.
    assert (load (pre ++ f ++ 0%Z :: rest) (length pre + length f) = Some 0%Z) as Hend
      by (rewrite app_assoc, <- length_app; apply load_app_here).
    split.
    { destruct (fuel - length f); cbn [split_loop]; rewrite Hend; cbn [mbind option_bind Z.eqb];
        rewrite Nat.add_0_r; reflexivity. }
    split; [reflexivity|]. split; [reflexivity|].
    split; [apply cstr_at_app; apply field_nonzero with d; exact Hf|].
    intros i Hi. lia.
  - inversion Hfs as [|? ? Hf Hfs']; subst.
    assert (Forall (fun b => b <> 0%Z) (join d (f :: g :: fs))) as Hjoin
      by (apply join_nonzero; assumption).
    rewrite join_cons in Hfuel. rewrite (join_cons d f g fs). rewrite length_app in Hfuel. cbn [length] in Hfuel.
    rewrite <- app_assoc. cbn [app].
    replace fuel with (length f + (fuel - length f)) by lia.
    rewrite (split_loop_field d f Hf pre (d :: join d (g :: fs) ++ 0%Z :: rest)).
    assert (load (pre ++ f ++ d :: join d (g :: fs) ++ 0%Z :: rest) (length pre + length f)
            = Some d) as Hhere
      by (rewrite app_assoc, <- length_app; apply load_app_here).
    destruct (fuel - length f) as [|fuel'] eqn:Efuel; [lia|].
    cbn [split_loop]. rewrite Hhere. cbn [mbind option_bind].
    destruct (Z.eqb_spec d 0) as [|_]; [contradiction|]. rewrite Z.eqb_refl.
    destruct (Nat.ltb_spec count maxTokens) as [Hroom|Hfull].
    + (* the delimiter becomes a terminator and the next token starts *)
      rewrite (store_Some tokens) by lia.
      rewrite store_Some by (rewrite !length_app; cbn [length]; lia).
      cbn [mbind option_bind].
      assert (<[length pre + length f := 0%Z]>
                (pre ++ f ++ d :: join d (g :: fs) ++ 0%Z :: rest)
              = (pre ++ f ++ [0%Z]) ++ join d (g :: fs) ++ 0%Z :: rest) as ->.
      { rewrite (app_assoc pre f), insert_app_r_alt by (rewrite length_app; lia).
        rewrite length_app, Nat.sub_diag. rewrite <- !app_assoc. reflexivity. }
      assert (length pre + length f + 1 = length (pre ++ f ++ [0%Z])) as Hlenpre
        by (rewrite !length_app; cbn [length]; lia).
      rewrite Hlenpre.
      set (tokens1 := <[count := length (pre ++ f ++ [0%Z])]> tokens).
      destruct (IH g (pre ++ f ++ [0%Z]) tokens1 (count + 1) fuel' Hfs')
        as (toks' & Hrun & Hlen & Hold & Hfirst & Hnew).
      { subst tokens1. rewrite length_insert. exact Hmax. }
      { lia. }
      { lia. }
      cbv zeta in Hrun, Hfirst, Hnew.
      set (m' := Nat.min (length fs) (maxTokens - (count + 1))) in *.
      set (pieces' := take m' (g :: fs) ++ [join d (drop m' (g :: fs))]) in *.
      replace (Nat.min (length (g :: fs)) (maxTokens - count)) with (S m')
        by (subst m'; cbn [length]; lia).
      cbn [take drop app].
      fold pieces'.
      assert (pieces' <> []) as Hne by (subst pieces'; intros H; apply app_eq_nil in H as [_ H]; discriminate).
      rewrite (join_cons_nonempty 0%Z f pieces' Hne).
      assert (pre ++ (f ++ 0%Z :: join 0%Z pieces') ++ 0%Z :: rest
              = (pre ++ f ++ [0%Z]) ++ join 0%Z pieces' ++ 0%Z :: rest) as Hbuf
        by (rewrite <- !app_assoc; reflexivity).
      rewrite Hbuf.
      exists toks'.
      split; [rewrite Hrun; do 2 f_equal; lia|].
      split; [rewrite Hlen; subst tokens1; apply length_insert|].
      split.
      { intros i Hi. rewrite (Hold i ltac:(lia)). subst tokens1.
        apply list_lookup_insert_ne. lia. }
      split.
      { rewrite <- Hbuf, <- app_assoc. cbn [lookup list_lookup].
        apply cstr_at_app. apply field_nonzero with d. exact Hf. }
      intros [|i] Hi.
      * exists (length (pre ++ f ++ [0%Z])). rewrite Nat.add_0_r.
        split; [|exact Hfirst].
        rewrite (Hold count ltac:(lia)). subst tokens1. apply list_lookup_insert_eq. lia.
      * destruct (Hnew i ltac:(lia)) as (off & Hoff & Hstr).
        exists off. replace (count + S i) with (count + 1 + i) by lia.
        split; [exact Hoff | exact Hstr].
    + (* no slot is left: the rest stays in the last token *)
      replace (Nat.min (length (g :: fs)) (maxTokens - count)) with 0 by lia.
      rewrite take_0, drop_0, Nat.add_0_r. cbn [app].
      change (join 0%Z [join d (f :: g :: fs)]) with (join d (f :: g :: fs)).
      exists tokens.
      assert (pre ++ f ++ d :: join d (g :: fs) ++ 0%Z :: rest
              = pre ++ join d (f :: g :: fs) ++ 0%Z :: rest) as ->
        by (rewrite join_cons, <- app_assoc; reflexivity).
      split; [reflexivity|]. split; [reflexivity|]. split; [reflexivity|].
      split; [apply cstr_at_app; exact Hjoin|].
      intros i Hi. lia.
Qed.

(** X28: the destructive [split] cuts a terminated text made of fields
    separated by the delimiter into [min (number of fields) maxTokens]
    tokens: each delimiter in front of a token is overwritten by a
    terminator, token [i] points to field [i], and the last token keeps the
    whole rest of the text, delimiters included, when the slots run out.
    Nothing else in the buffer changes and the array of tokens keeps its
    size. *)
Theorem split_fields (d : Z) (fields : list (list Z)) (rest : list Z) (toks : list nat)
    (maxTokens : nat) :
  d <> 0%Z -> fields <> [] -> Forall (field d) fields ->
  1 <= maxTokens -> maxTokens <= length toks ->
  let k := Nat.min (length fields) maxTokens in
  let pieces := take (k - 1) fields ++ [join d (drop (k - 1) fields)] in
  exists toks' : list nat,
    split (Ptr (join d fields ++ 0%Z :: rest)) d (Ptr toks) maxTokens
    = Some (Ptr (join 0%Z pieces ++ 0%Z :: rest), Ptr toks', k)
    /\ length toks' = length toks
    /\ forall i : nat, i < k ->
         exists off : nat,
           toks' !! i = Some off
           /\ cstr_at (join 0%Z pieces ++ 0%Z :: rest) off = pieces !! i.
Proof.
  intros Hd Hne Hfields Hmax1 Hmax k pieces.
  destruct fields as [|f fs]; [contradiction|].
  unfold split.
  destruct (Nat.eqb_spec maxTokens 0) as [|_]; [lia|].
  rewrite store_Some by lia. cbn [mbind option_bind Nat.add].
  destruct (split_loop_spec d maxTokens rest fs Hd f [] (<[0 := 0]> toks) 1
              (length (join d (f :: fs) ++ 0%Z :: rest)) Hfields)
    as (toks' & Hrun & Hlen & Hold & Hfirst & Hnew).
  { rewrite length_insert. exact Hmax. }
  { lia. }
  { rewrite length_app. lia. }
  cbv zeta in Hrun, Hfirst, Hnew. cbn [app length] in Hrun, Hfirst, Hnew.
  assert (k - 1 = Nat.min (length fs) (maxTokens - 1)) as Hk
    by (subst k; cbn [length]; lia).
  subst pieces. rewrite Hk. rewrite <- Hk in Hrun at 3.
  replace (1 + (k - 1)) with k in Hrun by (subst k; cbn [length]; lia).
  rewrite Hrun. cbn [mbind option_bind].
  exists toks'. split; [reflexivity|].
  split; [rewrite Hlen; apply length_insert|].
  intros [|i] Hi.
  - exists 0. split; [|exact Hfirst].
    rewrite (Hold 0 ltac:(lia)). apply list_lookup_insert_eq. lia.
  - destruct (Hnew i ltac:(lia)) as (off & Hoff & Hstr).
    exists off. split; [exact Hoff | exact Hstr].
Qed.

Lemma split_fields_witness :
  exists toks' : list nat,
    split (Ptr (join 58 [bytes "a"; bytes "b"; bytes "c"; bytes "d"] ++ 0%Z :: [7%Z])) 58
      (Ptr [0; 0; 0]) 3
    = Some (Ptr (join 0%Z [bytes "a"; bytes "b"; bytes "c:d"] ++ 0%Z :: [7%Z]), Ptr toks', 3)
    /\ length toks' = length [0; 0; 0]
    /\ forall i : nat, i < 3 ->
         exists off : nat,
           toks' !! i = Some off
           /\ cstr_at (join 0%Z [bytes "a"; bytes "b"; bytes "c:d"] ++ 0%Z :: [7%Z]) off
              = [bytes "a"; bytes "b"; bytes "c:d"] !! i.
Proof.
  apply (split_fields 58 [bytes "a"; bytes "b"; bytes "c"; bytes "d"] [7%Z] [0; 0; 0] 3).
  - discriminate.
  - discriminate.
  - vm_compute. repeat constructor; discriminate.
  - lia.
  - vm_compute. lia.
Defined.

(** ** [find] and [lastIndexOf] on characters *)

Lemma take_char_offset (chs : list (list Z)) (i : nat) :
  take (char_offset chs i) (concat chs) = concat (take i chs).
Proof.
  unfold char_offset. rewrite (concat_take_drop chs i) at 1. apply take_app_length.
Qed.

Lemma drop_char_offset (chs : list (list Z)) (i : nat) :
  drop (char_offset chs i) (concat chs) = concat (drop i chs).
Proof.
  unfold char_offset. rewrite (concat_take_drop chs i) at 1. apply drop_app_length.
Qed.

Lemma char_offset_add (chs : list (list Z)) (k i : nat) :
  char_offset chs (k + i) = char_offset chs k + char_offset (drop k chs) i.
Proof.
  unfold char_offset. rewrite <- take_take_drop, concat_app, length_app. reflexivity.
Qed.

Lemma char_offset_strict (chs : list (list Z)) (j j' : nat) :
  chars chs -> j < j' -> j' <= length chs -> char_offset chs j < char_offset chs j'.
Proof.
  intros H Hlt Hle.
  pose proof (char_offset_lt chs H j ltac:(lia)).
  pose proof (char_offset_le chs (S j) j' ltac:(lia)). lia.
Qed.

Lemma count_chars_between (chs : list (list Z)) (k j : nat) :
  chars chs -> k <= j -> j <= length chs ->
  count_chars (concat chs) (char_offset chs k) (char_offset chs j) = j - k.
Proof.
  intros H Hkj Hj. unfold count_chars.
  replace j with (k + (j - k)) at 1 by lia.
  rewrite char_offset_add.
  replace (char_offset chs k + char_offset (drop k chs) (j - k) - char_offset chs k)
    with (char_offset (drop k chs) (j - k)) by lia.
  rewrite drop_char_offset, take_char_offset.
  pose proof (count_chars_chars (take (j - k) (drop k chs))
                (chars_take _ _ (chars_drop _ k H))) as Hcount.
  rewrite count_chars_all in Hcount. rewrite Hcount.
  rewrite length_take, length_drop. lia.
Qed.

Lemma occurs_at_shift (fold : Z -> Z) (s x : list Z) (o q : nat) :
  o <= length s -> occurs_at fold (drop o s) x q <-> occurs_at fold s x (o + q).
Proof.
  intros Ho. unfold occurs_at. rewrite length_drop.
  split; intros [Hlen Hj]; (split; [lia|]); intros j Hlt; specialize (Hj j Hlt);
    rewrite cget_drop, Nat.add_assoc in *; exact Hj.
Qed.

Section FindFacts.

Variable toLower : Z -> Z.

Lemma search_first (ignoreCase : bool) (text t : list Z) :
  Forall (fun b => b <> 0%Z) text -> Forall (fun b => b <> 0%Z) t -> 1 <= length t ->
  exists r : ptr nat,
    (if ignoreCase then strcasestr toLower text t else Some (strstr text t)) = Some r
    /\ first_occ (fold_of toLower ignoreCase) text t r.
Proof.
  intros Hs Ht Hlen. destruct ignoreCase.
  - apply strcasestr_first; assumption.
  - exists (strstr text t). split; [reflexivity|]. apply strstr_first; assumption.
Qed.

(** Where the target occurs, a character begins. *)
Lemma occurrence_boundary (ignoreCase : bool) (chs : list (list Z)) (t : list Z) (p : nat) :
  chars chs -> 1 <= length t -> is_cont (cget t 0) = false ->
  (ignoreCase = true -> forall a b : Z, toLower a = toLower b -> is_cont a = is_cont b) ->
  occurs_at (fold_of toLower ignoreCase) (concat chs) t p ->
  exists j : nat, j < length chs /\ char_offset chs j = p.
Proof.
  intros Hchs Hlen Hfirst Hfold [Hfit Hocc].
  specialize (Hocc 0 ltac:(lia)). rewrite Nat.add_0_r in Hocc. unfold feq in Hocc.
  assert (is_cont (cget (concat chs) p) = false) as Hnc.
  { rewrite <- Hfirst. destruct ignoreCase; cbn [fold_of] in Hocc.
    - apply Hfold; [reflexivity | exact Hocc].
    - rewrite Hocc. reflexivity. }
  destruct (not_cont_boundary chs Hchs p ltac:(lia) Hnc) as (j & Hj & Hoff).
  exists j. split; [|exact Hoff].
  destruct (Nat.eq_dec j (length chs)) as [->|]; [|lia].
  rewrite char_offset_all in Hoff by lia. lia.
Qed.

(** X29: [find] returns the index of the first character, at or after
    character [startChar], at which the target occurs, and -1 when there is
    none.  The text is made of well-formed UTF-8 characters, the target is
    not empty and does not begin with a continuation byte; with
    [ignoreCase] the fold must not confuse a continuation byte with any
    other byte. *)
Theorem find_character_index (chs : list (list Z)) (t : list Z) (startChar : nat)
    (ignoreCase : bool) :
  chars chs -> Forall (fun b => b <> 0%Z) t -> 1 <= length t ->
  is_cont (cget t 0) = false ->
  (ignoreCase = true -> forall a b : Z, toLower a = toLower b -> is_cont a = is_cont b) ->
  (Z.of_nat (length chs) < 2 ^ 31)%Z ->
  let occurs (j : nat) :=
    occurs_at (fold_of toLower ignoreCase) (concat chs) t (char_offset chs j) in
  exists r : Z,
    find toLower (Ptr (concat chs)) (Ptr t) startChar ignoreCase = Some r
    /\ ((r = (-1)%Z /\ forall j : nat, startChar <= j -> ~ occurs j)
        \/ (exists j : nat,
              r = Z.of_nat j /\ startChar <= j /\ occurs j
              /\ forall j' : nat, startChar <= j' -> j' < j -> ~ occurs j')).
Proof.
  intros Hchs Ht Hlen Hfirst Hfold Hsmall occurs. subst occurs. cbv beta.
  pose proof (chars_nonzero chs Hchs) as Hs.
  set (s := concat chs) in *.
  unfold find, find_len. rewrite (strlen_nonzero s Hs), (strlen_nonzero t Ht).
  destruct (Nat.eqb_spec (length t) 0) as [|_]; [lia|]. cbn [orb].
  destruct (Nat.ltb_spec (length s) (length t)) as [Hshort|Hfit].
  { exists (-1)%Z. split; [reflexivity|]. left. split; [reflexivity|].
    intros j _ [Hl _]. lia. }
  subst s. rewrite (findUtf8CharStart_bytes _ _ Hs), (skip_then_conts _ Hchs).
  cbn [mbind option_bind].
  set (s := concat chs) in *. set (o := char_offset chs startChar).
  assert (o <= length s) as Ho by apply char_offset_bound.
  destruct (Z.eqb_spec (cget s o) 0) as [Hz|Hnz].
  { exists (-1)%Z. split; [reflexivity|]. left. split; [reflexivity|].
    intros j Hj [Hl _]. apply cget_zero_iff in Hz; [|exact Hs].
    pose proof (char_offset_le chs startChar j Hj). fold o in H. lia. }
  assert (Forall (fun b => b <> 0%Z) (drop o s)) as Hdrop.
  { rewrite <- (take_drop o s) in Hs. apply Forall_app in Hs. tauto. }
  destruct (search_first ignoreCase (drop o s) t Hdrop Ht Hlen) as (r' & Hr' & Hfo).
  rewrite Hr'. cbn [mbind option_bind].
  destruct r' as [|off]; cbn [first_occ] in Hfo.
  - exists (-1)%Z. split; [reflexivity|]. left. split; [reflexivity|].
    intros j Hj Hocc.
    pose proof (char_offset_le chs startChar j Hj) as Hle. fold o in Hle.
    apply (Hfo (char_offset chs j - o)). apply occurs_at_shift; [exact Ho|].
    replace (o + (char_offset chs j - o)) with (char_offset chs j) by lia. exact Hocc.
  - destruct Hfo as [Hocc Hmin].
    apply occurs_at_shift in Hocc; [|exact Ho].
    destruct (occurrence_boundary ignoreCase chs t (o + off) Hchs Hlen Hfirst Hfold Hocc)
      as (j & Hj & Hoff).
    assert (startChar < length chs) as Hin.
    { destruct (Nat.lt_ge_cases startChar (length chs)) as [|Hout]; [assumption|].
      exfalso. apply Hnz. apply cget_ge. subst o s.
      rewrite char_offset_all by exact Hout. lia. }
    assert (startChar <= j) as Hkj.
    { destruct (Nat.le_gt_cases startChar j) as [|Hlt]; [assumption|].
      pose proof (char_offset_strict chs j startChar Hchs Hlt ltac:(lia)) as Hstrict.
      fold o in Hstrict. lia. }
    rewrite <- Hoff. subst o s. rewrite (count_chars_between chs startChar j Hchs Hkj ltac:(lia)).
    replace (startChar + (j - startChar)) with j by lia.
    rewrite to_signed_small by (change (2 ^ (32 - 1))%Z with (2 ^ 31)%Z; lia).
    exists (Z.of_nat j). split; [reflexivity|]. right. exists j.
    split; [reflexivity|]. split; [exact Hkj|]. split; [rewrite Hoff; exact Hocc|].
    intros j' Hk' Hlt' Hocc'.
    pose proof (char_offset_le chs startChar j' Hk') as Hle.
    pose proof (char_offset_strict chs j' j Hchs Hlt' ltac:(lia)) as Hstrict.
    apply (Hmin (char_offset chs j' - char_offset chs startChar)); [lia|].
    apply occurs_at_shift; [apply char_offset_bound|].
    replace (char_offset chs startChar + (char_offset chs j' - char_offset chs startChar))
      with (char_offset chs j') by lia.
    exact Hocc'.
Qed.

End FindFacts.

(** The ASCII fold changes letters only, so it never turns a continuation
    byte into another byte or back. *)
Lemma ascii_toLower_keeps_cont (a b : Z) :
  ascii_toLower a = ascii_toLower b -> is_cont a = is_cont b.
Proof.
  unfold ascii_toLower. intros H.
  assert (forall x : Z, (65 <= x <= 122)%Z -> is_cont x = false) as Hlow
    by (intros x Hx; apply is_cont_false; unfold is_byte; lia).
  destruct ((65 <=? a)%Z && (a <=? 90)%Z) eqn:Ea, ((65 <=? b)%Z && (b <=? 90)%Z) eqn:Eb;
    bool_hyps.
  - f_equal. lia.
  - rewrite !Hlow by lia. reflexivity.
  - rewrite !Hlow by lia. reflexivity.
  - f_equal. exact H.
Qed.

Lemma find_character_index_witness :
  exists r : Z,
    find ascii_toLower (Ptr (concat [[104]; [195; 169]; [108]; [108]; [111]]%Z))
      (Ptr (bytes "LL")) 1 true = Some r
    /\ ((r = (-1)%Z
         /\ forall j : nat, 1 <= j ->
              ~ occurs_at (fold_of ascii_toLower true)
                  (concat [[104]; [195; 169]; [108]; [108]; [111]]%Z) (bytes "LL")
                  (char_offset [[104]; [195; 169]; [108]; [108]; [111]]%Z j))
        \/ (exists j : nat,
              r = Z.of_nat j /\ 1 <= j
              /\ occurs_at (fold_of ascii_toLower true)
                   (concat [[104]; [195; 169]; [108]; [108]; [111]]%Z) (bytes "LL")
                   (char_offset [[104]; [195; 169]; [108]; [108]; [111]]%Z j)
              /\ forall j' : nat, 1 <= j' -> j' < j ->
                   ~ occurs_at (fold_of ascii_toLower true)
                       (concat [[104]; [195; 169]; [108]; [108]; [111]]%Z) (bytes "LL")
                       (char_offset [[104]; [195; 169]; [108]; [108]; [111]]%Z j'))).
Proof.
  apply (find_character_index ascii_toLower [[104]; [195; 169]; [108]; [108]; [111]]%Z
           (bytes "LL") 1 true).
  - chars_tac.
  - vm_compute. repeat constructor; discriminate.
  - vm_compute. lia.
  - reflexivity.
  - intros _. exact ascii_toLower_keeps_cont.
  - vm_compute. reflexivity.
Defined.

Section LastIndexOfFacts.

Variable toLower : Z -> Z.

Lemma lastIndexOf_loop_spec (ignoreCase : bool) (s t : list Z) :
  Forall (fun b => b <> 0%Z) s -> Forall (fun b => b <> 0%Z) t -> 1 <= length t ->
  forall (fuel current : nat) (lastFound : ptr nat),
    current <= length s -> length s - current < fuel ->
    match lastFound with
    | Null => forall p : nat, p < current -> ~ occurs_at (fold_of toLower ignoreCase) s t p
    | Ptr l =>
        l < current /\ occurs_at (fold_of toLower ignoreCase) s t l
        /\ forall p : nat, l < p -> p < current
             -> ~ occurs_at (fold_of toLower ignoreCase) s t p
    end ->
    exists r : ptr nat,
      lastIndexOf_loop toLower fuel s t ignoreCase current lastFound = Some r
      /\ match r with
         | Null => forall p : nat, ~ occurs_at (fold_of toLower ignoreCase) s t p
         | Ptr l =>
             occurs_at (fold_of toLower ignoreCase) s t l
             /\ forall p : nat, l < p -> ~ occurs_at (fold_of toLower ignoreCase) s t p
         end.
Proof.
  intros Hs Ht Hlen. induction fuel as [|fuel IH]; intros current lastFound Hcur Hfuel Hinv;
    [lia|].
  cbn [lastIndexOf_loop].
  assert (Forall (fun b => b <> 0%Z) (drop current s)) as Hdrop.
  { rewrite <- (take_drop current s) in Hs. apply Forall_app in Hs. tauto. }
  destruct (search_first toLower ignoreCase (drop current s) t Hdrop Ht Hlen) as (r' & Hr' & Hfo).
  rewrite Hr'. cbn [mbind option_bind].
  destruct r' as [|off]; cbn [first_occ] in Hfo.
  - (* nothing from [current] on *)
    assert (forall p : nat, current <= p -> ~ occurs_at (fold_of toLower ignoreCase) s t p)
      as Hnone.
    { intros p Hp Hocc. apply (Hfo (p - current)). apply occurs_at_shift; [exact Hcur|].
      replace (current + (p - current)) with p by lia. exact Hocc. }
    exists lastFound. split; [reflexivity|].
    destruct lastFound as [|l].
    + intros p. destruct (Nat.lt_ge_cases p current); [apply Hinv | apply Hnone]; assumption.
    + destruct Hinv as (Hl & Hocc & Hgap). split; [exact Hocc|].
      intros p Hp. destruct (Nat.lt_ge_cases p current); [apply Hgap | apply Hnone]; assumption.
  - destruct Hfo as [Hocc Hmin].
    apply occurs_at_shift in Hocc; [|exact Hcur].
    assert (current + off + length t <= length s) as Hfit by (destruct Hocc; lia).
    apply IH; [lia | lia |].
    split; [lia|]. split; [exact Hocc|]. intros p Hp1 Hp2. lia.
Qed.

(** X30: [lastIndexOf] returns the index of the last character at which
    the target occurs, and -1 when it occurs nowhere.  The text is made of
    well-formed UTF-8 characters, the target is not empty and does not
    begin with a continuation byte; with [ignoreCase] the fold must not
    confuse a continuation byte with any other byte. *)
Theorem lastIndexOf_character_index (chs : list (list Z)) (t : list Z) (ignoreCase : bool) :
  chars chs -> Forall (fun b => b <> 0%Z) t -> 1 <= length t ->
  is_cont (cget t 0) = false ->
  (ignoreCase = true -> forall a b : Z, toLower a = toLower b -> is_cont a = is_cont b) ->
  (Z.of_nat (length chs) < 2 ^ 31)%Z ->
  let occurs (j : nat) :=
    occurs_at (fold_of toLower ignoreCase) (concat chs) t (char_offset chs j) in
  exists r : Z,
    lastIndexOf toLower (Ptr (concat chs)) (Ptr t) ignoreCase = Some r
    /\ ((r = (-1)%Z /\ forall j : nat, ~ occurs j)
        \/ (exists j : nat,
              r = Z.of_nat j /\ occurs j /\ forall j' : nat, j < j' -> ~ occurs j')).
Proof.
  intros Hchs Ht Hlen Hfirst Hfold Hsmall occurs. subst occurs. cbv beta.
  pose proof (chars_nonzero chs Hchs) as Hs.
  unfold lastIndexOf, lastIndexOf_len.
  rewrite (strlen_nonzero _ Hs), (strlen_nonzero t Ht).
  destruct (Nat.eqb_spec (length t) 0) as [|_]; [lia|]. cbn [orb].
  destruct (Nat.ltb_spec (length (concat chs)) (length t)) as [Hshort|Hfit].
  { exists (-1)%Z. split; [reflexivity|]. left. split; [reflexivity|].
    intros j [Hl _]. lia. }
  destruct (lastIndexOf_loop_spec ignoreCase (concat chs) t Hs Ht Hlen
              (length (concat chs) + 1) 0 Null ltac:(lia) ltac:(lia))
    as (r & Hr & Hlast).
  { intros p Hp. lia. }
  rewrite Hr. cbn [mbind option_bind].
  destruct r as [|l].
  - exists (-1)%Z. split; [reflexivity|]. left. split; [reflexivity|].
    intros j. apply Hlast.
  - destruct Hlast as [Hocc Hmax].
    destruct (occurrence_boundary toLower ignoreCase chs t l Hchs Hlen Hfirst Hfold Hocc)
      as (j & Hj & Hoff).
    pose proof (count_chars_between chs 0 j Hchs ltac:(lia) ltac:(lia)) as Hcount.
    rewrite char_offset_0, Hoff, Nat.sub_0_r in Hcount. rewrite Hcount.
    rewrite to_signed_small by (change (2 ^ (32 - 1))%Z with (2 ^ 31)%Z; lia).
    exists (Z.of_nat j). split; [reflexivity|]. right. exists j.
    split; [reflexivity|]. split; [rewrite Hoff; exact Hocc|].
    intros j' Hlt Hocc'.
    assert (j' < length chs) as Hj'.
    { destruct (Nat.lt_ge_cases j' (length chs)) as [|Hout]; [assumption|].
      rewrite char_offset_all in Hocc' by exact Hout. destruct Hocc' as [Hl _]. lia. }
    pose proof (char_offset_strict chs j j' Hchs Hlt ltac:(lia)) as Hstrict.
    apply (Hmax (char_offset chs j')); [lia | exact Hocc'].
Qed.

End LastIndexOfFacts.

Lemma lastIndexOf_character_index_witness :
  exists r : Z,
    lastIndexOf ascii_toLower (Ptr (concat [[195; 169]; [88]; [97]; [120]; [98]]%Z))
      (Ptr (bytes "X")) true = Some r
    /\ ((r = (-1)%Z
         /\ forall j : nat,
              ~ occurs_at (fold_of ascii_toLower true)
                  (concat [[195; 169]; [88]; [97]; [120]; [98]]%Z) (bytes "X")
                  (char_offset [[195; 169]; [88]; [97]; [120]; [98]]%Z j))
        \/ (exists j : nat,
              r = Z.of_nat j
              /\ occurs_at (fold_of ascii_toLower true)
                   (concat [[195; 169]; [88]; [97]; [120]; [98]]%Z) (bytes "X")
                   (char_offset [[195; 169]; [88]; [97]; [120]; [98]]%Z j)
              /\ forall j' : nat, j < j' ->
                   ~ occurs_at (fold_of ascii_toLower true)
                       (concat [[195; 169]; [88]; [97]; [120]; [98]]%Z) (bytes "X")
                       (char_offset [[195; 169]; [88]; [97]; [120]; [98]]%Z j'))).
Proof.
  apply (lastIndexOf_character_index ascii_toLower [[195; 169]; [88]; [97]; [120]; [98]]%Z
           (bytes "X") true).
  - chars_tac.
  - vm_compute. repeat constructor; discriminate.
  - vm_compute. lia.
  - reflexivity.
  - intros _. exact ascii_toLower_keeps_cont.
  - vm_compute. reflexivity.
Defined.
